(** * LADSPA filter kernels: comb, fir, iir and reson

  A shallow embedding of the four plugins' signal-processing code
  (comb.c, fir.c, iir.c, reson.c) and the properties their specification
  states about them.

  The C code computes on [float] (LADSPA_Data) and [double]; the kernels are
  written once over an interface of the C arithmetic they use ([Arith]), which
  has these interpretations:
  - [IEEE]: binary32 and binary64 with round-to-nearest-even, through the
    executable specification of floating-point arithmetic of the standard
    library ([SpecFloat], no NaN payloads); this is what the compiled
    plugins compute with the operations of C. The functions of math.h are
    not part of it: [pow] is a parameter ([Pow]), and its correctly
    rounded version stands for it where a theorem needs a value;
  - [Exact]: rational numbers, no rounding, no infinities; the idealised
    reading in which the DSP formulas of the specification are written. *)

From stdpp Require Import base option list.
From Stdlib Require Import ZArith NArith QArith Qabs Qpower Qround Lia Lqa.
From Stdlib Require Import Floats.SpecFloat.
From Stdlib Require Reals Lra.

Local Open Scope N_scope.

(** ** The arithmetic of the C code *)

(** C integer types are modelled by [N] (unsigned) and [Z] (int constants):
  [unsigned long] is 64 bits wide and [unsigned int] 32 bits wide. *)
Definition ULONG_WIDTH : N := 64.
Definition UINT_WIDTH : N := 32.
Definition wrap_ulong (n : N) : N := n mod 2 ^ ULONG_WIDTH.

(** The operations of C on [float] ([single]) and [double], one field per
  operation the four files use. A conversion from a floating type to an
  unsigned integer type has no result ([None]) when the truncated value is
  not representable: the behaviour of the C program is then undefined. *)
Class Arith := {
single : Type;
double : Type;
f_of_int : Z → single;            (* an [int] operand of a float operation *)
d_of_int : Z → double;            (* an [int] operand of a double operation *)
f_of_ulong : N → single;          (* an [unsigned long] operand, float operation *)
d_of_ulong : N → double;          (* an [unsigned long] operand, double operation *)
f2d : single → double;            (* promotion of a float operand *)
d2f : double → single;            (* assignment of a double to a float object *)
fadd : single → single → single;
fsub : single → single → single;
fmul : single → single → single;
fdiv : single → single → single;
dadd : double → double → double;
dsub : double → double → double;
dmul : double → double → double;
ddiv : double → double → double;
fabs : double → double;           (* fabs of math.h *)
ulong_of_f : single → option N;   (* (unsigned long) of a float *)
uint_of_f : single → option N;    (* (unsigned int) of a float *)
}.

(** [pow] of math.h. Both calls of the code have an integer exponent
  ([pow(sharpness, delay)] with [delay] an [unsigned int], and
  [pow(pole_radius, 2)]); [pow_n x n] is [pow(x, (double)n)]. *)
Class Pow `{Arith} := {
pow_n : double → N → double;
}.

(** The other functions and the constant of math.h that reson.c uses. *)
Class Trig `{Arith} := {
M_PI : double;
acos : double → double;
cos : double → double;
sin : double → double;
}.

(** ** IEEE 754 interpretation *)

Module IEEE.

Definition prec32 : Z := 24.
Definition emax32 : Z := 128.
Definition prec64 : Z := 53.
Definition emax64 : Z := 1024.

Definition of_Z32 (z : Z) : spec_float := binary_normalize prec32 emax32 z 0 false.
Definition of_Z64 (z : Z) : spec_float := binary_normalize prec64 emax64 z 0 false.

(** Conversion between the two formats: round to nearest even into the
    target format; zeros, infinities and NaN are kept. *)
Definition conv (prec emax : Z) (x : spec_float) : spec_float :=
  match x with
  | S754_finite s m e => binary_round prec emax s m e
  | _ => x
  end.

(** The integer part of a finite number, rounded toward zero. *)
Definition trunc (x : spec_float) : option Z :=
  match x with
  | S754_zero _ => Some 0%Z
  | S754_finite s m e =>
      let a := match e with
               | Zneg p => Z.shiftr (Zpos m) (Zpos p)
               | _ => Z.shiftl (Zpos m) e
               end in
      Some (if s then Z.opp a else a)
  | _ => None
  end.

(** (unsigned T) x for an unsigned type of [width] bits (C11 6.3.1.4): the
    fractional part is discarded, and the conversion is undefined when the
    integer part is outside the range of the type. *)
Definition to_unsigned (width : N) (x : spec_float) : option N :=
  t ← trunc x;
  if bool_decide (0 ≤ t < 2 ^ Z.of_N width)%Z then Some (Z.to_N t) else None.

Definition is_finite (x : spec_float) : bool :=
  match x with
  | S754_zero _ | S754_finite _ _ _ => true
  | _ => false
  end.

Definition is_nan (x : spec_float) : bool :=
  match x with S754_nan => true | _ => false end.

Definition valid32 (x : spec_float) : bool := valid_binary prec32 emax32 x.
Definition valid64 (x : spec_float) : bool := valid_binary prec64 emax64 x.

Definition arith : Arith := {|
  single := spec_float;
  double := spec_float;
  f_of_int := of_Z32;
  d_of_int := of_Z64;
  f_of_ulong := λ n, of_Z32 (Z.of_N n);
  d_of_ulong := λ n, of_Z64 (Z.of_N n);
  f2d := conv prec64 emax64;
  d2f := conv prec32 emax32;
  fadd := SFadd prec32 emax32;
  fsub := SFsub prec32 emax32;
  fmul := SFmul prec32 emax32;
  fdiv := SFdiv prec32 emax32;
  dadd := SFadd prec64 emax64;
  dsub := SFsub prec64 emax64;
  dmul := SFmul prec64 emax64;
  ddiv := SFdiv prec64 emax64;
  fabs := SFabs;
  ulong_of_f := to_unsigned ULONG_WIDTH;
  uint_of_f := to_unsigned UINT_WIDTH;
|}.

(** math.h is not part of the repository. [pow] with an integer exponent
    [n] is modelled as the correctly rounded power, with the special values
    of C11 F.10.4.4: [pow(x, 0)] is 1 for every [x], even a NaN; the power
    of a zero or an infinity is a zero or an infinity, negative when the
    base is negative and [n] is odd. *)
Definition pow_rn (x : spec_float) (n : N) : spec_float :=
  match n with
  | N0 => of_Z64 1
  | Npos p =>
      let odd := N.odd n in
      match x with
      | S754_nan => S754_nan
      | S754_zero s => S754_zero (s && odd)
      | S754_infinity s => S754_infinity (s && odd)
      | S754_finite s m e =>
          binary_round prec64 emax64 (s && odd) (m ^ p)%positive (e * Zpos p)%Z
      end
  end.

Definition pow : @Pow arith := @Build_Pow arith pow_rn.

End IEEE.

(** ** Exact interpretation *)

Module Exact.

(** Truncation toward zero of a rational, undefined outside the range of
    the unsigned type. *)
Definition to_unsigned (width : N) (q : Q) : option N :=
  let t := Z.quot (Qnum q) (Zpos (Qden q)) in
  if bool_decide (0 ≤ t < 2 ^ Z.of_N width)%Z then Some (Z.to_N t) else None.

(** [float] and [double] are both the rationals, conversions between them
    are the identity. Division by zero, which gives an infinity or a NaN in
    C, has no counterpart: [Qdiv] gives 0. *)
Definition arith : Arith := {|
  single := Q;
  double := Q;
  f_of_int := inject_Z;
  d_of_int := inject_Z;
  f_of_ulong := λ n, inject_Z (Z.of_N n);
  d_of_ulong := λ n, inject_Z (Z.of_N n);
  f2d := λ x, x;
  d2f := λ x, x;
  fadd := Qplus;
  fsub := Qminus;
  fmul := Qmult;
  fdiv := Qdiv;
  dadd := Qplus;
  dsub := Qminus;
  dmul := Qmult;
  ddiv := Qdiv;
  fabs := Qabs;
  ulong_of_f := to_unsigned ULONG_WIDTH;
  uint_of_f := to_unsigned UINT_WIDTH;
|}.

Definition pow : @Pow arith := @Build_Pow arith (λ x n, Qpower x (Z.of_N n)).

End Exact.

(** ** Real interpretation *)

Module Real.

Abbreviation R := Rdefinitions.R.

(** Truncation toward zero of a real number, undefined outside the range
    of the unsigned type. *)
Definition to_unsigned (width : N) (x : R) : option N :=
  let t := if RIneq.Rle_dec (Rdefinitions.IZR 0) x
           then R_Ifp.Int_part x
           else Z.opp (R_Ifp.Int_part (Rdefinitions.Ropp x)) in
  if bool_decide (0 ≤ t < 2 ^ Z.of_N width)%Z then Some (Z.to_N t) else None.

(** [float] and [double] are both the real numbers, with the functions of
    the library of real analysis for those of math.h. *)
Definition arith : Arith := {|
  single := R;
  double := R;
  f_of_int := Rdefinitions.IZR;
  d_of_int := Rdefinitions.IZR;
  f_of_ulong := λ n, Rdefinitions.IZR (Z.of_N n);
  d_of_ulong := λ n, Rdefinitions.IZR (Z.of_N n);
  f2d := λ x, x;
  d2f := λ x, x;
  fadd := Rdefinitions.Rplus;
  fsub := Rdefinitions.Rminus;
  fmul := Rdefinitions.Rmult;
  fdiv := Rdefinitions.Rdiv;
  dadd := Rdefinitions.Rplus;
  dsub := Rdefinitions.Rminus;
  dmul := Rdefinitions.Rmult;
  ddiv := Rdefinitions.Rdiv;
  fabs := Rbasic_fun.Rabs;
  ulong_of_f := to_unsigned ULONG_WIDTH;
  uint_of_f := to_unsigned UINT_WIDTH;
|}.

Definition pow : @Pow arith := @Build_Pow arith (λ x n, Rpow_def.pow x (N.to_nat n)).

Definition trig : @Trig arith :=
  @Build_Trig arith Rtrigo1.PI Ratan.acos Rtrigo_def.cos Rtrigo_def.sin.

End Real.

(** ** Memory *)

(** A buffer the instance owns through a pointer field of its struct.
  [Wild] is the indeterminate pointer of a field that was never assigned
  (the struct comes from [malloc]), [Dangling] a pointer whose block was
  freed. *)
Inductive block (A : Type) : Type :=
| Wild
| Null
| Live (cells : list A)
| Dangling.
Arguments Wild {A}.
Arguments Null {A}.
Arguments Live {A} cells.
Arguments Dangling {A}.

(** [p[i]] read and written, for an array the host owns; out of bounds
  accesses are undefined. *)
Definition load {A} (p : list A) (i : N) : option A := p !! N.to_nat i.

Definition store {A} (p : list A) (i : N) (x : A) : option (list A) :=
if bool_decide (N.to_nat i < length p)%nat then Some (<[N.to_nat i := x]> p) else None.

(** The same through a pointer of the instance. *)
Definition load_block {A} (p : block A) (i : N) : option A :=
match p with Live cells => load cells i | _ => None end.

Definition store_block {A} (p : block A) (i : N) (x : A) : option (block A) :=
match p with Live cells => Live <$> store cells i x | _ => None end.

(** [calloc(n, size)]: [n] cells, all bits zero. The code passes
  [sizeof(LADSPA_Descriptor)] as the size, which is larger than a sample;
  the cells beyond the [n]-th are never addressed and are left out.
  Allocation failure is not modelled. *)
Definition calloc `{Arith} (n : N) : block single :=
Live (replicate (N.to_nat n) (f_of_int 0)).

(** [free(p)]: undefined unless [p] is null or points to a live block. *)
Definition free {A} (p : block A) : option (block A) :=
match p with
| Live _ => Some Dangling
| Null => Some Null
| Wild | Dangling => None
end.

(** [x % y] on unsigned operands, undefined when [y] is 0. *)
Definition umod (x y : N) : option N :=
if bool_decide (y = 0) then None else Some (x mod y).

(** ** comb.c *)

Module Comb.

Definition MAX_DELAY : N := 100.

(** The port numbers. *)
Definition DELAY_CONTROL_L : N := 0.
Definition SHARP_CONTROL_L : N := 1.
Definition INPUT_L : N := 2.
Definition OUTPUT_L : N := 3.
Definition DELAY_CONTROL_R : N := 4.
Definition SHARP_CONTROL_R : N := 5.
Definition INPUT_R : N := 6.
Definition OUTPUT_R : N := 7.

(** The pointer fields of the ports are modelled by the memory of the host
    they point to: a value for a control port, an array for an audio
    port. *)
Record filter_type {LADSPA_Data : Type} := {
  delay_control_value_l : LADSPA_Data;
  sharp_control_value_l : LADSPA_Data;
  delay_control_value_r : LADSPA_Data;
  sharp_control_value_r : LADSPA_Data;
  input_buffer_l : list LADSPA_Data;
  output_buffer_l : list LADSPA_Data;
  input_buffer_r : list LADSPA_Data;
  output_buffer_r : list LADSPA_Data;
  sample_rate : N;
  history_l : block LADSPA_Data;
  history_r : block LADSPA_Data;
  history_position : N;
  history_length : N;
}.
Arguments filter_type : clear implicits.

Section Comb.
Context `{Pow}.

#[local] Abbreviation filter_type := (filter_type single).

Definition set_output_l (filter : filter_type) (output : list single) : filter_type :=
  {| delay_control_value_l := delay_control_value_l filter;
     sharp_control_value_l := sharp_control_value_l filter;
     delay_control_value_r := delay_control_value_r filter;
     sharp_control_value_r := sharp_control_value_r filter;
     input_buffer_l := input_buffer_l filter;
     output_buffer_l := output;
     input_buffer_r := input_buffer_r filter;
     output_buffer_r := output_buffer_r filter;
     sample_rate := sample_rate filter;
     history_l := history_l filter;
     history_r := history_r filter;
     history_position := history_position filter;
     history_length := history_length filter |}.

Definition set_output_r (filter : filter_type) (output : list single) : filter_type :=
  {| delay_control_value_l := delay_control_value_l filter;
     sharp_control_value_l := sharp_control_value_l filter;
     delay_control_value_r := delay_control_value_r filter;
     sharp_control_value_r := sharp_control_value_r filter;
     input_buffer_l := input_buffer_l filter;
     output_buffer_l := output_buffer_l filter;
     input_buffer_r := input_buffer_r filter;
     output_buffer_r := output;
     sample_rate := sample_rate filter;
     history_l := history_l filter;
     history_r := history_r filter;
     history_position := history_position filter;
     history_length := history_length filter |}.

Definition set_history (filter : filter_type) (l r : block single) : filter_type :=
  {| delay_control_value_l := delay_control_value_l filter;
     sharp_control_value_l := sharp_control_value_l filter;
     delay_control_value_r := delay_control_value_r filter;
     sharp_control_value_r := sharp_control_value_r filter;
     input_buffer_l := input_buffer_l filter;
     output_buffer_l := output_buffer_l filter;
     input_buffer_r := input_buffer_r filter;
     output_buffer_r := output_buffer_r filter;
     sample_rate := sample_rate filter;
     history_l := l;
     history_r := r;
     history_position := history_position filter;
     history_length := history_length filter |}.

Definition set_cursor (filter : filter_type) (position length : N) : filter_type :=
  {| delay_control_value_l := delay_control_value_l filter;
     sharp_control_value_l := sharp_control_value_l filter;
     delay_control_value_r := delay_control_value_r filter;
     sharp_control_value_r := sharp_control_value_r filter;
     input_buffer_l := input_buffer_l filter;
     output_buffer_l := output_buffer_l filter;
     input_buffer_r := input_buffer_r filter;
     output_buffer_r := output_buffer_r filter;
     sample_rate := sample_rate filter;
     history_l := history_l filter;
     history_r := history_r filter;
     history_position := position;
     history_length := length |}.

(** [instantiate_filter]: the struct comes from [malloc]; only
    [sample_rate] is assigned. [junk] is the indeterminate content of the
    other scalar fields and of the memory of the ports. *)
Definition instantiate_filter (junk : filter_type) (rate : N) : filter_type :=
  {| delay_control_value_l := delay_control_value_l junk;
     sharp_control_value_l := sharp_control_value_l junk;
     delay_control_value_r := delay_control_value_r junk;
     sharp_control_value_r := sharp_control_value_r junk;
     input_buffer_l := input_buffer_l junk;
     output_buffer_l := output_buffer_l junk;
     input_buffer_r := input_buffer_r junk;
     output_buffer_r := output_buffer_r junk;
     sample_rate := rate;
     history_l := Wild;
     history_r := Wild;
     history_position := history_position junk;
     history_length := history_length junk |}.

Definition activate_filter (filter : filter_type) (stereo : bool) : filter_type :=
  let filter := set_cursor filter 0 MAX_DELAY in
  set_history filter
    (calloc (history_length filter))
    (if stereo then calloc (history_length filter) else Null).

Definition activate_mono_filter (filter : filter_type) := activate_filter filter false.
Definition activate_stereo_filter (filter : filter_type) := activate_filter filter true.

(** [input * (1 - pow(sharpness, delay)) + pow(sharpness, delay) * history],
    in [double], assigned to the [float] output sample. *)
Definition feedback (x : single) (sharpness : single) (delay : N) (h : single) : single :=
  d2f (dadd (dmul (f2d x) (dsub (d_of_int 1) (pow_n (f2d sharpness) delay)))
            (dmul (pow_n (f2d sharpness) delay) (f2d h))).

(** One sample of the loop of [filter_channel]: [input] and [output] are the
    arrays the two pointers walk, [i] the number of increments so far. The
    result is the output array, the history and [history_position], which
    is a local variable of the function. *)
Definition filter_sample (input output : list single) (i : N)
    (delay : N) (sharpness : single) (history : block single)
    (history_position history_length : N)
  : option (list single * block single * N) :=
  x ← load input i;
  h ← load_block history history_position;
  let y := feedback x sharpness delay h in
  output ← store output i y;
  slot ← umod (wrap_ulong (delay + history_position)) history_length;
  history ← store_block history slot y;
  history_position ← umod (wrap_ulong (history_position + 1)) history_length;
  Some (output, history, history_position).

Fixpoint filter_channel (input output : list single) (i : N)
    (delay : N) (sharpness : single) (history : block single)
    (history_position history_length : N) (sample_count : nat)
  : option (list single * block single * N) :=
  match sample_count with
  | O => Some (output, history, history_position)
  | S sample_count =>
      '(output, history, history_position) ←
        filter_sample input output i delay sharpness history
          history_position history_length;
      filter_channel input output (i + 1) delay sharpness history
        history_position history_length sample_count
  end.

(** [history_position] is passed by value: the position [filter_channel]
    ends with is dropped, the field of the struct is not assigned. *)
Definition run_mono_filter (filter : filter_type) (sample_count : nat)
  : option filter_type :=
  delay ← uint_of_f (delay_control_value_l filter);
  '(output, history, _) ←
    filter_channel (input_buffer_l filter) (output_buffer_l filter) 0
      delay (sharp_control_value_l filter) (history_l filter)
      (history_position filter) (history_length filter) sample_count;
  Some (set_history (set_output_l filter output) history (history_r filter)).

Definition run_stereo_filter (filter : filter_type) (sample_count : nat)
  : option filter_type :=
  delay ← uint_of_f (delay_control_value_l filter);
  '(output, history, _) ←
    filter_channel (input_buffer_l filter) (output_buffer_l filter) 0
      delay (sharp_control_value_l filter) (history_l filter)
      (history_position filter) (history_length filter) sample_count;
  let filter := set_history (set_output_l filter output) history (history_r filter) in
  delay ← uint_of_f (delay_control_value_r filter);
  '(output, history, _) ←
    filter_channel (input_buffer_r filter) (output_buffer_r filter) 0
      delay (sharp_control_value_r filter) (history_r filter)
      (history_position filter) (history_length filter) sample_count;
  Some (set_history (set_output_r filter output) (history_l filter) history).

(** The two pointers keep their value after [free]. *)
Definition deactivate_filter (filter : filter_type) : option filter_type :=
  l ← free (history_l filter);
  r ← (match history_r filter with
       | Null => Some Null
       | p => free p
       end);
  Some (set_history filter l r).

(** [connect_port_to_filter]: [data_location] is the array of the host the
    pointer points to. The record keeps the value of a control port, the
    first cell of the array; it has none for an array of no cell, where
    every read of the control would be out of bounds ([None]). A port
    number that is not a case of the switch leaves the instance as it
    is. *)
Definition connect_port_to_filter (filter : filter_type) (port : N)
    (data_location : list single) : option filter_type :=
  match filter with
  | Build_filter_type _ dl sl dr sr il ol ir or rate hl hr pos len =>
      if bool_decide (port = DELAY_CONTROL_L) then
        x ← head data_location;
        Some (Build_filter_type _ x sl dr sr il ol ir or rate hl hr pos len)
      else if bool_decide (port = SHARP_CONTROL_L) then
        x ← head data_location;
        Some (Build_filter_type _ dl x dr sr il ol ir or rate hl hr pos len)
      else if bool_decide (port = DELAY_CONTROL_R) then
        x ← head data_location;
        Some (Build_filter_type _ dl sl x sr il ol ir or rate hl hr pos len)
      else if bool_decide (port = SHARP_CONTROL_R) then
        x ← head data_location;
        Some (Build_filter_type _ dl sl dr x il ol ir or rate hl hr pos len)
      else if bool_decide (port = INPUT_L) then
        Some (Build_filter_type _ dl sl dr sr data_location ol ir or rate hl hr pos len)
      else if bool_decide (port = OUTPUT_L) then
        Some (Build_filter_type _ dl sl dr sr il data_location ir or rate hl hr pos len)
      else if bool_decide (port = INPUT_R) then
        Some (Build_filter_type _ dl sl dr sr il ol data_location or rate hl hr pos len)
      else if bool_decide (port = OUTPUT_R) then
        Some (Build_filter_type _ dl sl dr sr il ol ir data_location rate hl hr pos len)
      else Some filter
  end.

End Comb.
End Comb.

(** ** fir.c *)

Module Fir.

Definition MIN_FREQ : Z := 1.

(** The port numbers. *)
Definition FREQ_CONTROL_L : N := 0.
Definition WET_CONTROL_L : N := 1.
Definition INPUT_L : N := 2.
Definition OUTPUT_L : N := 3.
Definition FREQ_CONTROL_R : N := 4.
Definition WET_CONTROL_R : N := 5.
Definition INPUT_R : N := 6.
Definition OUTPUT_R : N := 7.

Record filter_type {LADSPA_Data : Type} := {
  freq_control_value_l : LADSPA_Data;
  wet_control_value_l : LADSPA_Data;
  freq_control_value_r : LADSPA_Data;
  wet_control_value_r : LADSPA_Data;
  input_buffer_l : list LADSPA_Data;
  output_buffer_l : list LADSPA_Data;
  input_buffer_r : list LADSPA_Data;
  output_buffer_r : list LADSPA_Data;
  sample_rate : N;
  history_l : block LADSPA_Data;
  history_r : block LADSPA_Data;
  history_position : N;
  history_length : N;
}.
Arguments filter_type : clear implicits.

Section Fir.
Context `{Arith}.

#[local] Abbreviation filter_type := (filter_type single).

Definition set_output (filter : filter_type) (l r : list single) : filter_type :=
  {| freq_control_value_l := freq_control_value_l filter;
     wet_control_value_l := wet_control_value_l filter;
     freq_control_value_r := freq_control_value_r filter;
     wet_control_value_r := wet_control_value_r filter;
     input_buffer_l := input_buffer_l filter;
     output_buffer_l := l;
     input_buffer_r := input_buffer_r filter;
     output_buffer_r := r;
     sample_rate := sample_rate filter;
     history_l := history_l filter;
     history_r := history_r filter;
     history_position := history_position filter;
     history_length := history_length filter |}.

Definition set_history (filter : filter_type) (l r : block single) : filter_type :=
  {| freq_control_value_l := freq_control_value_l filter;
     wet_control_value_l := wet_control_value_l filter;
     freq_control_value_r := freq_control_value_r filter;
     wet_control_value_r := wet_control_value_r filter;
     input_buffer_l := input_buffer_l filter;
     output_buffer_l := output_buffer_l filter;
     input_buffer_r := input_buffer_r filter;
     output_buffer_r := output_buffer_r filter;
     sample_rate := sample_rate filter;
     history_l := l;
     history_r := r;
     history_position := history_position filter;
     history_length := history_length filter |}.

Definition set_cursor (filter : filter_type) (position length : N) : filter_type :=
  {| freq_control_value_l := freq_control_value_l filter;
     wet_control_value_l := wet_control_value_l filter;
     freq_control_value_r := freq_control_value_r filter;
     wet_control_value_r := wet_control_value_r filter;
     input_buffer_l := input_buffer_l filter;
     output_buffer_l := output_buffer_l filter;
     input_buffer_r := input_buffer_r filter;
     output_buffer_r := output_buffer_r filter;
     sample_rate := sample_rate filter;
     history_l := history_l filter;
     history_r := history_r filter;
     history_position := position;
     history_length := length |}.

(** The host writes new values to the two frequency controls. *)
Definition set_freq (filter : filter_type) (l r : single) : filter_type :=
  {| freq_control_value_l := l;
     wet_control_value_l := wet_control_value_l filter;
     freq_control_value_r := r;
     wet_control_value_r := wet_control_value_r filter;
     input_buffer_l := input_buffer_l filter;
     output_buffer_l := output_buffer_l filter;
     input_buffer_r := input_buffer_r filter;
     output_buffer_r := output_buffer_r filter;
     sample_rate := sample_rate filter;
     history_l := history_l filter;
     history_r := history_r filter;
     history_position := history_position filter;
     history_length := history_length filter |}.

(** [(unsigned long)((1 / (2 * freq)) * sample_rate)], all in [float]. *)
Definition get_sample_shift (freq : single) (sample_rate : N) : option N :=
  ulong_of_f (fmul (fdiv (f_of_int 1) (fmul (f_of_int 2) freq))
                   (f_of_ulong sample_rate)).

Definition instantiate_filter (junk : filter_type) (rate : N) : filter_type :=
  {| freq_control_value_l := freq_control_value_l junk;
     wet_control_value_l := wet_control_value_l junk;
     freq_control_value_r := freq_control_value_r junk;
     wet_control_value_r := wet_control_value_r junk;
     input_buffer_l := input_buffer_l junk;
     output_buffer_l := output_buffer_l junk;
     input_buffer_r := input_buffer_r junk;
     output_buffer_r := output_buffer_r junk;
     sample_rate := rate;
     history_l := Wild;
     history_r := Wild;
     history_position := history_position junk;
     history_length := history_length junk |}.

Definition activate_filter (filter : filter_type) (stereo : bool) : option filter_type :=
  length ← get_sample_shift (f_of_int MIN_FREQ) (sample_rate filter);
  let filter := set_cursor filter 0 length in
  Some (set_history filter
          (calloc (history_length filter))
          (if stereo then calloc (history_length filter) else Null)).

Definition activate_mono_filter (filter : filter_type) := activate_filter filter false.
Definition activate_stereo_filter (filter : filter_type) := activate_filter filter true.

(** The dry/wet mix of one sample:
    [input * (1 - wet / 2) + history * wet / 2]. *)
Definition mix (x wet h : single) : single :=
  fadd (fmul x (fsub (f_of_int 1) (fdiv wet (f_of_int 2))))
       (fdiv (fmul h wet) (f_of_int 2)).

(** One channel of one iteration of the loop: the write ahead in the
    history, then the output sample from the slot at the cursor. *)
Definition run_channel (input output : list single) (i : N)
    (sample_shift : N) (wet : single) (history : block single)
    (history_position history_length : N)
  : option (list single * block single) :=
  x ← load input i;
  slot ← umod (wrap_ulong (sample_shift + history_position)) history_length;
  history ← store_block history slot x;
  h ← load_block history history_position;
  output ← store output i (mix x wet h);
  Some (output, history).

(** One iteration of the loop of [run_filter]. The code writes both
    histories before both outputs; the two channels touch disjoint
    objects, so each is done at once here. *)
Definition run_sample (stereo : bool) (sample_shift_l sample_shift_r : N)
    (filter : filter_type) (i : N) : option filter_type :=
  '(output_l, history_l') ←
    run_channel (input_buffer_l filter) (output_buffer_l filter) i
      sample_shift_l (wet_control_value_l filter) (history_l filter)
      (history_position filter) (history_length filter);
  '(output_r, history_r') ←
    (if stereo
     then run_channel (input_buffer_r filter) (output_buffer_r filter) i
            sample_shift_r (wet_control_value_r filter) (history_r filter)
            (history_position filter) (history_length filter)
     else Some (output_buffer_r filter, history_r filter));
  position ← umod (wrap_ulong (history_position filter + 1)) (history_length filter);
  Some (set_cursor (set_history (set_output filter output_l output_r)
                      history_l' history_r')
          position (history_length filter)).

Fixpoint run_loop (stereo : bool) (sample_shift_l sample_shift_r : N)
    (filter : filter_type) (i : N) (sample_count : nat) : option filter_type :=
  match sample_count with
  | O => Some filter
  | S sample_count =>
      filter ← run_sample stereo sample_shift_l sample_shift_r filter i;
      run_loop stereo sample_shift_l sample_shift_r filter (i + 1) sample_count
  end.

Definition run_filter (filter : filter_type) (sample_count : nat) (stereo : bool)
  : option filter_type :=
  sample_shift_l ← get_sample_shift (freq_control_value_l filter) (sample_rate filter);
  sample_shift_r ←
    (if stereo
     then get_sample_shift (freq_control_value_r filter) (sample_rate filter)
     else Some 0);
  run_loop stereo sample_shift_l sample_shift_r filter 0 sample_count.

Definition run_mono_filter (filter : filter_type) (sample_count : nat) :=
  run_filter filter sample_count false.
Definition run_stereo_filter (filter : filter_type) (sample_count : nat) :=
  run_filter filter sample_count true.

Definition deactivate_filter (filter : filter_type) : option filter_type :=
  l ← free (history_l filter);
  r ← (match history_r filter with
       | Null => Some Null
       | p => free p
       end);
  Some (set_history filter l r).

(** [connect_port_to_filter], as in comb.c: the value of a control port is
    the first cell of the array [data_location] points to. *)
Definition connect_port_to_filter (filter : filter_type) (port : N)
    (data_location : list single) : option filter_type :=
  match filter with
  | Build_filter_type _ fl wl fr wr il ol ir or rate hl hr pos len =>
      if bool_decide (port = FREQ_CONTROL_L) then
        x ← head data_location;
        Some (Build_filter_type _ x wl fr wr il ol ir or rate hl hr pos len)
      else if bool_decide (port = WET_CONTROL_L) then
        x ← head data_location;
        Some (Build_filter_type _ fl x fr wr il ol ir or rate hl hr pos len)
      else if bool_decide (port = FREQ_CONTROL_R) then
        x ← head data_location;
        Some (Build_filter_type _ fl wl x wr il ol ir or rate hl hr pos len)
      else if bool_decide (port = WET_CONTROL_R) then
        x ← head data_location;
        Some (Build_filter_type _ fl wl fr x il ol ir or rate hl hr pos len)
      else if bool_decide (port = INPUT_L) then
        Some (Build_filter_type _ fl wl fr wr data_location ol ir or rate hl hr pos len)
      else if bool_decide (port = OUTPUT_L) then
        Some (Build_filter_type _ fl wl fr wr il data_location ir or rate hl hr pos len)
      else if bool_decide (port = INPUT_R) then
        Some (Build_filter_type _ fl wl fr wr il ol data_location or rate hl hr pos len)
      else if bool_decide (port = OUTPUT_R) then
        Some (Build_filter_type _ fl wl fr wr il ol ir data_location rate hl hr pos len)
      else Some filter
  end.

End Fir.
End Fir.

(** ** iir.c *)

Module Iir.

(** The port numbers. *)
Definition COEF_CONTROL_L : N := 0.
Definition INPUT_L : N := 1.
Definition OUTPUT_L : N := 2.
Definition COEF_CONTROL_R : N := 3.
Definition INPUT_R : N := 4.
Definition OUTPUT_R : N := 5.

Record filter_type {LADSPA_Data : Type} := {
  coef_control_value_l : LADSPA_Data;
  input_buffer_l : list LADSPA_Data;
  output_buffer_l : list LADSPA_Data;
  coef_control_value_r : LADSPA_Data;
  input_buffer_r : list LADSPA_Data;
  output_buffer_r : list LADSPA_Data;
  previous_sample_l : LADSPA_Data;
  previous_sample_r : LADSPA_Data;
}.
Arguments filter_type : clear implicits.

Section Iir.
Context `{Arith}.

#[local] Abbreviation filter_type := (filter_type single).

Definition set_left (filter : filter_type) (output : list single) (previous : single)
  : filter_type :=
  {| coef_control_value_l := coef_control_value_l filter;
     input_buffer_l := input_buffer_l filter;
     output_buffer_l := output;
     coef_control_value_r := coef_control_value_r filter;
     input_buffer_r := input_buffer_r filter;
     output_buffer_r := output_buffer_r filter;
     previous_sample_l := previous;
     previous_sample_r := previous_sample_r filter |}.

Definition set_right (filter : filter_type) (output : list single) (previous : single)
  : filter_type :=
  {| coef_control_value_l := coef_control_value_l filter;
     input_buffer_l := input_buffer_l filter;
     output_buffer_l := output_buffer_l filter;
     coef_control_value_r := coef_control_value_r filter;
     input_buffer_r := input_buffer_r filter;
     output_buffer_r := output;
     previous_sample_l := previous_sample_l filter;
     previous_sample_r := previous |}.

Definition activate_filter (filter : filter_type) : filter_type :=
  {| coef_control_value_l := coef_control_value_l filter;
     input_buffer_l := input_buffer_l filter;
     output_buffer_l := output_buffer_l filter;
     coef_control_value_r := coef_control_value_r filter;
     input_buffer_r := input_buffer_r filter;
     output_buffer_r := output_buffer_r filter;
     previous_sample_l := f_of_int 0;
     previous_sample_r := f_of_int 0 |}.

(** [input * (1 - fabs(coef)) + previous * coef]: [fabs] and the sum are in
    [double], the product of the two floats in [float]. *)
Definition one_pole (x coef previous : single) : single :=
  d2f (dadd (dmul (f2d x) (dsub (d_of_int 1) (fabs (f2d coef))))
            (f2d (fmul previous coef))).

Definition run_sample (stereo : bool) (coef_l coef_r : single)
    (filter : filter_type) (i : N) : option filter_type :=
  x ← load (input_buffer_l filter) i;
  let y := one_pole x coef_l (previous_sample_l filter) in
  output ← store (output_buffer_l filter) i y;
  let filter := set_left filter output y in
  if stereo then
    x ← load (input_buffer_r filter) i;
    let y := one_pole x coef_r (previous_sample_r filter) in
    output ← store (output_buffer_r filter) i y;
    Some (set_right filter output y)
  else Some filter.

Fixpoint run_loop (stereo : bool) (coef_l coef_r : single)
    (filter : filter_type) (i : N) (sample_count : nat) : option filter_type :=
  match sample_count with
  | O => Some filter
  | S sample_count =>
      filter ← run_sample stereo coef_l coef_r filter i;
      run_loop stereo coef_l coef_r filter (i + 1) sample_count
  end.

Definition run_filter (filter : filter_type) (sample_count : nat) (stereo : bool)
  : option filter_type :=
  let coef_l := coef_control_value_l filter in
  let coef_r := if stereo then coef_control_value_r filter else f_of_int 0 in
  run_loop stereo coef_l coef_r filter 0 sample_count.

Definition run_mono_filter (filter : filter_type) (sample_count : nat) :=
  run_filter filter sample_count false.
Definition run_stereo_filter (filter : filter_type) (sample_count : nat) :=
  run_filter filter sample_count true.

(** [connect_port_to_filter], as in comb.c: the value of a control port is
    the first cell of the array [data_location] points to. *)
Definition connect_port_to_filter (filter : filter_type) (port : N)
    (data_location : list single) : option filter_type :=
  match filter with
  | Build_filter_type _ cl il ol cr ir or pl pr =>
      if bool_decide (port = COEF_CONTROL_L) then
        x ← head data_location;
        Some (Build_filter_type _ x il ol cr ir or pl pr)
      else if bool_decide (port = COEF_CONTROL_R) then
        x ← head data_location;
        Some (Build_filter_type _ cl il ol x ir or pl pr)
      else if bool_decide (port = INPUT_L) then
        Some (Build_filter_type _ cl data_location ol cr ir or pl pr)
      else if bool_decide (port = OUTPUT_L) then
        Some (Build_filter_type _ cl il data_location cr ir or pl pr)
      else if bool_decide (port = INPUT_R) then
        Some (Build_filter_type _ cl il ol cr data_location or pl pr)
      else if bool_decide (port = OUTPUT_R) then
        Some (Build_filter_type _ cl il ol cr ir data_location pl pr)
      else Some filter
  end.

End Iir.
End Iir.

(** ** reson.c *)

Module Reson.

(** The port numbers. *)
Definition FREQ_CONTROL_L : N := 0.
Definition BW_CONTROL_L : N := 1.
Definition INPUT_L : N := 2.
Definition OUTPUT_L : N := 3.
Definition FREQ_CONTROL_R : N := 4.
Definition BW_CONTROL_R : N := 5.
Definition INPUT_R : N := 6.
Definition OUTPUT_R : N := 7.

Record filter_type {LADSPA_Data : Type} := {
  freq_control_value_l : LADSPA_Data;
  bw_control_value_l : LADSPA_Data;
  freq_control_value_r : LADSPA_Data;
  bw_control_value_r : LADSPA_Data;
  input_buffer_l : list LADSPA_Data;
  output_buffer_l : list LADSPA_Data;
  input_buffer_r : list LADSPA_Data;
  output_buffer_r : list LADSPA_Data;
  sample_rate : N;
  history_l : block LADSPA_Data;
  history_r : block LADSPA_Data;
}.
Arguments filter_type : clear implicits.

Section Reson.
Context `{Arith} `{!Pow} `{!Trig}.

#[local] Abbreviation filter_type := (filter_type single).

Definition set_left (filter : filter_type) (output : list single) (history : block single)
  : filter_type :=
  {| freq_control_value_l := freq_control_value_l filter;
     bw_control_value_l := bw_control_value_l filter;
     freq_control_value_r := freq_control_value_r filter;
     bw_control_value_r := bw_control_value_r filter;
     input_buffer_l := input_buffer_l filter;
     output_buffer_l := output;
     input_buffer_r := input_buffer_r filter;
     output_buffer_r := output_buffer_r filter;
     sample_rate := sample_rate filter;
     history_l := history;
     history_r := history_r filter |}.

Definition set_right (filter : filter_type) (output : list single) (history : block single)
  : filter_type :=
  {| freq_control_value_l := freq_control_value_l filter;
     bw_control_value_l := bw_control_value_l filter;
     freq_control_value_r := freq_control_value_r filter;
     bw_control_value_r := bw_control_value_r filter;
     input_buffer_l := input_buffer_l filter;
     output_buffer_l := output_buffer_l filter;
     input_buffer_r := input_buffer_r filter;
     output_buffer_r := output;
     sample_rate := sample_rate filter;
     history_l := history_l filter;
     history_r := history |}.

Definition instantiate_filter (junk : filter_type) (rate : N) : filter_type :=
  {| freq_control_value_l := freq_control_value_l junk;
     bw_control_value_l := bw_control_value_l junk;
     freq_control_value_r := freq_control_value_r junk;
     bw_control_value_r := bw_control_value_r junk;
     input_buffer_l := input_buffer_l junk;
     output_buffer_l := output_buffer_l junk;
     input_buffer_r := input_buffer_r junk;
     output_buffer_r := output_buffer_r junk;
     sample_rate := rate;
     history_l := Wild;
     history_r := Wild |}.

Definition activate_filter (filter : filter_type) (stereo : bool) : filter_type :=
  set_right (set_left filter (output_buffer_l filter) (calloc 2))
    (output_buffer_r filter) (if stereo then calloc 2 else Null).

Definition activate_mono_filter (filter : filter_type) := activate_filter filter false.
Definition activate_stereo_filter (filter : filter_type) := activate_filter filter true.

(** The three coefficients, each assigned to a [float] variable. *)
Definition pole_radius (bw : single) (sample_rate : N) : single :=
  d2f (dsub (d_of_int 1) (ddiv (dmul M_PI (f2d bw)) (d_of_ulong sample_rate))).

(** The argument of [acos], as the code passes it. *)
Definition acos_argument (freq : single) (radius : single) (sample_rate : N) : double :=
  dmul (ddiv (f2d (fmul (f_of_int 2) radius))
             (dadd (d_of_int 1) (pow_n (f2d radius) 2)))
       (cos (ddiv (dmul (dmul (d_of_int 2) M_PI) (f2d freq)) (d_of_ulong sample_rate))).

Definition pole_angle (freq : single) (radius : single) (sample_rate : N) : single :=
  d2f (acos (acos_argument freq radius sample_rate)).

Definition gain_factor (radius angle : single) : single :=
  d2f (dmul (dsub (d_of_int 1) (pow_n (f2d radius) 2)) (sin (f2d angle))).

(** [gain_factor * input + 2 * pole_radius * cos(pole_angle) * history[0]
     - pow(pole_radius, 2) * history[1]] *)
Definition two_pole (gain radius angle x h0 h1 : single) : single :=
  d2f (dsub (dadd (f2d (fmul gain x))
                  (dmul (dmul (f2d (fmul (f_of_int 2) radius)) (cos (f2d angle)))
                        (f2d h0)))
            (dmul (pow_n (f2d radius) 2) (f2d h1))).

Definition filter_sample (input output : list single) (i : N)
    (gain radius angle : single) (history : block single)
  : option (list single * block single) :=
  x ← load input i;
  h0 ← load_block history 0;
  h1 ← load_block history 1;
  let y := two_pole gain radius angle x h0 h1 in
  output ← store output i y;
  history ← store_block history 1 h0;
  history ← store_block history 0 y;
  Some (output, history).

Fixpoint filter_loop (input output : list single) (i : N)
    (gain radius angle : single) (history : block single) (sample_count : nat)
  : option (list single * block single) :=
  match sample_count with
  | O => Some (output, history)
  | S sample_count =>
      '(output, history) ← filter_sample input output i gain radius angle history;
      filter_loop input output (i + 1) gain radius angle history sample_count
  end.

Definition filter_channel (input output : list single) (freq bw : single)
    (history : block single) (sample_count : nat) (sample_rate : N)
  : option (list single * block single) :=
  let radius := pole_radius bw sample_rate in
  let angle := pole_angle freq radius sample_rate in
  let gain := gain_factor radius angle in
  filter_loop input output 0 gain radius angle history sample_count.

Definition run_filter (filter : filter_type) (sample_count : nat) (stereo : bool)
  : option filter_type :=
  '(output, history) ←
    filter_channel (input_buffer_l filter) (output_buffer_l filter)
      (freq_control_value_l filter) (bw_control_value_l filter)
      (history_l filter) sample_count (sample_rate filter);
  let filter := set_left filter output history in
  if stereo then
    '(output, history) ←
      filter_channel (input_buffer_r filter) (output_buffer_r filter)
        (freq_control_value_r filter) (bw_control_value_r filter)
        (history_r filter) sample_count (sample_rate filter);
    Some (set_right filter output history)
  else Some filter.

Definition run_mono_filter (filter : filter_type) (sample_count : nat) :=
  run_filter filter sample_count false.
Definition run_stereo_filter (filter : filter_type) (sample_count : nat) :=
  run_filter filter sample_count true.

Definition deactivate_filter (filter : filter_type) : option filter_type :=
  l ← free (history_l filter);
  r ← (match history_r filter with
       | Null => Some Null
       | p => free p
       end);
  Some (set_right (set_left filter (output_buffer_l filter) l)
          (output_buffer_r filter) r).

(** [connect_port_to_filter], as in comb.c: the value of a control port is
    the first cell of the array [data_location] points to. *)
Definition connect_port_to_filter (filter : filter_type) (port : N)
    (data_location : list single) : option filter_type :=
  match filter with
  | Build_filter_type _ fl bl fr br il ol ir or rate hl hr =>
      if bool_decide (port = FREQ_CONTROL_L) then
        x ← head data_location;
        Some (Build_filter_type _ x bl fr br il ol ir or rate hl hr)
      else if bool_decide (port = BW_CONTROL_L) then
        x ← head data_location;
        Some (Build_filter_type _ fl x fr br il ol ir or rate hl hr)
      else if bool_decide (port = FREQ_CONTROL_R) then
        x ← head data_location;
        Some (Build_filter_type _ fl bl x br il ol ir or rate hl hr)
      else if bool_decide (port = BW_CONTROL_R) then
        x ← head data_location;
        Some (Build_filter_type _ fl bl fr x il ol ir or rate hl hr)
      else if bool_decide (port = INPUT_L) then
        Some (Build_filter_type _ fl bl fr br data_location ol ir or rate hl hr)
      else if bool_decide (port = OUTPUT_L) then
        Some (Build_filter_type _ fl bl fr br il data_location ir or rate hl hr)
      else if bool_decide (port = INPUT_R) then
        Some (Build_filter_type _ fl bl fr br il ol data_location or rate hl hr)
      else if bool_decide (port = OUTPUT_R) then
        Some (Build_filter_type _ fl bl fr br il ol ir data_location rate hl hr)
      else Some filter
  end.

End Reson.
End Reson.

(** ** Concrete instances *)

Module Test.
Import IEEE.
#[local] Existing Instance IEEE.arith.
#[local] Existing Instance IEEE.pow.

Definition zero : spec_float := S754_zero false.
Definition neg_zero : spec_float := S754_zero true.
Definition one : spec_float := S754_finite false 8388608 (-23).
Definition half : spec_float := S754_finite false 8388608 (-24).
Definition quarter : spec_float := S754_finite false 8388608 (-25).
Definition eighth : spec_float := S754_finite false 8388608 (-26).
Definition sixteenth : spec_float := S754_finite false 8388608 (-27).
Definition three_quarters : spec_float := S754_finite false 12582912 (-24).
Definition seven_eighths : spec_float := S754_finite false 14680064 (-24).

(** A mono comb instance: delay 1, sharpness 0.5, three samples 1.0. *)
Definition comb_junk : Comb.filter_type single :=
  {| Comb.delay_control_value_l := one;
     Comb.sharp_control_value_l := half;
     Comb.delay_control_value_r := one;
     Comb.sharp_control_value_r := half;
     Comb.input_buffer_l := [one; one; one];
     Comb.output_buffer_l := [zero; zero; zero];
     Comb.input_buffer_r := [one; one; one];
     Comb.output_buffer_r := [zero; zero; zero];
     Comb.sample_rate := 0;
     Comb.history_l := Wild;
     Comb.history_r := Wild;
     Comb.history_position := 7;
     Comb.history_length := 0 |}.

Definition comb : Comb.filter_type single :=
  Comb.activate_stereo_filter (Comb.instantiate_filter comb_junk 44100).

(** A fir instance before activation: 20 Hz on the left, 30 kHz on the
    right, wet 0 on both, two samples per channel. *)
Definition fir_junk : Fir.filter_type single :=
  {| Fir.freq_control_value_l := of_Z32 20;
     Fir.wet_control_value_l := zero;
     Fir.freq_control_value_r := of_Z32 30000;
     Fir.wet_control_value_r := zero;
     Fir.input_buffer_l := [one; neg_zero];
     Fir.output_buffer_l := [zero; zero];
     Fir.input_buffer_r := [half; one];
     Fir.output_buffer_r := [zero; zero];
     Fir.sample_rate := 0;
     Fir.history_l := Wild;
     Fir.history_r := Wild;
     Fir.history_position := 7;
     Fir.history_length := 0 |}.

Definition fir : option (Fir.filter_type single) :=
  Fir.activate_stereo_filter (Fir.instantiate_filter fir_junk 8000).

(** The same instance as [activate_stereo_filter] leaves it for a sample
    rate of 8000 Hz: two histories of 4000 zeros. *)
Definition fir_active : Fir.filter_type single :=
  Fir.set_history (Fir.set_cursor (Fir.instantiate_filter fir_junk 8000) 0 4000)
    (calloc 4000) (calloc 4000).

(** A mono fir instance at 8000 Hz with a frequency control of 20 kHz, a
    wet control of 0.3 (the nearest float) and one input sample, 1/3 (the
    nearest float). *)
Definition third : spec_float := S754_finite false 11184811 (-25).
Definition three_tenths : spec_float := S754_finite false 10066330 (-25).

Definition fir_wet_junk : Fir.filter_type single :=
  {| Fir.freq_control_value_l := of_Z32 20000;
     Fir.wet_control_value_l := three_tenths;
     Fir.freq_control_value_r := of_Z32 20000;
     Fir.wet_control_value_r := three_tenths;
     Fir.input_buffer_l := [third];
     Fir.output_buffer_l := [zero];
     Fir.input_buffer_r := [];
     Fir.output_buffer_r := [];
     Fir.sample_rate := 0;
     Fir.history_l := Wild;
     Fir.history_r := Wild;
     Fir.history_position := 7;
     Fir.history_length := 0 |}.

Definition fir_wet : option (Fir.filter_type single) :=
  Fir.activate_mono_filter (Fir.instantiate_filter fir_wet_junk 8000).

Definition fir_wet_active : Fir.filter_type single :=
  Fir.set_history (Fir.set_cursor (Fir.instantiate_filter fir_wet_junk 8000) 0 4000)
    (calloc 4000) Null.

(** The float after 15.5, a frequency control for a sample rate of
    31 Hz. *)
Definition above_15_5 : spec_float := S754_finite false 16252929 (-20).

(** The comb instance with a delay control of 0.5. *)
Definition comb_low_junk : Comb.filter_type single :=
  {| Comb.delay_control_value_l := half;
     Comb.sharp_control_value_l := half;
     Comb.delay_control_value_r := half;
     Comb.sharp_control_value_r := half;
     Comb.input_buffer_l := [one; one; one];
     Comb.output_buffer_l := [one; one; one];
     Comb.input_buffer_r := [one; one; one];
     Comb.output_buffer_r := [one; one; one];
     Comb.sample_rate := 0;
     Comb.history_l := Wild;
     Comb.history_r := Wild;
     Comb.history_position := 7;
     Comb.history_length := 0 |}.

Definition comb_low : Comb.filter_type single :=
  Comb.activate_stereo_filter (Comb.instantiate_filter comb_low_junk 44100).

(** A comb and a fir instance that were never activated and whose audio
    ports have arrays of no element. *)
Definition comb_empty : Comb.filter_type single :=
  {| Comb.delay_control_value_l := one;
     Comb.sharp_control_value_l := half;
     Comb.delay_control_value_r := one;
     Comb.sharp_control_value_r := half;
     Comb.input_buffer_l := [];
     Comb.output_buffer_l := [];
     Comb.input_buffer_r := [];
     Comb.output_buffer_r := [];
     Comb.sample_rate := 8000;
     Comb.history_l := Wild;
     Comb.history_r := Wild;
     Comb.history_position := 7;
     Comb.history_length := 0 |}.

Definition fir_empty : Fir.filter_type single :=
  {| Fir.freq_control_value_l := of_Z32 20;
     Fir.wet_control_value_l := zero;
     Fir.freq_control_value_r := of_Z32 30000;
     Fir.wet_control_value_r := zero;
     Fir.input_buffer_l := [];
     Fir.output_buffer_l := [];
     Fir.input_buffer_r := [];
     Fir.output_buffer_r := [];
     Fir.sample_rate := 8000;
     Fir.history_l := Wild;
     Fir.history_r := Wild;
     Fir.history_position := 7;
     Fir.history_length := 0 |}.

(** A mono reson instance after activation: 440 Hz at 44100 Hz, a bandwidth
    control of +infinity, one input sample 1.0. *)
Definition reson_junk : Reson.filter_type single :=
  {| Reson.freq_control_value_l := of_Z32 440;
     Reson.bw_control_value_l := S754_infinity false;
     Reson.freq_control_value_r := of_Z32 440;
     Reson.bw_control_value_r := S754_infinity false;
     Reson.input_buffer_l := [one];
     Reson.output_buffer_l := [zero];
     Reson.input_buffer_r := [one];
     Reson.output_buffer_r := [zero];
     Reson.sample_rate := 0;
     Reson.history_l := Wild;
     Reson.history_r := Wild |}.

Definition reson : Reson.filter_type single :=
  Reson.activate_mono_filter (Reson.instantiate_filter reson_junk 44100).

(** An iir instance: coefficient 0.5, the impulse on the left. *)
Definition iir_junk : Iir.filter_type single :=
  {| Iir.coef_control_value_l := half;
     Iir.input_buffer_l := [one; zero; zero; zero];
     Iir.output_buffer_l := [one; one; one; one];
     Iir.coef_control_value_r := zero;
     Iir.input_buffer_r := [];
     Iir.output_buffer_r := [];
     Iir.previous_sample_l := one;
     Iir.previous_sample_r := one |}.

End Test.

(** ** Vocabulary of the properties *)

Section FirVocabulary.
Context `{Arith}.

(** The slot a sample is written to, [sample_shift] steps ahead of the
    cursor. *)
Definition fir_slot (sample_shift position length : N) : N :=
  wrap_ulong (sample_shift + position) mod length.

(** What a proof about one channel of the loop assumes of the samples of
    the block ([Allowed]) and maintains of the history ([Inv]), and what it
    gets for each input sample and its output sample ([R]). *)
Definition fir_channel_ready (Allowed : single → Prop) (Inv : list single → Prop)
    (input output : list single) (history : block single) (length : N) (m : nat)
  : Prop :=
  (m ≤ List.length input)%nat ∧ (m ≤ List.length output)%nat
  ∧ Forall Allowed input
  ∧ ∃ cells, history = Live cells ∧ List.length cells = N.to_nat length ∧ Inv cells.

Definition fir_step_ok (Allowed : single → Prop) (Inv : list single → Prop)
    (R : single → single → Prop) (sample_shift : N) (wet : single) (length : N)
  : Prop :=
  ∀ cells x position,
    Inv cells → Allowed x → List.length cells = N.to_nat length → position < length →
    Inv (<[N.to_nat (fir_slot sample_shift position length) := x]> cells)
    ∧ ∀ h, <[N.to_nat (fir_slot sample_shift position length) := x]> cells
             !! N.to_nat position = Some h →
           R x (Fir.mix x wet h).

Definition fir_channel_done (Inv : list single → Prop) (R : single → single → Prop)
    (input output output' : list single) (history' : block single)
    (length : N) (i m : nat) : Prop :=
  (∀ k, (i ≤ k < m)%nat →
        ∃ x y, input !! k = Some x ∧ output' !! k = Some y ∧ R x y)
  ∧ (∀ k, (k < i)%nat → output' !! k = output !! k)
  ∧ List.length output' = List.length output
  ∧ ∃ cells, history' = Live cells ∧ List.length cells = N.to_nat length ∧ Inv cells.

End FirVocabulary.

Section IEEEVocabulary.
Import IEEE.
#[local] Existing Instance IEEE.arith.

(** A sample that is a number, in the representation of binary32. *)
Definition finite_sample (x : spec_float) : Prop :=
  is_finite x = true ∧ valid32 x = true.

(** [y] is [x], or [x] is -0.0 and [y] is +0.0. *)
Definition same_but_zero_sign (x y : spec_float) : Prop :=
  y = x ∨ (x = S754_zero true ∧ y = S754_zero false).

(** A channel of the fir kernel with a wet control of zero, a history of
    numbers and a block of [n] numbers. *)
Definition fir_dry_channel (wet : spec_float) (input output : list spec_float)
    (history : block spec_float) (length : N) (n : nat) : Prop :=
  (∃ s, wet = S754_zero s)
  ∧ fir_channel_ready finite_sample (Forall (λ h, is_finite h = true))
      input output history length n.

(** The first [n] samples of [output] are those of [input], up to the sign
    of a zero. *)
Definition passes_input (input output : list spec_float) (n : nat) : Prop :=
  ∀ k, (k < n)%nat →
       ∃ x y, input !! k = Some x ∧ output !! k = Some y ∧ same_but_zero_sign x y.

End IEEEVocabulary.

Section FirEcho.
Context `{Arith}.

(** The first [n] output samples are the dry/wet mix of the input sample
    with itself. *)
Definition fir_echoes (wet : single) (input output : list single) (n : nat) : Prop :=
  ∀ k, (k < n)%nat →
       ∃ x, input !! k = Some x ∧ output !! k = Some (Fir.mix x wet x).

Definition fir_any_channel (input output : list single) (history : block single)
    (length : N) (n : nat) : Prop :=
  fir_channel_ready (λ _, True) (λ _, True) input output history length n.

End FirEcho.

Section CombVocabulary.
Context `{Pow}.

(** The slot an output sample is written to, [delay] steps ahead of the
    cursor, and the cursor after [k] samples. *)
Definition comb_slot (delay position length : N) : N :=
  wrap_ulong (delay + position) mod length.

Definition comb_cursor (position length : N) (k : nat) : N :=
  (position + N.of_nat k) mod length.

(** What a proof about [filter_channel] assumes of the samples of the block
    ([Allowed]) and maintains of the history ([Inv]), and what it gets for
    the cursor, the input sample and the output sample of each step
    ([R]). *)
Definition comb_step_ok (Allowed : single → Prop) (Inv : list single → Prop)
    (R : N → single → single → Prop) (delay : N) (sharpness : single) (length : N)
  : Prop :=
  ∀ cells x position h,
    Inv cells → Allowed x → List.length cells = N.to_nat length → position < length →
    cells !! N.to_nat position = Some h →
    R position x (Comb.feedback x sharpness delay h)
    ∧ Inv (<[N.to_nat (comb_slot delay position length)
             := Comb.feedback x sharpness delay h]> cells).

Definition comb_channel_ready (Allowed : single → Prop) (Inv : list single → Prop)
    (input output : list single) (history : block single) (length : N) (m : nat)
  : Prop :=
  (m ≤ List.length input)%nat ∧ (m ≤ List.length output)%nat
  ∧ Forall Allowed input
  ∧ ∃ cells, history = Live cells ∧ List.length cells = N.to_nat length ∧ Inv cells.

Definition comb_channel_done (Inv : list single → Prop)
    (R : N → single → single → Prop) (input output' : list single)
    (history' : block single) (position length : N) (n : nat) : Prop :=
  (∀ k, (k < n)%nat →
        ∃ x y, input !! k = Some x ∧ output' !! k = Some y
               ∧ R (comb_cursor position length k) x y)
  ∧ ∃ cells, history' = Live cells ∧ List.length cells = N.to_nat length ∧ Inv cells.

End CombVocabulary.
Section CombDelayVocabulary.
Import IEEE.
#[local] Existing Instance IEEE.arith.
#[local] Existing Instance IEEE.pow.

(** After a block of [n] samples with a delay of 0: each output sample is
    the slot of the history [cells] that was under the cursor, and so is
    the history, up to the sign of a zero. *)
Definition comb_held (cells : list spec_float) (output' : list spec_float)
    (history' : block spec_float) (position length : N) (n : nat) : Prop :=
  (∀ k, (k < n)%nat →
        ∃ h y, cells !! N.to_nat (comb_cursor position length k) = Some h
               ∧ output' !! k = Some y ∧ same_but_zero_sign h y)
  ∧ ∃ cells', history' = Live cells' ∧ Forall2 same_but_zero_sign cells cells'.

End CombDelayVocabulary.

Section FirShiftVocabulary.
Import IEEE.

(** [x] is a zero, or a positive number of at most [2 ^ b]. *)
Definition at_most_pow2 (x : spec_float) (b : Z) : Prop :=
  match x with
  | S754_zero _ => True
  | S754_finite false m e => (e ≤ b ∧ Zpos m ≤ 2 ^ (b - e))%Z
  | _ => False
  end.

End FirShiftVocabulary.

(** *** The loop of a channel *)

(** The loop the four kernels have for a channel, with the state a kernel
  keeps from one sample to the next as a parameter: read the input sample
  at [i], make the output sample and the next state, write the output
  sample at [i]. *)
Section ChannelLoop.
Context {A St : Type}.
Variable step : A → St → option (A * St).

Fixpoint channel_loop (input output : list A) (i : N) (s : St) (n : nat)
  : option (list A * St) :=
  match n with
  | O => Some (output, s)
  | S n =>
      x ← load input i;
      '(y, s) ← step x s;
      output ← store output i y;
      channel_loop input output (i + 1) s n
  end.

(** The same on the list of the input samples of the block. *)
Fixpoint channel_run (s : St) (xs : list A) : option (list A * St) :=
  match xs with
  | [] => Some ([], s)
  | x :: xs =>
      '(y, s) ← step x s;
      '(ys, s) ← channel_run s xs;
      Some (y :: ys, s)
  end.

End ChannelLoop.

(** What a block of [n] frames leaves in the array of an output port: the
  [n] samples [ys], then the cells the array had from [n] on. *)
Definition block_written {A} (output ys : list A) (n : nat) : list A :=
ys ++ drop n output.

(** The sample [d] places before the [k]-th sample of a block: one of the
  block when there are [d] before it, otherwise one of [past], the samples
  before the block, the most recent first. *)
Definition earlier {A} (past samples : list A) (k d : nat) : option A :=
if decide (d ≤ k)%nat then samples !! (k - d)%nat else past !! (d - k - 1)%nat.

Section KernelSteps.
Context `{Pow}.

(** The state of a channel of iir.c is its previous output sample. *)
Definition iir_step (coef : single) (x previous : single) : option (single * single) :=
  let y := Iir.one_pole x coef previous in Some (y, y).

End KernelSteps.

Section IirVocabulary.
Context `{Arith}.

(** A channel of iir.c after a block of [n] frames: the output array has
    its length and its cells from [n] on, each of the first [n] samples is
    [one_pole] of the input sample and of the output sample before it
    ([previous], the stored sample, for the first), and the last one is
    stored. *)
Definition iir_channel_after (coef previous : single) (input output : list single)
    (output' : list single) (previous' : single) (n : nat) : Prop :=
  length output' = length output
  ∧ drop n output' = drop n output
  ∧ (∀ k, (k < n)%nat →
       ∃ x p, input !! k = Some x ∧ earlier [previous] output' k 1 = Some p
              ∧ output' !! k = Some (Iir.one_pole x coef p))
  ∧ earlier [previous] output' n 1 = Some previous'.

(** The host connects the four audio ports [n] frames further in their
    arrays. *)
Definition iir_next_block (filter : Iir.filter_type single) (n : nat)
  : option (Iir.filter_type single) :=
  let input_l := drop n (Iir.input_buffer_l filter) in
  let output_l := drop n (Iir.output_buffer_l filter) in
  let input_r := drop n (Iir.input_buffer_r filter) in
  let output_r := drop n (Iir.output_buffer_r filter) in
  filter ← Iir.connect_port_to_filter filter Iir.INPUT_L input_l;
  filter ← Iir.connect_port_to_filter filter Iir.OUTPUT_L output_l;
  filter ← Iir.connect_port_to_filter filter Iir.INPUT_R input_r;
  Iir.connect_port_to_filter filter Iir.OUTPUT_R output_r.

End IirVocabulary.

Section IirDryVocabulary.
Import IEEE.
#[local] Existing Instance IEEE.arith.

(** A channel of iir.c with a coefficient of zero, a stored sample that
    is a number and a block of [n] numbers. *)
Definition iir_dry_channel (coef previous : spec_float) (input : list spec_float)
    (n : nat) : Prop :=
  (∃ s, coef = S754_zero s) ∧ finite_sample previous
  ∧ Forall finite_sample (take n input).

End IirDryVocabulary.

Section ResonVocabulary.
Context `{Arith} `{!Pow} `{!Trig}.

(** The state of a channel of reson.c is its history: the step reads the
    two cells, and shifts the output sample in. *)
Definition reson_step (gain radius angle : single) (x : single) (history : block single)
  : option (single * block single) :=
  h0 ← load_block history 0;
  h1 ← load_block history 1;
  let y := Reson.two_pole gain radius angle x h0 h1 in
  history ← store_block history 1 h0;
  history ← store_block history 0 y;
  Some (y, history).

(** What a channel needs for a block of [n] frames: the block within the
    two arrays and a live history of two cells or more. *)
Definition reson_channel_ready (input output : list single) (history : block single)
    (n : nat) : Prop :=
  (n ≤ length input)%nat ∧ (n ≤ length output)%nat
  ∧ ∃ cells, history = Live cells ∧ (2 ≤ length cells)%nat.

(** A channel of reson.c after a block of [n] frames on the history
    [cells]: each of the first [n] output samples is [two_pole] of the
    input sample and of the two output samples before it, those of the
    history for the first two; the history has the last two. *)
Definition reson_channel_after (freq bw : single) (rate : N)
    (input output : list single) (cells : list single)
    (output' : list single) (history' : block single) (n : nat) : Prop :=
  let radius := Reson.pole_radius bw rate in
  let angle := Reson.pole_angle freq radius rate in
  let gain := Reson.gain_factor radius angle in
  length output' = length output
  ∧ drop n output' = drop n output
  ∧ (∀ k, (k < n)%nat →
       ∃ x p1 p2,
         input !! k = Some x
         ∧ earlier cells output' k 1 = Some p1
         ∧ earlier cells output' k 2 = Some p2
         ∧ output' !! k = Some (Reson.two_pole gain radius angle x p1 p2))
  ∧ ∃ cells',
      history' = Live cells'
      ∧ length cells' = length cells
      ∧ cells' !! 0%nat = earlier cells output' n 1
      ∧ cells' !! 1%nat = earlier cells output' n 2
      ∧ drop 2 cells' = drop 2 cells.

(** The host connects the four audio ports [n] frames further in their
    arrays. *)
Definition reson_next_block (filter : Reson.filter_type single) (n : nat)
  : option (Reson.filter_type single) :=
  let input_l := drop n (Reson.input_buffer_l filter) in
  let output_l := drop n (Reson.output_buffer_l filter) in
  let input_r := drop n (Reson.input_buffer_r filter) in
  let output_r := drop n (Reson.output_buffer_r filter) in
  filter ← Reson.connect_port_to_filter filter Reson.INPUT_L input_l;
  filter ← Reson.connect_port_to_filter filter Reson.OUTPUT_L output_l;
  filter ← Reson.connect_port_to_filter filter Reson.INPUT_R input_r;
  Reson.connect_port_to_filter filter Reson.OUTPUT_R output_r.

End ResonVocabulary.

(** *** The history as a circular buffer *)

(** The cells of a history after the samples [vs] are written to it, one at
  each step, [shift] slots ahead of a cursor that is at [position] for the
  first and moves by one slot at each step. *)
Fixpoint ring_writes {A} (length shift position : N) (cells vs : list A) : list A :=
match vs with
| [] => cells
| v :: vs =>
    ring_writes length shift (position + 1)
      (<[N.to_nat ((position + shift) mod length) := v]> cells) vs
end.

Section CombDelayLineVocabulary.
Context `{Pow}.

(** The state of a channel of comb.c within a call is its history and
    the cursor, a local variable of [filter_channel]. *)
Definition comb_step (delay : N) (sharpness : single) (length : N)
    (x : single) (s : block single * N) : option (single * (block single * N)) :=
  h ← load_block s.1 s.2;
  let y := Comb.feedback x sharpness delay h in
  slot ← umod (wrap_ulong (delay + s.2)) length;
  history ← store_block s.1 slot y;
  position ← umod (wrap_ulong (s.2 + 1)) length;
  Some (y, (history, position)).

(** The number of steps after which a sample written [delay] slots ahead
    of the cursor comes under the cursor: [delay] modulo the length of
    the history, and that length when it is a multiple of it. *)
Definition comb_period (delay length : N) : nat :=
  N.to_nat (if (delay mod length =? 0)%N then length else delay mod length).

(** The history sample that is under the cursor at the [k]-th step of a
    call: the output sample of [comb_period] steps before, or the sample
    the history had in that slot when the call has not made that many
    steps yet. *)
Definition comb_delayed (delay length position : N) (cells output' : list single)
    (k : nat) : option single :=
  if decide (comb_period delay length ≤ k)%nat
  then output' !! (k - comb_period delay length)%nat
  else cells !! N.to_nat (comb_cursor position length k).

(** A call of [filter_channel] of [n] frames on the history [cells]. *)
Definition comb_channel_after (delay : N) (sharpness : single)
    (input output cells : list single) (position length : N)
    (output' : list single) (history' : block single) (position' : N) (n : nat)
  : Prop :=
  List.length output' = List.length output
  ∧ drop n output' = drop n output
  ∧ (∀ k, (k < n)%nat →
       ∃ x h, input !! k = Some x
              ∧ comb_delayed delay length position cells output' k = Some h
              ∧ output' !! k = Some (Comb.feedback x sharpness delay h))
  ∧ position' = comb_cursor position length n
  ∧ history' = Live (ring_writes length delay position cells (take n output')).

End CombDelayLineVocabulary.

Section FirDelayLineVocabulary.
Context `{Arith}.

(** The state of a channel of fir.c is its history and the cursor, which
    the two channels share and move alike. *)
Definition fir_step (sample_shift : N) (wet : single) (length : N)
    (x : single) (s : block single * N) : option (single * (block single * N)) :=
  slot ← umod (wrap_ulong (sample_shift + s.2)) length;
  history ← store_block s.1 slot x;
  h ← load_block history s.2;
  position ← umod (wrap_ulong (s.2 + 1)) length;
  Some (Fir.mix x wet h, (history, position)).

(** The sample that is mixed with the [k]-th input sample of a block: the
    input sample of [sample_shift] modulo the length of the history steps
    before, or the sample the history had under the cursor when the block
    has not that many samples yet. *)
Definition fir_delayed (sample_shift length position : N) (cells input : list single)
    (k : nat) : option single :=
  if decide (N.to_nat (sample_shift mod length) ≤ k)%nat
  then input !! (k - N.to_nat (sample_shift mod length))%nat
  else cells !! N.to_nat ((position + N.of_nat k) mod length).

(** A channel after a block of [n] frames on the history [cells], with
    the cursor at [position] before. *)
Definition fir_channel_after (sample_shift : N) (wet : single)
    (input output cells : list single) (position length : N)
    (output' : list single) (history' : block single) (n : nat) : Prop :=
  List.length output' = List.length output
  ∧ drop n output' = drop n output
  ∧ (∀ k, (k < n)%nat →
       ∃ x h, input !! k = Some x
              ∧ fir_delayed sample_shift length position cells input k = Some h
              ∧ output' !! k = Some (Fir.mix x wet h))
  ∧ history' = Live (ring_writes length sample_shift position cells (take n input)).

(** The host connects the four audio ports [n] frames further in their
    arrays. *)
Definition fir_next_block (filter : Fir.filter_type single) (n : nat)
  : option (Fir.filter_type single) :=
  let input_l := drop n (Fir.input_buffer_l filter) in
  let output_l := drop n (Fir.output_buffer_l filter) in
  let input_r := drop n (Fir.input_buffer_r filter) in
  let output_r := drop n (Fir.output_buffer_r filter) in
  filter ← Fir.connect_port_to_filter filter Fir.INPUT_L input_l;
  filter ← Fir.connect_port_to_filter filter Fir.OUTPUT_L output_l;
  filter ← Fir.connect_port_to_filter filter Fir.INPUT_R input_r;
  Fir.connect_port_to_filter filter Fir.OUTPUT_R output_r.

End FirDelayLineVocabulary.

(** A pointer of the instance that does not point to a live block: it was
  never assigned, is null, or its block was freed. *)
Definition dead {A} (p : block A) : Prop := ∀ cells, p ≠ Live cells.

Section CombSilentVocabulary.
Import IEEE.
#[local] Existing Instance IEEE.arith.

(** A comb channel with a sharpness control of 1.0 and a block of [n]
    numbers within the arrays of its ports. *)
Definition comb_full_sharpness (sharpness : spec_float)
    (input output : list spec_float) (n : nat) : Prop :=
  sharpness = Test.one
  ∧ (n ≤ List.length input)%nat ∧ (n ≤ List.length output)%nat
  ∧ Forall finite_sample (take n input).

End CombSilentVocabulary.

(** ** More instances *)

Module TestBlocks.
Import IEEE Test.
#[local] Existing Instance IEEE.arith.
#[local] Existing Instance IEEE.pow.

(** A stereo fir instance at a sample rate of 8 Hz, as activation leaves
    it: two histories of 4 zeros. The frequency controls are 2 Hz on the
    left, a shift of 2 samples, and 1 Hz on the right, a shift of 4. *)
Definition fir_small_junk : Fir.filter_type single :=
  {| Fir.freq_control_value_l := of_Z32 2;
     Fir.wet_control_value_l := one;
     Fir.freq_control_value_r := of_Z32 1;
     Fir.wet_control_value_r := half;
     Fir.input_buffer_l := [one; half; quarter; eighth];
     Fir.output_buffer_l := [zero; zero; zero; zero];
     Fir.input_buffer_r := [half; one; half; one];
     Fir.output_buffer_r := [zero; zero; zero; zero];
     Fir.sample_rate := 0;
     Fir.history_l := Wild;
     Fir.history_r := Wild;
     Fir.history_position := 7;
     Fir.history_length := 0 |}.

Definition fir_small : Fir.filter_type single :=
  Fir.set_history (Fir.set_cursor (Fir.instantiate_filter fir_small_junk 8) 0 4)
    (calloc 4) (calloc 4).

(** A comb instance before activation with a sharpness control of 1.0, a
    delay control of 3, three input samples and an output array of four
    cells. *)
Definition comb_sharp_junk : Comb.filter_type single :=
  {| Comb.delay_control_value_l := of_Z32 3;
     Comb.sharp_control_value_l := one;
     Comb.delay_control_value_r := of_Z32 3;
     Comb.sharp_control_value_r := one;
     Comb.input_buffer_l := [one; half; quarter];
     Comb.output_buffer_l := [one; one; one; one];
     Comb.input_buffer_r := [];
     Comb.output_buffer_r := [];
     Comb.sample_rate := 44100;
     Comb.history_l := Wild;
     Comb.history_r := Wild;
     Comb.history_position := 7;
     Comb.history_length := 0 |}.

(** An iir instance with coefficients -0.0 and +0.0. *)
Definition iir_dry : Iir.filter_type single :=
  {| Iir.coef_control_value_l := neg_zero;
     Iir.input_buffer_l := [one; neg_zero];
     Iir.output_buffer_l := [half; half];
     Iir.coef_control_value_r := zero;
     Iir.input_buffer_r := [half; one];
     Iir.output_buffer_r := [half; half];
     Iir.previous_sample_l := one;
     Iir.previous_sample_r := half |}.

End TestBlocks.

Module RealTest.
#[local] Existing Instance Real.arith.
#[local] Existing Instance Real.pow.
#[local] Existing Instance Real.trig.
Import Rdefinitions.

(** A stereo reson instance over the real numbers after activation:
    440 Hz with a bandwidth of 100 Hz at 44100 Hz, two samples per
    channel. *)
Definition reson_junk : Reson.filter_type single :=
  {| Reson.freq_control_value_l := IZR 440;
     Reson.bw_control_value_l := IZR 100;
     Reson.freq_control_value_r := IZR 880;
     Reson.bw_control_value_r := IZR 100;
     Reson.input_buffer_l := [IZR 1; IZR 0];
     Reson.output_buffer_l := [IZR 0; IZR 0];
     Reson.input_buffer_r := [IZR 0; IZR 1];
     Reson.output_buffer_r := [IZR 0; IZR 0];
     Reson.sample_rate := 0;
     Reson.history_l := Wild;
     Reson.history_r := Wild |}.

Definition reson : Reson.filter_type single :=
  Reson.activate_stereo_filter (Reson.instantiate_filter reson_junk 44100).

End RealTest.

(** *** The magnitude of a number *)

(** The rational number [2 ^ e], and the magnitude of a binary
    floating-point number: [m * 2 ^ e] for a finite one. *)
Definition pow2 (e : Z) : Q := Qpower 2 e.
Arguments pow2 : simpl never.

Definition mag (x : spec_float) : Q :=
  match x with
  | S754_finite _ m e => inject_Z (Zpos m) * pow2 e
  | _ => 0
  end.

(** [r] is a zero, or a finite number of the format at an exponent of at
    most [eB] and of magnitude at most [B * 2 ^ eB]. *)
Definition rounds_below (prec emax : Z) (B eB : Z) (r : spec_float) : Prop :=
  match r with
  | S754_zero _ => True
  | S754_finite _ m e =>
      bounded prec emax m e = true ∧ (e ≤ eB)%Z
      ∧ (inject_Z (Zpos m) * pow2 e <= inject_Z B * pow2 eB)%Q
  | _ => False
  end.

(** [r] is a zero or a finite number, of magnitude at most [bound]. *)
Definition finite_at_most (bound : Q) (r : spec_float) : Prop :=
  IEEE.is_finite r = true ∧ (mag r <= bound)%Q.

(** A gain the comb kernel can work with: a positive number of binary64
    of at most 1. *)
Definition unit_gain (g : spec_float) : Prop :=
  ∃ m e, g = S754_finite false m e ∧ IEEE.valid64 g = true ∧ (mag g <= 1)%Q.

(** A sample that is a number of binary32 of magnitude at most [M]. *)
Definition sample_within (M : Q) (x : spec_float) : Prop :=
  finite_sample x ∧ (mag x <= M)%Q.

(** A sharpness control in its range: a number of binary32 in [0.5, 1]. *)
Definition sharpness_in_range (sharpness : spec_float) : Prop :=
  ∃ m e, sharpness = S754_finite false m e ∧ IEEE.valid32 sharpness = true
         ∧ (1 # 2 <= mag sharpness <= 1)%Q.

Section CombBoundVocabulary.
Import IEEE.
#[local] Existing Instance IEEE.arith.

(** math.h is not part of the repository: what the comb kernel needs of
    [pow] is a gain in (0, 1] for a sharpness and a delay in their
    ranges. *)
Definition unit_gain_pow (P : @Pow arith) : Prop :=
  ∀ (sharpness : spec_float) (d : N),
    sharpness_in_range sharpness → (1 ≤ d ≤ 100)%N →
    unit_gain (@pow_n arith P (@f2d arith sharpness) d).

(** A channel of the comb kernel whose controls are in their ranges, with a
    history and a block of [n] input samples of magnitude at most [M]. *)
Definition comb_bounded_channel (M : Q) (delay sharpness : spec_float)
    (input output : list spec_float) (history : block spec_float) (length : N) (n : nat)
  : Prop :=
  (∃ d, @uint_of_f arith delay = Some d ∧ (1 ≤ d ≤ 100)%N)
  ∧ sharpness_in_range sharpness
  ∧ comb_channel_ready (sample_within M) (Forall (sample_within M))
      input output history length n.

(** The convex combination [x * (1 - g) + g * h] of an input sample and a
    history sample with the gain [g]: the two products and the sum in
    binary64, the sum stored in binary32. *)
Definition weighted_sum (g x h : spec_float) : spec_float :=
  @d2f arith
    (@dadd arith (@dmul arith (@f2d arith x) (@dsub arith (@d_of_int arith 1) g))
       (@dmul arith g (@f2d arith h))).

(** After the block: with the gain [g] that [pow] gives, a gain in (0, 1],
    each of the [n] output samples is the convex combination of the input
    sample and of a history sample of magnitude at most [M], and has
    magnitude at most [M]; so have the slots of the history. *)
Definition comb_bounded_after (P : @Pow arith) (M : Q) (delay sharpness : spec_float)
    (input output : list spec_float) (history : block spec_float) (n : nat) : Prop :=
  (∃ d g, @uint_of_f arith delay = Some d
          ∧ g = @pow_n arith P (@f2d arith sharpness) d ∧ unit_gain g
          ∧ ∀ k, (k < n)%nat →
              ∃ x h, input !! k = Some x ∧ sample_within M h
                     ∧ output !! k = Some (weighted_sum g x h)
                     ∧ sample_within M (weighted_sum g x h))
  ∧ ∃ cells, history = Live cells ∧ Forall (sample_within M) cells.

End CombBoundVocabulary.

(** ** Properties *)

(** *** Comb: the cursor *)

Section CombCursor.
Context `{Pow}.

(** Whatever the block, the cursor stored in the instance after
    [run_mono_filter] is the one stored before. *)
Lemma comb_run_mono_cursor (filter : Comb.filter_type single) (n : nat) :
  Comb.history_position <$> Comb.run_mono_filter filter n
  = (λ _, Comb.history_position filter) <$> Comb.run_mono_filter filter n.
Proof.
  unfold Comb.run_mono_filter.
  destruct (uint_of_f _) as [delay|]; simpl; [|reflexivity].
  destruct (Comb.filter_channel _ _ _ _ _ _ _ _ _) as [[[output history] position]|];
    reflexivity.
Qed.

Lemma comb_run_stereo_cursor (filter : Comb.filter_type single) (n : nat) :
  Comb.history_position <$> Comb.run_stereo_filter filter n
  = (λ _, Comb.history_position filter) <$> Comb.run_stereo_filter filter n.
Proof.
  unfold Comb.run_stereo_filter.
  destruct (uint_of_f _) as [delay|]; simpl; [|reflexivity].
  destruct (Comb.filter_channel _ _ _ _ _ _ _ _ _) as [[[output history] position]|];
    simpl; [|reflexivity].
  destruct (uint_of_f _) as [delay'|]; simpl; [|reflexivity].
  destruct (Comb.filter_channel _ _ _ _ _ _ _ _ _) as [[[output' history'] position']|];
    reflexivity.
Qed.

End CombCursor.

Section CombCursorIEEE.
Import Test.
#[local] Existing Instance IEEE.arith.
#[local] Existing Instance IEEE.pow.

(** C1. The specification has the cursor of the comb instance advance by
    the block length, modulo 100, with each process call. On an activated
    instance (delay 1, sharpness 0.5, input 1.0) a block of three frames
    leaves the stored cursor at 0 in the mono and in the stereo kernel, not
    at 3; the next block therefore starts again at slot 0: the three frames
    processed as a block of two and a block of one give 0.5 as third
    sample (the first of the second block), where the single block gives
    0.875. *)
Theorem comb_cursor_lost :
  Comb.history_position <$> Comb.run_mono_filter comb 3 = Some 0
  ∧ Comb.history_position <$> Comb.run_stereo_filter comb 3 = Some 0
  ∧ (Comb.history_position comb + 3) mod 100 = 3
  ∧ (Comb.run_mono_filter comb 3 ≫= λ filter,
     load (Comb.output_buffer_l filter) 2) = Some seven_eighths
  ∧ (Comb.run_mono_filter comb 2 ≫= λ filter,
     Comb.run_mono_filter filter 1 ≫= λ filter,
     load (Comb.output_buffer_l filter) 0) = Some half.
Proof. repeat split; vm_compute; reflexivity. Qed.

End CombCursorIEEE.

(** *** Deactivation *)

Section Deactivate.
Context `{Arith}.

Lemma comb_deactivate_activated (filter : Comb.filter_type single) (stereo : bool) :
  Comb.deactivate_filter (Comb.activate_filter filter stereo)
  = Some (Comb.set_history (Comb.activate_filter filter stereo)
            Dangling (if stereo then Dangling else Null)).
Proof. destruct stereo; reflexivity. Qed.

Lemma comb_deactivate_twice (filter : Comb.filter_type single) (stereo : bool) :
  Comb.deactivate_filter (Comb.activate_filter filter stereo)
    ≫= Comb.deactivate_filter = None.
Proof. destruct stereo; reflexivity. Qed.

Lemma comb_deactivate_fresh (junk : Comb.filter_type single) (rate : N) :
  Comb.deactivate_filter (Comb.instantiate_filter junk rate) = None.
Proof. reflexivity. Qed.

Lemma fir_deactivate_activated (filter : Fir.filter_type single) (stereo : bool) :
  Fir.activate_filter filter stereo ≫= Fir.deactivate_filter
  = (λ filter, Fir.set_history filter Dangling (if stereo then Dangling else Null))
      <$> Fir.activate_filter filter stereo.
Proof.
  unfold Fir.activate_filter.
  destruct (Fir.get_sample_shift _ _); [|reflexivity].
  destruct stereo; reflexivity.
Qed.

Lemma fir_deactivate_twice (filter : Fir.filter_type single) (stereo : bool) :
  (Fir.activate_filter filter stereo ≫= Fir.deactivate_filter)
    ≫= Fir.deactivate_filter = None.
Proof.
  unfold Fir.activate_filter.
  destruct (Fir.get_sample_shift _ _); [|reflexivity].
  destruct stereo; reflexivity.
Qed.

Lemma fir_deactivate_fresh (junk : Fir.filter_type single) (rate : N) :
  Fir.deactivate_filter (Fir.instantiate_filter junk rate) = None.
Proof. reflexivity. Qed.

Lemma reson_deactivate_activated (filter : Reson.filter_type single) (stereo : bool) :
  Reson.deactivate_filter (Reson.activate_filter filter stereo)
  = Some (Reson.set_right
            (Reson.set_left filter (Reson.output_buffer_l filter) Dangling)
            (Reson.output_buffer_r filter) (if stereo then Dangling else Null)).
Proof. destruct stereo; reflexivity. Qed.

Lemma reson_deactivate_twice (filter : Reson.filter_type single) (stereo : bool) :
  Reson.deactivate_filter (Reson.activate_filter filter stereo)
    ≫= Reson.deactivate_filter = None.
Proof. destruct stereo; reflexivity. Qed.

Lemma reson_deactivate_fresh (junk : Reson.filter_type single) (rate : N) :
  Reson.deactivate_filter (Reson.instantiate_filter junk rate) = None.
Proof. reflexivity. Qed.

(** C5. [deactivate_filter] is the same function in comb.c, fir.c and
    reson.c (iir.c has none: its descriptor has a null callback). It is
    defined on an activated instance, frees the history of each channel
    and leaves the two pointers as they are; called again on the result, or
    on an instance that was never activated, it frees a block that is not
    live, which has no defined behaviour: neither call is a no-op. *)
Theorem deactivate_frees_once :
  (∀ (filter : Comb.filter_type single) stereo,
     Comb.deactivate_filter (Comb.activate_filter filter stereo)
     = Some (Comb.set_history (Comb.activate_filter filter stereo)
               Dangling (if stereo then Dangling else Null))
     ∧ Comb.deactivate_filter (Comb.activate_filter filter stereo)
         ≫= Comb.deactivate_filter = None)
  ∧ (∀ (junk : Comb.filter_type single) rate,
       Comb.deactivate_filter (Comb.instantiate_filter junk rate) = None)
  ∧ (∀ (filter : Fir.filter_type single) stereo,
       Fir.activate_filter filter stereo ≫= Fir.deactivate_filter
       = (λ filter, Fir.set_history filter Dangling (if stereo then Dangling else Null))
           <$> Fir.activate_filter filter stereo
       ∧ (Fir.activate_filter filter stereo ≫= Fir.deactivate_filter)
           ≫= Fir.deactivate_filter = None)
  ∧ (∀ (junk : Fir.filter_type single) rate,
       Fir.deactivate_filter (Fir.instantiate_filter junk rate) = None)
  ∧ (∀ (filter : Reson.filter_type single) stereo,
       Reson.deactivate_filter (Reson.activate_filter filter stereo)
       = Some (Reson.set_right
                 (Reson.set_left filter (Reson.output_buffer_l filter) Dangling)
                 (Reson.output_buffer_r filter) (if stereo then Dangling else Null))
       ∧ Reson.deactivate_filter (Reson.activate_filter filter stereo)
           ≫= Reson.deactivate_filter = None)
  ∧ (∀ (junk : Reson.filter_type single) rate,
       Reson.deactivate_filter (Reson.instantiate_filter junk rate) = None).
Proof.
  repeat split.
  - apply comb_deactivate_activated.
  - apply comb_deactivate_twice.
  - apply fir_deactivate_activated.
  - apply fir_deactivate_twice.
  - apply reson_deactivate_activated.
  - apply reson_deactivate_twice.
Qed.

End Deactivate.

Section DeactivateIEEE.
Import Test.
#[local] Existing Instance IEEE.arith.

(** On the activated comb instance the first call succeeds and the second
    one does not, and a call before activation does not either: the second
    call in a row and the call before [activate] are not no-ops. *)
Lemma deactivate_not_idempotent :
  is_Some (Comb.deactivate_filter comb)
  ∧ Comb.deactivate_filter comb ≫= Comb.deactivate_filter
    ≠ Comb.deactivate_filter comb
  ∧ Comb.deactivate_filter (Comb.instantiate_filter comb_junk 44100)
    ≠ Some (Comb.instantiate_filter comb_junk 44100).
Proof.
  split; [eexists; reflexivity|].
  split; discriminate.
Qed.

End DeactivateIEEE.

(** *** Memory *)

Section Memory.
Context {A : Type}.
Implicit Types (p : list A) (i j : N) (x : A).

Lemma store_Some p i x :
  (N.to_nat i < length p)%nat → store p i x = Some (<[N.to_nat i := x]> p).
Proof. intros Hi. unfold store. rewrite bool_decide_eq_true_2; done. Qed.

Lemma store_inv p i x p' :
  store p i x = Some p' → (N.to_nat i < length p)%nat ∧ p' = <[N.to_nat i := x]> p.
Proof.
  unfold store. case_bool_decide; [|discriminate].
  intros [= <-]. done.
Qed.

Lemma load_Some p i x : load p i = Some x → (N.to_nat i < length p)%nat.
Proof. unfold load. apply lookup_lt_Some. Qed.

Lemma load_is_Some p i : (N.to_nat i < length p)%nat → is_Some (load p i).
Proof. unfold load. apply lookup_lt_is_Some_2. Qed.

End Memory.

(** *** Rounding of numbers that are in the format *)

Section RoundExact.
Variables prec emax : Z.

Lemma iter_pos_iter {A} (f : A → A) (n : positive) (x : A) :
  iter_pos f n x = Pos.iter f x n.
Proof.
  revert x. induction n as [n IH|n IH|]; intros x; simpl.
  - rewrite !IH. rewrite <- !Pos.iter_swap. reflexivity.
  - rewrite !IH. reflexivity.
  - reflexivity.
Qed.

Lemma shr_iter_xO (k m : positive) :
  iter_pos shr_1 k {| shr_m := Zpos (Pos.iter xO m k); shr_r := false; shr_s := false |}
  = {| shr_m := Zpos m; shr_r := false; shr_s := false |}.
Proof.
  rewrite iter_pos_iter.
  induction k as [|k IH] using Pos.peano_ind.
  - reflexivity.
  - rewrite Pos.iter_succ_r, Pos.iter_succ. simpl. exact IH.
Qed.

Lemma digits2_iter_xO (k m : positive) :
  Zpos (digits2_pos (Pos.iter xO m k)) = (Zpos (digits2_pos m) + Zpos k)%Z.
Proof.
  induction k as [|k IH] using Pos.peano_ind.
  - simpl. lia.
  - rewrite Pos.iter_succ. simpl. lia.
Qed.

(** A number that is already in the format rounds to itself. *)
Lemma binary_round_aux_canonical (s : bool) (m : positive) (e : Z) :
  bounded prec emax m e = true →
  binary_round_aux prec emax s (Zpos m) e loc_Exact = S754_finite s m e.
Proof.
  intros Hb. apply andb_prop in Hb as [Hc He].
  apply Z.eqb_eq in Hc.
  unfold binary_round_aux, shr_fexp. simpl Zdigits2.
  rewrite Hc, Z.sub_diag. simpl.
  rewrite Hc, Z.sub_diag. simpl.
  rewrite He. reflexivity.
Qed.

(** So does the same number with [k] more binary digits, all zero. *)
Lemma binary_round_aux_shifted (s : bool) (m k : positive) (e : Z) :
  bounded prec emax m e = true →
  binary_round_aux prec emax s (Zpos (Pos.iter xO m k)) (e - Zpos k) loc_Exact
  = S754_finite s m e.
Proof.
  intros Hb. pose proof Hb as Hb'. apply andb_prop in Hb' as [Hc He].
  apply Z.eqb_eq in Hc.
  unfold binary_round_aux at 1, shr_fexp at 1. simpl Zdigits2.
  rewrite digits2_iter_xO.
  replace (Z.pos (digits2_pos m) + Z.pos k + (e - Z.pos k))%Z
    with (Z.pos (digits2_pos m) + e)%Z by lia.
  rewrite Hc.
  replace (e - (e - Z.pos k))%Z with (Z.pos k) by lia.
  simpl shr_record_of_loc. unfold shr at 1.
  rewrite shr_iter_xO.
  replace (e - Z.pos k + Z.pos k)%Z with e by lia.
  simpl. unfold shr_fexp. simpl Zdigits2.
  rewrite Hc, Z.sub_diag. simpl. rewrite He. reflexivity.
Qed.
End RoundExact.

(** *** Fir: the loop *)

Section FirLoop.
Context `{Arith}.
Implicit Types (filter : Fir.filter_type single) (cells : list single).

Lemma fir_slot_lt sample_shift position length :
  0 < length → fir_slot sample_shift position length < length.
Proof. intros. unfold fir_slot. apply N.mod_lt. lia. Qed.

Lemma umod_Some x y : 0 < y → umod x y = Some (x mod y).
Proof. intros. unfold umod. rewrite bool_decide_eq_false_2; [done|lia]. Qed.

Lemma fir_run_channel_Some input output i sample_shift wet cells position length x :
  load input i = Some x →
  (N.to_nat i < List.length output)%nat →
  List.length cells = N.to_nat length →
  position < length →
  ∃ h, <[N.to_nat (fir_slot sample_shift position length) := x]> cells
         !! N.to_nat position = Some h
       ∧ Fir.run_channel input output i sample_shift wet (Live cells) position length
         = Some (<[N.to_nat i := Fir.mix x wet h]> output,
                 Live (<[N.to_nat (fir_slot sample_shift position length) := x]> cells)).
Proof.
  intros Hx Hi Hlen Hpos.
  assert (Hlt : 0 < length) by lia.
  destruct (lookup_lt_is_Some_2
              (<[N.to_nat (fir_slot sample_shift position length) := x]> cells)
              (N.to_nat position)) as [h Hh].
  { rewrite length_insert. lia. }
  exists h. split; [exact Hh|].
  unfold Fir.run_channel. rewrite Hx. simpl.
  rewrite umod_Some by done. simpl.
  fold (fir_slot sample_shift position length).
  rewrite store_Some by (pose proof (fir_slot_lt sample_shift position length Hlt); lia).
  simpl. unfold load. rewrite Hh. simpl.
  rewrite store_Some by done. reflexivity.
Qed.

(** One channel of one iteration, under the assumptions of a proof. *)
Lemma fir_run_channel_step Allowed Inv R input output history i sample_shift wet
    position length n :
  fir_channel_ready Allowed Inv input output history length (N.to_nat i + S n) →
  fir_step_ok Allowed Inv R sample_shift wet length →
  position < length →
  ∃ output' history',
    Fir.run_channel input output i sample_shift wet history position length
    = Some (output', history')
    ∧ fir_channel_ready Allowed Inv input output' history' length (N.to_nat (i + 1) + n)
    ∧ (∃ x y, input !! N.to_nat i = Some x ∧ output' !! N.to_nat i = Some y ∧ R x y)
    ∧ (∀ k, k ≠ N.to_nat i → output' !! k = output !! k)
    ∧ List.length output' = List.length output.
Proof.
  intros (Hin & Hout & Hall & cells & -> & Hlen & Hinv) Hstep Hpos.
  destruct (lookup_lt_is_Some_2 input (N.to_nat i)) as [x Hx]; [lia|].
  destruct (fir_run_channel_Some input output i sample_shift wet cells position length x)
    as (h & Hh & Hrun); [exact Hx|lia|exact Hlen|exact Hpos|].
  assert (Hax : Allowed x).
  { eapply Forall_lookup_1; eauto. }
  destruct (Hstep cells x position Hinv Hax Hlen Hpos) as [Hinv' HR].
  eexists _, _. split; [exact Hrun|].
  repeat split.
  - lia.
  - rewrite length_insert. lia.
  - exact Hall.
  - eexists. split; [reflexivity|]. rewrite length_insert. done.
  - exists x, (Fir.mix x wet h). split; [exact Hx|]. split.
    + apply list_lookup_insert_eq. lia.
    + apply HR, Hh.
  - intros k Hk. apply list_lookup_insert_ne. done.
  - apply length_insert.
Qed.


Lemma fir_set_id filter :
  Fir.set_cursor
    (Fir.set_history (Fir.set_output filter (Fir.output_buffer_l filter)
                        (Fir.output_buffer_r filter))
       (Fir.history_l filter) (Fir.history_r filter))
    (Fir.history_position filter) (Fir.history_length filter) = filter.
Proof. destruct filter; reflexivity. Qed.

(** The rule for the loop of [run_filter]: the loop runs to its end, and
    each channel ends as [fir_channel_done] says. *)
Lemma fir_run_loop_rule Al Il Rl Ar Ir Rr stereo shift_l shift_r n :
  ∀ filter i,
    Fir.history_position filter < Fir.history_length filter →
    fir_channel_ready Al Il (Fir.input_buffer_l filter) (Fir.output_buffer_l filter)
      (Fir.history_l filter) (Fir.history_length filter) (N.to_nat i + n) →
    fir_step_ok Al Il Rl shift_l (Fir.wet_control_value_l filter)
      (Fir.history_length filter) →
    (stereo = true →
     fir_channel_ready Ar Ir (Fir.input_buffer_r filter) (Fir.output_buffer_r filter)
       (Fir.history_r filter) (Fir.history_length filter) (N.to_nat i + n)
     ∧ fir_step_ok Ar Ir Rr shift_r (Fir.wet_control_value_r filter)
         (Fir.history_length filter)) →
    ∃ filter',
      Fir.run_loop stereo shift_l shift_r filter i n = Some filter'
      ∧ (∃ output_l output_r history_l history_r position,
           filter' = Fir.set_cursor
                       (Fir.set_history (Fir.set_output filter output_l output_r)
                          history_l history_r)
                       position (Fir.history_length filter)
           ∧ position < Fir.history_length filter)
      ∧ fir_channel_done Il Rl (Fir.input_buffer_l filter) (Fir.output_buffer_l filter)
          (Fir.output_buffer_l filter') (Fir.history_l filter')
          (Fir.history_length filter) (N.to_nat i) (N.to_nat i + n)
      ∧ (if stereo
         then fir_channel_done Ir Rr (Fir.input_buffer_r filter)
                (Fir.output_buffer_r filter) (Fir.output_buffer_r filter')
                (Fir.history_r filter') (Fir.history_length filter)
                (N.to_nat i) (N.to_nat i + n)
         else Fir.output_buffer_r filter' = Fir.output_buffer_r filter
              ∧ Fir.history_r filter' = Fir.history_r filter).
Proof.
  induction n as [|n IH]; intros filter i Hpos Hl Hsl Hr.
  - exists filter. split; [reflexivity|]. split.
    { eexists _, _, _, _, _. split; [symmetry; apply fir_set_id|exact Hpos]. }
    destruct Hl as (_ & _ & _ & Hcells_l).
    split.
    { split; [intros k ?; lia|]. done. }
    destruct stereo; [|done].
    destruct (Hr eq_refl) as [(_ & _ & _ & Hcells_r) _].
    split; [intros k ?; lia|]. done.
  - assert (Hlen : 0 < Fir.history_length filter) by lia.
    destruct (fir_run_channel_step Al Il Rl _ _ _ _ shift_l
                (Fir.wet_control_value_l filter) _ _ n Hl Hsl Hpos)
      as (ol & hl & Hrun_l & Hl' & Hout_l & Hframe_l & Hlen_l).
    assert (Hright : ∃ or hr,
      (if stereo
       then Fir.run_channel (Fir.input_buffer_r filter) (Fir.output_buffer_r filter) i
              shift_r (Fir.wet_control_value_r filter) (Fir.history_r filter)
              (Fir.history_position filter) (Fir.history_length filter)
       else Some (Fir.output_buffer_r filter, Fir.history_r filter)) = Some (or, hr)
      ∧ (if stereo
         then fir_channel_ready Ar Ir (Fir.input_buffer_r filter) or hr
                (Fir.history_length filter) (N.to_nat (i + 1) + n)
              ∧ (∃ x y, Fir.input_buffer_r filter !! N.to_nat i = Some x
                        ∧ or !! N.to_nat i = Some y ∧ Rr x y)
              ∧ (∀ k, k ≠ N.to_nat i → or !! k = Fir.output_buffer_r filter !! k)
              ∧ List.length or = List.length (Fir.output_buffer_r filter)
         else or = Fir.output_buffer_r filter ∧ hr = Fir.history_r filter)).
    { destruct stereo.
      - destruct (Hr eq_refl) as [Hr1 Hr2].
        destruct (fir_run_channel_step Ar Ir Rr _ _ _ _ shift_r
                    (Fir.wet_control_value_r filter) _ _ n Hr1 Hr2 Hpos)
          as (or & hr & Hrun_r & Hr' & Hout_r & Hframe_r & Hlen_r).
        exists or, hr. done.
      - eexists _, _. done. }
    destruct Hright as (or & hr & Hrun_r & Hr').
    set (position := wrap_ulong (Fir.history_position filter + 1)
                       mod Fir.history_length filter).
    set (filter1 := Fir.set_cursor
                      (Fir.set_history (Fir.set_output filter ol or) hl hr)
                      position (Fir.history_length filter)).
    assert (Hsample : Fir.run_sample stereo shift_l shift_r filter i = Some filter1).
    { unfold Fir.run_sample. rewrite Hrun_l. simpl. rewrite Hrun_r. simpl.
      rewrite umod_Some by done. reflexivity. }
    assert (Hpos1 : position < Fir.history_length filter).
    { apply N.mod_lt. lia. }
    destruct (IH filter1 (i + 1)) as (filter' & Hloop & Hshape & Hdone_l & Hdone_r).
    { exact Hpos1. }
    { exact Hl'. }
    { exact Hsl. }
    { intros ->. destruct Hr' as (Hr1 & _). split; [exact Hr1|].
      apply (Hr eq_refl). }
    exists filter'. split.
    { simpl. rewrite Hsample. exact Hloop. }
    split.
    { destruct Hshape as (a & b & c & d & p & -> & Hp).
      eexists a, b, c, d, p. split; [reflexivity|exact Hp]. }
    assert (HS : N.to_nat (i + 1) = S (N.to_nat i)) by lia.
    split.
    { destruct Hdone_l as (Hk & Hlow & Hlen' & Hcells).
      simpl in Hk, Hlow, Hlen', Hcells.
      split; [|split; [|split]].
      - intros k Hk'. destruct (decide (k = N.to_nat i)) as [->|Hne].
        + rewrite Hlow by lia. exact Hout_l.
        + apply Hk. lia.
      - intros k Hk'. rewrite Hlow by lia. apply Hframe_l. lia.
      - congruence.
      - exact Hcells. }
    destruct stereo.
    { destruct Hr' as (_ & Hout_r & Hframe_r & Hlen_r).
      destruct Hdone_r as (Hk & Hlow & Hlen' & Hcells).
      simpl in Hk, Hlow, Hlen', Hcells.
      split; [|split; [|split]].
      - intros k Hk'. destruct (decide (k = N.to_nat i)) as [->|Hne].
        + rewrite Hlow by lia. exact Hout_r.
        + apply Hk. lia.
      - intros k Hk'. rewrite Hlow by lia. apply Hframe_r. lia.
      - congruence.
      - exact Hcells. }
    destruct Hr' as [-> ->]. exact Hdone_r.
Qed.

End FirLoop.

(** *** Fir: wet 0 *)

Section FirDry.
Import IEEE.
#[local] Existing Instance IEEE.arith.

Lemma fmul32_one (x : spec_float) :
  valid32 x = true → is_finite x = true → fmul x (f_of_int 1) = x.
Proof.
  destruct x as [s|s| |s m e]; try discriminate; intros Hv _.
  - destruct s; reflexivity.
  - change (@fmul arith (S754_finite s m e) (@f_of_int arith 1))
      with (binary_round_aux prec32 emax32 (xorb s false)
              (Zpos (m * 8388608)) (e + -23) loc_Exact).
    rewrite xorb_false_r.
    replace (m * 8388608)%positive with (Pos.iter xO m 23)
      by (rewrite Pos.mul_comm; reflexivity).
    apply (binary_round_aux_shifted prec32 emax32 s m 23 e Hv).
Qed.

Lemma fir_mix_dry (x h : spec_float) (s : bool) :
  finite_sample x → is_finite h = true →
  same_but_zero_sign x (Fir.mix x (S754_zero s) h).
Proof.
  intros [Hfx Hvx] Hfh. unfold Fir.mix.
  assert (E1 : @fsub arith (f_of_int 1) (@fdiv arith (S754_zero s) (f_of_int 2))
               = f_of_int 1)
    by (destruct s; reflexivity).
  assert (E2 : ∃ s', @fdiv arith (@fmul arith h (S754_zero s)) (f_of_int 2)
                     = S754_zero s').
  { destruct h as [sh|sh| |sh m e]; try discriminate; eexists; reflexivity. }
  destruct E2 as [s' E2]. rewrite E1, E2, fmul32_one by done.
  destruct x as [sx|sx| |sx m e]; try discriminate.
  - destruct sx, s'; unfold same_but_zero_sign; simpl; auto.
  - left. reflexivity.
Qed.

Lemma fir_dry_step (sample_shift length : N) (s : bool) :
  fir_step_ok finite_sample (Forall (λ h, is_finite h = true)) same_but_zero_sign
    sample_shift (S754_zero s) length.
Proof.
  intros cells x position Hinv Hx _ _.
  assert (Hinv' : Forall (λ h, is_finite h = true)
                    (<[N.to_nat (fir_slot sample_shift position length) := x]> cells)).
  { apply Forall_insert; [exact Hinv|apply Hx]. }
  split; [exact Hinv'|].
  intros h Hh. apply fir_mix_dry; [exact Hx|].
  eapply (Forall_lookup_1 _ _ _ _ Hinv' Hh).
Qed.

(** C7, as the code has it. With a wet control of zero, a frequency control
    whose shift is defined, a cursor inside a history of numbers, and a
    block of [n] numbers, the fir kernel runs to the end of the block and
    each output sample is the input sample, bit for bit, except that an
    input of -0.0 may come out as +0.0. *)
Theorem fir_dry_passes_input (filter : Fir.filter_type single) (n : nat) (stereo : bool) :
  is_Some (Fir.get_sample_shift (Fir.freq_control_value_l filter)
             (Fir.sample_rate filter)) →
  (stereo = true →
   is_Some (Fir.get_sample_shift (Fir.freq_control_value_r filter)
              (Fir.sample_rate filter))) →
  Fir.history_position filter < Fir.history_length filter →
  fir_dry_channel (Fir.wet_control_value_l filter) (Fir.input_buffer_l filter)
    (Fir.output_buffer_l filter) (Fir.history_l filter) (Fir.history_length filter) n →
  (stereo = true →
   fir_dry_channel (Fir.wet_control_value_r filter) (Fir.input_buffer_r filter)
     (Fir.output_buffer_r filter) (Fir.history_r filter) (Fir.history_length filter) n) →
  ∃ filter',
    Fir.run_filter filter n stereo = Some filter'
    ∧ passes_input (Fir.input_buffer_l filter) (Fir.output_buffer_l filter') n
    ∧ (stereo = true →
       passes_input (Fir.input_buffer_r filter) (Fir.output_buffer_r filter') n).
Proof.
  intros [shift_l Hshift_l] Hshift_r Hpos [[sl Hwet_l] Hready_l] Hdry_r.
  assert (Hr : ∃ shift_r,
             (if stereo
              then Fir.get_sample_shift (Fir.freq_control_value_r filter)
                     (Fir.sample_rate filter)
              else Some 0) = Some shift_r).
  { destruct stereo; [apply Hshift_r; reflexivity|eexists; reflexivity]. }
  destruct Hr as [shift_r Hr].
  destruct (@fir_run_loop_rule arith
              finite_sample (Forall (λ h, is_finite h = true)) same_but_zero_sign
              finite_sample (Forall (λ h, is_finite h = true)) same_but_zero_sign
              stereo shift_l shift_r n filter 0)
    as (filter' & Hloop & _ & Hdone_l & Hdone_r).
  - exact Hpos.
  - exact Hready_l.
  - rewrite Hwet_l. apply fir_dry_step.
  - intros Hs. destruct (Hdry_r Hs) as [[sr Hwet_r] Hready_r].
    split; [exact Hready_r|]. rewrite Hwet_r. apply fir_dry_step.
  - exists filter'. split.
    { unfold Fir.run_filter. rewrite Hr, Hshift_l. exact Hloop. }
    split.
    + intros k Hk. apply Hdone_l. simpl. lia.
    + intros ->. intros k Hk. apply Hdone_r. simpl. lia.
Qed.

End FirDry.

Section FirDryIEEE.
Import IEEE Test.
#[local] Existing Instance IEEE.arith.

Lemma fir_activated : fir = Some fir_active.
Proof. vm_compute. reflexivity. Qed.

Lemma fir_active_ready (n : nat) :
  (n ≤ 2)%nat →
  fir_dry_channel (Fir.wet_control_value_l fir_active) (Fir.input_buffer_l fir_active)
    (Fir.output_buffer_l fir_active) (Fir.history_l fir_active)
    (Fir.history_length fir_active) n
  ∧ fir_dry_channel (Fir.wet_control_value_r fir_active) (Fir.input_buffer_r fir_active)
      (Fir.output_buffer_r fir_active) (Fir.history_r fir_active)
      (Fir.history_length fir_active) n.
Proof.
  intros Hn.
  split; (split; [exists false; reflexivity|]);
    (split; [exact Hn|]); (split; [exact Hn|]);
    (split; [repeat constructor|]);
    eexists; (split; [reflexivity|]);
    (split; [apply length_replicate|apply Forall_replicate; reflexivity]).
Qed.

Lemma fir_dry_passes_input_witness :
  ∃ filter',
    Fir.run_filter fir_active 2 true = Some filter'
    ∧ passes_input (Fir.input_buffer_l fir_active) (Fir.output_buffer_l filter') 2
    ∧ (true = true →
       passes_input (Fir.input_buffer_r fir_active) (Fir.output_buffer_r filter') 2).
Proof.
  apply (fir_dry_passes_input fir_active 2 true).
  - exists 200. vm_compute. reflexivity.
  - intros _. exists 0. vm_compute. reflexivity.
  - reflexivity.
  - apply fir_active_ready. lia.
  - intros _. apply fir_active_ready. lia.
Defined.

(** An input sample of -0.0 with a wet control of 0 and a history of zeros:
    the output sample is +0.0, which is another bit pattern. *)
Lemma fir_dry_negative_zero :
  fir = Some fir_active
  ∧ Fir.wet_control_value_l fir_active = zero
  ∧ Fir.input_buffer_l fir_active = [one; neg_zero]
  ∧ Fir.output_buffer_l <$> Fir.run_mono_filter fir_active 2 = Some [one; zero]
  ∧ zero ≠ neg_zero.
Proof.
  split; [exact fir_activated|].
  split; [reflexivity|]. split; [reflexivity|].
  split; [vm_compute; reflexivity|discriminate].
Qed.

End FirDryIEEE.

(** *** Fir: a shift of zero *)

Section FirZeroShift.
Context `{Arith}.

Lemma fir_slot_zero (position length : N) :
  position < length → length < 2 ^ ULONG_WIDTH → fir_slot 0 position length = position.
Proof.
  intros Hpos Hlen. unfold fir_slot, wrap_ulong.
  rewrite N.add_0_l, (N.mod_small position (2 ^ ULONG_WIDTH)) by lia.
  apply N.mod_small, Hpos.
Qed.

Lemma fir_zero_shift_step (wet : single) (length : N) :
  length < 2 ^ ULONG_WIDTH →
  fir_step_ok (λ _, True) (λ _, True) (λ x y, y = Fir.mix x wet x) 0 wet length.
Proof.
  intros Hlen cells x position _ _ Hcells Hpos. split; [done|].
  rewrite fir_slot_zero by done.
  intros h Hh. rewrite list_lookup_insert_eq in Hh by lia.
  congruence.
Qed.

(** With a shift of 0 on a channel, the slot written is the slot read: each
    output sample of the channel is the mix of the input sample with
    itself. *)
Lemma fir_zero_shift_echoes (filter : Fir.filter_type single) (n : nat) (stereo : bool) :
  Fir.get_sample_shift (Fir.freq_control_value_l filter) (Fir.sample_rate filter)
  = Some 0 →
  (stereo = true →
   Fir.get_sample_shift (Fir.freq_control_value_r filter) (Fir.sample_rate filter)
   = Some 0) →
  Fir.history_position filter < Fir.history_length filter →
  Fir.history_length filter < 2 ^ ULONG_WIDTH →
  fir_any_channel (Fir.input_buffer_l filter) (Fir.output_buffer_l filter)
    (Fir.history_l filter) (Fir.history_length filter) n →
  (stereo = true →
   fir_any_channel (Fir.input_buffer_r filter) (Fir.output_buffer_r filter)
     (Fir.history_r filter) (Fir.history_length filter) n) →
  ∃ filter',
    Fir.run_filter filter n stereo = Some filter'
    ∧ fir_echoes (Fir.wet_control_value_l filter)
        (Fir.input_buffer_l filter) (Fir.output_buffer_l filter') n
    ∧ (stereo = true →
       fir_echoes (Fir.wet_control_value_r filter)
         (Fir.input_buffer_r filter) (Fir.output_buffer_r filter') n).
Proof.
  intros Hshift_l Hshift_r Hpos Hlen Hready_l Hready_r.
  destruct (fir_run_loop_rule
              (λ _, True) (λ _, True)
              (λ x y, y = Fir.mix x (Fir.wet_control_value_l filter) x)
              (λ _, True) (λ _, True)
              (λ x y, y = Fir.mix x (Fir.wet_control_value_r filter) x)
              stereo 0 0 n filter 0)
    as (filter' & Hloop & _ & Hdone_l & Hdone_r).
  - exact Hpos.
  - exact Hready_l.
  - apply fir_zero_shift_step, Hlen.
  - intros Hs. split; [exact (Hready_r Hs)|]. apply fir_zero_shift_step, Hlen.
  - exists filter'. split.
    { unfold Fir.run_filter. rewrite Hshift_l.
      destruct stereo; [rewrite Hshift_r by done|]; exact Hloop. }
    split.
    + intros k Hk. destruct Hdone_l as [Hdone _].
      destruct (Hdone k) as (x & y & Hx & Hy & ->); [simpl; lia|].
      exists x. done.
    + intros ->. intros k Hk. destruct Hdone_r as [Hdone _].
      destruct (Hdone k) as (x & y & Hx & Hy & ->); [simpl; lia|].
      exists x. done.
Qed.

End FirZeroShift.

Section FirZeroShiftExact.
#[local] Existing Instance Exact.arith.
Local Open Scope Q_scope.

Lemma exact_to_unsigned_small (width : N) (q : Q) :
  0 <= q → q < 1 → Exact.to_unsigned width q = Some 0%N.
Proof.
  intros H0 H1. unfold Exact.to_unsigned.
  destruct q as [a b]. unfold Qle, Qlt in *. simpl in *.
  rewrite Z.quot_small by lia.
  rewrite bool_decide_eq_true_2; [reflexivity|].
  split; [lia|]. apply Z.pow_pos_nonneg; lia.
Qed.

(** In exact arithmetic a frequency above half the sample rate has a shift
    of 0. *)
Lemma exact_shift_above_nyquist (freq : Q) (rate : N) :
  inject_Z (Z.of_N rate) / 2 < freq → Fir.get_sample_shift freq rate = Some 0%N.
Proof.
  intros Hf. unfold Fir.get_sample_shift. simpl.
  assert (Hr : 0 <= inject_Z (Z.of_N rate)).
  { change 0 with (inject_Z 0). rewrite <- Zle_Qle. lia. }
  assert (Hpos : 0 < freq).
  { eapply Qle_lt_trans; [|exact Hf]. apply Qle_shift_div_l; lra. }
  set (r := inject_Z (Z.of_N rate)) in *.
  assert (Hq : 1 / (2 * freq) * r == r / (2 * freq)).
  { field. lra. }
  apply exact_to_unsigned_small.
  - rewrite Hq. apply Qle_shift_div_l; lra.
  - rewrite Hq. apply Qlt_shift_div_r; [lra|].
    assert (Hr2 : r == r / 2 * 2) by (field; lra).
    rewrite Hr2. lra.
Qed.

(** In exact arithmetic the mix of a sample with itself is the sample. *)
Lemma exact_mix_same (x wet : Q) : Fir.mix x wet x == x.
Proof. unfold Fir.mix. simpl. field. Qed.

End FirZeroShiftExact.

Section FirZeroShiftTheorem.

(** C9, as the code has it. Whenever the shift of a channel is 0, the input
    sample is written to the slot that is read back, and each output sample
    is [input * (1 - wet / 2) + input * wet / 2] as the arithmetic of the
    code computes it. In exact arithmetic the shift is 0 for every
    frequency above half the sample rate, and that sum is the input
    sample. *)
Theorem fir_zero_shift_passthrough :
  (∀ (A : Arith) (filter : Fir.filter_type single) (n : nat) (stereo : bool),
     Fir.get_sample_shift (Fir.freq_control_value_l filter) (Fir.sample_rate filter)
     = Some 0%N →
     (stereo = true →
      Fir.get_sample_shift (Fir.freq_control_value_r filter) (Fir.sample_rate filter)
      = Some 0%N) →
     (Fir.history_position filter < Fir.history_length filter)%N →
     (Fir.history_length filter < 2 ^ ULONG_WIDTH)%N →
     fir_any_channel (Fir.input_buffer_l filter) (Fir.output_buffer_l filter)
       (Fir.history_l filter) (Fir.history_length filter) n →
     (stereo = true →
      fir_any_channel (Fir.input_buffer_r filter) (Fir.output_buffer_r filter)
        (Fir.history_r filter) (Fir.history_length filter) n) →
     ∃ filter',
       Fir.run_filter filter n stereo = Some filter'
       ∧ fir_echoes (Fir.wet_control_value_l filter)
           (Fir.input_buffer_l filter) (Fir.output_buffer_l filter') n
       ∧ (stereo = true →
          fir_echoes (Fir.wet_control_value_r filter)
            (Fir.input_buffer_r filter) (Fir.output_buffer_r filter') n))
  ∧ (∀ (freq : Q) (rate : N),
       (inject_Z (Z.of_N rate) / 2 < freq)%Q →
       @Fir.get_sample_shift Exact.arith freq rate = Some 0%N)
  ∧ (∀ x wet : Q, (@Fir.mix Exact.arith x wet x == x)%Q).
Proof.
  split; [|split].
  - intros A. apply fir_zero_shift_echoes.
  - apply exact_shift_above_nyquist.
  - apply exact_mix_same.
Qed.

End FirZeroShiftTheorem.

Section FirZeroShiftIEEE.
Import IEEE Test.
#[local] Existing Instance IEEE.arith.

Lemma fir_zero_shift_passthrough_witness :
  (∃ filter',
     Fir.run_filter fir_wet_active 1 false = Some filter'
     ∧ fir_echoes (Fir.wet_control_value_l fir_wet_active)
         (Fir.input_buffer_l fir_wet_active) (Fir.output_buffer_l filter') 1
     ∧ (false = true →
        fir_echoes (Fir.wet_control_value_r fir_wet_active)
          (Fir.input_buffer_r fir_wet_active) (Fir.output_buffer_r filter') 1))
  ∧ @Fir.get_sample_shift Exact.arith (20000 # 1) 8000 = Some 0.
Proof.
  split.
  - apply (proj1 fir_zero_shift_passthrough IEEE.arith fir_wet_active 1%nat false).
    + vm_compute. reflexivity.
    + discriminate.
    + reflexivity.
    + reflexivity.
    + split; [simpl; lia|]. split; [simpl; lia|]. split; [repeat constructor|].
      eexists. split; [reflexivity|]. split; [apply length_replicate|exact I].
    + discriminate.
  - apply (proj1 (proj2 fir_zero_shift_passthrough) (20000 # 1)%Q 8000).
    reflexivity.
Defined.

(** At 8000 Hz with a frequency control of 20 kHz the shift is 0; with a
    wet control of 0.3 the input sample 11184811 * 2^-25 (1/3) comes out as
    11184812 * 2^-25, which is not the input sample. *)
Lemma fir_zero_shift_not_identity :
  fir_wet = Some fir_wet_active
  ∧ Fir.get_sample_shift (Fir.freq_control_value_l fir_wet_active)
      (Fir.sample_rate fir_wet_active) = Some 0
  ∧ Fir.input_buffer_l fir_wet_active = [third]
  ∧ Fir.output_buffer_l <$> Fir.run_mono_filter fir_wet_active 1
    = Some [S754_finite false 11184812 (-25)]
  ∧ S754_finite false 11184812 (-25) ≠ third.
Proof.
  split; [vm_compute; reflexivity|].
  split; [vm_compute; reflexivity|].
  split; [reflexivity|].
  split; [vm_compute; reflexivity|discriminate].
Qed.

(** Rounding can also keep the shift from being 0 above half the sample
    rate. At 31 Hz and for the float after 15.5, [2 * freq] is
    16252929 * 2^-19, its inverse rounds to 8659208 * 2^-28, and the product
    with 31 is 1 - 2^-25, half way between 1 - 2^-24 and 1: it rounds to
    1, and the shift is 1. *)
Lemma fir_shift_tie :
  SFltb (fdiv (f_of_ulong 31) (f_of_int 2)) above_15_5 = true
  ∧ fmul (f_of_int 2) above_15_5 = S754_finite false 16252929 (-19)
  ∧ fdiv (f_of_int 1) (S754_finite false 16252929 (-19))
    = S754_finite false 8659208 (-28)
  ∧ fmul (S754_finite false 8659208 (-28)) (f_of_ulong 31) = one
  ∧ (8659208 * 31 = 2 ^ 28 - 2 ^ 3)%Z
  ∧ Fir.get_sample_shift above_15_5 31 = Some 1.
Proof. repeat split; vm_compute; reflexivity. Qed.

End FirZeroShiftIEEE.

(** *** Iir: the impulse response *)

Section IirImpulse.
Import IEEE Test.
#[local] Existing Instance IEEE.arith.

(** C6. With a coefficient of 0.5, after [activate_filter], the impulse
    [1, 0, 0, 0] on the left channel gives the output block
    [0.5, 0.25, 0.125, 0.0625], whatever the rest of the instance. *)
Theorem iir_impulse_response (filter : Iir.filter_type single) :
  Iir.coef_control_value_l filter = half →
  Iir.input_buffer_l filter = [one; zero; zero; zero] →
  length (Iir.output_buffer_l filter) = 4%nat →
  Iir.output_buffer_l <$> Iir.run_mono_filter (Iir.activate_filter filter) 4
  = Some [half; quarter; eighth; sixteenth].
Proof.
  destruct filter as [coef_l input_l output_l coef_r input_r output_r prev_l prev_r].
  simpl. intros -> -> Hlen.
  destruct output_l as [|o1 [|o2 [|o3 [|o4 [|o5 output_l]]]]]; try discriminate.
  vm_compute. reflexivity.
Qed.

Lemma iir_impulse_response_witness :
  Iir.output_buffer_l <$> Iir.run_mono_filter (Iir.activate_filter iir_junk) 4
  = Some [half; quarter; eighth; sixteenth].
Proof. apply (iir_impulse_response iir_junk); reflexivity. Defined.

End IirImpulse.

(** *** A block of no frames *)

Section ZeroFrames.
Context `{Pow}.

Lemma comb_set_id (filter : Comb.filter_type single) :
  Comb.set_history (Comb.set_output_l filter (Comb.output_buffer_l filter))
    (Comb.history_l filter) (Comb.history_r filter) = filter.
Proof. destruct filter; reflexivity. Qed.

Lemma comb_set_id_r (filter : Comb.filter_type single) :
  Comb.set_history (Comb.set_output_r filter (Comb.output_buffer_r filter))
    (Comb.history_l filter) (Comb.history_r filter) = filter.
Proof. destruct filter; reflexivity. Qed.

Lemma comb_run_mono_zero (filter : Comb.filter_type single) :
  is_Some (uint_of_f (Comb.delay_control_value_l filter)) →
  Comb.run_mono_filter filter 0 = Some filter.
Proof.
  intros [delay Hdelay]. unfold Comb.run_mono_filter.
  rewrite Hdelay. simpl. rewrite comb_set_id. reflexivity.
Qed.

Lemma comb_run_stereo_zero (filter : Comb.filter_type single) :
  is_Some (uint_of_f (Comb.delay_control_value_l filter)) →
  is_Some (uint_of_f (Comb.delay_control_value_r filter)) →
  Comb.run_stereo_filter filter 0 = Some filter.
Proof.
  intros [delay_l Hl] [delay_r Hr]. unfold Comb.run_stereo_filter.
  rewrite Hl. simpl. rewrite comb_set_id, Hr. simpl.
  rewrite comb_set_id_r. reflexivity.
Qed.

Lemma fir_run_zero (filter : Fir.filter_type single) (stereo : bool) :
  is_Some (Fir.get_sample_shift (Fir.freq_control_value_l filter)
             (Fir.sample_rate filter)) →
  (stereo = true →
   is_Some (Fir.get_sample_shift (Fir.freq_control_value_r filter)
              (Fir.sample_rate filter))) →
  Fir.run_filter filter 0 stereo = Some filter.
Proof.
  intros [shift_l Hl] Hr. unfold Fir.run_filter. rewrite Hl.
  destruct stereo; [|reflexivity].
  destruct (Hr eq_refl) as [shift_r ->]. reflexivity.
Qed.

Lemma iir_run_zero (filter : Iir.filter_type single) (stereo : bool) :
  Iir.run_filter filter 0 stereo = Some filter.
Proof. reflexivity. Qed.

Lemma reson_run_zero `{!Trig} (filter : Reson.filter_type single) (stereo : bool) :
  Reson.run_filter filter 0 stereo = Some filter.
Proof. destruct filter, stereo; reflexivity. Qed.

(** C8. A process call for a block of no frames returns the instance as it
    was: history, cursor, previous samples, and the arrays of the audio
    ports. It does so whatever these arrays are, also when they have no
    element at all, where any access would be out of bounds: none is read
    or written. The comb and fir kernels convert a control value to an
    unsigned integer before their loop; the call is defined when that
    conversion is. *)
Theorem zero_frames_noop :
  (∀ filter : Comb.filter_type single,
     is_Some (uint_of_f (Comb.delay_control_value_l filter)) →
     Comb.run_mono_filter filter 0 = Some filter)
  ∧ (∀ filter : Comb.filter_type single,
       is_Some (uint_of_f (Comb.delay_control_value_l filter)) →
       is_Some (uint_of_f (Comb.delay_control_value_r filter)) →
       Comb.run_stereo_filter filter 0 = Some filter)
  ∧ (∀ filter : Fir.filter_type single,
       is_Some (Fir.get_sample_shift (Fir.freq_control_value_l filter)
                  (Fir.sample_rate filter)) →
       Fir.run_mono_filter filter 0 = Some filter)
  ∧ (∀ filter : Fir.filter_type single,
       is_Some (Fir.get_sample_shift (Fir.freq_control_value_l filter)
                  (Fir.sample_rate filter)) →
       is_Some (Fir.get_sample_shift (Fir.freq_control_value_r filter)
                  (Fir.sample_rate filter)) →
       Fir.run_stereo_filter filter 0 = Some filter)
  ∧ (∀ filter : Iir.filter_type single,
       Iir.run_mono_filter filter 0 = Some filter
       ∧ Iir.run_stereo_filter filter 0 = Some filter)
  ∧ (∀ (T : Trig) (filter : Reson.filter_type single),
       Reson.run_mono_filter filter 0 = Some filter
       ∧ Reson.run_stereo_filter filter 0 = Some filter).
Proof.
  split; [exact comb_run_mono_zero|].
  split; [exact comb_run_stereo_zero|].
  split; [intros filter Hl; apply fir_run_zero; [exact Hl|discriminate]|].
  split; [intros filter Hl Hr; apply fir_run_zero; [exact Hl|intros _; exact Hr]|].
  split; [intros filter; split; apply iir_run_zero|].
  intros T filter; split; apply reson_run_zero.
Qed.

End ZeroFrames.

Section ZeroFramesIEEE.
Import IEEE Test.
#[local] Existing Instance IEEE.arith.
#[local] Existing Instance IEEE.pow.

Lemma zero_frames_noop_witness :
  Comb.run_mono_filter comb_empty 0 = Some comb_empty
  ∧ Comb.run_stereo_filter comb_empty 0 = Some comb_empty
  ∧ Fir.run_mono_filter fir_empty 0 = Some fir_empty
  ∧ Fir.run_stereo_filter fir_empty 0 = Some fir_empty.
Proof.
  pose proof (@zero_frames_noop IEEE.arith IEEE.pow) as (Hcm & Hcs & Hfm & Hfs & _).
  split; [apply Hcm; exists 1; vm_compute; reflexivity|].
  split; [apply Hcs; exists 1; vm_compute; reflexivity|].
  split; [apply Hfm; exists 200; vm_compute; reflexivity|].
  apply Hfs; [exists 200|exists 0]; vm_compute; reflexivity.
Defined.

(** A frequency control of 0 on the activated fir instance: the shift,
    which [run_filter] computes before its loop, is the conversion of an
    infinity, and the call is not defined even for a block of no frames.
    So it is not so that every call for no frames returns the instance. *)
Lemma zero_frames_undefined_conversion :
  Fir.get_sample_shift zero (Fir.sample_rate fir_active) = None
  ∧ Fir.run_mono_filter (Fir.set_freq fir_active zero zero) 0 = None
  ∧ Fir.run_stereo_filter (Fir.set_freq fir_active zero zero) 0 = None
  ∧ ¬ (∀ filter : Fir.filter_type single, Fir.run_mono_filter filter 0 = Some filter).
Proof.
  split; [vm_compute; reflexivity|].
  split; [vm_compute; reflexivity|].
  split; [vm_compute; reflexivity|].
  intros Hall.
  assert (Hmono : Fir.run_mono_filter (Fir.set_freq fir_active zero zero) 0 = None)
    by (vm_compute; reflexivity).
  rewrite Hall in Hmono. discriminate.
Qed.

End ZeroFramesIEEE.

(** *** Comb: the loop *)

Section CombLoop.
Context `{Pow}.
Implicit Types (cells : list single).

Lemma comb_slot_lt delay position length :
  0 < length → comb_slot delay position length < length.
Proof. intros. unfold comb_slot. apply N.mod_lt. lia. Qed.

Lemma comb_cursor_0 position length : position < length →
  comb_cursor position length 0 = position.
Proof. intros. unfold comb_cursor. rewrite N.add_0_r. apply N.mod_small. done. Qed.

Lemma comb_cursor_S position length k :
  0 < length → length < 2 ^ ULONG_WIDTH →
  wrap_ulong (comb_cursor position length k + 1) mod length
  = comb_cursor position length (S k).
Proof.
  intros Hpos0 Hlen. unfold comb_cursor, wrap_ulong.
  assert (Hlt : (position + N.of_nat k) mod length < length) by (apply N.mod_lt; lia).
  rewrite (N.mod_small _ (2 ^ ULONG_WIDTH)) by lia.
  rewrite N.Div0.add_mod_idemp_l.
  f_equal. lia.
Qed.

Lemma comb_cursor_shift position length k j :
  0 < length →
  comb_cursor (comb_cursor position length k) length j
  = comb_cursor position length (k + j).
Proof.
  intros Hpos0. unfold comb_cursor.
  rewrite N.Div0.add_mod_idemp_l. f_equal. lia.
Qed.

Lemma comb_filter_sample_Some input output i delay sharpness cells position length x h :
  load input i = Some x →
  (N.to_nat i < List.length output)%nat →
  List.length cells = N.to_nat length →
  position < length →
  cells !! N.to_nat position = Some h →
  Comb.filter_sample input output i delay sharpness (Live cells) position length
  = Some (<[N.to_nat i := Comb.feedback x sharpness delay h]> output,
          Live (<[N.to_nat (comb_slot delay position length)
                  := Comb.feedback x sharpness delay h]> cells),
          wrap_ulong (position + 1) mod length).
Proof.
  intros Hx Hi Hlen Hpos Hh.
  assert (Hlt : 0 < length) by lia.
  unfold Comb.filter_sample. rewrite Hx. simpl.
  unfold load. rewrite Hh. simpl.
  rewrite store_Some by done. simpl.
  rewrite !umod_Some by done. simpl.
  fold (comb_slot delay position length).
  rewrite store_Some by (pose proof (comb_slot_lt delay position length Hlt); lia).
  reflexivity.
Qed.

(** The rule for the loop of [filter_channel], started at the beginning of
    the two arrays. *)
Lemma comb_filter_channel_rule Allowed Inv R delay sharpness length n :
  ∀ input output cells position i,
    position < length → length < 2 ^ ULONG_WIDTH →
    (N.to_nat i + n ≤ List.length input)%nat →
    (N.to_nat i + n ≤ List.length output)%nat →
    Forall Allowed input →
    List.length cells = N.to_nat length →
    Inv cells →
    comb_step_ok Allowed Inv R delay sharpness length →
    ∃ output' cells',
      Comb.filter_channel input output i delay sharpness (Live cells)
        position length n
      = Some (output', Live cells', comb_cursor position length n)
      ∧ List.length output' = List.length output
      ∧ (∀ k, (k < N.to_nat i)%nat → output' !! k = output !! k)
      ∧ (∀ j, (j < n)%nat →
              ∃ x y, input !! (N.to_nat i + j)%nat = Some x
                     ∧ output' !! (N.to_nat i + j)%nat = Some y
                     ∧ R (comb_cursor position length j) x y)
      ∧ List.length cells' = N.to_nat length
      ∧ Inv cells'.
Proof.
  induction n as [|n IH]; intros input output cells position i
    Hpos Hlen Hin Hout Hall Hcells Hinv Hstep.
  - exists output, cells. simpl. rewrite comb_cursor_0 by done.
    repeat split; try done. intros j Hj. lia.
  - assert (Hpos0 : 0 < length) by lia.
    destruct (lookup_lt_is_Some_2 input (N.to_nat i)) as [x Hx]; [lia|].
    destruct (lookup_lt_is_Some_2 cells (N.to_nat position)) as [h Hh]; [lia|].
    assert (Hax : Allowed x) by (eapply Forall_lookup_1; eauto).
    destruct (Hstep cells x position h Hinv Hax Hcells Hpos Hh) as [HR Hinv'].
    pose (y := Comb.feedback x sharpness delay h).
    destruct (IH input (<[N.to_nat i := y]> output)
                (<[N.to_nat (comb_slot delay position length) := y]> cells)
                (wrap_ulong (position + 1) mod length) (i + 1))
      as (output' & cells' & Hrun & Hlen' & Hlow & Hhigh & Hcells' & Hinv'').
    { apply N.mod_lt. lia. }
    { exact Hlen. }
    { lia. }
    { rewrite length_insert. lia. }
    { exact Hall. }
    { rewrite length_insert. exact Hcells. }
    { exact Hinv'. }
    { exact Hstep. }
    assert (Hc1 : wrap_ulong (position + 1) mod length = comb_cursor position length 1).
    { rewrite <- (comb_cursor_0 position length Hpos) at 1.
      apply comb_cursor_S; done. }
    unfold y in *. clear y.
    exists output', cells'. split.
    { simpl. rewrite (comb_filter_sample_Some _ _ _ _ _ _ _ _ x h) by (done || lia).
      simpl. rewrite Hrun. rewrite Hc1, comb_cursor_shift by done.
      reflexivity. }
    split; [rewrite Hlen', length_insert; reflexivity|].
    split.
    { intros k Hk. rewrite Hlow by lia. apply list_lookup_insert_ne. lia. }
    split; [|done].
    intros j Hj. destruct j as [|j].
    + rewrite Nat.add_0_r, comb_cursor_0 by done.
      eexists x, _. split; [exact Hx|]. split; [|exact HR].
      rewrite Hlow by lia. apply list_lookup_insert_eq. lia.
    + destruct (Hhigh j) as (x' & y' & Hx' & Hy' & HR'); [lia|].
      rewrite Hc1, comb_cursor_shift in HR' by done.
      replace (N.to_nat (i + 1) + j)%nat with (N.to_nat i + S j)%nat in Hx', Hy' by lia.
      exists x', y'. done.
Qed.

(** The same for a channel of an instance. *)
Lemma comb_channel_rule Allowed Inv R input output history delay sharpness
    position length n :
  position < length → length < 2 ^ ULONG_WIDTH →
  comb_channel_ready Allowed Inv input output history length n →
  comb_step_ok Allowed Inv R delay sharpness length →
  ∃ output' history',
    Comb.filter_channel input output 0 delay sharpness history position length n
    = Some (output', history', comb_cursor position length n)
    ∧ comb_channel_done Inv R input output' history' position length n.
Proof.
  intros Hpos Hlen (Hin & Hout & Hall & cells & -> & Hcells & Hinv) Hstep.
  destruct (comb_filter_channel_rule Allowed Inv R delay sharpness length n
              input output cells position 0)
    as (output' & cells' & Hrun & _ & _ & Hhigh & Hcells' & Hinv'); try done.
  exists output', (Live cells'). split; [exact Hrun|].
  split; [|eexists; done].
  intros k Hk. apply (Hhigh k Hk).
Qed.

End CombLoop.
(** *** Bind *)

Section Bind.

Lemma mbind_Some {A B} (x : A) (f : A → option B) : Some x ≫= f = f x.
Proof. reflexivity. Qed.

End Bind.

(** *** Conversions between binary32 and binary64 *)

Section Conversions.
Import IEEE.
#[local] Existing Instance IEEE.arith.

Lemma valid32_inv (s : bool) (m : positive) (e : Z) :
  valid32 (S754_finite s m e) = true →
  (Zpos (digits2_pos m) ≤ 24 ∧ -149 ≤ e ≤ 104
   ∧ fexp prec32 emax32 (Zpos (digits2_pos m) + e) = e)%Z.
Proof.
  unfold valid32, valid_binary, bounded, canonical_mantissa.
  intros Hv. apply andb_prop in Hv as [Hc He].
  apply Z.eqb_eq in Hc. apply Z.leb_le in He.
  pose proof Hc as Hc'. unfold fexp, emin, prec32, emax32 in Hc', He. lia.
Qed.

(** The binary64 number a binary32 number is promoted to: the same value
    with a mantissa of 53 digits. *)
Lemma f2d_finite (s : bool) (m : positive) (e : Z) :
  valid32 (S754_finite s m e) = true →
  ∃ k, @f2d arith (S754_finite s m e)
       = S754_finite s (Pos.iter xO m k) (e - Zpos k)
       ∧ bounded prec64 emax64 (Pos.iter xO m k) (e - Zpos k) = true.
Proof.
  intros Hv. destruct (valid32_inv s m e Hv) as (Hd & He & Hc).
  set (k := Z.to_pos (53 - Zpos (digits2_pos m))).
  assert (Hk : Zpos k = (53 - Zpos (digits2_pos m))%Z) by (unfold k; lia).
  assert (Hb : bounded prec64 emax64 (Pos.iter xO m k) (e - Zpos k) = true).
  { unfold bounded, canonical_mantissa. rewrite digits2_iter_xO.
    apply andb_true_intro. split.
    - apply Z.eqb_eq. unfold fexp, emin, prec64, emax64. lia.
    - apply Z.leb_le. unfold prec64, emax64. lia. }
  exists k. split; [|exact Hb].
  change (@f2d arith (S754_finite s m e)) with (binary_round prec64 emax64 s m e).
  unfold binary_round, shl_align.
  replace (fexp prec64 emax64 (Zpos (digits2_pos m) + e) - e)%Z with (Zneg k)
    by (unfold fexp, emin, prec64, emax64; lia).
  replace (fexp prec64 emax64 (Zpos (digits2_pos m) + e)) with (e - Zpos k)%Z
    by (unfold fexp, emin, prec64, emax64; lia).
  apply binary_round_aux_canonical, Hb.
Qed.

Lemma d2f_shifted (s : bool) (m k : positive) (e : Z) :
  valid32 (S754_finite s m e) = true →
  @d2f arith (S754_finite s (Pos.iter xO m k) (e - Zpos k)) = S754_finite s m e.
Proof.
  intros Hv. destruct (valid32_inv s m e Hv) as (Hd & He & Hc).
  change (@d2f arith (S754_finite s (Pos.iter xO m k) (e - Zpos k)))
    with (binary_round prec32 emax32 s (Pos.iter xO m k) (e - Zpos k)).
  unfold binary_round, shl_align. rewrite digits2_iter_xO.
  replace (Zpos (digits2_pos m) + Zpos k + (e - Zpos k))%Z
    with (Zpos (digits2_pos m) + e)%Z by lia.
  rewrite Hc.
  replace (e - (e - Zpos k))%Z with (Zpos k) by lia.
  apply binary_round_aux_shifted, Hv.
Qed.

(** Promotion to [double] and back gives the same [float]. *)
Lemma d2f_f2d (x : spec_float) : valid32 x = true → @d2f arith (@f2d arith x) = x.
Proof.
  destruct x as [s|s| |s m e]; try reflexivity.
  intros Hv. destruct (f2d_finite s m e Hv) as (k & -> & _).
  apply d2f_shifted, Hv.
Qed.

Lemma dmul_one (s : bool) (m : positive) (e : Z) :
  bounded prec64 emax64 m e = true →
  @dmul arith (@d_of_int arith 1) (S754_finite s m e) = S754_finite s m e.
Proof.
  intros Hb.
  change (@dmul arith (@d_of_int arith 1) (S754_finite s m e))
    with (binary_round_aux prec64 emax64 s
            (Zpos (4503599627370496 * m)) (-52 + e) loc_Exact).
  replace (4503599627370496 * m)%positive with (Pos.iter xO m 52) by reflexivity.
  replace (-52 + e)%Z with (e - 52)%Z by lia.
  apply binary_round_aux_shifted, Hb.
Qed.

Lemma digits2_bound (m : positive) : (Zpos m < 2 ^ Zpos (digits2_pos m))%Z.
Proof.
  induction m as [m IH|m IH|]; simpl digits2_pos.
  - rewrite Pos2Z.inj_succ, Z.pow_succ_r by lia. lia.
  - rewrite Pos2Z.inj_succ, Z.pow_succ_r by lia. lia.
  - reflexivity.
Qed.

Lemma ltb_one_inv (m : positive) (e : Z) :
  SFltb (S754_finite false m e) (of_Z32 1) = true →
  (e < -23 ∨ (e = -23 ∧ Zpos m < 8388608))%Z.
Proof.
  change (of_Z32 1) with (S754_finite false 8388608 (-23)).
  unfold SFltb, SFcompare.
  destruct (Z.compare_spec e (-23)) as [Heq|Hlt|Hgt]; try discriminate.
  - intros Hc. right. split; [exact Heq|].
    destruct (Pos.compare_cont Eq m 8388608) eqn:Hcmp; try discriminate.
    apply (Pos.compare_lt_iff m 8388608) in Hcmp. exact Hcmp.
  - intros _. left. exact Hlt.
Qed.

Lemma ltb_minus_one_inv (m : positive) (e : Z) :
  SFltb (of_Z32 (-1)) (S754_finite true m e) = true →
  (e < -23 ∨ (e = -23 ∧ Zpos m < 8388608))%Z.
Proof.
  change (of_Z32 (-1)) with (S754_finite true 8388608 (-23)).
  unfold SFltb, SFcompare.
  destruct (Z.compare_spec (-23) e) as [Heq|Hlt|Hgt]; try discriminate.
  - intros Hc. right. split; [symmetry; exact Heq|].
    destruct (Pos.compare_cont Eq 8388608 m) eqn:Hcmp; try discriminate.
    apply (Pos.compare_gt_iff 8388608 m) in Hcmp. exact Hcmp.
  - intros _. left. exact Hgt.
Qed.

(** A number of magnitude less than 1 converts to the unsigned integer
    0. *)
Lemma to_unsigned_small (width : N) (x : spec_float) :
  valid32 x = true →
  SFltb x (of_Z32 1) = true → SFltb (of_Z32 (-1)) x = true →
  to_unsigned width x = Some 0.
Proof.
  assert (Hw : (0 < 2 ^ Z.of_N width)%Z) by (apply Z.pow_pos_nonneg; lia).
  destruct x as [s|s| |s m e].
  - intros _ _ _. unfold to_unsigned. simpl.
    rewrite bool_decide_eq_true_2; [reflexivity|lia].
  - intros _. destruct s; discriminate.
  - discriminate.
  - intros Hv Hlt Hgt. destruct (valid32_inv s m e Hv) as (Hd & He & _).
    pose proof (digits2_bound m) as Hm.
    assert (Hm24 : (Zpos m < 2 ^ 24)%Z).
    { eapply Z.lt_le_trans; [exact Hm|]. apply Z.pow_le_mono_r; lia. }
    assert (Hsmall : (e < -23 ∨ (e = -23 ∧ Zpos m < 8388608))%Z).
    { clear Hm Hm24 Hd He Hv Hw. destruct s.
      - apply (ltb_minus_one_inv m e Hgt).
      - apply (ltb_one_inv m e Hlt). }
    assert (Ht : trunc (S754_finite s m e) = Some 0%Z).
    { unfold trunc. destruct e as [|e|p]; try lia.
      rewrite Z.shiftr_div_pow2 by lia.
      rewrite Z.div_small; [destruct s; reflexivity|].
      split; [lia|].
      destruct Hsmall as [Hs|[Hs Hs']].
      - eapply Z.lt_le_trans; [exact Hm24|]. apply Z.pow_le_mono_r; lia.
      - replace (Zpos p) with 23%Z by lia. exact Hs'. }
    unfold to_unsigned. rewrite Ht. simpl.
    rewrite bool_decide_eq_true_2; [reflexivity|lia].
Qed.

End Conversions.
(** *** Comb: a delay of zero *)

Section CombDelayZero.
Import IEEE.
#[local] Existing Instance IEEE.arith.
#[local] Existing Instance IEEE.pow.

Lemma same_but_zero_sign_refl (x : spec_float) : same_but_zero_sign x x.
Proof. left. reflexivity. Qed.

Lemma same_but_zero_sign_trans (x y z : spec_float) :
  same_but_zero_sign x y → same_but_zero_sign y z → same_but_zero_sign x z.
Proof.
  intros [->|[-> ->]] [->|[Hy ->]]; try (left; reflexivity).
  - right. done.
  - right. done.
  - discriminate.
Qed.

Lemma same_but_zero_sign_finite (x y : spec_float) :
  same_but_zero_sign x y → finite_sample x → finite_sample y.
Proof. intros [->|[_ ->]] Hx; [exact Hx|split; reflexivity]. Qed.

(** With a delay of 0 the gain is [pow(sharpness, 0)], which is 1: the
    output sample is the history sample, whatever the input sample and the
    sharpness. *)
Lemma comb_feedback_delay_zero (x sharpness h : spec_float) :
  finite_sample x → finite_sample h →
  same_but_zero_sign h (Comb.feedback x sharpness 0 h).
Proof.
  intros [Hfx Hvx] [Hfh Hvh]. unfold Comb.feedback.
  change (@pow_n arith pow (@f2d arith sharpness) 0) with (@d_of_int arith 1).
  change (@dsub arith (d_of_int 1) (d_of_int 1)) with (S754_zero false).
  assert (Ex : ∃ sx, @dmul arith (@f2d arith x) (S754_zero false) = S754_zero sx).
  { destruct x as [sx|sx| |sx m e]; try discriminate.
    - eexists; reflexivity.
    - destruct (f2d_finite sx m e Hvx) as (k & -> & _). eexists; reflexivity. }
  destruct Ex as [sx ->].
  destruct h as [sh|sh| |sh m e]; try discriminate.
  - change (@dmul arith (d_of_int 1) (@f2d arith (S754_zero sh))) with (S754_zero sh).
    destruct sx, sh; unfold same_but_zero_sign; simpl; auto.
  - destruct (f2d_finite sh m e Hvh) as (k & -> & Hb).
    rewrite dmul_one by exact Hb.
    change (@dadd arith (S754_zero sx) (S754_finite sh (Pos.iter xO m k) (e - Zpos k)))
      with (S754_finite sh (Pos.iter xO m k) (e - Zpos k)).
    rewrite d2f_shifted by exact Hvh. left. reflexivity.
Qed.

Lemma comb_slot_zero (position length : N) :
  position < length → length < 2 ^ ULONG_WIDTH → comb_slot 0 position length = position.
Proof.
  intros Hpos Hlen. unfold comb_slot, wrap_ulong.
  rewrite N.add_0_l, (N.mod_small position (2 ^ ULONG_WIDTH)) by lia.
  apply N.mod_small, Hpos.
Qed.

Lemma comb_delay_zero_step (cells0 : list spec_float) (sharpness : spec_float)
    (length : N) :
  length < 2 ^ ULONG_WIDTH →
  @comb_step_ok arith pow finite_sample
    (λ cells, Forall2 same_but_zero_sign cells0 cells ∧ Forall finite_sample cells)
    (λ position _ y, ∃ h, cells0 !! N.to_nat position = Some h
                          ∧ same_but_zero_sign h y)
    0 sharpness length.
Proof.
  intros Hlen cells x position h [Hrel Hfin] Hx Hcells Hpos Hh.
  assert (Hfh : finite_sample h) by (eapply (Forall_lookup_1 _ _ _ _ Hfin Hh)).
  pose proof (comb_feedback_delay_zero x sharpness h Hx Hfh) as Hy.
  destruct (Forall2_lookup_r _ _ _ _ _ Hrel Hh) as (h0 & Hh0 & Hh0h).
  assert (Hh0y : same_but_zero_sign h0 (Comb.feedback x sharpness 0 h))
    by (eapply same_but_zero_sign_trans; eauto).
  split; [exists h0; done|].
  rewrite comb_slot_zero by done. split.
  - rewrite <- (list_insert_id cells0 (N.to_nat position) h0) by exact Hh0.
    apply Forall2_insert; done.
  - apply Forall_insert; [exact Hfin|].
    exact (same_but_zero_sign_finite _ _ Hy Hfh).
Qed.

Lemma comb_delay_zero_channel (input output cells : list spec_float)
    (sharpness : spec_float) (position length : N) (n : nat) :
  position < length → length < 2 ^ ULONG_WIDTH →
  @comb_channel_ready arith finite_sample (Forall finite_sample) input output
    (Live cells) length n →
  ∃ output' history',
    Comb.filter_channel input output 0 0 sharpness (Live cells) position length n
    = Some (output', history', comb_cursor position length n)
    ∧ comb_held cells output' history' position length n.
Proof.
  intros Hpos Hlen (Hin & Hout & Hall & cells1 & [= <-] & Hcells & Hinv).
  destruct (@comb_channel_rule arith pow finite_sample
              (λ cells', Forall2 same_but_zero_sign cells cells'
                         ∧ Forall finite_sample cells')
              (λ position _ y, ∃ h, cells !! N.to_nat position = Some h
                                    ∧ same_but_zero_sign h y)
              input output (Live cells) 0 sharpness position length n Hpos Hlen)
    as (output' & history' & Hrun & Hdone & cells' & -> & _ & Hrel & _).
  { split; [exact Hin|]. split; [exact Hout|]. split; [exact Hall|].
    exists cells. split; [reflexivity|]. split; [exact Hcells|].
    split; [|exact Hinv]. apply Forall2_same_length_lookup_2; [reflexivity|].
    intros i x y Hx Hy. rewrite Hx in Hy. injection Hy as <-.
    apply same_but_zero_sign_refl. }
  { apply comb_delay_zero_step, Hlen. }
  exists output', (Live cells'). split; [exact Hrun|].
  split; [|eexists; done].
  intros k Hk. destruct (Hdone k Hk) as (x & y & _ & Hy & h & Hh & Hhy).
  exists h, y. done.
Qed.

(** C4, as the code has it. A delay control of magnitude less than 1 is
    converted to a delay of 0 and used as such. With a delay of 0, a
    history of numbers and a block of [n] numbers, the mono kernel runs to
    the end of the block; each output sample is the slot of the history
    under the cursor and is written back to that slot: outputs and history
    are those of the history before the call, up to the sign of a zero,
    whatever the input samples. *)
Theorem comb_delay_zero_holds :
  (∀ delay : spec_float,
     valid32 delay = true →
     SFltb delay (of_Z32 1) = true → SFltb (of_Z32 (-1)) delay = true →
     @uint_of_f arith delay = Some 0)
  ∧ (∀ (filter : Comb.filter_type single) (cells : list spec_float) (n : nat),
       uint_of_f (Comb.delay_control_value_l filter) = Some 0 →
       Comb.history_l filter = Live cells →
       Comb.history_position filter < Comb.history_length filter →
       Comb.history_length filter < 2 ^ ULONG_WIDTH →
       @comb_channel_ready arith finite_sample (Forall finite_sample)
         (Comb.input_buffer_l filter) (Comb.output_buffer_l filter)
         (Comb.history_l filter) (Comb.history_length filter) n →
       ∃ filter',
         Comb.run_mono_filter filter n = Some filter'
         ∧ comb_held cells (Comb.output_buffer_l filter') (Comb.history_l filter')
             (Comb.history_position filter) (Comb.history_length filter) n)
  ∧ (∀ (filter : Comb.filter_type single) (cells_l cells_r : list spec_float)
       (n : nat),
       uint_of_f (Comb.delay_control_value_l filter) = Some 0 →
       uint_of_f (Comb.delay_control_value_r filter) = Some 0 →
       Comb.history_l filter = Live cells_l →
       Comb.history_r filter = Live cells_r →
       Comb.history_position filter < Comb.history_length filter →
       Comb.history_length filter < 2 ^ ULONG_WIDTH →
       @comb_channel_ready arith finite_sample (Forall finite_sample)
         (Comb.input_buffer_l filter) (Comb.output_buffer_l filter)
         (Comb.history_l filter) (Comb.history_length filter) n →
       @comb_channel_ready arith finite_sample (Forall finite_sample)
         (Comb.input_buffer_r filter) (Comb.output_buffer_r filter)
         (Comb.history_r filter) (Comb.history_length filter) n →
       ∃ filter',
         Comb.run_stereo_filter filter n = Some filter'
         ∧ comb_held cells_l (Comb.output_buffer_l filter') (Comb.history_l filter')
             (Comb.history_position filter) (Comb.history_length filter) n
         ∧ comb_held cells_r (Comb.output_buffer_r filter') (Comb.history_r filter')
             (Comb.history_position filter) (Comb.history_length filter) n).
Proof.
  split; [|split].
  - intros delay. apply (to_unsigned_small UINT_WIDTH).
  - intros filter cells n Hdelay Hcells Hpos Hlen Hready.
    rewrite Hcells in Hready.
    destruct (comb_delay_zero_channel _ _ cells
                (Comb.sharp_control_value_l filter) _ _ n Hpos Hlen Hready)
      as (output' & history' & Hrun & Hheld).
    eexists. split.
    { unfold Comb.run_mono_filter. rewrite Hdelay, mbind_Some, Hcells, Hrun.
      reflexivity. }
    exact Hheld.
  - intros filter cells_l cells_r n Hdl Hdr Hcl Hcr Hpos Hlen Hrl Hrr.
    rewrite Hcl in Hrl. rewrite Hcr in Hrr.
    destruct (comb_delay_zero_channel _ _ cells_l
                (Comb.sharp_control_value_l filter) _ _ n Hpos Hlen Hrl)
      as (output_l & history_l & Hrun_l & Hheld_l).
    destruct (comb_delay_zero_channel _ _ cells_r
                (Comb.sharp_control_value_r filter) _ _ n Hpos Hlen Hrr)
      as (output_r & history_r & Hrun_r & Hheld_r).
    eexists. split.
    { unfold Comb.run_stereo_filter.
      rewrite Hdl, mbind_Some, Hcl, Hrun_l, mbind_Some. cbv zeta.
      change (Comb.delay_control_value_r (Comb.set_history _ _ _))
        with (Comb.delay_control_value_r filter).
      rewrite Hdr, mbind_Some.
      change (Comb.filter_channel _ _ _ _ _ _ _ _ _)
        with (Comb.filter_channel (Comb.input_buffer_r filter)
                (Comb.output_buffer_r filter) 0 0 (Comb.sharp_control_value_r filter)
                (Comb.history_r filter) (Comb.history_position filter)
                (Comb.history_length filter) n).
      rewrite Hcr, Hrun_r. reflexivity. }
    split; [exact Hheld_l|exact Hheld_r].
Qed.

End CombDelayZero.

Section CombDelayZeroIEEE.
Import IEEE Test.
#[local] Existing Instance IEEE.arith.
#[local] Existing Instance IEEE.pow.

Lemma comb_delay_zero_holds_witness :
  @uint_of_f arith half = Some 0
  ∧ ∃ filter',
      Comb.run_mono_filter comb_low 3 = Some filter'
      ∧ comb_held (replicate 100 zero) (Comb.output_buffer_l filter')
          (Comb.history_l filter') 0 100 3.
Proof.
  destruct comb_delay_zero_holds as (Hsmall & Hrun & _).
  split.
  - apply Hsmall; reflexivity.
  - apply (Hrun comb_low (replicate 100 zero) 3%nat).
    + apply Hsmall; reflexivity.
    + reflexivity.
    + reflexivity.
    + reflexivity.
    + split; [simpl; lia|]. split; [simpl; lia|].
      split; [repeat constructor|].
      eexists. split; [reflexivity|]. split; [reflexivity|].
      apply Forall_replicate. split; reflexivity.
Defined.

(** A delay control of 0.5 is less than 1 and is converted to a delay of 0.
    On the activated instance with sharpness 0.5 and input [1, 1, 1] the
    output block is [0, 0, 0] and the history stays zero, where a delay
    of 1 gives [0.5, 0.75, 0.875] and leaves 0.5, 0.75 and 0.875 in the
    slots 1, 2 and 3 of the history: the delay is not clamped to 1. *)
Lemma comb_delay_not_clamped :
  SFltb (Comb.delay_control_value_l comb_low) one = true
  ∧ uint_of_f (Comb.delay_control_value_l comb_low) = Some 0
  ∧ uint_of_f (Comb.delay_control_value_l comb) = Some 1
  ∧ Comb.output_buffer_l <$> Comb.run_mono_filter comb_low 3
    = Some [zero; zero; zero]
  ∧ Comb.output_buffer_l <$> Comb.run_mono_filter comb 3
    = Some [half; three_quarters; seven_eighths]
  ∧ Comb.history_l <$> Comb.run_mono_filter comb_low 3
    ≠ Comb.history_l <$> Comb.run_mono_filter comb 3.
Proof.
  split; [reflexivity|].
  split; [vm_compute; reflexivity|].
  split; [vm_compute; reflexivity|].
  split; [vm_compute; reflexivity|].
  split; [vm_compute; reflexivity|].
  vm_compute. discriminate.
Qed.

End CombDelayZeroIEEE.

(** *** Reson: the argument of acos *)

Section ResonDomain.
Import Stdlib.Reals.Reals.
Local Open Scope R_scope.

Lemma pole_ratio_bound (r : R) : -1 <= 2 * r / (1 + r ^ 2) <= 1.
Proof.
  assert (Hpos : 0 < 1 + r ^ 2) by Lra.nra.
  split; apply (Rmult_le_reg_r (1 + r ^ 2) _ _ Hpos);
    unfold Rdiv; rewrite Rmult_assoc, Rinv_l by Lra.lra.
  - pose proof (pow2_ge_0 (1 + r)). Lra.lra.
  - pose proof (pow2_ge_0 (1 - r)). Lra.lra.
Qed.

(** In real arithmetic the argument of [acos] is in [-1, 1] for every
    frequency, pole radius and sample rate. *)
Lemma reson_acos_argument_bound (freq radius : R) (rate : N) :
  -1 <= @Reson.acos_argument Real.arith Real.pow Real.trig freq radius rate <= 1.
Proof.
  unfold Reson.acos_argument. simpl.
  pose proof (pole_ratio_bound radius) as Ha.
  pose proof (COS_bound (2 * PI * freq / IZR (Z.of_N rate))) as Hc.
  replace (radius * (radius * 1)) with (radius ^ 2) by (simpl; reflexivity).
  set (a := 2 * radius / (1 + radius ^ 2)) in *.
  set (c := Rtrigo_def.cos (2 * PI * freq / IZR (Z.of_N rate))) in *.
  split; Lra.nra.
Qed.

End ResonDomain.

Section ResonInfinite.
Import IEEE Test.
#[local] Existing Instance IEEE.arith.
#[local] Existing Instance IEEE.pow.
Context (T : @Trig IEEE.arith).

Lemma dmul_infinity_r (y : spec_float) (s : bool) :
  is_finite (@dmul arith y (S754_infinity s)) = false.
Proof. destruct y; reflexivity. Qed.

Lemma dmul_not_finite_l (x y : spec_float) :
  is_finite x = false → is_finite (@dmul arith x y) = false.
Proof. destruct x, y; try discriminate; reflexivity. Qed.

Lemma ddiv_not_finite_l (x y : spec_float) :
  is_finite x = false → is_finite (@ddiv arith x y) = false.
Proof. destruct x, y; try discriminate; reflexivity. Qed.

Lemma dsub_not_finite_r (x y : spec_float) :
  is_finite y = false → is_finite (@dsub arith x y) = false.
Proof. destruct x, y as [| [|] | |]; try discriminate; try reflexivity; destruct s; reflexivity. Qed.

Lemma d2f_not_finite (x : spec_float) :
  is_finite x = false → is_finite (@d2f arith x) = false.
Proof. destruct x; try discriminate; reflexivity. Qed.

(** With a bandwidth control that is an infinity the pole radius is an
    infinity or a NaN, whatever the functions of math.h. *)
Lemma reson_pole_radius_infinite (s : bool) (rate : N) :
  is_finite (Reson.pole_radius (S754_infinity s) rate) = false.
Proof.
  unfold Reson.pole_radius.
  apply d2f_not_finite, dsub_not_finite_r, ddiv_not_finite_l.
  apply dmul_infinity_r.
Qed.

(** With such a pole radius the gain is an infinity or a NaN. *)
Lemma reson_gain_not_finite (radius angle : spec_float) :
  is_finite radius = false →
  is_finite (Reson.gain_factor radius angle) = false.
Proof.
  intros Hr. unfold Reson.gain_factor.
  apply d2f_not_finite, dmul_not_finite_l, dsub_not_finite_r.
  destruct radius as [| [|] | |]; try discriminate; reflexivity.
Qed.

(** And on a history of zeros the output sample is a NaN: the square of the
    pole radius is multiplied by zero. *)
Lemma reson_two_pole_nan (gain radius angle x h0 : spec_float) :
  is_finite radius = false →
  Reson.two_pole gain radius angle x h0 zero = S754_nan.
Proof.
  intros Hr. unfold Reson.two_pole.
  assert (E : @dmul arith (pow_n (@f2d arith radius) 2) (@f2d arith zero) = S754_nan).
  { destruct radius as [| [|] | |]; try discriminate; reflexivity. }
  rewrite E.
  destruct (@dadd arith _ _); reflexivity.
Qed.

Lemma reson_infinite_bandwidth_nan (freq x o h0 : spec_float) (s : bool) (rate : N) :
  Reson.filter_channel [x] [o] freq (S754_infinity s) (Live [h0; zero]) 1 rate
  = Some ([S754_nan], Live [S754_nan; h0]).
Proof.
  unfold Reson.filter_channel. cbv zeta.
  pose proof (reson_pole_radius_infinite s rate) as Hr.
  set (radius := Reson.pole_radius (H:=arith) (S754_infinity s) rate) in *.
  set (angle := Reson.pole_angle (H:=arith) freq radius rate).
  set (gain := Reson.gain_factor (H:=arith) radius angle).
  unfold Reson.filter_loop, Reson.filter_sample.
  change (load [x] 0) with (Some x).
  change (load_block (Live [h0; zero]) 0) with (Some h0).
  change (load_block (Live [h0; zero]) 1) with (Some zero).
  rewrite !mbind_Some. cbv zeta.
  rewrite (reson_two_pole_nan gain radius angle x h0 Hr).
  reflexivity.
Qed.

End ResonInfinite.

Section ResonTheorem.
Import IEEE Test.
#[local] Existing Instance IEEE.arith.
#[local] Existing Instance IEEE.pow.

(** C3, as the code has it. The argument of [acos] is passed as it is
    computed, without a clamp. In real arithmetic it is in [-1, 1] for
    every frequency, bandwidth and sample rate. In the floating-point
    arithmetic of the code the coefficients and the output are not finite
    for every combination of controls: with a bandwidth control that is an
    infinity the pole radius and the gain are not finite and, on a history
    of zeros, the output sample is a NaN, whatever the functions of math.h
    return. *)
Theorem reson_acos_unclamped :
  (∀ (T : Trig) (freq radius : single) (rate : N),
     Reson.pole_angle freq radius rate
     = d2f (acos (Reson.acos_argument freq radius rate)))
  ∧ (∀ (freq bw : Real.R) (rate : N),
       Rdefinitions.Rle (Rdefinitions.IZR (-1))
         (@Reson.acos_argument Real.arith Real.pow Real.trig freq
            (@Reson.pole_radius Real.arith Real.trig bw rate) rate)
       ∧ Rdefinitions.Rle
           (@Reson.acos_argument Real.arith Real.pow Real.trig freq
              (@Reson.pole_radius Real.arith Real.trig bw rate) rate)
           (Rdefinitions.IZR 1))
  ∧ (∀ (T : Trig) (freq x o h0 : spec_float) (s : bool) (rate : N),
       is_finite (Reson.pole_radius (S754_infinity s) rate) = false
       ∧ is_finite (Reson.gain_factor (Reson.pole_radius (S754_infinity s) rate)
                      (Reson.pole_angle freq (Reson.pole_radius (S754_infinity s) rate)
                         rate)) = false
       ∧ Reson.filter_channel [x] [o] freq (S754_infinity s) (Live [h0; zero]) 1 rate
         = Some ([S754_nan], Live [S754_nan; h0])).
Proof.
  split; [reflexivity|]. split.
  - intros freq bw rate. apply reson_acos_argument_bound.
  - intros T freq x o h0 s rate.
    split; [apply reson_pole_radius_infinite|].
    split; [apply reson_gain_not_finite, reson_pole_radius_infinite|].
    apply reson_infinite_bandwidth_nan.
Qed.

(** It is not so that, for every interpretation of math.h, the first output
    sample of the instance with a bandwidth control of +infinity is a
    finite number: it is a NaN. *)
Lemma reson_not_always_finite :
  ¬ (∀ T : Trig,
       ∃ y, Reson.output_buffer_l <$> Reson.run_mono_filter reson 1 = Some [y]
            ∧ is_finite y = true).
Proof.
  intros Hall.
  pose (T := @Build_Trig arith zero (λ x, x) (λ x, x) (λ x, x)).
  destruct (Hall T) as (y & Hy & Hfinite).
  unfold Reson.run_mono_filter, Reson.run_filter in Hy.
  change (Reson.filter_channel _ _ _ _ _ _ _)
    with (Reson.filter_channel (H:=arith) [one] [zero] (of_Z32 440)
            (S754_infinity false) (Live [zero; zero]) 1 44100) in Hy.
  rewrite reson_infinite_bandwidth_nan in Hy.
  injection Hy as <-. discriminate.
Qed.

End ResonTheorem.

(** *** Magnitude of a rounded number *)

Section RoundBound.
Variables prec emax : Z.
Local Open Scope Z_scope.

Lemma shr_1_spec (mrs : shr_record) :
  0 ≤ shr_m mrs →
  shr_m (shr_1 mrs) = shr_m mrs / 2 ∧ shr_r (shr_1 mrs) = Z.odd (shr_m mrs).
Proof.
  destruct mrs as [m r s]. simpl. intros Hm.
  destruct m as [|[p|p|]|p]; try lia; simpl; split; try reflexivity.
  - apply (Z.div_unique _ _ _ 1); lia.
  - apply (Z.div_unique _ _ _ 0); lia.
Qed.

Lemma shr_iter_spec (n : positive) (mrs : shr_record) :
  0 ≤ shr_m mrs →
  shr_m (iter_pos shr_1 n mrs) = shr_m mrs / 2 ^ Zpos n
  ∧ shr_r (iter_pos shr_1 n mrs) = Z.odd (shr_m mrs / 2 ^ (Zpos n - 1)).
Proof.
  intros Hm. rewrite iter_pos_iter.
  induction n as [|n IH] using Pos.peano_ind.
  - simpl Pos.iter. destruct (shr_1_spec mrs Hm) as [H1 H2].
    rewrite H1, H2. change (1 - 1) with 0. rewrite Z.pow_0_r, Z.div_1_r.
    split; reflexivity.
  - rewrite Pos.iter_succ. destruct IH as [IH1 IH2].
    assert (Hm' : 0 ≤ shr_m (Pos.iter shr_1 mrs n)).
    { rewrite IH1. apply Z.div_pos; lia. }
    destruct (shr_1_spec _ Hm') as [H1 H2]. rewrite H1, H2, IH1.
    rewrite Pos2Z.inj_succ. split.
    + rewrite Z.pow_succ_r by lia. rewrite Z.div_div by lia.
      f_equal. lia.
    + f_equal. f_equal. f_equal. lia.
Qed.

(** What [shr] leaves: the quotient by a power of 2, at a higher
    exponent; the round bit is set only if the number was large enough. *)
Lemma shr_spec (mrs mrs' : shr_record) (e e' n : Z) :
  0 ≤ shr_m mrs →
  shr mrs e n = (mrs', e') →
  ∃ j, 0 ≤ j ∧ e' = e + j ∧ shr_m mrs' = shr_m mrs / 2 ^ j
       ∧ (0 < j → shr_r mrs' = Z.odd (shr_m mrs / 2 ^ (j - 1)))
       ∧ (j = 0 → mrs' = mrs).
Proof.
  intros Hm. unfold shr. destruct n as [|n|n]; intros [= <- <-].
  - exists 0. rewrite Z.pow_0_r, Z.div_1_r. repeat split; lia.
  - exists (Zpos n). destruct (shr_iter_spec n mrs Hm) as [H1 H2].
    repeat split; try lia; try done.
  - exists 0. rewrite Z.pow_0_r, Z.div_1_r. repeat split; lia.
Qed.

Lemma round_nearest_even_bound (m : Z) (l : location) :
  0 ≤ m → m ≤ round_nearest_even m l ≤ m + 1.
Proof.
  intros Hm. destruct l as [|[| |]]; simpl; try lia.
  destruct (Z.even m); lia.
Qed.

Lemma round_nearest_even_down (m : Z) (r s : bool) :
  r = false →
  round_nearest_even m (loc_of_shr_record {| shr_m := m; shr_r := r; shr_s := s |}) = m.
Proof. intros ->. destruct s; reflexivity. Qed.

(** A number below [2 ^ k] at the exponent [ex] rounds to a number of at
    most [2 ^ k] at that exponent: a zero, or a finite number if
    [k + ex] is an exponent of the format. *)
Lemma binary_round_aux_bound (s : bool) (mx ex : Z) (lx : location) (k : Z) :
  0 ≤ mx < 2 ^ k → 0 ≤ k → k + ex ≤ emax - prec →
  match binary_round_aux prec emax s mx ex lx with
  | S754_zero s' => s' = s
  | S754_finite s' m e => s' = s ∧ ∃ j, 0 ≤ j ∧ e = ex + j ∧ Zpos m * 2 ^ j ≤ 2 ^ k
  | _ => False
  end.
Proof.
  intros Hmx Hk Hke. unfold binary_round_aux, shr_fexp.
  destruct (shr (shr_record_of_loc mx lx) ex _) as [mrs1 e1] eqn:Hshr1.
  assert (Hm0 : shr_m (shr_record_of_loc mx lx) = mx)
    by (destruct lx as [|[| |]]; reflexivity).
  apply shr_spec in Hshr1 as (j1 & Hj1 & -> & Hm1 & Hr1 & Hid1);
    [|rewrite Hm0; lia].
  rewrite Hm0 in Hm1, Hr1.
  set (m2 := round_nearest_even (shr_m mrs1) (loc_of_shr_record mrs1)).
  assert (Hm1pos : 0 ≤ shr_m mrs1) by (rewrite Hm1; apply Z.div_pos; lia).
  assert (Hm2 : 0 ≤ m2 ∧ m2 * 2 ^ j1 ≤ 2 ^ k).
  { pose proof (round_nearest_even_bound (shr_m mrs1) (loc_of_shr_record mrs1) Hm1pos)
      as Hrb. fold m2 in Hrb. split; [lia|].
    assert (Hpow : 0 < 2 ^ j1) by (apply Z.pow_pos_nonneg; lia).
    destruct (Z.eq_dec j1 0) as [->|Hj1'].
    - rewrite Z.pow_0_r, Z.div_1_r in Hm1. rewrite Z.pow_0_r. lia.
    - assert (Hdown : shr_m mrs1 * 2 ^ j1 ≤ mx).
      { rewrite Hm1. rewrite Z.mul_comm. apply Z.mul_div_le. lia. }
      destruct (shr_r mrs1) eqn:Hr.
      + assert (Hodd : Z.odd (mx / 2 ^ (j1 - 1)) = true)
          by (symmetry; apply Hr1; lia).
        (* the round bit is set: mx is at least 2 ^ (j1 - 1), so j1 ≤ k *)
        assert (Hjk : j1 ≤ k).
        { destruct (Z.le_gt_cases j1 k) as [|Hgt]; [done|].
          rewrite Z.div_small in Hodd; [simpl in Hodd; discriminate|].
          split; [lia|]. eapply Z.lt_le_trans; [apply Hmx|].
          apply Z.pow_le_mono_r; lia. }
        assert (Hq : shr_m mrs1 < 2 ^ (k - j1)).
        { rewrite Hm1. apply Z.div_lt_upper_bound; [lia|].
          rewrite <- Z.pow_add_r by lia. replace (j1 + (k - j1)) with k by lia. lia. }
        replace (2 ^ k) with (2 ^ (k - j1) * 2 ^ j1)
          by (rewrite <- Z.pow_add_r by lia; f_equal; lia).
        apply Z.mul_le_mono_nonneg_r; lia.
      + assert (Hm2' : m2 = shr_m mrs1).
        { unfold m2. destruct mrs1 as [m r s0]. simpl in Hr. subst r.
          apply round_nearest_even_down. reflexivity. }
        rewrite Hm2'. lia. }
  destruct (shr (shr_record_of_loc m2 loc_Exact) (ex + j1) _) as [mrs2 e2] eqn:Hshr2.
  apply shr_spec in Hshr2 as (j2 & Hj2 & -> & Hm3 & _ & _); [|simpl; lia].
  simpl in Hm3.
  assert (Hpow1 : 0 < 2 ^ j1) by (apply Z.pow_pos_nonneg; lia).
  assert (Hpow2 : 0 < 2 ^ j2) by (apply Z.pow_pos_nonneg; lia).
  assert (Hm3b : 0 ≤ shr_m mrs2 ∧ shr_m mrs2 * 2 ^ (j1 + j2) ≤ 2 ^ k).
  { rewrite Hm3. split; [apply Z.div_pos; lia|].
    rewrite Z.pow_add_r by lia.
    assert (m2 / 2 ^ j2 * 2 ^ j2 ≤ m2) by (rewrite Z.mul_comm; apply Z.mul_div_le; lia).
    nia. }
  destruct (shr_m mrs2) as [|m3|m3] eqn:Hm3'; [reflexivity| |lia].
  assert (Hjk : j1 + j2 ≤ k).
  { destruct (Z.le_gt_cases (j1 + j2) k) as [|Hgt]; [done|].
    assert (2 ^ k < 2 ^ (j1 + j2)) by (apply Z.pow_lt_mono_r; lia).
    nia. }
  rewrite (proj2 (Z.leb_le _ _)) by lia.
  split; [reflexivity|]. exists (j1 + j2). split; [lia|]. split; [lia|]. lia.
Qed.

(** A number with a canonical mantissa and [k] more binary digits, all
    zero, rounds to itself, or to an infinity if its exponent is not one
    of the format. *)
Lemma binary_round_aux_shifted_any (s : bool) (m k : positive) (e : Z) :
  canonical_mantissa prec emax m e = true →
  binary_round_aux prec emax s (Zpos (Pos.iter xO m k)) (e - Zpos k) loc_Exact
  = if e <=? emax - prec then S754_finite s m e else S754_infinity s.
Proof.
  intros Hc. apply Z.eqb_eq in Hc.
  unfold binary_round_aux at 1, shr_fexp at 1. simpl Zdigits2.
  rewrite digits2_iter_xO.
  replace (Z.pos (digits2_pos m) + Z.pos k + (e - Z.pos k))
    with (Z.pos (digits2_pos m) + e) by lia.
  rewrite Hc.
  replace (e - (e - Z.pos k)) with (Z.pos k) by lia.
  simpl shr_record_of_loc. unfold shr at 1.
  rewrite shr_iter_xO.
  replace (e - Z.pos k + Z.pos k) with e by lia.
  simpl. unfold shr_fexp. simpl Zdigits2.
  rewrite Hc, Z.sub_diag. simpl. reflexivity.
Qed.

End RoundBound.

(** *** Fir: where the shift is defined *)

Section FirShift.
Import IEEE Test.
#[local] Existing Instance IEEE.arith.
Local Open Scope Z_scope.

Lemma trunc_infinity_product (s : bool) (y : spec_float) :
  trunc (SFmul prec32 emax32 (S754_infinity s) y) = None.
Proof. destruct y; reflexivity. Qed.

(** A frequency of zero, of either sign: the division by [2 * freq] gives an
    infinity, and the product with the sample rate is an infinity or a NaN,
    which has no conversion to [unsigned long]. *)
Lemma fir_shift_of_zero (s : bool) (rate : N) :
  Fir.get_sample_shift (S754_zero s) rate = None.
Proof.
  unfold Fir.get_sample_shift.
  change (@fdiv arith (f_of_int 1) (@fmul arith (f_of_int 2) (S754_zero s)))
    with (S754_infinity s).
  change (to_unsigned ULONG_WIDTH
            (SFmul prec32 emax32 (S754_infinity s) (f_of_ulong rate)) = None).
  unfold to_unsigned. rewrite trunc_infinity_product. reflexivity.
Qed.

Lemma at_most_pow2_mono (x : spec_float) (a b : Z) :
  at_most_pow2 x a → a ≤ b → at_most_pow2 x b.
Proof.
  destruct x as [s|s| |[|] m e]; simpl; try done.
  intros [He Hm] Hab. split; [lia|].
  etrans; [exact Hm|]. apply Z.pow_le_mono_r; lia.
Qed.

Lemma round_at_most_pow2 (mx ex : Z) (lx : location) (k : Z) :
  0 ≤ mx < 2 ^ k → 0 ≤ k → k + ex ≤ 104 →
  at_most_pow2 (binary_round_aux prec32 emax32 false mx ex lx) (k + ex).
Proof.
  intros Hmx Hk Hke.
  pose proof (binary_round_aux_bound prec32 emax32 false mx ex lx k Hmx Hk) as Hb.
  destruct (binary_round_aux prec32 emax32 false mx ex lx) as [s|s| |s m e];
    try (apply Hb; exact Hke); [exact I|].
  destruct (Hb Hke) as (-> & j & Hj & -> & Hm). simpl.
  assert (Hpj : 0 < 2 ^ j) by (apply Z.pow_pos_nonneg; lia).
  assert (Hjk : j ≤ k).
  { destruct (Z.le_gt_cases j k) as [|Hgt]; [done|].
    assert (2 ^ k < 2 ^ j) by (apply Z.pow_lt_mono_r; lia). nia. }
  split; [lia|]. replace (k + ex - (ex + j)) with (k - j) by lia.
  apply (Z.mul_le_mono_pos_r _ _ (2 ^ j)); [exact Hpj|].
  rewrite <- Z.pow_add_r by lia. replace (k - j + j) with k by lia. exact Hm.
Qed.

(** The product of two such numbers. *)
Lemma fmul_at_most_pow2 (x y : spec_float) (a b : Z) :
  at_most_pow2 x a → at_most_pow2 y b → a + b + 1 ≤ 104 →
  at_most_pow2 (SFmul prec32 emax32 x y) (a + b + 1).
Proof.
  destruct x as [sx|sx| |[|] mx ex]; simpl at_most_pow2; try done;
    destruct y as [sy|sy| |[|] my ey]; simpl at_most_pow2; try done.
  intros [Hex Hmx] [Hey Hmy] Hab.
  change (at_most_pow2
            (binary_round_aux prec32 emax32 false (Zpos (mx * my)) (ex + ey) loc_Exact)
            (a + b + 1)).
  replace (a + b + 1) with ((a - ex + (b - ey) + 1) + (ex + ey)) by lia.
  apply round_at_most_pow2; [|lia|lia].
  split; [lia|]. rewrite Pos2Z.inj_mul.
  rewrite Z.pow_add_r, Z.pow_add_r by lia.
  assert (0 < 2 ^ (a - ex)) by (apply Z.pow_pos_nonneg; lia).
  assert (0 < 2 ^ (b - ey)) by (apply Z.pow_pos_nonneg; lia).
  change (2 ^ 1) with 2. nia.
Qed.

Lemma iter_xO_value (m d : positive) :
  Zpos (Pos.iter xO m d) = Zpos m * 2 ^ Zpos d.
Proof.
  induction d as [|d IH] using Pos.peano_ind.
  - simpl. lia.
  - rewrite Pos.iter_succ, Pos2Z.inj_xO, IH, Pos2Z.inj_succ, Z.pow_succ_r by lia. lia.
Qed.

(** An [unsigned long] of less than 32 bits, as a [float]. *)
Lemma of_Z32_at_most_pow2 (z : Z) :
  0 ≤ z < 2 ^ 32 → at_most_pow2 (of_Z32 z) 33.
Proof.
  intros Hz. unfold of_Z32, binary_normalize.
  destruct z as [|m|m]; [exact I| |lia].
  unfold binary_round, shl_align.
  destruct (fexp prec32 emax32 (Zpos (digits2_pos m) + 0) - 0) as [|d|d] eqn:Hd.
  - apply (round_at_most_pow2 (Zpos m) 0 loc_Exact 33); lia.
  - apply (round_at_most_pow2 (Zpos m) 0 loc_Exact 33); lia.
  - set (e := fexp prec32 emax32 (Zpos (digits2_pos m) + 0)) in *.
    assert (He : e = - Zpos d) by lia.
    replace 33 with ((33 + Zpos d) + e) by lia.
    apply round_at_most_pow2; [|lia|lia].
    rewrite iter_xO_value. split; [lia|].
    rewrite Z.pow_add_r by lia.
    assert (0 < 2 ^ Zpos d) by (apply Z.pow_pos_nonneg; lia).
    change (2 ^ 33) with 8589934592. change (2 ^ 32) with 4294967296 in Hz. nia.
Qed.

(** Such a number has a conversion to an unsigned type of more than [b]
    bits. *)
Lemma to_unsigned_at_most_pow2 (width : N) (x : spec_float) (b : Z) :
  at_most_pow2 x b → 0 ≤ b < Z.of_N width → is_Some (to_unsigned width x).
Proof.
  intros Hx Hb.
  assert (H64 : 2 ^ b < 2 ^ Z.of_N width) by (apply Z.pow_lt_mono_r; lia).
  assert (Hpb : 0 < 2 ^ b) by (apply Z.pow_pos_nonneg; lia).
  destruct x as [s|s| |[|] m e]; simpl in Hx; try done.
  - unfold to_unsigned. simpl. rewrite bool_decide_eq_true_2; [eexists; reflexivity|lia].
  - destruct Hx as [He Hm].
    assert (Ht : ∃ t, trunc (S754_finite false m e) = Some t ∧ 0 ≤ t ≤ 2 ^ b).
    { unfold trunc. eexists. split; [reflexivity|].
      destruct e as [|e|p].
      - rewrite Z.shiftl_0_r. rewrite Z.sub_0_r in Hm. lia.
      - rewrite Z.shiftl_mul_pow2 by lia.
        assert (0 < 2 ^ Zpos e) by (apply Z.pow_pos_nonneg; lia).
        split; [lia|].
        assert (Hsplit : 2 ^ b = 2 ^ (b - Zpos e) * 2 ^ Zpos e)
          by (rewrite <- Z.pow_add_r by lia; f_equal; lia).
        rewrite Hsplit. nia.
      - rewrite Z.shiftr_div_pow2 by lia.
        assert (0 < 2 ^ Zpos p) by (apply Z.pow_pos_nonneg; lia).
        split; [apply Z.div_pos; lia|].
        apply Z.div_le_upper_bound; [lia|].
        rewrite <- Z.pow_add_r by lia.
        replace (Zpos p + b) with (b - Zneg p) by lia. exact Hm. }
    destruct Ht as (t & Ht & Hrange).
    unfold to_unsigned. rewrite Ht. simpl.
    rewrite bool_decide_eq_true_2; [eexists; reflexivity|lia].
Qed.

Lemma digits2_lower (m : positive) : 2 ^ (Zpos (digits2_pos m) - 1) ≤ Zpos m.
Proof.
  induction m as [m IH|m IH|]; simpl digits2_pos; [| |done].
  - rewrite Pos2Z.inj_succ.
    replace (Z.succ (Zpos (digits2_pos m)) - 1)
      with (Z.succ (Zpos (digits2_pos m) - 1)) by lia.
    rewrite Z.pow_succ_r by lia. lia.
  - rewrite Pos2Z.inj_succ.
    replace (Z.succ (Zpos (digits2_pos m)) - 1)
      with (Z.succ (Zpos (digits2_pos m) - 1)) by lia.
    rewrite Z.pow_succ_r by lia. lia.
Qed.

(** The reciprocal of a normal number of at least 2 is at most 1. *)
Lemma reciprocal_at_most_pow2 (m : positive) (e : Z) :
  Zpos (digits2_pos m) = 24 → -22 ≤ e ≤ 104 →
  at_most_pow2 (SFdiv prec32 emax32 (of_Z32 1) (S754_finite false m e)) 0.
Proof.
  intros Hd He.
  change (of_Z32 1) with (S754_finite false 8388608 (-23)).
  unfold SFdiv, SFdiv_core_binary.
  change (Zdigits2 8388608) with 24. simpl Zdigits2. rewrite Hd.
  set (e' := Z.min _ _).
  assert (He' : -47 - e ≤ e' ≤ -23 - e).
  { unfold e', fexp, emin, prec32, emax32. lia. }
  set (s := -23 - e - e').
  assert (Hs : 0 ≤ s ≤ 24) by (unfold s; lia).
  set (m' := match s with Z.pos _ => Z.shiftl 8388608 s | 0 => 8388608 | _ => 0 end).
  assert (Hm' : m' = 8388608 * 2 ^ s).
  { unfold m'. destruct s as [|p|p]; [reflexivity| |lia].
    rewrite Z.shiftl_mul_pow2 by lia. reflexivity. }
  destruct (Z.div_eucl m' (Zpos m)) as [q r] eqn:Hqr.
  assert (Hq : q = m' / Zpos m) by (unfold Z.div; rewrite Hqr; reflexivity).
  apply (at_most_pow2_mono _ ((s + 1) + e')); [|unfold s; lia].
  simpl xorb. apply round_at_most_pow2; [|lia|unfold s; lia].
  assert (Hm23 : 2 ^ 23 ≤ Zpos m).
  { pose proof (digits2_lower m) as Hdig. rewrite Hd in Hdig. exact Hdig. }
  assert (Hps : 0 < 2 ^ s) by (apply Z.pow_pos_nonneg; lia).
  rewrite Hq, Hm'. split; [apply Z.div_pos; lia|].
  apply Z.div_lt_upper_bound; [lia|].
  rewrite Z.pow_add_r by lia. change (2 ^ 23) with 8388608 in Hm23.
  change (2 ^ 1) with 2. nia.
Qed.

(** Twice a normal number. *)
Lemma fmul_two_normal (m : positive) (e : Z) :
  Zpos (digits2_pos m) = 24 → -149 ≤ e →
  SFmul prec32 emax32 (of_Z32 2) (S754_finite false m e)
  = if e + 1 <=? 104 then S754_finite false m (e + 1) else S754_infinity false.
Proof.
  intros Hd He.
  change (of_Z32 2) with (S754_finite false 8388608 (-22)).
  change (SFmul prec32 emax32 (S754_finite false 8388608 (-22)) (S754_finite false m e))
    with (binary_round_aux prec32 emax32 false (Zpos (Pos.iter xO m 23)) (-22 + e)
            loc_Exact).
  replace (-22 + e) with (e + 1 - 23) by lia.
  apply (binary_round_aux_shifted_any prec32 emax32 false m 23 (e + 1)).
  unfold canonical_mantissa. apply Z.eqb_eq.
  rewrite Hd. unfold fexp, emin, prec32, emax32. lia.
Qed.

Lemma leb_one_inv (m : positive) (e : Z) :
  SFleb (of_Z32 1) (S754_finite false m e) = true → -23 ≤ e.
Proof.
  change (of_Z32 1) with (S754_finite false 8388608 (-23)).
  unfold SFleb, SFcompare.
  destruct (Z.compare_spec (-23) e) as [Heq|Hlt|Hgt]; try discriminate; lia.
Qed.

(** From [MIN_FREQ] on, the shift of a frequency is defined, for every
    sample rate of less than 32 bits. *)
Lemma fir_shift_defined (freq : spec_float) (rate : N) :
  valid32 freq = true → SFleb (of_Z32 Fir.MIN_FREQ) freq = true →
  (rate < 2 ^ 32)%N →
  is_Some (Fir.get_sample_shift freq rate).
Proof.
  intros Hv Hle Hrate. unfold Fir.get_sample_shift.
  assert (Hr : at_most_pow2 (of_Z32 (Z.of_N rate)) 33).
  { apply of_Z32_at_most_pow2. split; [lia|].
    change (2 ^ 32) with (Z.of_N (2 ^ 32)). lia. }
  assert (Hu : at_most_pow2
                 (@fdiv arith (f_of_int 1) (@fmul arith (f_of_int 2) freq)) 0).
  { destruct freq as [s|[|]| |[|] m e]; try discriminate.
    - exact I.
    - destruct (valid32_inv false m e Hv) as (Hd & He & Hc).
      pose proof (leb_one_inv m e Hle) as He'.
      assert (Hd24 : Zpos (digits2_pos m) = 24).
      { unfold fexp, emin, prec32, emax32 in Hc. lia. }
      change (at_most_pow2
                (SFdiv prec32 emax32 (of_Z32 1)
                   (SFmul prec32 emax32 (of_Z32 2) (S754_finite false m e))) 0).
      rewrite fmul_two_normal by lia.
      destruct (e + 1 <=? 104) eqn:Hov; [|exact I].
      apply Z.leb_le in Hov.
      apply reciprocal_at_most_pow2; [exact Hd24|lia]. }
  apply (to_unsigned_at_most_pow2 ULONG_WIDTH _ 34); [|done].
  apply (fmul_at_most_pow2 _ _ 0 33); [exact Hu|exact Hr|lia].
Qed.

(** C2, as the code has it. [get_sample_shift] has no guard and nothing
    clamps the frequency control: for a frequency of zero, of either sign,
    the shift is not defined, whatever the sample rate, and neither is a
    process call, whatever the block. From [MIN_FREQ], 1 Hz, on the shift
    is defined, for every sample rate of less than 32 bits. *)
Theorem fir_shift_unguarded :
  (∀ (s : bool) (rate : N), Fir.get_sample_shift (S754_zero s) rate = None)
  ∧ (∀ (filter : Fir.filter_type single) (s : bool) (n : nat) (stereo : bool),
       Fir.freq_control_value_l filter = S754_zero s →
       Fir.run_filter filter n stereo = None)
  ∧ (∀ (freq : single) (rate : N),
       valid32 freq = true → SFleb (of_Z32 Fir.MIN_FREQ) freq = true →
       (rate < 2 ^ 32)%N →
       ∃ shift, Fir.get_sample_shift freq rate = Some shift).
Proof.
  split; [exact fir_shift_of_zero|]. split.
  - intros filter s n stereo Hfreq. unfold Fir.run_filter.
    rewrite Hfreq, fir_shift_of_zero. reflexivity.
  - intros freq rate Hv Hle Hrate. apply fir_shift_defined; assumption.
Qed.

Lemma fir_shift_unguarded_witness :
  Fir.run_filter (Fir.set_freq fir_active zero zero) 2 true = None
  ∧ ∃ shift, Fir.get_sample_shift (of_Z32 440) 44100 = Some shift.
Proof.
  destruct fir_shift_unguarded as (_ & Hrun & Hshift).
  split.
  - apply (Hrun _ false). reflexivity.
  - apply Hshift; reflexivity.
Defined.

(** The shift of a frequency control of 0 is not defined, at 44100 Hz for
    instance, and the process call on the activated instance with that
    control is not either; the shift of a frequency of -1 is the
    conversion of -22050, not defined either. *)
Lemma fir_shift_undefined_at_zero :
  Fir.get_sample_shift zero 44100 = None
  ∧ @fdiv arith (f_of_int 1) (@fmul arith (f_of_int 2) zero) = S754_infinity false
  ∧ Fir.run_filter (Fir.set_freq fir_active zero zero) 2 true = None
  ∧ Fir.get_sample_shift (of_Z32 (-1)) 44100 = None
  ∧ trunc (@fmul arith (@fdiv arith (f_of_int 1) (@fmul arith (f_of_int 2) (of_Z32 (-1))))
                       (f_of_ulong 44100%N))
    = Some (-22050).
Proof. repeat split; vm_compute; reflexivity. Qed.

End FirShift.

(** *** The loop of a channel *)

Section ChannelLoopFacts.
Context {A St : Type}.
Variable step : A → St → option (A * St).
Implicit Types (input output xs ys : list A) (s : St).

(** A block that is longer than one of the two arrays has no defined
    behaviour: the loop reads or writes past the end. *)
Lemma channel_loop_short input output i s n :
  (0 < n)%nat →
  ¬ (N.to_nat i + n ≤ length input ∧ N.to_nat i + n ≤ length output)%nat →
  channel_loop step input output i s n = None.
Proof.
  revert output i s. induction n as [|n IH]; intros output i s Hn Hshort; [lia|].
  simpl. unfold load.
  destruct (input !! N.to_nat i) as [x|] eqn:Hx; [|reflexivity]. simpl.
  destruct (step x s) as [[y s']|]; [|reflexivity]. simpl.
  unfold store. case_bool_decide as Hi; [|reflexivity]. simpl.
  apply lookup_lt_Some in Hx.
  destruct n as [|n].
  - exfalso. apply Hshort. lia.
  - apply IH; [lia|]. rewrite length_insert.
    intros [H1 H2]. apply Hshort. lia.
Qed.

(** Within the arrays, the loop is [channel_run] on the [n] input samples
    from [i] on, and writes the [n] output cells from [i] on. *)
Lemma channel_loop_run input output i s n :
  (N.to_nat i + n ≤ length input)%nat → (N.to_nat i + n ≤ length output)%nat →
  channel_loop step input output i s n
  = (λ r, (take (N.to_nat i) output ++ r.1 ++ drop (N.to_nat i + n) output, r.2))
      <$> channel_run step s (take n (drop (N.to_nat i) input)).
Proof.
  revert output i s. induction n as [|n IH]; intros output i s Hin Hout.
  - simpl. rewrite Nat.add_0_r, take_drop. reflexivity.
  - destruct (lookup_lt_is_Some_2 input (N.to_nat i)) as [x Hx]; [lia|].
    rewrite (drop_S _ _ _ Hx). simpl. unfold load. rewrite Hx. simpl.
    destruct (step x s) as [[y s']|]; [|reflexivity]. simpl.
    unfold store. rewrite bool_decide_eq_true_2 by lia. simpl.
    rewrite IH by (rewrite ?length_insert; lia).
    replace (N.to_nat (i + 1)) with (S (N.to_nat i)) by lia.
    destruct (channel_run step s' (take n (drop (S (N.to_nat i)) input)))
      as [[ys s'']|]; [|reflexivity].
    simpl. f_equal. f_equal.
    rewrite (take_S_r _ _ y) by (apply list_lookup_insert_eq; lia).
    rewrite take_insert_ge by lia.
    rewrite drop_insert_lt by lia.
    rewrite <- app_assoc. simpl. rewrite Nat.add_succ_r. reflexivity.
Qed.

Lemma channel_run_length s xs ys s' :
  channel_run step s xs = Some (ys, s') → length ys = length xs.
Proof.
  revert s ys s'. induction xs as [|x xs IH]; intros s ys s'; simpl.
  - intros [= <- _]. reflexivity.
  - destruct (step x s) as [[y s1]|]; [|discriminate]. simpl.
    destruct (channel_run step s1 xs) as [[ys1 s2]|] eqn:Hrun; [|discriminate].
    simpl. intros [= <- _]. simpl. f_equal. eauto.
Qed.

(** A block in two parts. *)
Lemma channel_run_app s xs1 xs2 :
  channel_run step s (xs1 ++ xs2)
  = r1 ← channel_run step s xs1;
    r2 ← channel_run step r1.2 xs2;
    Some (r1.1 ++ r2.1, r2.2).
Proof.
  revert s. induction xs1 as [|x xs1 IH]; intros s; simpl.
  - destruct (channel_run step s xs2) as [[ys s']|]; reflexivity.
  - destruct (step x s) as [[y s1]|]; [|reflexivity]. simpl.
    rewrite IH.
    destruct (channel_run step s1 xs1) as [[ys1 s2]|]; [|reflexivity]. simpl.
    destruct (channel_run step s2 xs2) as [[ys2 s3]|]; reflexivity.
Qed.

(** The [k]-th output sample is made from the [k]-th input sample and the
    state after the [k] samples before it. *)
Lemma channel_run_lookup s xs ys s' k x :
  channel_run step s xs = Some (ys, s') → xs !! k = Some x →
  ∃ s1 y s2,
    channel_run step s (take k xs) = Some (take k ys, s1)
    ∧ step x s1 = Some (y, s2)
    ∧ ys !! k = Some y
    ∧ channel_run step s (take (S k) xs) = Some (take (S k) ys, s2).
Proof.
  revert s ys k. induction xs as [|x0 xs IH]; intros s ys k; [done|].
  simpl. destruct (step x0 s) as [[y0 s1]|] eqn:Hstep; [|discriminate]. simpl.
  destruct (channel_run step s1 xs) as [[ys1 s2]|] eqn:Hrun; [|discriminate].
  simpl. intros [= <- <-] Hx.
  destruct k as [|k].
  - injection Hx as ->. exists s, y0, s1. simpl. rewrite Hstep. simpl.
    rewrite take_0. simpl. done.
  - simpl in Hx. destruct (IH _ _ _ Hrun Hx) as (sa & y & sb & Ha & Hs & Hy & Hb).
    exists sa, y, sb. simpl. rewrite Hstep. simpl. rewrite Ha. simpl.
    split; [reflexivity|]. split; [exact Hs|]. split; [exact Hy|].
    simpl in Hb. rewrite Hb. reflexivity.
Qed.

(** A step that is defined on the states of [Inv], and keeps them in
    [Inv], is defined on every block. *)
Lemma channel_run_total (Inv : St → Prop) s xs :
  (∀ x s, Inv s → ∃ y s', step x s = Some (y, s') ∧ Inv s') →
  Inv s →
  ∃ ys s', channel_run step s xs = Some (ys, s') ∧ Inv s'.
Proof.
  intros Hstep. revert s. induction xs as [|x xs IH]; intros s Hs; simpl.
  - eauto.
  - destruct (Hstep x s Hs) as (y & s1 & -> & Hs1). simpl.
    destruct (IH s1 Hs1) as (ys & s2 & -> & Hs2). simpl. eauto.
Qed.

(** The rule for a property of the samples: from a state of [Inv] and
    for input samples of [Allowed], each output sample is in [R] with its
    input sample. *)
Lemma channel_run_rule (Inv : St → Prop) (Allowed : A → Prop) (R : A → A → Prop) s xs :
  (∀ x s, Allowed x → Inv s → ∃ y s', step x s = Some (y, s') ∧ R x y ∧ Inv s') →
  Inv s → Forall Allowed xs →
  ∃ ys s', channel_run step s xs = Some (ys, s') ∧ Forall2 R xs ys ∧ Inv s'.
Proof.
  intros Hstep. revert s. induction xs as [|x xs IH]; intros s Hs Hxs; simpl.
  - eexists _, _. split; [reflexivity|]. split; [constructor|exact Hs].
  - inversion Hxs as [|? ? Hx Hxs']; subst.
    destruct (Hstep x s Hx Hs) as (y & s1 & -> & HR & Hs1). simpl.
    destruct (IH s1 Hs1 Hxs') as (ys & s2 & -> & HRs & Hs2). simpl.
    eexists _, _. split; [reflexivity|]. split; [constructor; assumption|exact Hs2].
Qed.

(** With such a step the loop is defined exactly when the block is within
    the two arrays. *)
Lemma channel_loop_defined (Inv : St → Prop) input output i s n :
  (∀ x s, Inv s → ∃ y s', step x s = Some (y, s') ∧ Inv s') →
  Inv s →
  is_Some (channel_loop step input output i s n)
  ↔ n = 0%nat
    ∨ (N.to_nat i + n ≤ length input ∧ N.to_nat i + n ≤ length output)%nat.
Proof.
  intros Hstep Hs. split.
  - intros Hsome. destruct n as [|n]; [left; reflexivity|right].
    destruct (decide (N.to_nat i + S n ≤ length input
                      ∧ N.to_nat i + S n ≤ length output)%nat) as [Hok|Hshort];
      [exact Hok|].
    rewrite channel_loop_short in Hsome by (lia || exact Hshort).
    destruct Hsome as [? [=]].
  - intros [->|[Hin Hout]]; [eexists; reflexivity|].
    rewrite channel_loop_run by assumption.
    destruct (channel_run_total Inv s (take n (drop (N.to_nat i) input)) Hstep Hs)
      as (ys & s' & -> & _).
    eexists. reflexivity.
Qed.

(** What a defined loop from the start of the arrays leaves. *)
Lemma channel_loop_Some input output s n output' s' :
  channel_loop step input output 0 s n = Some (output', s') →
  ∃ ys, channel_run step s (take n input) = Some (ys, s')
        ∧ output' = block_written output ys n
        ∧ length ys = n
        ∧ (n ≤ length input)%nat
        ∧ (n = 0%nat ∨ n ≤ length output)%nat.
Proof.
  intros Hloop. destruct n as [|n].
  - injection Hloop as <- <-. exists []. rewrite take_0. simpl.
    unfold block_written. rewrite drop_0. repeat split; auto with lia.
  - destruct (decide (N.to_nat 0 + S n ≤ length input
                      ∧ N.to_nat 0 + S n ≤ length output)%nat) as [[Hin Hout]|Hshort].
    + rewrite channel_loop_run in Hloop by assumption.
      change (N.to_nat 0) with 0%nat in *. rewrite drop_0, take_0 in Hloop.
      destruct (channel_run step s (take (S n) input)) as [[ys s1]|] eqn:Hrun;
        [|discriminate].
      injection Hloop as <- <-. exists ys.
      apply channel_run_length in Hrun as Hlen.
      rewrite length_take in Hlen.
      split; [reflexivity|]. split; [reflexivity|].
      split; [lia|]. split; [lia|]. right. lia.
    + rewrite channel_loop_short in Hloop by (lia || exact Hshort). discriminate.
Qed.

(** A defined loop of one frame or more has its first step defined. *)
Lemma channel_loop_first input output i s n r :
  channel_loop step input output i s (S n) = Some r →
  ∃ x y s', input !! N.to_nat i = Some x ∧ step x s = Some (y, s').
Proof.
  simpl. unfold load.
  destruct (input !! N.to_nat i) as [x|]; [|discriminate]. simpl.
  destruct (step x s) as [[y s']|] eqn:Hstep; [|discriminate]. intros _.
  exists x, y, s'. split; [reflexivity|exact Hstep].
Qed.

Lemma take_add (l : list A) (n m : nat) :
  take (n + m) l = take n l ++ take m (drop n l).
Proof.
  revert l. induction n as [|n IH]; intros [|x l]; simpl;
    rewrite ?take_nil; try reflexivity.
  f_equal. apply IH.
Qed.

(** A block of [n + m] frames is a block of [n] frames and a block of [m]
    frames on the rest of the arrays, from the state the first one
    leaves. *)
Lemma channel_loop_split input output s n m output' s' :
  channel_loop step input output 0 s (n + m) = Some (output', s') →
  ∃ o1 s1 o2,
    channel_loop step input output 0 s n = Some (o1, s1)
    ∧ channel_loop step (drop n input) (drop n o1) 0 s1 m = Some (o2, s')
    ∧ output' = take n o1 ++ o2.
Proof.
  intros Hloop.
  destruct (channel_loop_Some _ _ _ _ _ _ Hloop) as (ys & Hrun & -> & Hlen & Hin & Hout).
  rewrite take_add, channel_run_app in Hrun.
  destruct (channel_run step s (take n input)) as [[ys1 s1]|] eqn:Hrun1;
    [|discriminate].
  cbn [mbind option_bind fst snd] in Hrun.
  destruct (channel_run step s1 (take m (drop n input))) as [[ys2 s2]|] eqn:Hrun2;
    [|discriminate].
  cbn [mbind option_bind fst snd] in Hrun. injection Hrun as <- <-.
  apply channel_run_length in Hrun1 as Hlen1.
  apply channel_run_length in Hrun2 as Hlen2.
  rewrite length_take in Hlen1, Hlen2. rewrite length_drop in Hlen2.
  assert (Hn : (n = 0 ∨ n ≤ length output)%nat) by lia.
  assert (Hloop1 : channel_loop step input output 0 s n
                   = Some (block_written output ys1 n, s1)).
  { destruct Hn as [->|Hn].
    - simpl in *. injection Hrun1 as <- <-. unfold block_written.
      rewrite drop_0. reflexivity.
    - rewrite channel_loop_run by (change (N.to_nat 0) with 0%nat; lia).
      change (N.to_nat 0) with 0%nat. rewrite drop_0, take_0, Hrun1.
      reflexivity. }
  exists (block_written output ys1 n), s1, (block_written (drop n output) ys2 m).
  split; [exact Hloop1|].
  assert (Hdrop : drop n (block_written output ys1 n) = drop n output).
  { unfold block_written. rewrite drop_app_length' by lia. reflexivity. }
  rewrite Hdrop. split.
  - destruct (decide (m = 0%nat)) as [->|Hm].
    + simpl in *. injection Hrun2 as <- <-. unfold block_written.
      rewrite drop_0. reflexivity.
    + rewrite channel_loop_run
        by (change (N.to_nat 0) with 0%nat; rewrite length_drop; lia).
      change (N.to_nat 0) with 0%nat. rewrite drop_0, take_0, Hrun2.
      reflexivity.
  - unfold block_written. rewrite take_app_length' by lia.
    rewrite drop_drop, app_assoc. reflexivity.
Qed.

End ChannelLoopFacts.

(** *** Iir: the loop *)

Section IirLoop.
Context `{Arith}.
Implicit Types (filter : Iir.filter_type single).

(** The loop of [run_filter] is the loop of the left channel and, in
    stereo, the loop of the right channel. *)
Lemma iir_run_loop_channels stereo coef_l coef_r filter i n :
  Iir.run_loop stereo coef_l coef_r filter i n
  = l ← channel_loop (iir_step coef_l) (Iir.input_buffer_l filter)
          (Iir.output_buffer_l filter) i (Iir.previous_sample_l filter) n;
    r ← (if stereo
         then channel_loop (iir_step coef_r) (Iir.input_buffer_r filter)
                (Iir.output_buffer_r filter) i (Iir.previous_sample_r filter) n
         else Some (Iir.output_buffer_r filter, Iir.previous_sample_r filter));
    Some (Iir.set_right (Iir.set_left filter l.1 l.2) r.1 r.2).
Proof.
  revert filter i. induction n as [|n IH]; intros filter i.
  - destruct filter, stereo; reflexivity.
  - cbn [Iir.run_loop channel_loop]. unfold Iir.run_sample.
    destruct (load (Iir.input_buffer_l filter) i) as [xl|]; [|reflexivity].
    cbn [mbind option_bind iir_step].
    destruct (store (Iir.output_buffer_l filter) i _) as [ol|]; [|reflexivity].
    cbn [mbind option_bind].
    destruct stereo.
    + cbn [Iir.input_buffer_r Iir.output_buffer_r Iir.previous_sample_r Iir.set_left].
      destruct (load (Iir.input_buffer_r filter) i) as [xr|];
        [|cbn [mbind option_bind];
          destruct (channel_loop _ _ ol _ _ _); reflexivity].
      cbn [mbind option_bind].
      destruct (store (Iir.output_buffer_r filter) i _) as [or|];
        [|cbn [mbind option_bind];
          destruct (channel_loop _ _ ol _ _ _); reflexivity].
      cbn [mbind option_bind]. rewrite IH. destruct filter; reflexivity.
    + cbn [mbind option_bind]. rewrite IH. destruct filter; reflexivity.
Qed.

Lemma iir_step_total (coef : single) :
  ∀ x s, (λ _ : single, True) s →
         ∃ y s', iir_step coef x s = Some (y, s') ∧ (λ _ : single, True) s'.
Proof. intros x s _. eexists _, _. split; [reflexivity|exact I]. Qed.

(** The state of a channel is the last output sample. *)
Lemma iir_run_state (coef previous : single) xs ys previous' :
  channel_run (iir_step coef) previous xs = Some (ys, previous') →
  earlier [previous] ys (length xs) 1 = Some previous'.
Proof.
  revert previous ys. induction xs as [|x xs IH]; intros previous ys; simpl.
  - intros [= <- <-]. reflexivity.
  - destruct (channel_run _ _ xs) as [[ys1 p1]|] eqn:Hrun; [|discriminate].
    simpl. intros [= <- <-]. apply IH in Hrun. unfold earlier in *.
    rewrite decide_True by lia. simpl. rewrite Nat.sub_0_r.
    destruct (decide (1 ≤ length xs)%nat) as [Hle|Hgt].
    + destruct (length xs) as [|m] eqn:Hm; [lia|]. simpl in *.
      rewrite Nat.sub_0_r in Hrun. exact Hrun.
    + replace (length xs) with 0%nat in * by lia. simpl in *. exact Hrun.
Qed.

Lemma iir_channel_loop_after (coef previous : single) input output n output' previous' :
  channel_loop (iir_step coef) input output 0 previous n = Some (output', previous') →
  iir_channel_after coef previous input output output' previous' n.
Proof.
  intros Hloop.
  destruct (channel_loop_Some _ _ _ _ _ _ _ Hloop)
    as (ys & Hrun & -> & Hlen & Hin & Hout).
  unfold iir_channel_after, block_written.
  split; [|split; [|split]].
  - rewrite length_app, length_drop. lia.
  - rewrite drop_app_length' by (symmetry; exact Hlen). reflexivity.
  - intros k Hk.
    destruct (lookup_lt_is_Some_2 (take n input) k) as [x Hx];
      [rewrite length_take; lia|].
    destruct (channel_run_lookup _ _ _ _ _ _ _ Hrun Hx)
      as (s1 & y & s2 & Hrun1 & Hstep & Hy & _).
    apply iir_run_state in Hrun1.
    rewrite length_take, length_take in Hrun1.
    replace (k `min` (n `min` length input))%nat with k in Hrun1 by lia.
    injection Hstep as <- _.
    exists x, s1. split; [apply lookup_take_Some in Hx; tauto|].
    split.
    + unfold earlier in *. destruct (decide (1 ≤ k)%nat); [|exact Hrun1].
      rewrite lookup_app_l by lia.
      rewrite lookup_take_lt in Hrun1 by lia. exact Hrun1.
    + rewrite lookup_app_l by lia. exact Hy.
  - apply iir_run_state in Hrun. rewrite length_take in Hrun.
    replace (n `min` length input)%nat with n in Hrun by lia.
    unfold earlier in *. destruct (decide (1 ≤ n)%nat); [|exact Hrun].
    rewrite lookup_app_l by lia. exact Hrun.
Qed.

End IirLoop.

(** *** Iir: blocks and samples *)

Section IirBlocks.
Context `{Arith}.
Implicit Types (filter : Iir.filter_type single).

(** X1. [run_filter] of iir.c is defined exactly when the block is within
    the arrays of the audio ports of the channels it processes: it needs
    no activation, and reads or writes past the end of an array
    otherwise. *)
Theorem iir_run_defined filter n stereo :
  is_Some (Iir.run_filter filter n stereo)
  ↔ (n ≤ length (Iir.input_buffer_l filter)
     ∧ n ≤ length (Iir.output_buffer_l filter)
     ∧ (stereo = true →
        n ≤ length (Iir.input_buffer_r filter)
        ∧ n ≤ length (Iir.output_buffer_r filter)))%nat.
Proof.
  unfold Iir.run_filter. rewrite iir_run_loop_channels.
  pose proof (channel_loop_defined (iir_step (Iir.coef_control_value_l filter))
                (λ _, True) (Iir.input_buffer_l filter) (Iir.output_buffer_l filter)
                0 (Iir.previous_sample_l filter) n (iir_step_total _) I) as Hl.
  pose proof (channel_loop_defined (iir_step (Iir.coef_control_value_r filter))
                (λ _, True) (Iir.input_buffer_r filter) (Iir.output_buffer_r filter)
                0 (Iir.previous_sample_r filter) n (iir_step_total _) I) as Hr.
  change (N.to_nat 0) with 0%nat in *. simpl in Hl, Hr.
  destruct (channel_loop _ (Iir.input_buffer_l filter) _ _ _ _) as [l|].
  - assert (Hlok : (n = 0 ∨ n ≤ length (Iir.input_buffer_l filter)
                              ∧ n ≤ length (Iir.output_buffer_l filter))%nat)
      by (apply Hl; eexists; reflexivity).
    cbn [mbind option_bind]. destruct stereo.
    + destruct (channel_loop _ (Iir.input_buffer_r filter) _ _ _ _) as [r|].
      * assert (Hrok : (n = 0 ∨ n ≤ length (Iir.input_buffer_r filter)
                                ∧ n ≤ length (Iir.output_buffer_r filter))%nat)
          by (apply Hr; eexists; reflexivity).
        split; [intros _; lia|intros _; eexists; reflexivity].
      * split; [intros [? [=]]|].
        intros (? & ? & Hs). destruct (Hs eq_refl) as [? ?].
        assert (Hn : is_Some (@None (list single * single))) by (apply Hr; lia).
        destruct Hn as [? [=]].
    + split; [intros _|intros _; eexists; reflexivity].
      split; [lia|]. split; [lia|discriminate].
  - cbn [mbind option_bind]. split; [intros [? [=]]|].
    intros (? & ? & _).
    assert (Hn : is_Some (@None (list single * single))) by (apply Hl; lia).
    destruct Hn as [? [=]].
Qed.

(** X2. What a block leaves, sample by sample. Each output sample is
    [input * (1 - fabs(coef)) + previous * coef] with the output sample
    before it, the first one with the sample stored in the instance; the
    last one is stored for the next block. Cells of the output arrays
    beyond the block, the arrays of the input ports and the controls are
    left as they are, and so is the right channel by the mono plugin. *)
Theorem iir_run_recurrence filter n stereo filter' :
  Iir.run_filter filter n stereo = Some filter' →
  iir_channel_after (Iir.coef_control_value_l filter) (Iir.previous_sample_l filter)
    (Iir.input_buffer_l filter) (Iir.output_buffer_l filter)
    (Iir.output_buffer_l filter') (Iir.previous_sample_l filter') n
  ∧ (if stereo
     then iir_channel_after (Iir.coef_control_value_r filter)
            (Iir.previous_sample_r filter)
            (Iir.input_buffer_r filter) (Iir.output_buffer_r filter)
            (Iir.output_buffer_r filter') (Iir.previous_sample_r filter') n
     else Iir.output_buffer_r filter' = Iir.output_buffer_r filter
          ∧ Iir.previous_sample_r filter' = Iir.previous_sample_r filter)
  ∧ Iir.input_buffer_l filter' = Iir.input_buffer_l filter
  ∧ Iir.input_buffer_r filter' = Iir.input_buffer_r filter
  ∧ Iir.coef_control_value_l filter' = Iir.coef_control_value_l filter
  ∧ Iir.coef_control_value_r filter' = Iir.coef_control_value_r filter.
Proof.
  unfold Iir.run_filter. rewrite iir_run_loop_channels.
  destruct (channel_loop _ (Iir.input_buffer_l filter) _ _ _ _) as [[ol pl]|] eqn:Hl;
    [|discriminate].
  cbn [mbind option_bind fst snd].
  apply iir_channel_loop_after in Hl.
  destruct stereo.
  - destruct (channel_loop _ (Iir.input_buffer_r filter) _ _ _ _) as [[or pr]|] eqn:Hr;
      [|discriminate].
    cbn [mbind option_bind fst snd]. intros [= <-].
    apply iir_channel_loop_after in Hr.
    destruct filter; simpl in *. done.
  - cbn [mbind option_bind fst snd]. intros [= <-].
    destruct filter; simpl in *. done.
Qed.

(** X3. The state persists from one call to the next: a block of [n + m]
    frames gives what a block of [n] frames and, once the host has
    connected the audio ports [n] frames further, a block of [m] frames
    give. *)
Theorem iir_block_split filter n m stereo filter' :
  Iir.run_filter filter (n + m) stereo = Some filter' →
  ∃ filter1 filter2 filter3,
    Iir.run_filter filter n stereo = Some filter1
    ∧ iir_next_block filter1 n = Some filter2
    ∧ Iir.run_filter filter2 m stereo = Some filter3
    ∧ Iir.output_buffer_l filter'
      = take n (Iir.output_buffer_l filter1) ++ Iir.output_buffer_l filter3
    ∧ Iir.output_buffer_r filter'
      = take n (Iir.output_buffer_r filter1) ++ Iir.output_buffer_r filter3
    ∧ Iir.previous_sample_l filter' = Iir.previous_sample_l filter3
    ∧ Iir.previous_sample_r filter' = Iir.previous_sample_r filter3.
Proof.
  unfold Iir.run_filter. rewrite !iir_run_loop_channels.
  destruct filter as [cl il ol cr ir or pl pr].
  cbn [Iir.coef_control_value_l Iir.input_buffer_l Iir.output_buffer_l
       Iir.coef_control_value_r Iir.input_buffer_r Iir.output_buffer_r
       Iir.previous_sample_l Iir.previous_sample_r].
  destruct (channel_loop _ il _ _ _ (n + m)) as [[ol' pl']|] eqn:Hl; [|discriminate].
  cbn [mbind option_bind fst snd].
  apply channel_loop_split in Hl as (ol1 & pl1 & ol2 & Hl1 & Hl2 & ->).
  rewrite Hl1. cbn [mbind option_bind fst snd].
  destruct stereo.
  - destruct (channel_loop _ ir _ _ _ (n + m)) as [[or' pr']|] eqn:Hr; [|discriminate].
    cbn [mbind option_bind fst snd]. intros [= <-].
    apply channel_loop_split in Hr as (or1 & pr1 & or2 & Hr1 & Hr2 & ->).
    rewrite Hr1. cbn [mbind option_bind fst snd].
    eexists _, _, _. split; [reflexivity|].
    split; [reflexivity|].
    rewrite iir_run_loop_channels. simpl. rewrite Hl2. simpl. rewrite Hr2. simpl.
    split; [reflexivity|]. simpl. auto.
  - cbn [mbind option_bind fst snd]. intros [= <-].
    eexists _, _, _. split; [reflexivity|].
    split; [reflexivity|].
    rewrite iir_run_loop_channels. simpl. rewrite Hl2. simpl.
    split; [reflexivity|]. simpl. rewrite take_drop. auto.
Qed.

End IirBlocks.

(** *** Iir: a coefficient of zero *)

Section IirDry.
Import IEEE.
#[local] Existing Instance IEEE.arith.

Lemma dmul_one_r (s : bool) (m : positive) (e : Z) :
  bounded prec64 emax64 m e = true →
  @dmul arith (S754_finite s m e) (@d_of_int arith 1) = S754_finite s m e.
Proof.
  intros Hb.
  change (@dmul arith (S754_finite s m e) (@d_of_int arith 1))
    with (binary_round_aux prec64 emax64 (xorb s false)
            (Zpos (m * 4503599627370496)) (e + -52) loc_Exact).
  rewrite xorb_false_r, Pos.mul_comm.
  replace (4503599627370496 * m)%positive with (Pos.iter xO m 52) by reflexivity.
  replace (e + -52)%Z with (e - 52)%Z by lia.
  apply binary_round_aux_shifted, Hb.
Qed.

(** With a coefficient of zero the output sample is the input sample:
    [input * (1 - 0) + previous * 0]. *)
Lemma iir_one_pole_dry (x previous : spec_float) (s : bool) :
  finite_sample x → finite_sample previous →
  same_but_zero_sign x (Iir.one_pole x (S754_zero s) previous).
Proof.
  intros [Hfx Hvx] [Hfp Hvp]. unfold Iir.one_pole.
  change (@dsub arith (d_of_int 1) (@fabs arith (@f2d arith (S754_zero s))))
    with (@d_of_int arith 1).
  assert (Ep : ∃ sp, @f2d arith (@fmul arith previous (S754_zero s)) = S754_zero sp).
  { destruct previous as [sp|sp| |sp m e]; try discriminate; eexists; reflexivity. }
  destruct Ep as [sp ->].
  destruct x as [sx|sx| |sx m e]; try discriminate.
  - destruct sx, sp; unfold same_but_zero_sign; vm_compute; auto.
  - destruct (f2d_finite sx m e Hvx) as (k & -> & Hb).
    rewrite dmul_one_r by exact Hb.
    change (@dadd arith (S754_finite sx (Pos.iter xO m k) (e - Zpos k)) (S754_zero sp))
      with (S754_finite sx (Pos.iter xO m k) (e - Zpos k)).
    rewrite d2f_shifted by exact Hvx. left. reflexivity.
Qed.

Lemma iir_dry_channel_run (coef previous : spec_float) input output n output' previous' :
  iir_dry_channel coef previous input n →
  channel_loop (iir_step coef) input output 0 previous n = Some (output', previous') →
  passes_input input output' n.
Proof.
  intros ([s ->] & Hp & Hin) Hloop.
  destruct (channel_loop_Some _ _ _ _ _ _ _ Hloop) as (ys & Hrun & -> & Hlen & _).
  destruct (channel_run_rule (@iir_step arith (S754_zero s)) finite_sample finite_sample
              same_but_zero_sign previous (take n input)) as (ys' & s' & Hrun' & HR & _).
  { intros x p Hx Hp'. eexists _, _. split; [reflexivity|].
    pose proof (iir_one_pole_dry x p s Hx Hp') as Hsame.
    split; [exact Hsame|].
    eapply same_but_zero_sign_finite; eassumption. }
  { exact Hp. }
  { exact Hin. }
  pose proof (eq_trans (eq_sym Hrun) Hrun') as Heq. injection Heq as <- <-.
  intros k Hk.
  destruct (lookup_lt_is_Some_2 ys k) as [y Hy].
  { eapply Nat.lt_le_trans; [exact Hk|]. rewrite <- Hlen. apply Nat.le_refl. }
  destruct (Forall2_lookup_r _ _ _ _ _ HR Hy) as (x & Hx & Hsame).
  exists x, y. split; [apply lookup_take_Some in Hx; tauto|].
  split; [|exact Hsame].
  unfold block_written. rewrite lookup_app_l; [exact Hy|].
  eapply Nat.lt_le_trans; [exact Hk|]. rewrite <- Hlen. apply Nat.le_refl.
Qed.

(** X4. The header of iir.c has it that at a coefficient of 0 the signal is
    unaffected. With a coefficient of zero, of either sign, a stored
    sample that is a number and a block of numbers, each output sample is
    the input sample, up to the sign of a zero. *)
Theorem iir_coef_zero_passes_input (filter filter' : Iir.filter_type single)
    (n : nat) (stereo : bool) :
  Iir.run_filter filter n stereo = Some filter' →
  (iir_dry_channel (Iir.coef_control_value_l filter) (Iir.previous_sample_l filter)
     (Iir.input_buffer_l filter) n →
   passes_input (Iir.input_buffer_l filter) (Iir.output_buffer_l filter') n)
  ∧ (stereo = true →
     iir_dry_channel (Iir.coef_control_value_r filter) (Iir.previous_sample_r filter)
       (Iir.input_buffer_r filter) n →
     passes_input (Iir.input_buffer_r filter) (Iir.output_buffer_r filter') n).
Proof.
  unfold Iir.run_filter. rewrite (@iir_run_loop_channels arith).
  destruct (channel_loop _ (Iir.input_buffer_l filter) _ _ _ _) as [[ol pl]|] eqn:Hl;
    [|discriminate].
  cbn [mbind option_bind fst snd].
  destruct stereo.
  - destruct (channel_loop _ (Iir.input_buffer_r filter) _ _ _ _) as [[or pr]|] eqn:Hr;
      [|discriminate].
    cbn [mbind option_bind fst snd]. intros [= <-].
    destruct filter; simpl in *. split.
    + intros Hdry. eapply iir_dry_channel_run; eassumption.
    + intros _ Hdry. eapply iir_dry_channel_run; eassumption.
  - cbn [mbind option_bind fst snd]. intros [= <-].
    destruct filter; simpl in *. split; [|discriminate].
    intros Hdry. eapply iir_dry_channel_run; eassumption.
Qed.

End IirDry.

(** *** Reson: the loop *)

Section EarlierFacts.
Context {A : Type}.
Implicit Types (past samples : list A).

Lemma earlier_cons past y samples k d :
  earlier past (y :: samples) (S k) d = earlier (y :: past) samples k d.
Proof.
  unfold earlier.
  destruct (decide (d ≤ S k)%nat) as [H1|H1], (decide (d ≤ k)%nat) as [H2|H2];
    try lia.
  - replace (S k - d)%nat with (S (k - d)) by lia. reflexivity.
  - replace (S k - d)%nat with 0%nat by lia.
    replace (d - k - 1)%nat with 0%nat by lia. reflexivity.
  - replace (d - k - 1)%nat with (S (d - S k - 1)) by lia. reflexivity.
Qed.

(** Only the block counts once it has [d] samples, and only the first
    [d] samples of the past before. *)
Lemma earlier_past past past' samples k d :
  (∀ j, (j < d)%nat → past !! j = past' !! j) →
  earlier past samples k d = earlier past' samples k d.
Proof.
  intros Hsame. unfold earlier. destruct (decide (d ≤ k)%nat); [reflexivity|].
  apply Hsame. lia.
Qed.

Lemma earlier_app past samples rest k d :
  (0 < d)%nat → (k ≤ length samples)%nat →
  earlier past (samples ++ rest) k d = earlier past samples k d.
Proof.
  intros Hd Hk. unfold earlier. destruct (decide (d ≤ k)%nat); [|reflexivity].
  apply lookup_app_l. lia.
Qed.

Lemma earlier_take past samples k d :
  (0 < d)%nat → earlier past (take k samples) k d = earlier past samples k d.
Proof.
  intros Hd. unfold earlier. destruct (decide (d ≤ k)%nat); [|reflexivity].
  apply lookup_take_lt. lia.
Qed.

End EarlierFacts.

Section ResonLoop.
Context `{Arith} `{!Pow} `{!Trig}.
Implicit Types (filter : Reson.filter_type single) (cells : list single).

Lemma reson_filter_sample_step input output i gain radius angle history :
  Reson.filter_sample input output i gain radius angle history
  = x ← load input i;
    r ← reson_step gain radius angle x history;
    output ← store output i r.1;
    Some (output, r.2).
Proof.
  unfold Reson.filter_sample, reson_step.
  destruct (load input i) as [x|]; [|reflexivity]. cbn [mbind option_bind].
  destruct (load_block history 0) as [h0|]; [|reflexivity]. cbn [mbind option_bind].
  destruct (load_block history 1) as [h1|]; [|reflexivity]. cbn [mbind option_bind].
  destruct (store_block history 1 h0) as [history1|]; cbn [mbind option_bind].
  - destruct (store_block history1 0 _) as [history2|]; cbn [mbind option_bind fst snd].
    + reflexivity.
    + destruct (store output i _); reflexivity.
  - destruct (store output i _); reflexivity.
Qed.

Lemma reson_filter_loop_channel input output i gain radius angle history n :
  Reson.filter_loop input output i gain radius angle history n
  = channel_loop (reson_step gain radius angle) input output i history n.
Proof.
  revert output i history. induction n as [|n IH]; intros output i history;
    [reflexivity|].
  cbn [Reson.filter_loop channel_loop]. rewrite reson_filter_sample_step.
  destruct (load input i) as [x|]; [|reflexivity]. cbn [mbind option_bind].
  destruct (reson_step gain radius angle x history) as [[y history1]|];
    [|reflexivity].
  cbn [mbind option_bind fst snd].
  destruct (store output i y) as [output1|]; [|reflexivity].
  cbn [mbind option_bind]. apply IH.
Qed.

Lemma reson_step_Some gain radius angle x cells :
  (2 ≤ length cells)%nat →
  ∃ h0 h1,
    cells !! 0%nat = Some h0 ∧ cells !! 1%nat = Some h1
    ∧ reson_step gain radius angle x (Live cells)
      = Some (Reson.two_pole gain radius angle x h0 h1,
              Live (<[0%nat := Reson.two_pole gain radius angle x h0 h1]>
                      (<[1%nat := h0]> cells))).
Proof.
  intros Hlen.
  destruct cells as [|h0 [|h1 cells]]; simpl in Hlen; try lia.
  exists h0, h1. split; [reflexivity|]. split; reflexivity.
Qed.

Lemma reson_step_inv gain radius angle x history y history' :
  reson_step gain radius angle x history = Some (y, history') →
  ∃ cells, history = Live cells ∧ (2 ≤ length cells)%nat.
Proof.
  unfold reson_step. destruct history as [| |cells|]; try discriminate.
  intros Hstep. exists cells. split; [reflexivity|].
  destruct cells as [|h0 [|h1 cells]]; try discriminate. simpl. lia.
Qed.

Lemma reson_step_total gain radius angle :
  ∀ x s, (λ history, ∃ cells, history = Live cells ∧ (2 ≤ length cells)%nat) s →
         ∃ y s', reson_step gain radius angle x s = Some (y, s')
                 ∧ (λ history, ∃ cells, history = Live cells
                                        ∧ (2 ≤ length cells)%nat) s'.
Proof.
  intros x s (cells & -> & Hlen).
  destruct (reson_step_Some gain radius angle x cells Hlen) as (h0 & h1 & _ & _ & ->).
  eexists _, _. split; [reflexivity|].
  eexists. split; [reflexivity|]. rewrite !length_insert. exact Hlen.
Qed.

(** The history after a block: the last two output samples. *)
Lemma reson_run_state gain radius angle cells xs ys history' :
  channel_run (reson_step gain radius angle) (Live cells) xs = Some (ys, history') →
  ∃ cells',
    history' = Live cells'
    ∧ length cells' = length cells
    ∧ cells' !! 0%nat = earlier cells ys (length xs) 1
    ∧ cells' !! 1%nat = earlier cells ys (length xs) 2
    ∧ drop 2 cells' = drop 2 cells.
Proof.
  revert cells ys. induction xs as [|x xs IH]; intros cells ys; simpl.
  - intros [= <- <-]. exists cells. done.
  - destruct (reson_step gain radius angle x (Live cells)) as [[y history1]|] eqn:Hstep;
      [|discriminate].
    cbn [mbind option_bind].
    destruct (reson_step_inv _ _ _ _ _ _ _ Hstep) as (cells0 & [= <-] & Hlen).
    destruct (reson_step_Some gain radius angle x cells Hlen)
      as (h0 & h1 & Hh0 & Hh1 & Hstep').
    rewrite Hstep' in Hstep. injection Hstep as <- <-.
    destruct (channel_run _ _ xs) as [[ys1 history2]|] eqn:Hrun; [|discriminate].
    cbn [mbind option_bind]. intros [= <- <-].
    destruct (IH _ _ Hrun) as (cells' & -> & Hlen' & Hc0 & Hc1 & Hdrop).
    exists cells'. split; [reflexivity|].
    split; [rewrite Hlen', !length_insert; reflexivity|].
    assert (Hpast : ∀ j, (j < 2)%nat →
              (Reson.two_pole gain radius angle x h0 h1 :: cells) !! j
              = <[0%nat := Reson.two_pole gain radius angle x h0 h1]>
                  (<[1%nat := h0]> cells) !! j).
    { intros j Hj. destruct cells as [|c0 [|c1 cells]]; simpl in Hlen; try lia.
      injection Hh0 as ->. destruct j as [|[|j]]; try lia; reflexivity. }
    split; [|split].
    + rewrite Hc0, earlier_cons. symmetry. apply earlier_past.
      intros j Hj. apply Hpast. lia.
    + rewrite Hc1, earlier_cons. symmetry. apply earlier_past. exact Hpast.
    + rewrite Hdrop. destruct cells as [|c0 [|c1 cells]]; simpl in Hlen; try lia.
      reflexivity.
Qed.

Lemma reson_channel_loop_after freq bw rate input output cells n output' history' :
  Reson.filter_channel input output freq bw (Live cells) n rate
  = Some (output', history') →
  reson_channel_after freq bw rate input output cells output' history' n.
Proof.
  unfold Reson.filter_channel, reson_channel_after.
  set (radius := Reson.pole_radius bw rate).
  set (angle := Reson.pole_angle freq radius rate).
  set (gain := Reson.gain_factor radius angle).
  rewrite reson_filter_loop_channel. intros Hloop.
  destruct (channel_loop_Some _ _ _ _ _ _ _ Hloop)
    as (ys & Hrun & -> & Hlen & Hin & Hout).
  unfold block_written.
  split; [rewrite length_app, length_drop; lia|].
  split; [rewrite drop_app_length' by (symmetry; exact Hlen); reflexivity|].
  split.
  - intros k Hk.
    destruct (lookup_lt_is_Some_2 (take n input) k) as [x Hx];
      [rewrite length_take; lia|].
    destruct (channel_run_lookup _ _ _ _ _ _ _ Hrun Hx)
      as (s1 & y & s2 & Hrun1 & Hstep & Hy & _).
    destruct (reson_run_state _ _ _ _ _ _ _ Hrun1)
      as (cells1 & -> & Hlen1 & Hc0 & Hc1 & _).
    rewrite !length_take in Hc0, Hc1.
    replace (k `min` (n `min` length input))%nat with k in Hc0, Hc1 by lia.
    rewrite earlier_take in Hc0, Hc1 by lia.
    destruct (reson_step_inv _ _ _ _ _ _ _ Hstep) as (cells0 & [= <-] & Hlen2).
    destruct (reson_step_Some gain radius angle x cells1 Hlen2)
      as (h0 & h1 & Hh0 & Hh1 & Hstep').
    rewrite Hstep' in Hstep. injection Hstep as <- _.
    exists x, h0, h1. split; [apply lookup_take_Some in Hx; tauto|].
    rewrite !earlier_app by lia.
    split; [rewrite <- Hc0; exact Hh0|].
    split; [rewrite <- Hc1; exact Hh1|].
    rewrite lookup_app_l by lia. exact Hy.
  - destruct (reson_run_state _ _ _ _ _ _ _ Hrun)
      as (cells' & -> & Hlen' & Hc0 & Hc1 & Hdrop).
    rewrite !length_take in Hc0, Hc1.
    replace (n `min` length input)%nat with n in Hc0, Hc1 by lia.
    exists cells'. rewrite !earlier_app by lia. done.
Qed.

End ResonLoop.

(** *** Reson: blocks and samples *)

Section ResonBlocks.
Context `{Arith} `{!Pow} `{!Trig}.
Implicit Types (filter : Reson.filter_type single) (cells : list single).

Lemma reson_channel_defined input output freq bw history n rate :
  is_Some (Reson.filter_channel input output freq bw history n rate)
  ↔ n = 0%nat ∨ reson_channel_ready input output history n.
Proof.
  unfold Reson.filter_channel. rewrite reson_filter_loop_channel.
  unfold reson_channel_ready. split.
  - intros [r Hr]. destruct n as [|n]; [left; reflexivity|right].
    destruct (channel_loop_first _ _ _ _ _ _ _ Hr) as (x & y & s' & _ & Hstep).
    apply reson_step_inv in Hstep as (cells & -> & Hlen).
    destruct (decide (N.to_nat 0 + S n ≤ length input
                      ∧ N.to_nat 0 + S n ≤ length output)%nat) as [[? ?]|Hshort].
    + change (N.to_nat 0) with 0%nat in *. split; [lia|]. split; [lia|]. eauto.
    + rewrite channel_loop_short in Hr by (lia || exact Hshort). discriminate.
  - intros [->|(Hin & Hout & cells & -> & Hlen)]; [eexists; reflexivity|].
    eapply channel_loop_defined.
    + apply reson_step_total.
    + eexists. split; [reflexivity|exact Hlen].
    + right. change (N.to_nat 0) with 0%nat. lia.
Qed.

(** X6. [run_filter] of reson.c is defined, for a block of one frame or more,
    exactly when the block is within the arrays of the audio ports and the
    history is a live block of two cells, for each channel it processes:
    a call before [activate_filter] or after [deactivate_filter] is not,
    and neither is a stereo call on an instance activated as mono. *)
Theorem reson_run_defined filter n stereo :
  is_Some (Reson.run_filter filter n stereo)
  ↔ n = 0%nat
    ∨ (reson_channel_ready (Reson.input_buffer_l filter) (Reson.output_buffer_l filter)
         (Reson.history_l filter) n
       ∧ (stereo = true →
          reson_channel_ready (Reson.input_buffer_r filter)
            (Reson.output_buffer_r filter) (Reson.history_r filter) n)).
Proof.
  unfold Reson.run_filter.
  pose proof (reson_channel_defined (Reson.input_buffer_l filter)
                (Reson.output_buffer_l filter) (Reson.freq_control_value_l filter)
                (Reson.bw_control_value_l filter) (Reson.history_l filter) n
                (Reson.sample_rate filter)) as Hl.
  pose proof (reson_channel_defined (Reson.input_buffer_r filter)
                (Reson.output_buffer_r filter) (Reson.freq_control_value_r filter)
                (Reson.bw_control_value_r filter) (Reson.history_r filter) n
                (Reson.sample_rate filter)) as Hr.
  destruct (Reson.filter_channel (Reson.input_buffer_l filter) _ _ _ _ _ _)
    as [[ol hl]|].
  - cbn [mbind option_bind]. destruct stereo.
    + cbn [Reson.set_left Reson.input_buffer_r Reson.output_buffer_r
           Reson.freq_control_value_r Reson.bw_control_value_r Reson.history_r
           Reson.sample_rate].
      destruct (Reson.filter_channel (Reson.input_buffer_r filter) _ _ _ _ _ _)
        as [[or hr]|].
      * cbn [mbind option_bind]. split; [intros _|intros _; eexists; reflexivity].
        destruct (proj1 Hl) as [->|Hlok]; [eexists; reflexivity|left; reflexivity|].
        destruct (proj1 Hr) as [->|Hrok]; [eexists; reflexivity|left; reflexivity|].
        right. split; [exact Hlok|intros _; exact Hrok].
      * cbn [mbind option_bind]. split; [intros [? [=]]|].
        intros [->|[_ Hrok]].
        -- destruct (proj2 Hr) as [? [=]]. left. reflexivity.
        -- destruct (proj2 Hr) as [? [=]]. right. apply Hrok. reflexivity.
    + split; [intros _|intros _; eexists; reflexivity].
      destruct (proj1 Hl) as [->|Hlok]; [eexists; reflexivity|left; reflexivity|].
      right. split; [exact Hlok|discriminate].
  - cbn [mbind option_bind]. split; [intros [? [=]]|].
    intros [->|[Hlok _]].
    + destruct (proj2 Hl) as [? [=]]. left. reflexivity.
    + destruct (proj2 Hl) as [? [=]]. right. exact Hlok.
Qed.

(** X7. What a block leaves, sample by sample: the two-pole recurrence on the
    output samples, started from the history of the channel, which holds
    the last two output samples afterwards. The rest of the output arrays
    is left as it is, and so is the right channel by the mono plugin. *)
Theorem reson_run_recurrence filter n stereo filter' cells_l :
  Reson.history_l filter = Live cells_l →
  Reson.run_filter filter n stereo = Some filter' →
  reson_channel_after (Reson.freq_control_value_l filter)
    (Reson.bw_control_value_l filter) (Reson.sample_rate filter)
    (Reson.input_buffer_l filter) (Reson.output_buffer_l filter) cells_l
    (Reson.output_buffer_l filter') (Reson.history_l filter') n
  ∧ (∀ cells_r,
       stereo = true → Reson.history_r filter = Live cells_r →
       reson_channel_after (Reson.freq_control_value_r filter)
         (Reson.bw_control_value_r filter) (Reson.sample_rate filter)
         (Reson.input_buffer_r filter) (Reson.output_buffer_r filter) cells_r
         (Reson.output_buffer_r filter') (Reson.history_r filter') n)
  ∧ (stereo = false →
     Reson.output_buffer_r filter' = Reson.output_buffer_r filter
     ∧ Reson.history_r filter' = Reson.history_r filter).
Proof.
  destruct filter as [fl bl fr br il ol ir or rate hl hr].
  unfold Reson.run_filter. simpl. intros ->.
  destruct (Reson.filter_channel il ol fl bl (Live cells_l) n rate)
    as [[ol' hl']|] eqn:Hl; [|discriminate].
  cbn [mbind option_bind]. apply reson_channel_loop_after in Hl.
  destruct stereo.
  - destruct (Reson.filter_channel ir or fr br hr n rate)
      as [[or' hr']|] eqn:Hr; [|discriminate].
    cbn [mbind option_bind]. intros [= <-]. simpl.
    split; [exact Hl|]. split; [|discriminate].
    intros cells_r _ ->. apply reson_channel_loop_after in Hr. exact Hr.
  - intros [= <-]. simpl. split; [exact Hl|]. split; [discriminate|done].
Qed.

(** X8. The state persists from one call to the next: a block of [n + m]
    frames gives what a block of [n] frames and, once the host has
    connected the audio ports [n] frames further, a block of [m] frames
    give. *)
Theorem reson_block_split filter n m stereo filter' :
  Reson.run_filter filter (n + m) stereo = Some filter' →
  ∃ filter1 filter2 filter3,
    Reson.run_filter filter n stereo = Some filter1
    ∧ reson_next_block filter1 n = Some filter2
    ∧ Reson.run_filter filter2 m stereo = Some filter3
    ∧ Reson.output_buffer_l filter'
      = take n (Reson.output_buffer_l filter1) ++ Reson.output_buffer_l filter3
    ∧ Reson.output_buffer_r filter'
      = take n (Reson.output_buffer_r filter1) ++ Reson.output_buffer_r filter3
    ∧ Reson.history_l filter' = Reson.history_l filter3
    ∧ Reson.history_r filter' = Reson.history_r filter3.
Proof.
  destruct filter as [fl bl fr br il ol ir or rate hl hr].
  unfold Reson.run_filter, Reson.filter_channel. simpl.
  rewrite ?reson_filter_loop_channel.
  destruct (channel_loop _ il _ _ _ (n + m)) as [[ol' hl']|] eqn:Hl; [|discriminate].
  cbn [mbind option_bind].
  apply channel_loop_split in Hl as (ol1 & hl1 & ol2 & Hl1 & Hl2 & ->).
  rewrite Hl1. cbn [mbind option_bind].
  destruct stereo.
  - simpl. rewrite ?reson_filter_loop_channel.
    destruct (channel_loop _ ir _ _ _ (n + m)) as [[or' hr']|] eqn:Hr; [|discriminate].
    cbn [mbind option_bind]. intros [= <-].
    apply channel_loop_split in Hr as (or1 & hr1 & or2 & Hr1 & Hr2 & ->).
    rewrite Hr1. cbn [mbind option_bind].
    eexists _, _, _. split; [reflexivity|].
    split; [reflexivity|].
    simpl. rewrite ?reson_filter_loop_channel, Hl2. simpl.
    rewrite ?reson_filter_loop_channel, Hr2. simpl.
    split; [reflexivity|]. simpl. auto.
  - intros [= <-].
    eexists _, _, _. split; [reflexivity|].
    split; [reflexivity|].
    simpl. rewrite ?reson_filter_loop_channel, Hl2. simpl.
    split; [reflexivity|]. simpl. rewrite take_drop. auto.
Qed.

End ResonBlocks.

(** *** The history as a circular buffer *)

Section Ring.
Context {A : Type}.
Implicit Types (cells vs : list A).

Lemma mod_add_same (b e len : N) :
  0 < len → e < len → (b + e) mod len = b mod len → e = 0.
Proof.
  intros Hlen He Heq.
  rewrite <- N.Div0.add_mod_idemp_l in Heq.
  assert (Hr : b mod len < len) by (apply N.mod_lt; lia).
  set (r := b mod len) in *.
  destruct (N.lt_ge_cases (r + e) len) as [Hlt|Hge].
  - rewrite N.mod_small in Heq by exact Hlt. lia.
  - replace (r + e) with ((r + e - len) + 1 * len) in Heq by lia.
    rewrite N.Div0.mod_add, N.mod_small in Heq by lia. lia.
Qed.

Lemma ring_writes_length length shift position cells vs :
  List.length (ring_writes length shift position cells vs) = List.length cells.
Proof.
  revert position cells. induction vs as [|v vs IH]; intros position cells; simpl;
    [reflexivity|].
  rewrite IH. apply length_insert.
Qed.

Lemma ring_writes_snoc length shift position cells vs v :
  ring_writes length shift position cells (vs ++ [v])
  = <[N.to_nat ((position + N.of_nat (List.length vs) + shift) mod length) := v]>
      (ring_writes length shift position cells vs).
Proof.
  revert position cells. induction vs as [|v0 vs IH]; intros position cells; simpl.
  - rewrite N.add_0_r. reflexivity.
  - rewrite IH. do 3 f_equal. lia.
Qed.

(** Only the cursor modulo the length counts. *)
Lemma ring_writes_mod length shift position cells vs :
  ring_writes length shift (position mod length) cells vs
  = ring_writes length shift position cells vs.
Proof.
  revert position cells. induction vs as [|v vs IH]; intros position cells; simpl;
    [reflexivity|].
  rewrite N.Div0.add_mod_idemp_l.
  rewrite <- (IH (position mod length + 1)), <- (IH (position + 1)).
  rewrite N.Div0.add_mod_idemp_l. reflexivity.
Qed.

Lemma ring_writes_app length shift position cells vs1 vs2 :
  ring_writes length shift position cells (vs1 ++ vs2)
  = ring_writes length shift (position + N.of_nat (List.length vs1))
      (ring_writes length shift position cells vs1) vs2.
Proof.
  revert position cells. induction vs1 as [|v vs1 IH]; intros position cells; simpl.
  - rewrite N.add_0_r. reflexivity.
  - rewrite IH. f_equal. lia.
Qed.

(** The slot that comes under the cursor at step [k] holds the sample
    written [D] steps before, for a [D] that is [shift] modulo the length
    of the history, as long as no later step has written to it; before
    [D] steps are made it holds what the history had. *)
Lemma ring_lookup length shift D position cells vs k :
  0 < length → List.length cells = N.to_nat length →
  D mod length = shift mod length →
  N.of_nat (List.length vs) + D ≤ N.of_nat k + length →
  N.of_nat k < N.of_nat (List.length vs) + D →
  ring_writes length shift position cells vs
    !! N.to_nat ((position + N.of_nat k) mod length)
  = if decide (N.to_nat D ≤ k)%nat
    then vs !! (k - N.to_nat D)%nat
    else cells !! N.to_nat ((position + N.of_nat k) mod length).
Proof.
  intros Hlen Hcells HD. induction vs as [|v vs IH] using rev_ind; intros Hup Hlow.
  - simpl in *. rewrite decide_False by lia. reflexivity.
  - rewrite ring_writes_snoc. rewrite length_app in Hup, Hlow. simpl in Hup, Hlow.
    set (j := List.length vs) in *.
    assert (Hslot : (position + N.of_nat j + shift) mod length
                    = (position + N.of_nat k + (N.of_nat j + D - N.of_nat k))
                        mod length).
    { rewrite <- (N.Div0.add_mod_idemp_r _ shift), <- HD, N.Div0.add_mod_idemp_r.
      f_equal. lia. }
    destruct (decide (N.of_nat j + D = N.of_nat k)) as [Heq|Hne].
    + rewrite Hslot, Heq, N.sub_diag, N.add_0_r.
      rewrite list_lookup_insert_eq.
      * rewrite decide_True by lia.
        replace (k - N.to_nat D)%nat with j by lia.
        symmetry. apply list_lookup_middle. reflexivity.
      * rewrite ring_writes_length, Hcells.
        assert ((position + N.of_nat k) mod length < length) by (apply N.mod_lt; lia).
        lia.
    + rewrite list_lookup_insert_ne.
      * rewrite IH by lia.
        destruct (decide (N.to_nat D ≤ k)%nat); [|reflexivity].
        symmetry. apply lookup_app_l. fold j. lia.
      * intros Hsame. apply N2Nat.inj in Hsame. rewrite Hslot in Hsame.
        apply mod_add_same in Hsame; lia.
Qed.

End Ring.

(** *** Comb: the delay line *)

Section CombDelayLine.
Context `{Pow}.
Implicit Types (cells : list single).

Lemma comb_filter_sample_step input output i delay sharpness history position length :
  Comb.filter_sample input output i delay sharpness history position length
  = x ← load input i;
    r ← comb_step delay sharpness length x (history, position);
    output ← store output i r.1;
    Some (output, r.2.1, r.2.2).
Proof.
  unfold Comb.filter_sample, comb_step. cbn [fst snd].
  destruct (load input i) as [x|]; [|reflexivity]. cbn [mbind option_bind].
  destruct (load_block history position) as [h|]; [|reflexivity].
  cbn [mbind option_bind].
  destruct (umod (wrap_ulong (delay + position)) length) as [slot|];
    cbn [mbind option_bind]; [|destruct (store output i _); reflexivity].
  destruct (store_block history slot _) as [history1|];
    cbn [mbind option_bind]; [|destruct (store output i _); reflexivity].
  destruct (umod (wrap_ulong (position + 1)) length) as [position1|];
    cbn [mbind option_bind fst snd]; [|destruct (store output i _); reflexivity].
  destruct (store output i _); reflexivity.
Qed.

Lemma comb_filter_channel_loop input output i delay sharpness history position
    length n :
  Comb.filter_channel input output i delay sharpness history position length n
  = (λ r, (r.1, r.2.1, r.2.2))
      <$> channel_loop (comb_step delay sharpness length) input output i
            (history, position) n.
Proof.
  revert output i history position.
  induction n as [|n IH]; intros output i history position; [reflexivity|].
  cbn [Comb.filter_channel channel_loop]. rewrite comb_filter_sample_step.
  destruct (load input i) as [x|]; [|reflexivity]. cbn [mbind option_bind].
  destruct (comb_step delay sharpness length x (history, position))
    as [[y [history1 position1]]|]; [|reflexivity].
  cbn [mbind option_bind fst snd].
  destruct (store output i y) as [output1|]; [|reflexivity].
  cbn [mbind option_bind]. apply IH.
Qed.

(** A step on a live history of the length the instance has, with the
    cursor inside. *)
Lemma comb_step_Some delay sharpness length x cells position :
  List.length cells = N.to_nat length → position < length →
  delay + length < 2 ^ ULONG_WIDTH →
  ∃ h, cells !! N.to_nat position = Some h
       ∧ comb_step delay sharpness length x (Live cells, position)
         = Some (Comb.feedback x sharpness delay h,
                 (Live (<[N.to_nat ((position + delay) mod length)
                          := Comb.feedback x sharpness delay h]> cells),
                  (position + 1) mod length)).
Proof.
  intros Hcells Hpos Hwrap.
  destruct (lookup_lt_is_Some_2 cells (N.to_nat position)) as [h Hh]; [lia|].
  exists h. split; [exact Hh|].
  unfold comb_step. cbn [fst snd load_block]. unfold load. rewrite Hh.
  cbn [mbind option_bind].
  rewrite !umod_Some by lia. cbn [mbind option_bind].
  unfold wrap_ulong. rewrite !(N.mod_small _ (2 ^ ULONG_WIDTH)) by lia.
  replace (delay + position) with (position + delay) by lia.
  unfold store_block, store. rewrite bool_decide_eq_true_2.
  - reflexivity.
  - assert ((position + delay) mod length < length) by (apply N.mod_lt; lia). lia.
Qed.

Lemma comb_step_total delay sharpness length :
  delay + length < 2 ^ ULONG_WIDTH →
  ∀ x s,
    (λ s : block single * N,
       ∃ cells, s.1 = Live cells ∧ List.length cells = N.to_nat length
                ∧ s.2 < length) s →
    ∃ y s', comb_step delay sharpness length x s = Some (y, s')
            ∧ (λ s : block single * N,
                 ∃ cells, s.1 = Live cells ∧ List.length cells = N.to_nat length
                          ∧ s.2 < length) s'.
Proof.
  intros Hwrap x [history position] (cells & Hh & Hcells & Hpos). simpl in Hh, Hpos.
  subst history.
  destruct (comb_step_Some delay sharpness length x cells position Hcells Hpos Hwrap)
    as (h & _ & ->).
  eexists _, _. split; [reflexivity|]. cbn [fst snd].
  eexists. split; [reflexivity|]. rewrite length_insert. split; [exact Hcells|].
  apply N.mod_lt. lia.
Qed.

(** The history and the cursor after a block: the output samples were
    written [delay] slots ahead. *)
Lemma comb_run_state delay sharpness length cells position xs ys s' :
  List.length cells = N.to_nat length → position < length →
  delay + length < 2 ^ ULONG_WIDTH →
  channel_run (comb_step delay sharpness length) (Live cells, position) xs
  = Some (ys, s') →
  s' = (Live (ring_writes length delay position cells ys),
        comb_cursor position length (List.length xs)).
Proof.
  intros Hcells Hpos Hwrap. revert cells position ys Hcells Hpos.
  induction xs as [|x xs IH]; intros cells position ys Hcells Hpos; simpl.
  - intros [= <- <-]. unfold comb_cursor. rewrite N.add_0_r, N.mod_small by exact Hpos.
    reflexivity.
  - destruct (comb_step_Some delay sharpness length x cells position Hcells Hpos Hwrap)
      as (h & _ & ->).
    cbn [mbind option_bind].
    destruct (channel_run _ _ xs) as [[ys1 s1]|] eqn:Hrun; [|discriminate].
    cbn [mbind option_bind]. intros [= <- <-].
    apply IH in Hrun; [|rewrite length_insert; exact Hcells|apply N.mod_lt; lia].
    rewrite Hrun. simpl. f_equal.
    + f_equal. rewrite ring_writes_mod. reflexivity.
    + unfold comb_cursor. rewrite N.Div0.add_mod_idemp_l. f_equal. lia.
Qed.

Lemma comb_period_spec delay length :
  0 < length →
  (0 < comb_period delay length)%nat
  ∧ N.of_nat (comb_period delay length) ≤ length
  ∧ N.of_nat (comb_period delay length) mod length = delay mod length.
Proof.
  intros Hlen. unfold comb_period.
  assert (Hlt : delay mod length < length) by (apply N.mod_lt; lia).
  destruct (N.eqb_spec (delay mod length) 0) as [Hz|Hnz]; rewrite N2Nat.id.
  - rewrite Hz, N.Div0.mod_same. lia.
  - rewrite N.Div0.mod_mod. set (r := delay mod length) in *. clearbody r. lia.
Qed.

(** X9. [filter_channel] of comb.c is a delay line with feedback. On a live
    history of the length the instance has, with the cursor inside, each
    output sample is [feedback] of the input sample and of the output
    sample of [comb_period] steps before, or of a sample the history had
    when the call has not made that many steps. The period is the delay
    modulo the length of the history, and that length for a delay that is
    a multiple of it: a delay of 0 or of [MAX_DELAY], 100, is a period of
    100 steps. *)
Theorem comb_delay_line input output delay sharpness cells position length n
    output' history' position' :
  List.length cells = N.to_nat length → position < length →
  delay + length < 2 ^ ULONG_WIDTH →
  Comb.filter_channel input output 0 delay sharpness (Live cells) position length n
  = Some (output', history', position') →
  comb_channel_after delay sharpness input output cells position length
    output' history' position' n.
Proof.
  intros Hcells Hpos Hwrap. rewrite comb_filter_channel_loop.
  destruct (channel_loop _ _ _ _ _ _) as [[o [hist pos]]|] eqn:Hloop; [|discriminate].
  cbn [fmap option_fmap option_map fst snd]. intros [= <- <- <-].
  destruct (channel_loop_Some _ _ _ _ _ _ _ Hloop)
    as (ys & Hrun & -> & Hlen & Hin & Hout).
  assert (Hlen0 : 0 < length) by lia.
  destruct (comb_period_spec delay length Hlen0) as (HD0 & HDle & HDmod).
  unfold comb_channel_after, block_written.
  split; [rewrite length_app, length_drop; lia|].
  split; [rewrite drop_app_length' by (symmetry; exact Hlen); reflexivity|].
  split; [|split].
  - intros k Hk.
    destruct (lookup_lt_is_Some_2 (take n input) k) as [x Hx];
      [rewrite length_take; lia|].
    destruct (channel_run_lookup _ _ _ _ _ _ _ Hrun Hx)
      as (s1 & y & s2 & Hrun1 & Hstep & Hy & _).
    apply comb_run_state in Hrun1; [|assumption..].
    rewrite length_take, length_take in Hrun1.
    replace (k `min` (n `min` List.length input))%nat with k in Hrun1 by lia.
    subst s1.
    destruct (comb_step_Some delay sharpness length x
                (ring_writes length delay position cells (take k ys))
                (comb_cursor position length k)) as (h & Hh & Hstep').
    { rewrite ring_writes_length. exact Hcells. }
    { apply N.mod_lt. lia. }
    { exact Hwrap. }
    rewrite Hstep' in Hstep. injection Hstep as <- _.
    exists x, h. split; [apply lookup_take_Some in Hx; tauto|].
    split; [|rewrite lookup_app_l by lia; exact Hy].
    unfold comb_cursor in Hh.
    rewrite (ring_lookup length delay (N.of_nat (comb_period delay length))) in Hh;
      [|assumption|assumption|assumption| |];
      [|rewrite length_take; lia|rewrite length_take; lia].
    rewrite Nat2N.id in Hh. unfold comb_delayed.
    destruct (decide (comb_period delay length ≤ k)%nat) as [HD|HD].
    + rewrite lookup_app_l by lia. rewrite lookup_take_lt in Hh by lia. exact Hh.
    + exact Hh.
  - apply comb_run_state in Hrun; [|assumption..].
    rewrite length_take in Hrun.
    replace (n `min` List.length input)%nat with n in Hrun by lia.
    injection Hrun as _ ->. reflexivity.
  - apply comb_run_state in Hrun; [|assumption..].
    injection Hrun as -> _. rewrite take_app_length' by (symmetry; exact Hlen).
    reflexivity.
Qed.

End CombDelayLine.

(** *** Fir: the delay line *)

Section FirDelayLine.
Context `{Arith}.
Implicit Types (filter : Fir.filter_type single) (cells : list single).

Lemma fir_run_channel_step_eq input output i sample_shift wet history position length :
  Fir.run_channel input output i sample_shift wet history position length
  = x ← load input i;
    r ← fir_step sample_shift wet length x (history, position);
    output ← store output i r.1;
    Some (output, r.2.1).
Proof.
  unfold Fir.run_channel, fir_step. cbn [fst snd].
  destruct (load input i) as [x|]; [|reflexivity]. cbn [mbind option_bind].
  unfold umod.
  destruct (bool_decide (length = 0)); [reflexivity|]. cbn [mbind option_bind].
  destruct (store_block history _ x) as [history1|]; [|reflexivity].
  cbn [mbind option_bind].
  destruct (load_block history1 position) as [h|]; reflexivity.
Qed.

(** When a step of a channel is defined, so is the step of the cursor,
    to the same slot. *)
Lemma fir_step_cursor sample_shift wet length x history position y history' position' :
  fir_step sample_shift wet length x (history, position)
  = Some (y, (history', position')) →
  umod (wrap_ulong (position + 1)) length = Some position'.
Proof.
  unfold fir_step. cbn [fst snd].
  destruct (umod (wrap_ulong (sample_shift + position)) length) as [slot|];
    [|discriminate].
  cbn [mbind option_bind].
  destruct (store_block history slot x) as [history1|]; [|discriminate].
  cbn [mbind option_bind].
  destruct (load_block history1 position) as [h|]; [|discriminate].
  cbn [mbind option_bind].
  destruct (umod (wrap_ulong (position + 1)) length) as [p|]; [|discriminate].
  cbn [mbind option_bind]. intros [= _ _ <-]. reflexivity.
Qed.

Lemma fir_step_None_cursor sample_shift wet length x history position :
  umod (wrap_ulong (position + 1)) length = None →
  fir_step sample_shift wet length x (history, position) = None.
Proof.
  unfold fir_step, umod. cbn [fst snd].
  destruct (bool_decide (length = 0)); [reflexivity|discriminate].
Qed.

(** The cursor a channel ends with does not depend on the channel. *)
Lemma fir_channel_loop_cursor sample_shift wet length input output i history position n
    output' history' position' :
  channel_loop (fir_step sample_shift wet length) input output i
    (history, position) n = Some (output', (history', position')) →
  position' = Nat.iter n (λ p, wrap_ulong (p + 1) mod length) position.
Proof.
  revert output i history position. induction n as [|n IH];
    intros output i history position.
  - intros [= _ _ <-]. reflexivity.
  - cbn [channel_loop].
    destruct (load input i) as [x|]; [|discriminate]. cbn [mbind option_bind].
    destruct (fir_step _ _ _ x _) as [[y [history1 position1]]|] eqn:Hstep;
      [|discriminate].
    cbn [mbind option_bind].
    destruct (store output i y) as [output1|]; [|discriminate].
    cbn [mbind option_bind]. intros Hloop. apply IH in Hloop. subst position'.
    apply fir_step_cursor in Hstep. unfold umod in Hstep.
    destruct (bool_decide (length = 0)); [discriminate|].
    injection Hstep as <-. rewrite Nat.iter_succ_r. reflexivity.
Qed.

(** The loop of [run_filter] is the loop of the left channel and, in
    stereo, the loop of the right channel, each with the cursor. *)
Lemma fir_run_loop_channels stereo shift_l shift_r filter i n :
  Fir.run_loop stereo shift_l shift_r filter i n
  = l ← channel_loop (fir_step shift_l (Fir.wet_control_value_l filter)
                        (Fir.history_length filter))
          (Fir.input_buffer_l filter) (Fir.output_buffer_l filter) i
          (Fir.history_l filter, Fir.history_position filter) n;
    r ← (if stereo
         then channel_loop (fir_step shift_r (Fir.wet_control_value_r filter)
                              (Fir.history_length filter))
                (Fir.input_buffer_r filter) (Fir.output_buffer_r filter) i
                (Fir.history_r filter, Fir.history_position filter) n
         else Some (Fir.output_buffer_r filter, (Fir.history_r filter, l.2.2)));
    Some (Fir.set_cursor
            (Fir.set_history (Fir.set_output filter l.1 r.1) l.2.1 r.2.1)
            l.2.2 (Fir.history_length filter)).
Proof.
  revert filter i. induction n as [|n IH]; intros filter i.
  - destruct filter, stereo; reflexivity.
  - cbn [Fir.run_loop channel_loop]. unfold Fir.run_sample.
    rewrite !fir_run_channel_step_eq.
    destruct (load (Fir.input_buffer_l filter) i) as [xl|]; [|reflexivity].
    cbn [mbind option_bind].
    destruct (fir_step shift_l _ _ xl _) as [[yl [hl pl]]|] eqn:Hstep_l;
      [|reflexivity].
    cbn [mbind option_bind fst snd].
    destruct (store (Fir.output_buffer_l filter) i yl) as [ol|]; [|reflexivity].
    cbn [mbind option_bind].
    apply fir_step_cursor in Hstep_l as Hcursor.
    destruct stereo.
    + destruct (load (Fir.input_buffer_r filter) i) as [xr|];
        [|cbn [mbind option_bind];
          destruct (channel_loop _ _ ol _ _ _); reflexivity].
      cbn [mbind option_bind].
      destruct (fir_step shift_r _ _ xr _) as [[yr [hr pr]]|] eqn:Hstep_r;
        [|cbn [mbind option_bind];
          destruct (channel_loop _ _ ol _ _ _); reflexivity].
      cbn [mbind option_bind fst snd].
      destruct (store (Fir.output_buffer_r filter) i yr) as [or|];
        [|cbn [mbind option_bind];
          destruct (channel_loop _ _ ol _ _ _); reflexivity].
      cbn [mbind option_bind].
      apply fir_step_cursor in Hstep_r as Hcursor_r.
      rewrite Hcursor in Hcursor_r. injection Hcursor_r as <-.
      rewrite Hcursor. cbn [mbind option_bind]. rewrite IH.
      destruct filter; reflexivity.
    + cbn [mbind option_bind]. rewrite Hcursor. cbn [mbind option_bind].
      rewrite IH. destruct filter; reflexivity.
Qed.

Lemma fir_step_Some sample_shift wet length x cells position :
  List.length cells = N.to_nat length → position < length →
  sample_shift + length < 2 ^ ULONG_WIDTH →
  ∃ h, <[N.to_nat ((position + sample_shift) mod length) := x]> cells
         !! N.to_nat position = Some h
       ∧ fir_step sample_shift wet length x (Live cells, position)
         = Some (Fir.mix x wet h,
                 (Live (<[N.to_nat ((position + sample_shift) mod length) := x]> cells),
                  (position + 1) mod length)).
Proof.
  intros Hcells Hpos Hwrap.
  destruct (lookup_lt_is_Some_2
              (<[N.to_nat ((position + sample_shift) mod length) := x]> cells)
              (N.to_nat position)) as [h Hh]; [rewrite length_insert; lia|].
  exists h. split; [exact Hh|].
  unfold fir_step. cbn [fst snd].
  rewrite !umod_Some by lia. cbn [mbind option_bind].
  unfold wrap_ulong. rewrite !(N.mod_small _ (2 ^ ULONG_WIDTH)) by lia.
  replace (sample_shift + position) with (position + sample_shift) by lia.
  unfold store_block, store. rewrite bool_decide_eq_true_2.
  - cbn [fmap option_fmap option_map mbind option_bind load_block].
    unfold load. rewrite Hh. reflexivity.
  - assert ((position + sample_shift) mod length < length) by (apply N.mod_lt; lia).
    lia.
Qed.

Lemma fir_step_total sample_shift wet length :
  sample_shift + length < 2 ^ ULONG_WIDTH →
  ∀ x s,
    (λ s : block single * N,
       ∃ cells, s.1 = Live cells ∧ List.length cells = N.to_nat length
                ∧ s.2 < length) s →
    ∃ y s', fir_step sample_shift wet length x s = Some (y, s')
            ∧ (λ s : block single * N,
                 ∃ cells, s.1 = Live cells ∧ List.length cells = N.to_nat length
                          ∧ s.2 < length) s'.
Proof.
  intros Hwrap x [history position] (cells & Hh & Hcells & Hpos). simpl in Hh, Hpos.
  subst history.
  destruct (fir_step_Some sample_shift wet length x cells position Hcells Hpos Hwrap)
    as (h & _ & ->).
  eexists _, _. split; [reflexivity|]. cbn [fst snd].
  eexists. split; [reflexivity|]. rewrite length_insert. split; [exact Hcells|].
  apply N.mod_lt. lia.
Qed.

(** The history and the cursor after a block: the input samples were
    written [sample_shift] slots ahead. *)
Lemma fir_run_state sample_shift wet length cells position xs ys s' :
  List.length cells = N.to_nat length → position < length →
  sample_shift + length < 2 ^ ULONG_WIDTH →
  channel_run (fir_step sample_shift wet length) (Live cells, position) xs
  = Some (ys, s') →
  s' = (Live (ring_writes length sample_shift position cells xs),
        (position + N.of_nat (List.length xs)) mod length).
Proof.
  intros Hcells Hpos Hwrap. revert cells position ys Hcells Hpos.
  induction xs as [|x xs IH]; intros cells position ys Hcells Hpos; simpl.
  - intros [= <- <-]. rewrite N.add_0_r, N.mod_small by exact Hpos. reflexivity.
  - destruct (fir_step_Some sample_shift wet length x cells position Hcells Hpos Hwrap)
      as (h & _ & ->).
    cbn [mbind option_bind].
    destruct (channel_run _ _ xs) as [[ys1 s1]|] eqn:Hrun; [|discriminate].
    cbn [mbind option_bind]. intros [= <- <-].
    apply IH in Hrun; [|rewrite length_insert; exact Hcells|apply N.mod_lt; lia].
    rewrite Hrun. f_equal.
    + f_equal. rewrite ring_writes_mod. reflexivity.
    + rewrite N.Div0.add_mod_idemp_l. f_equal. lia.
Qed.

Lemma fir_channel_loop_after sample_shift wet input output cells position length n
    output' history' position' :
  List.length cells = N.to_nat length → position < length →
  sample_shift + length < 2 ^ ULONG_WIDTH →
  channel_loop (fir_step sample_shift wet length) input output 0
    (Live cells, position) n = Some (output', (history', position')) →
  fir_channel_after sample_shift wet input output cells position length
    output' history' n
  ∧ position' = (position + N.of_nat n) mod length.
Proof.
  intros Hcells Hpos Hwrap Hloop.
  destruct (channel_loop_Some _ _ _ _ _ _ _ Hloop)
    as (ys & Hrun & -> & Hlen & Hin & Hout).
  assert (Hlen0 : 0 < length) by lia.
  assert (HD : sample_shift mod length < length) by (apply N.mod_lt; lia).
  apply fir_run_state in Hrun as Hstate; [|assumption..].
  rewrite length_take in Hstate.
  replace (n `min` List.length input)%nat with n in Hstate by lia.
  injection Hstate as -> ->.
  split; [|reflexivity].
  unfold fir_channel_after, block_written.
  split; [rewrite length_app, length_drop; lia|].
  split; [rewrite drop_app_length' by (symmetry; exact Hlen); reflexivity|].
  split; [|reflexivity].
  intros k Hk.
  destruct (lookup_lt_is_Some_2 (take n input) k) as [x Hx];
    [rewrite length_take; lia|].
  destruct (channel_run_lookup _ _ _ _ _ _ _ Hrun Hx)
    as (s1 & y & s2 & Hrun1 & Hstep & Hy & _).
  apply fir_run_state in Hrun1; [|assumption..].
  rewrite length_take, length_take in Hrun1.
  replace (k `min` (n `min` List.length input))%nat with k in Hrun1 by lia.
  subst s1.
  destruct (fir_step_Some sample_shift wet length x
              (ring_writes length sample_shift position cells (take k (take n input)))
              ((position + N.of_nat k) mod length)) as (h & Hh & Hstep').
  { rewrite ring_writes_length. exact Hcells. }
  { apply N.mod_lt. lia. }
  { exact Hwrap. }
  rewrite Hstep' in Hstep. injection Hstep as <- _.
  apply lookup_take_Some in Hx as [Hx _].
  exists x, h. split; [exact Hx|].
  split; [|rewrite lookup_app_l by lia; exact Hy].
  (* the write of this step, then the read under the cursor *)
  assert (Hsnoc : <[N.to_nat (((position + N.of_nat k) mod length + sample_shift)
                                mod length) := x]>
                    (ring_writes length sample_shift position cells
                       (take k (take n input)))
                  = ring_writes length sample_shift position cells (take (S k) input)).
  { rewrite (take_S_r _ _ _ Hx), ring_writes_snoc.
    rewrite take_take, length_take.
    replace (k `min` n)%nat with k by lia.
    replace (k `min` List.length input)%nat with k by lia.
    rewrite N.Div0.add_mod_idemp_l. reflexivity. }
  rewrite Hsnoc in Hh. unfold fir_delayed.
  set (d := sample_shift mod length) in *.
  rewrite (ring_lookup length sample_shift d) in Hh;
    [|assumption|assumption|apply N.Div0.mod_mod| |];
    [|rewrite length_take; clearbody d; lia|rewrite length_take; clearbody d; lia].
  destruct (decide (N.to_nat d ≤ k)%nat) as [HDk|HDk].
  - rewrite lookup_take_lt in Hh by lia. exact Hh.
  - exact Hh.
Qed.

End FirDelayLine.

(** *** Fir: blocks and samples *)

Section FirBlocks.
Context `{Arith}.
Implicit Types (filter : Fir.filter_type single) (cells : list single).

(** X12. [run_filter] of fir.c is a delay line. On a live history of the
    length the instance has, with the cursor inside, each output sample
    is the mix of the input sample with the input sample of
    [sample_shift] modulo the length of the history steps before, which
    may be of an earlier block: the history and the cursor persist. A
    shift that is a multiple of the length, as the one of [MIN_FREQ], is
    no delay at all. *)
Theorem fir_delay_line filter n stereo filter' shift_l cells_l :
  Fir.get_sample_shift (Fir.freq_control_value_l filter) (Fir.sample_rate filter)
  = Some shift_l →
  Fir.history_l filter = Live cells_l →
  List.length cells_l = N.to_nat (Fir.history_length filter) →
  Fir.history_position filter < Fir.history_length filter →
  shift_l + Fir.history_length filter < 2 ^ ULONG_WIDTH →
  Fir.run_filter filter n stereo = Some filter' →
  fir_channel_after shift_l (Fir.wet_control_value_l filter)
    (Fir.input_buffer_l filter) (Fir.output_buffer_l filter) cells_l
    (Fir.history_position filter) (Fir.history_length filter)
    (Fir.output_buffer_l filter') (Fir.history_l filter') n
  ∧ Fir.history_position filter'
    = (Fir.history_position filter + N.of_nat n) mod Fir.history_length filter
  ∧ Fir.history_length filter' = Fir.history_length filter
  ∧ (∀ shift_r cells_r,
       stereo = true →
       Fir.get_sample_shift (Fir.freq_control_value_r filter) (Fir.sample_rate filter)
       = Some shift_r →
       Fir.history_r filter = Live cells_r →
       List.length cells_r = N.to_nat (Fir.history_length filter) →
       shift_r + Fir.history_length filter < 2 ^ ULONG_WIDTH →
       fir_channel_after shift_r (Fir.wet_control_value_r filter)
         (Fir.input_buffer_r filter) (Fir.output_buffer_r filter) cells_r
         (Fir.history_position filter) (Fir.history_length filter)
         (Fir.output_buffer_r filter') (Fir.history_r filter') n)
  ∧ (stereo = false →
     Fir.output_buffer_r filter' = Fir.output_buffer_r filter
     ∧ Fir.history_r filter' = Fir.history_r filter).
Proof.
  destruct filter as [fl wl fr wr il ol ir or rate hl hr pos len].
  unfold Fir.run_filter. simpl. intros Hshift -> Hcells Hpos Hwrap.
  rewrite Hshift. cbn [mbind option_bind].
  destruct stereo.
  - destruct (Fir.get_sample_shift fr rate) as [shift_r|] eqn:Hshift_r;
      [|discriminate].
    cbn [mbind option_bind]. rewrite fir_run_loop_channels. simpl.
    destruct (channel_loop _ il _ _ _ _) as [[ol' [hl' pl']]|] eqn:Hl; [|discriminate].
    cbn [mbind option_bind].
    destruct (channel_loop _ ir _ _ _ _) as [[or' [hr' pr']]|] eqn:Hr; [|discriminate].
    cbn [mbind option_bind]. intros [= <-]. simpl.
    apply fir_channel_loop_after in Hl as [Hl ->]; [|assumption..].
    split; [exact Hl|]. split; [reflexivity|]. split; [reflexivity|].
    split; [|discriminate].
    intros shift_r' cells_r _ [= <-] -> Hcells_r Hwrap_r.
    apply fir_channel_loop_after in Hr as [Hr _]; [|assumption..]. exact Hr.
  - cbn [mbind option_bind]. rewrite fir_run_loop_channels. simpl.
    destruct (channel_loop _ il _ _ _ _) as [[ol' [hl' pl']]|] eqn:Hl; [|discriminate].
    cbn [mbind option_bind]. intros [= <-]. simpl.
    apply fir_channel_loop_after in Hl as [Hl ->]; [|assumption..].
    split; [exact Hl|]. split; [reflexivity|]. split; [reflexivity|].
    split; [discriminate|done].
Qed.

Lemma fir_channel_loop_defined sample_shift wet input output cells position length n :
  List.length cells = N.to_nat length → position < length →
  sample_shift + length < 2 ^ ULONG_WIDTH →
  is_Some (channel_loop (fir_step sample_shift wet length) input output 0
             (Live cells, position) n)
  ↔ (n ≤ List.length input ∧ n ≤ List.length output)%nat.
Proof.
  intros Hcells Hpos Hwrap.
  rewrite (channel_loop_defined _ _ _ _ _ _ _ (fir_step_total _ _ _ Hwrap)).
  - change (N.to_nat 0) with 0%nat. simpl. lia.
  - eexists. split; [reflexivity|]. split; [exact Hcells|exact Hpos].
Qed.

(** X13. On an activated instance, [run_filter] of fir.c is defined exactly
    when the block is within the arrays of the audio ports of the
    channels it processes. *)
Theorem fir_run_defined filter n stereo shift_l shift_r cells_l cells_r :
  Fir.get_sample_shift (Fir.freq_control_value_l filter) (Fir.sample_rate filter)
  = Some shift_l →
  Fir.history_l filter = Live cells_l →
  List.length cells_l = N.to_nat (Fir.history_length filter) →
  Fir.history_position filter < Fir.history_length filter →
  shift_l + Fir.history_length filter < 2 ^ ULONG_WIDTH →
  (stereo = true →
   Fir.get_sample_shift (Fir.freq_control_value_r filter) (Fir.sample_rate filter)
   = Some shift_r
   ∧ Fir.history_r filter = Live cells_r
   ∧ List.length cells_r = N.to_nat (Fir.history_length filter)
   ∧ shift_r + Fir.history_length filter < 2 ^ ULONG_WIDTH) →
  is_Some (Fir.run_filter filter n stereo)
  ↔ (n ≤ List.length (Fir.input_buffer_l filter)
     ∧ n ≤ List.length (Fir.output_buffer_l filter)
     ∧ (stereo = true →
        n ≤ List.length (Fir.input_buffer_r filter)
        ∧ n ≤ List.length (Fir.output_buffer_r filter)))%nat.
Proof.
  destruct filter as [fl wl fr wr il ol ir or rate hl hr pos len].
  unfold Fir.run_filter. simpl. intros Hshift -> Hcells Hpos Hwrap Hright.
  rewrite Hshift. cbn [mbind option_bind].
  pose proof (fir_channel_loop_defined shift_l wl il ol cells_l pos len n
                Hcells Hpos Hwrap) as Hl.
  destruct stereo.
  - destruct (Hright eq_refl) as (-> & -> & Hcells_r & Hwrap_r).
    cbn [mbind option_bind]. rewrite fir_run_loop_channels. simpl.
    pose proof (fir_channel_loop_defined shift_r wr ir or cells_r pos len n
                  Hcells_r Hpos Hwrap_r) as Hr.
    destruct (channel_loop _ il _ _ _ _) as [l|]; cbn [mbind option_bind].
    + destruct (channel_loop _ ir _ _ _ _) as [r|]; cbn [mbind option_bind].
      * split; [intros _|intros _; eexists; reflexivity].
        destruct (proj1 Hl) as [? ?]; [eexists; reflexivity|].
        destruct (proj1 Hr) as [? ?]; [eexists; reflexivity|]. auto.
      * split; [intros [? [=]]|]. intros (? & ? & Hs).
        destruct (proj2 Hr) as [? [=]]. apply Hs. reflexivity.
    + split; [intros [? [=]]|]. intros (? & ? & _).
      destruct (proj2 Hl) as [? [=]]. auto.
  - cbn [mbind option_bind]. rewrite fir_run_loop_channels. simpl.
    destruct (channel_loop _ il _ _ _ _) as [l|]; cbn [mbind option_bind].
    + split; [intros _|intros _; eexists; reflexivity].
      destruct (proj1 Hl) as [? ?]; [eexists; reflexivity|].
      split; [assumption|]. split; [assumption|discriminate].
    + split; [intros [? [=]]|]. intros (? & ? & _).
      destruct (proj2 Hl) as [? [=]]. auto.
Qed.

(** X14. The history and the cursor persist from one call to the next: a
    block of [n + m] frames gives what a block of [n] frames and, once the
    host has connected the audio ports [n] frames further, a block of [m]
    frames give. *)
Theorem fir_block_split filter n m stereo filter' :
  Fir.run_filter filter (n + m) stereo = Some filter' →
  ∃ filter1 filter2 filter3,
    Fir.run_filter filter n stereo = Some filter1
    ∧ fir_next_block filter1 n = Some filter2
    ∧ Fir.run_filter filter2 m stereo = Some filter3
    ∧ Fir.output_buffer_l filter'
      = take n (Fir.output_buffer_l filter1) ++ Fir.output_buffer_l filter3
    ∧ Fir.output_buffer_r filter'
      = take n (Fir.output_buffer_r filter1) ++ Fir.output_buffer_r filter3
    ∧ Fir.history_l filter' = Fir.history_l filter3
    ∧ Fir.history_r filter' = Fir.history_r filter3
    ∧ Fir.history_position filter' = Fir.history_position filter3.
Proof.
  destruct filter as [fl wl fr wr il ol ir or rate hl hr pos len].
  unfold Fir.run_filter. simpl.
  destruct (Fir.get_sample_shift fl rate) as [shift_l|] eqn:Hsl; [|discriminate].
  cbn [mbind option_bind].
  destruct stereo.
  - destruct (Fir.get_sample_shift fr rate) as [shift_r|] eqn:Hsr; [|discriminate].
    cbn [mbind option_bind]. rewrite !fir_run_loop_channels. simpl.
    destruct (channel_loop _ il _ _ _ (n + m)) as [[ol' [hl' pl']]|] eqn:Hl;
      [|discriminate].
    cbn [mbind option_bind].
    destruct (channel_loop _ ir _ _ _ (n + m)) as [[or' [hr' pr']]|] eqn:Hr;
      [|discriminate].
    cbn [mbind option_bind]. intros [= <-].
    apply channel_loop_split in Hl as (ol1 & [hl1 pl1] & ol2 & Hl1 & Hl2 & ->).
    apply channel_loop_split in Hr as (or1 & [hr1 pr1] & or2 & Hr1 & Hr2 & ->).
    assert (Hp : pr1 = pl1).
    { apply fir_channel_loop_cursor in Hl1, Hr1. congruence. }
    subst pr1.
    rewrite Hl1, Hr1. cbn [mbind option_bind].
    eexists _, _, _. split; [reflexivity|].
    split; [reflexivity|].
    simpl. rewrite Hsl, Hsr. cbn [mbind option_bind].
    rewrite fir_run_loop_channels. simpl. rewrite Hl2. simpl. rewrite Hr2. simpl.
    split; [reflexivity|]. simpl. auto 10.
  - cbn [mbind option_bind]. rewrite !fir_run_loop_channels. simpl.
    destruct (channel_loop _ il _ _ _ (n + m)) as [[ol' [hl' pl']]|] eqn:Hl;
      [|discriminate].
    cbn [mbind option_bind]. intros [= <-].
    apply channel_loop_split in Hl as (ol1 & [hl1 pl1] & ol2 & Hl1 & Hl2 & ->).
    rewrite Hl1. cbn [mbind option_bind].
    eexists _, _, _. split; [reflexivity|].
    split; [reflexivity|].
    simpl. rewrite Hsl. cbn [mbind option_bind].
    rewrite fir_run_loop_channels. simpl. rewrite Hl2. simpl.
    split; [reflexivity|]. simpl. rewrite take_drop. auto 10.
Qed.

End FirBlocks.

(** *** Fir: the length of the history *)

Section FirHistoryLength.
Import IEEE.
#[local] Existing Instance IEEE.arith.
Local Open Scope Z_scope.

(** An integer of less than 24 bits is a [float]: its digits, moved to
    the top of the mantissa. *)
Lemma of_Z32_exact (p : positive) :
  Zpos p < 2 ^ 24 →
  ∃ m e, of_Z32 (Zpos p) = S754_finite false m e
         ∧ Zpos (digits2_pos m) = 24 ∧ -23 ≤ e ≤ 0
         ∧ Zpos m = Zpos p * 2 ^ (- e).
Proof.
  intros Hp.
  pose proof (digits2_lower p) as Hlow.
  assert (Hd : Zpos (digits2_pos p) ≤ 24).
  { destruct (Z.le_gt_cases (Zpos (digits2_pos p)) 24) as [|Hgt]; [assumption|].
    assert (2 ^ 24 ≤ 2 ^ (Zpos (digits2_pos p) - 1)) by (apply Z.pow_le_mono_r; lia).
    lia. }
  unfold of_Z32, binary_normalize, binary_round, shl_align.
  rewrite Z.add_0_r, Z.sub_0_r.
  assert (Hfexp : fexp prec32 emax32 (Zpos (digits2_pos p)) = Zpos (digits2_pos p) - 24).
  { unfold fexp, emin, prec32, emax32. lia. }
  rewrite Hfexp.
  destruct (Zpos (digits2_pos p) - 24) as [|d|d] eqn:Hshift; [|lia|].
  - exists p, 0. split.
    + apply binary_round_aux_canonical.
      unfold bounded, canonical_mantissa. rewrite Z.add_0_r, Hfexp.
      reflexivity.
    + split; [lia|]. split; [lia|]. simpl. lia.
  - exists (Pos.iter xO p d), (Zneg d). split.
    + apply binary_round_aux_canonical.
      unfold bounded, canonical_mantissa. rewrite digits2_iter_xO.
      apply andb_true_intro. split.
      * apply Z.eqb_eq. unfold fexp, emin, prec32, emax32. lia.
      * apply Z.leb_le. unfold prec32, emax32. lia.
    + rewrite digits2_iter_xO. split; [lia|]. split; [lia|].
      rewrite iter_xO_value. reflexivity.
Qed.

(** Half of such an integer, and its integer part. *)
Lemma half_of_Z32 (p : positive) :
  Zpos p < 2 ^ 24 →
  trunc (SFmul prec32 emax32 (S754_finite false 8388608 (-24)) (of_Z32 (Zpos p)))
  = Some (Zpos p / 2).
Proof.
  intros Hp. destruct (of_Z32_exact p Hp) as (m & e & -> & Hd & He & Hm).
  change (SFmul prec32 emax32 (S754_finite false 8388608 (-24)) (S754_finite false m e))
    with (binary_round_aux prec32 emax32 false (Zpos (Pos.iter xO m 23)) (-24 + e)
            loc_Exact).
  replace (-24 + e) with (e - 1 - 23) by lia.
  rewrite binary_round_aux_shifted.
  - unfold trunc. destruct (e - 1) as [|q|q] eqn:Hq; try lia.
    rewrite Z.shiftr_div_pow2 by lia. f_equal.
    rewrite Hm. replace (Zpos q) with (- e + 1) by lia.
    rewrite Z.pow_add_r by lia. change (2 ^ 1) with 2.
    rewrite <- Z.div_div by (try apply Z.pow_pos_nonneg; lia).
    rewrite Z.div_mul by (apply Z.pow_nonzero; lia). reflexivity.
  - unfold bounded, canonical_mantissa. apply andb_true_intro. split.
    + apply Z.eqb_eq. rewrite Hd. unfold fexp, emin, prec32, emax32. lia.
    + apply Z.leb_le. unfold prec32, emax32. lia.
Qed.

(** The shift of [MIN_FREQ], the length of the history: half the sample
    rate, rounded down. *)
Lemma fir_min_freq_shift (rate : N) :
  (rate < 2 ^ 24)%N →
  Fir.get_sample_shift (f_of_int Fir.MIN_FREQ) rate = Some (rate / 2)%N.
Proof.
  intros Hrate. unfold Fir.get_sample_shift.
  change (@fdiv arith (f_of_int 1) (@fmul arith (f_of_int 2) (f_of_int Fir.MIN_FREQ)))
    with (S754_finite false 8388608 (-24)).
  change (@ulong_of_f arith ?x) with (to_unsigned ULONG_WIDTH x).
  change (@fmul arith ?x ?y) with (SFmul prec32 emax32 x y).
  change (@f_of_ulong arith rate) with (of_Z32 (Z.of_N rate)).
  unfold to_unsigned.
  destruct rate as [|p].
  - reflexivity.
  - change (Z.of_N (N.pos p)) with (Zpos p).
    rewrite half_of_Z32 by (change (2 ^ 24) with (Z.of_N (2 ^ 24)); lia).
    cbn [mbind option_bind].
    assert (0 ≤ Zpos p / 2 < 2 ^ 24).
    { split; [apply Z.div_pos; lia|].
      apply Z.div_lt_upper_bound; [lia|].
      change (2 ^ 24) with (Z.of_N (2 ^ 24)). lia. }
    rewrite bool_decide_eq_true_2.
    + f_equal. rewrite Z2N.inj_div by lia. reflexivity.
    + split; [lia|]. eapply Z.lt_le_trans; [apply H|].
      apply Z.pow_le_mono_r; [lia|]. unfold ULONG_WIDTH. lia.
Qed.

Lemma fir_activate_exact (filter : Fir.filter_type single) (stereo : bool) :
  (Fir.sample_rate filter < 2 ^ 24)%N →
  Fir.activate_filter filter stereo
  = Some (Fir.set_history (Fir.set_cursor filter 0 (Fir.sample_rate filter / 2))
            (calloc (Fir.sample_rate filter / 2))
            (if stereo then calloc (Fir.sample_rate filter / 2) else Null)).
Proof.
  intros Hrate. unfold Fir.activate_filter.
  rewrite (fir_min_freq_shift _ Hrate). reflexivity.
Qed.

(** X15. [activate_filter] of fir.c, for a sample rate of less than 24 bits:
    the history has half the sample rate cells, rounded down, all zero,
    for each channel of the plugin, and the cursor is at its start. *)
Theorem fir_history_length (filter : Fir.filter_type single) (stereo : bool) :
  (Fir.sample_rate filter < 2 ^ 24)%N →
  ∃ filter',
    Fir.activate_filter filter stereo = Some filter'
    ∧ Fir.history_length filter' = (Fir.sample_rate filter / 2)%N
    ∧ Fir.history_position filter' = 0%N
    ∧ Fir.history_l filter'
      = Live (replicate (N.to_nat (Fir.sample_rate filter / 2)) (S754_zero false))
    ∧ Fir.history_r filter'
      = (if stereo
         then Live (replicate (N.to_nat (Fir.sample_rate filter / 2))
                      (S754_zero false))
         else Null).
Proof.
  intros Hrate. rewrite (fir_activate_exact _ _ Hrate).
  eexists. split; [reflexivity|].
  destruct filter, stereo; simpl; auto.
Qed.

End FirHistoryLength.

Section FirEmptyHistory.
Context `{Arith}.

(** With a history of no cell the slot of the first sample is a
    remainder by zero. *)
Lemma fir_run_empty_history (filter : Fir.filter_type single) (n : nat) (stereo : bool) :
  Fir.history_length filter = 0 → Fir.run_filter filter (S n) stereo = None.
Proof.
  intros Hlen. unfold Fir.run_filter.
  destruct (Fir.get_sample_shift (Fir.freq_control_value_l filter) _) as [shift_l|];
    [|reflexivity].
  cbn [mbind option_bind].
  destruct (if stereo then _ else _) as [shift_r|]; [|reflexivity].
  cbn [mbind option_bind Fir.run_loop]. unfold Fir.run_sample, Fir.run_channel.
  destruct (load (Fir.input_buffer_l filter) 0) as [x|]; [|reflexivity].
  cbn [mbind option_bind]. rewrite Hlen. reflexivity.
Qed.

End FirEmptyHistory.

Section FirLowRate.
Import IEEE.
#[local] Existing Instance IEEE.arith.

(** X16. At a sample rate of 0 or 1 [activate_filter] of fir.c makes a history
    of no cell, and no block of one frame or more is defined on it: the
    slot of the first sample is a remainder by zero. *)
Theorem fir_low_rate_undefined (filter : Fir.filter_type single) (stereo : bool) :
  (Fir.sample_rate filter < 2)%N →
  ∃ filter',
    Fir.activate_filter filter stereo = Some filter'
    ∧ Fir.history_length filter' = 0%N
    ∧ ∀ n stereo', Fir.run_filter filter' (S n) stereo' = None.
Proof.
  intros Hrate. rewrite fir_activate_exact
    by (eapply N.lt_trans; [exact Hrate|reflexivity]).
  eexists. split; [reflexivity|].
  assert (Hzero : (Fir.sample_rate filter / 2 = 0)%N)
    by (apply N.div_small; exact Hrate).
  split; [exact Hzero|].
  intros n stereo'. apply fir_run_empty_history. exact Hzero.
Qed.

End FirLowRate.

(** *** A block needs live histories *)

Section NeedsActivation.
Context `{Arith} `{!Pow} `{!Trig}.

Lemma dead_load {A} (p : block A) i : dead p → load_block p i = None.
Proof. destruct p; try reflexivity. intros Hdead. destruct (Hdead cells eq_refl). Qed.

Lemma dead_store {A} (p : block A) i x : dead p → store_block p i x = None.
Proof. destruct p; try reflexivity. intros Hdead. destruct (Hdead cells eq_refl). Qed.

Lemma comb_filter_channel_dead input output i delay sharpness history position
    length n :
  dead history →
  Comb.filter_channel input output i delay sharpness history position length (S n)
  = None.
Proof.
  intros Hdead. cbn [Comb.filter_channel]. unfold Comb.filter_sample.
  destruct (load input i); [|reflexivity]. cbn [mbind option_bind].
  rewrite !dead_load by exact Hdead. reflexivity.
Qed.

Lemma comb_run_dead (filter : Comb.filter_type single) n :
  (dead (Comb.history_l filter) →
   Comb.run_mono_filter filter (S n) = None
   ∧ Comb.run_stereo_filter filter (S n) = None)
  ∧ (dead (Comb.history_r filter) → Comb.run_stereo_filter filter (S n) = None).
Proof.
  unfold Comb.run_mono_filter, Comb.run_stereo_filter. split.
  - intros Hdead.
    destruct (uint_of_f (Comb.delay_control_value_l filter)); [|done].
    cbn [mbind option_bind]. rewrite comb_filter_channel_dead by exact Hdead. done.
  - intros Hdead.
    destruct (uint_of_f (Comb.delay_control_value_l filter)); [|done].
    cbn [mbind option_bind].
    destruct (Comb.filter_channel _ _ _ _ _ (Comb.history_l filter) _ _ _)
      as [[[ol hl] pl]|]; [|done].
    cbn [mbind option_bind Comb.set_history Comb.set_output_l
         Comb.delay_control_value_r Comb.sharp_control_value_r
         Comb.input_buffer_r Comb.output_buffer_r Comb.history_r
         Comb.history_position Comb.history_length].
    destruct (uint_of_f _); [|done]. cbn [mbind option_bind].
    rewrite comb_filter_channel_dead by exact Hdead. done.
Qed.

Lemma fir_run_channel_dead input output i sample_shift wet history position length :
  dead history →
  Fir.run_channel input output i sample_shift wet history position length = None.
Proof.
  intros Hdead. unfold Fir.run_channel.
  destruct (load input i); [|reflexivity]. cbn [mbind option_bind].
  destruct (umod _ _); [|reflexivity]. cbn [mbind option_bind].
  rewrite dead_store by exact Hdead. reflexivity.
Qed.

Lemma fir_run_dead (filter : Fir.filter_type single) n :
  (dead (Fir.history_l filter) → ∀ stereo, Fir.run_filter filter (S n) stereo = None)
  ∧ (dead (Fir.history_r filter) → Fir.run_filter filter (S n) true = None).
Proof.
  unfold Fir.run_filter. split.
  - intros Hdead stereo.
    destruct (Fir.get_sample_shift (Fir.freq_control_value_l filter) _); [|done].
    cbn [mbind option_bind].
    destruct (if stereo then _ else _); [|done].
    cbn [mbind option_bind Fir.run_loop]. unfold Fir.run_sample.
    rewrite (fir_run_channel_dead _ _ _ _ _ (Fir.history_l filter)) by exact Hdead.
    done.
  - intros Hdead.
    destruct (Fir.get_sample_shift (Fir.freq_control_value_l filter) _); [|done].
    cbn [mbind option_bind].
    destruct (Fir.get_sample_shift (Fir.freq_control_value_r filter) _); [|done].
    cbn [mbind option_bind Fir.run_loop]. unfold Fir.run_sample.
    destruct (Fir.run_channel _ _ _ _ _ (Fir.history_l filter) _ _) as [[ol hl]|];
      [|done].
    cbn [mbind option_bind].
    rewrite (fir_run_channel_dead _ _ _ _ _ (Fir.history_r filter)) by exact Hdead.
    done.
Qed.

Lemma reson_filter_channel_dead input output freq bw history n rate :
  dead history → Reson.filter_channel input output freq bw history (S n) rate = None.
Proof.
  intros Hdead. unfold Reson.filter_channel. cbn [Reson.filter_loop].
  unfold Reson.filter_sample.
  destruct (load input 0); [|reflexivity]. cbn [mbind option_bind].
  rewrite !dead_load by exact Hdead. reflexivity.
Qed.

Lemma reson_run_dead (filter : Reson.filter_type single) n :
  (dead (Reson.history_l filter) → ∀ stereo, Reson.run_filter filter (S n) stereo = None)
  ∧ (dead (Reson.history_r filter) → Reson.run_filter filter (S n) true = None).
Proof.
  unfold Reson.run_filter. split.
  - intros Hdead stereo. rewrite reson_filter_channel_dead by exact Hdead. done.
  - intros Hdead.
    destruct (Reson.filter_channel _ _ _ _ (Reson.history_l filter) _ _)
      as [[ol hl]|]; [|done].
    cbn [mbind option_bind Reson.set_left Reson.freq_control_value_r
         Reson.bw_control_value_r Reson.input_buffer_r Reson.output_buffer_r
         Reson.history_r Reson.sample_rate].
    rewrite reson_filter_channel_dead by exact Hdead. done.
Qed.

Lemma dead_Wild {A} : dead (@Wild A).
Proof. intros cells. discriminate. Qed.

Lemma dead_Null {A} : dead (@Null A).
Proof. intros cells. discriminate. Qed.

Lemma dead_Dangling {A} : dead (@Dangling A).
Proof. intros cells. discriminate. Qed.

(** X17. The comb, fir and reson plugins process a block of one frame or more
    only between [activate] and [deactivate]: on an instance as
    [instantiate_filter] leaves it, or after [deactivate_filter], the
    first sample goes through a pointer that is indeterminate or whose
    block was freed; and the stereo plugin needs the stereo activation,
    the history of the right channel being a null pointer after the mono
    one. *)
Theorem run_needs_activation :
  (∀ (junk : Comb.filter_type single) rate n,
     Comb.run_mono_filter (Comb.instantiate_filter junk rate) (S n) = None
     ∧ Comb.run_stereo_filter (Comb.instantiate_filter junk rate) (S n) = None)
  ∧ (∀ (filter : Comb.filter_type single) stereo n,
       Comb.deactivate_filter (Comb.activate_filter filter stereo)
         ≫= (λ filter, Comb.run_mono_filter filter (S n)) = None
       ∧ Comb.deactivate_filter (Comb.activate_filter filter stereo)
           ≫= (λ filter, Comb.run_stereo_filter filter (S n)) = None)
  ∧ (∀ (filter : Comb.filter_type single) n,
       Comb.run_stereo_filter (Comb.activate_mono_filter filter) (S n) = None)
  ∧ (∀ (junk : Fir.filter_type single) rate n stereo,
       Fir.run_filter (Fir.instantiate_filter junk rate) (S n) stereo = None)
  ∧ (∀ (filter : Fir.filter_type single) stereo n stereo',
       (Fir.activate_filter filter stereo ≫= Fir.deactivate_filter)
         ≫= (λ filter, Fir.run_filter filter (S n) stereo') = None)
  ∧ (∀ (filter : Fir.filter_type single) n,
       Fir.activate_mono_filter filter
         ≫= (λ filter, Fir.run_stereo_filter filter (S n)) = None)
  ∧ (∀ (junk : Reson.filter_type single) rate n stereo,
       Reson.run_filter (Reson.instantiate_filter junk rate) (S n) stereo = None)
  ∧ (∀ (filter : Reson.filter_type single) stereo n stereo',
       Reson.deactivate_filter (Reson.activate_filter filter stereo)
         ≫= (λ filter, Reson.run_filter filter (S n) stereo') = None)
  ∧ (∀ (filter : Reson.filter_type single) n,
       Reson.run_stereo_filter (Reson.activate_mono_filter filter) (S n) = None).
Proof.
  split; [|split; [|split; [|split; [|split; [|split; [|split; [|split]]]]]]].
  - intros junk rate n. apply comb_run_dead. apply dead_Wild.
  - intros filter stereo n. rewrite comb_deactivate_activated.
    cbn [mbind option_bind]. apply comb_run_dead. apply dead_Dangling.
  - intros filter n. apply comb_run_dead. apply dead_Null.
  - intros junk rate n stereo. apply fir_run_dead. apply dead_Wild.
  - intros filter stereo n stereo'. rewrite fir_deactivate_activated.
    destruct (Fir.activate_filter filter stereo) as [filter1|]; [|reflexivity].
    cbn [fmap option_fmap option_map mbind option_bind].
    apply fir_run_dead. apply dead_Dangling.
  - intros filter n. unfold Fir.activate_mono_filter, Fir.activate_filter.
    destruct (Fir.get_sample_shift _ _); [|reflexivity].
    cbn [mbind option_bind]. apply fir_run_dead. apply dead_Null.
  - intros junk rate n stereo. apply reson_run_dead. apply dead_Wild.
  - intros filter stereo n stereo'. rewrite reson_deactivate_activated.
    cbn [mbind option_bind]. apply reson_run_dead. apply dead_Dangling.
  - intros filter n. apply reson_run_dead. apply dead_Null.
Qed.

End NeedsActivation.

(** *** The mono plugin and the left channel of the stereo plugin *)

Section StereoLeft.
Context `{Arith} `{!Pow} `{!Trig}.

(** X18. Whenever a block is defined for the stereo plugin it is for the mono
    plugin on the same instance, with the same output samples and the
    same state of the left channel: the right channel has no effect on
    the left one. *)
Theorem stereo_left_is_mono :
  (∀ (filter filter' : Comb.filter_type single) n,
     Comb.run_stereo_filter filter n = Some filter' →
     ∃ filter'',
       Comb.run_mono_filter filter n = Some filter''
       ∧ Comb.output_buffer_l filter'' = Comb.output_buffer_l filter'
       ∧ Comb.history_l filter'' = Comb.history_l filter')
  ∧ (∀ (filter filter' : Fir.filter_type single) n,
       Fir.run_stereo_filter filter n = Some filter' →
       ∃ filter'',
         Fir.run_mono_filter filter n = Some filter''
         ∧ Fir.output_buffer_l filter'' = Fir.output_buffer_l filter'
         ∧ Fir.history_l filter'' = Fir.history_l filter'
         ∧ Fir.history_position filter'' = Fir.history_position filter')
  ∧ (∀ (filter filter' : Iir.filter_type single) n,
       Iir.run_stereo_filter filter n = Some filter' →
       ∃ filter'',
         Iir.run_mono_filter filter n = Some filter''
         ∧ Iir.output_buffer_l filter'' = Iir.output_buffer_l filter'
         ∧ Iir.previous_sample_l filter'' = Iir.previous_sample_l filter')
  ∧ (∀ (filter filter' : Reson.filter_type single) n,
       Reson.run_stereo_filter filter n = Some filter' →
       ∃ filter'',
         Reson.run_mono_filter filter n = Some filter''
         ∧ Reson.output_buffer_l filter'' = Reson.output_buffer_l filter'
         ∧ Reson.history_l filter'' = Reson.history_l filter').
Proof.
  split; [|split; [|split]].
  - intros filter filter' n. unfold Comb.run_stereo_filter, Comb.run_mono_filter.
    destruct (uint_of_f (Comb.delay_control_value_l filter)); [|discriminate].
    cbn [mbind option_bind].
    destruct (Comb.filter_channel _ _ _ _ _ (Comb.history_l filter) _ _ _)
      as [[[ol hl] pl]|]; [|discriminate].
    cbn [mbind option_bind].
    destruct (uint_of_f _); [|discriminate]. cbn [mbind option_bind].
    destruct (Comb.filter_channel _ _ _ _ _ _ _ _ _) as [[[or hr] pr]|];
      [|discriminate].
    cbn [mbind option_bind]. intros [= <-].
    eexists. split; [reflexivity|]. destruct filter; split; reflexivity.
  - intros filter filter' n. unfold Fir.run_stereo_filter, Fir.run_mono_filter.
    unfold Fir.run_filter.
    destruct (Fir.get_sample_shift (Fir.freq_control_value_l filter) _);
      [|discriminate].
    cbn [mbind option_bind].
    destruct (Fir.get_sample_shift (Fir.freq_control_value_r filter) _);
      [|discriminate].
    cbn [mbind option_bind]. rewrite !fir_run_loop_channels.
    destruct (channel_loop _ (Fir.input_buffer_l filter) _ _ _ _) as [[ol [hl pl]]|];
      [|discriminate].
    cbn [mbind option_bind].
    destruct (channel_loop _ (Fir.input_buffer_r filter) _ _ _ _) as [[or [hr pr]]|];
      [|discriminate].
    cbn [mbind option_bind]. intros [= <-].
    eexists. split; [reflexivity|]. destruct filter; repeat split; reflexivity.
  - intros filter filter' n. unfold Iir.run_stereo_filter, Iir.run_mono_filter.
    unfold Iir.run_filter. rewrite !iir_run_loop_channels.
    destruct (channel_loop _ (Iir.input_buffer_l filter) _ _ _ _) as [[ol pl]|];
      [|discriminate].
    cbn [mbind option_bind].
    destruct (channel_loop _ (Iir.input_buffer_r filter) _ _ _ _) as [[or pr]|];
      [|discriminate].
    cbn [mbind option_bind]. intros [= <-].
    eexists. split; [reflexivity|]. destruct filter; split; reflexivity.
  - intros filter filter' n. unfold Reson.run_stereo_filter, Reson.run_mono_filter.
    unfold Reson.run_filter.
    destruct (Reson.filter_channel _ _ _ _ (Reson.history_l filter) _ _)
      as [[ol hl]|]; [|discriminate].
    cbn [mbind option_bind].
    destruct (Reson.filter_channel _ _ _ _ _ _ _) as [[or hr]|]; [|discriminate].
    cbn [mbind option_bind]. intros [= <-].
    eexists. split; [reflexivity|]. destruct filter; split; reflexivity.
Qed.

End StereoLeft.

(** *** Comb: where a block is defined *)

Section CombDefined.
Context `{Pow}.
Implicit Types (filter : Comb.filter_type single) (cells : list single).

Lemma comb_filter_channel_defined input output delay sharpness cells position length n :
  List.length cells = N.to_nat length → position < length →
  delay + length < 2 ^ ULONG_WIDTH →
  is_Some (Comb.filter_channel input output 0 delay sharpness (Live cells)
             position length n)
  ↔ (n ≤ List.length input ∧ n ≤ List.length output)%nat.
Proof.
  intros Hcells Hpos Hwrap. rewrite comb_filter_channel_loop, fmap_is_Some.
  rewrite (channel_loop_defined _ _ _ _ _ _ _ (comb_step_total _ _ _ Hwrap)).
  - change (N.to_nat 0) with 0%nat. simpl. lia.
  - eexists. split; [reflexivity|]. split; [exact Hcells|exact Hpos].
Qed.

(** X10. On an activated instance whose delay control has a conversion to
    [unsigned int], a block is defined for the comb plugin exactly when
    it is within the arrays of the audio ports of the channels it
    processes. *)
Theorem comb_run_defined filter n delay_l cells_l :
  uint_of_f (Comb.delay_control_value_l filter) = Some delay_l →
  Comb.history_l filter = Live cells_l →
  List.length cells_l = N.to_nat (Comb.history_length filter) →
  Comb.history_position filter < Comb.history_length filter →
  delay_l + Comb.history_length filter < 2 ^ ULONG_WIDTH →
  (is_Some (Comb.run_mono_filter filter n)
   ↔ (n ≤ List.length (Comb.input_buffer_l filter)
      ∧ n ≤ List.length (Comb.output_buffer_l filter))%nat)
  ∧ (∀ delay_r cells_r,
       uint_of_f (Comb.delay_control_value_r filter) = Some delay_r →
       Comb.history_r filter = Live cells_r →
       List.length cells_r = N.to_nat (Comb.history_length filter) →
       delay_r + Comb.history_length filter < 2 ^ ULONG_WIDTH →
       is_Some (Comb.run_stereo_filter filter n)
       ↔ (n ≤ List.length (Comb.input_buffer_l filter)
          ∧ n ≤ List.length (Comb.output_buffer_l filter)
          ∧ n ≤ List.length (Comb.input_buffer_r filter)
          ∧ n ≤ List.length (Comb.output_buffer_r filter))%nat).
Proof.
  destruct filter as [dl sl dr sr il ol ir or rate hl hr pos len].
  unfold Comb.run_mono_filter, Comb.run_stereo_filter. simpl.
  intros -> -> Hcells Hpos Hwrap. cbn [mbind option_bind].
  pose proof (comb_filter_channel_defined il ol delay_l sl cells_l pos len n
                Hcells Hpos Hwrap) as Hl.
  split.
  - destruct (Comb.filter_channel il ol 0 delay_l sl _ pos len n) as [[[ol' hl'] pl']|];
      cbn [mbind option_bind].
    + split; [intros _; apply Hl; eexists; reflexivity|intros _; eexists; reflexivity].
    + split; [intros [? [=]]|]. intros Hok. apply Hl in Hok as [? [=]].
  - intros delay_r cells_r -> -> Hcells_r Hwrap_r.
    pose proof (comb_filter_channel_defined ir or delay_r sr cells_r pos len n
                  Hcells_r Hpos Hwrap_r) as Hr.
    destruct (Comb.filter_channel il ol 0 delay_l sl _ pos len n) as [[[ol' hl'] pl']|];
      cbn [mbind option_bind].
    + destruct (Comb.filter_channel ir or 0 delay_r sr _ pos len n)
        as [[[or' hr'] pr']|]; cbn [mbind option_bind].
      * split; [intros _|intros _; eexists; reflexivity].
        destruct (proj1 Hl) as [? ?]; [eexists; reflexivity|].
        destruct (proj1 Hr) as [? ?]; [eexists; reflexivity|]. auto.
      * split; [intros [? [=]]|]. intros (? & ? & ? & ?).
        destruct (proj2 Hr) as [? [=]]. auto.
    + split; [intros [? [=]]|]. intros (? & ? & ? & ?).
      destruct (proj2 Hl) as [? [=]]. auto.
Qed.

End CombDefined.

(** *** Connecting ports *)

Section ConnectPort.
Context `{Arith}.


End ConnectPort.

(** *** Comb: a sharpness of 1 *)

Section RoundShifted.
Variables prec emax : Z.
Local Open Scope Z_scope.

Lemma binary_round_shifted (s : bool) (m k : positive) (e : Z) :
  bounded prec emax m e = true →
  binary_round prec emax s (Pos.iter xO m k) (e - Zpos k) = S754_finite s m e.
Proof.
  intros Hb. pose proof Hb as Hb'. apply andb_prop in Hb' as [Hc _].
  apply Z.eqb_eq in Hc.
  unfold binary_round, shl_align. rewrite digits2_iter_xO.
  replace (Zpos (digits2_pos m) + Zpos k + (e - Zpos k))
    with (Zpos (digits2_pos m) + e) by lia.
  rewrite Hc.
  replace (e - (e - Zpos k)) with (Zpos k) by lia.
  apply binary_round_aux_shifted, Hb.
Qed.

End RoundShifted.

Section CombSilent.
Import IEEE Test.
#[local] Existing Instance IEEE.arith.
#[local] Existing Instance IEEE.pow.

Lemma pow_two52 (p : positive) :
  (4503599627370496 ^ p)%positive = Pos.iter xO 1%positive (52 * p).
Proof.
  apply Pos2Z.inj. rewrite Pos2Z.inj_pow, iter_xO_value.
  change (Zpos 4503599627370496) with (2 ^ 52)%Z.
  rewrite <- Z.pow_mul_r by lia. rewrite Pos2Z.inj_mul. lia.
Qed.

(** [pow(1.0, n)] is 1.0. *)
Lemma pow_rn_one (n : N) : pow_rn (@f2d arith one) n = @d_of_int arith 1.
Proof.
  destruct n as [|p]; [reflexivity|].
  change (@f2d arith one) with (S754_finite false 4503599627370496 (-52)).
  unfold pow_rn. cbn [andb]. rewrite pow_two52.
  destruct (Pos.eq_dec p 1) as [->|Hp]; [reflexivity|].
  replace (52 * p)%positive with ((52 * p - 52) + 52)%positive by lia.
  rewrite Pos.iter_add.
  change (Pos.iter xO 1%positive 52) with 4503599627370496%positive.
  replace (-52 * Zpos p)%Z with (-52 - Zpos (52 * p - 52))%Z by lia.
  apply binary_round_shifted. reflexivity.
Qed.

(** With a gain of 1 the output sample is the history sample, whatever
    the input sample. *)
Lemma comb_feedback_unit_gain (x sharpness h : spec_float) (delay : N) :
  @pow_n arith pow (@f2d arith sharpness) delay = @d_of_int arith 1 →
  finite_sample x → finite_sample h →
  same_but_zero_sign h (Comb.feedback x sharpness delay h).
Proof.
  intros Hgain [Hfx Hvx] [Hfh Hvh]. unfold Comb.feedback. rewrite Hgain.
  change (@dsub arith (d_of_int 1) (d_of_int 1)) with (S754_zero false).
  assert (Ex : ∃ sx, @dmul arith (@f2d arith x) (S754_zero false) = S754_zero sx).
  { destruct x as [sx|sx| |sx m e]; try discriminate.
    - eexists; reflexivity.
    - destruct (f2d_finite sx m e Hvx) as (k & -> & _). eexists; reflexivity. }
  destruct Ex as [sx ->].
  destruct h as [sh|sh| |sh m e]; try discriminate.
  - change (@dmul arith (d_of_int 1) (@f2d arith (S754_zero sh))) with (S754_zero sh).
    destruct sx, sh; unfold same_but_zero_sign; simpl; auto.
  - destruct (f2d_finite sh m e Hvh) as (k & -> & Hb).
    rewrite dmul_one by exact Hb.
    change (@dadd arith (S754_zero sx) (S754_finite sh (Pos.iter xO m k) (e - Zpos k)))
      with (S754_finite sh (Pos.iter xO m k) (e - Zpos k)).
    rewrite d2f_shifted by exact Hvh. left. reflexivity.
Qed.

Lemma to_unsigned_lt (width : N) (x : spec_float) (n : N) :
  to_unsigned width x = Some n → (n < 2 ^ width)%N.
Proof.
  unfold to_unsigned. destruct (trunc x) as [t|]; [|discriminate].
  cbn [mbind option_bind]. case_bool_decide as Ht; [|discriminate].
  intros [= <-].
  assert (Hpow : Z.of_N (2 ^ width) = (2 ^ Z.of_N width)%Z).
  { rewrite N2Z.inj_pow. reflexivity. }
  lia.
Qed.

Lemma comb_silent_step (delay : N) :
  (delay + 100 < 2 ^ ULONG_WIDTH)%N →
  ∀ x s,
    finite_sample x →
    (λ s : block spec_float * N, s.1 = Live (replicate 100 zero) ∧ (s.2 < 100)%N) s →
    ∃ y s', @comb_step arith pow delay one 100 x s = Some (y, s')
            ∧ (λ _ y, y = zero) x y
            ∧ (λ s : block spec_float * N,
                 s.1 = Live (replicate 100 zero) ∧ (s.2 < 100)%N) s'.
Proof.
  intros Hwrap x [history position] Hx [Hh Hpos]. simpl in Hh, Hpos. subst history.
  destruct (@comb_step_Some arith pow delay one 100 x (replicate 100 zero) position)
    as (h & Hh & Hstep); [reflexivity|exact Hpos|exact Hwrap|].
  apply lookup_replicate in Hh as [-> _].
  assert (Hy : @Comb.feedback arith pow x one delay zero = zero).
  { destruct (comb_feedback_unit_gain x one zero delay (pow_rn_one delay) Hx)
      as [Hsame|[[=] _]]; [split; reflexivity|exact Hsame]. }
  rewrite Hy in Hstep.
  eexists _, _. split; [exact Hstep|]. split; [reflexivity|].
  cbn [fst snd]. split; [|apply N.mod_lt; lia].
  f_equal. apply list_eq. intros i.
  destruct (decide (i = N.to_nat ((position + delay) mod 100))) as [->|Hne].
  - rewrite list_lookup_insert_eq.
    + symmetry. apply lookup_replicate. split; [reflexivity|].
      assert ((position + delay) mod 100 < 100)%N by (apply N.mod_lt; lia). lia.
    + rewrite length_replicate.
      assert ((position + delay) mod 100 < 100)%N by (apply N.mod_lt; lia). lia.
  - apply list_lookup_insert_ne. congruence.
Qed.

Lemma comb_silent_channel (input output : list spec_float) (delay : N) (n : nat)
    (sharpness : spec_float) :
  (delay < 2 ^ UINT_WIDTH)%N →
  comb_full_sharpness sharpness input output n →
  ∃ output' position',
    @Comb.filter_channel arith pow input output 0 delay sharpness
      (Live (replicate 100 zero)) 0 100 n = Some (output', Live (replicate 100 zero), position')
    ∧ take n output' = replicate n zero
    ∧ drop n output' = drop n output.
Proof.
  intros Hdelay (-> & Hin & Hout & Hfin).
  assert (Hwrap : (delay + 100 < 2 ^ ULONG_WIDTH)%N).
  { unfold ULONG_WIDTH, UINT_WIDTH in *.
    change (2 ^ 32)%N with 4294967296%N in Hdelay.
    change (2 ^ 64)%N with 18446744073709551616%N. lia. }
  rewrite (@comb_filter_channel_loop arith pow).
  rewrite channel_loop_run
    by (change (N.to_nat 0) with 0%nat; simpl; lia).
  change (N.to_nat 0) with 0%nat. rewrite drop_0, take_0. cbn [app].
  destruct (channel_run_rule (@comb_step arith pow delay one 100)
              (λ s, s.1 = Live (replicate 100 zero) ∧ (s.2 < 100)%N)
              finite_sample (λ _ y, y = zero)
              (Live (replicate 100 zero), 0%N) (take n input)
              (comb_silent_step delay Hwrap))
    as (ys & [history' position'] & Hrun & HR & Hh' & _).
  { split; [reflexivity|]. simpl. lia. }
  { exact Hfin. }
  cbn [fst] in Hh'. subst history'.
  match goal with
  | |- context [channel_run ?f ?s ?l] =>
      replace (channel_run f s l)
        with (Some (ys, (Live (replicate 100 zero), position')))
        by (symmetry; exact Hrun)
  end.
  cbn [fmap option_fmap option_map fst snd].
  eexists _, _. split; [reflexivity|].
  assert (Hlen : List.length ys = n).
  { apply Forall2_length in HR. rewrite length_take in HR.
    rewrite Nat.min_l in HR by exact Hin. symmetry. exact HR. }
  rewrite take_app_length', drop_app_length' by (symmetry; exact Hlen).
  split; [|reflexivity].
  subst n. clear -HR. apply list_eq. intros i.
  destruct (ys !! i) as [y|] eqn:Hy.
  - destruct (Forall2_lookup_r _ _ _ _ _ HR Hy) as (x & _ & ->).
    symmetry. apply lookup_replicate. split; [reflexivity|].
    apply lookup_lt_Some in Hy. exact Hy.
  - symmetry. apply lookup_replicate_None. apply lookup_ge_None in Hy. exact Hy.
Qed.

End CombSilent.

Section CombSilentRun.
Import IEEE Test.
#[local] Existing Instance IEEE.arith.
#[local] Existing Instance IEEE.pow.

(** X11. With a sharpness control of 1.0, the upper bound of the port, a
    freshly activated mono comb instance ignores its input: a block of
    [n] finite samples gives [n] output samples +0, the rest of the
    output array is kept, and the instance is left as activation left
    it, so that every later block is silent as well. *)
Theorem comb_full_sharpness_silent (filter : Comb.filter_type spec_float) (n : nat) :
  is_Some (@uint_of_f arith (Comb.delay_control_value_l filter)) →
  comb_full_sharpness (Comb.sharp_control_value_l filter)
    (Comb.input_buffer_l filter) (Comb.output_buffer_l filter) n →
  @Comb.run_mono_filter arith pow (Comb.activate_mono_filter filter) n
  = Some (Comb.activate_mono_filter
            (Comb.set_output_l filter
               (replicate n zero ++ drop n (Comb.output_buffer_l filter)))).
Proof.
  destruct filter as [dl sl dr sr il ol ir or rate hl hr pos len].
  cbn [Comb.delay_control_value_l Comb.sharp_control_value_l Comb.input_buffer_l
       Comb.output_buffer_l].
  intros [delay Hdelay] Hfull.
  destruct (comb_silent_channel il ol delay n sl) as (ol' & pos' & Hrun & Htake & Hdrop).
  { apply (to_unsigned_lt UINT_WIDTH dl). exact Hdelay. }
  { exact Hfull. }
  unfold Comb.run_mono_filter, Comb.activate_mono_filter, Comb.activate_filter.
  cbn [Comb.set_cursor Comb.set_history Comb.set_output_l
       Comb.delay_control_value_l Comb.sharp_control_value_l Comb.input_buffer_l
       Comb.output_buffer_l Comb.history_l Comb.history_r Comb.history_position
       Comb.history_length Comb.delay_control_value_r Comb.sharp_control_value_r
       Comb.input_buffer_r Comb.output_buffer_r Comb.sample_rate].
  rewrite Hdelay. cbn [mbind option_bind].
  change (calloc Comb.MAX_DELAY) with (Live (replicate 100 zero)).
  change Comb.MAX_DELAY with 100%N.
  rewrite Hrun. cbn [mbind option_bind].
  rewrite <- (take_drop n ol'), Htake, Hdrop. reflexivity.
Qed.

End CombSilentRun.

(** *** The theorems on blocks at the instances *)

Section BlockWitnesses.
Import IEEE Test TestBlocks.
#[local] Existing Instance IEEE.arith.
#[local] Existing Instance IEEE.pow.

Lemma iir_junk_run (n : nat) :
  (n ≤ 4)%nat → ∃ filter', Iir.run_filter iir_junk n false = Some filter'.
Proof.
  intros Hn.
  destruct n as [|[|[|[|[|n]]]]]; [..|lia]; eexists; vm_compute; reflexivity.
Qed.

Lemma iir_run_recurrence_witness :
  ∃ filter',
    Iir.run_filter iir_junk 4 false = Some filter'
    ∧ @iir_channel_after arith half one [one; zero; zero; zero] [one; one; one; one]
        (Iir.output_buffer_l filter') (Iir.previous_sample_l filter') 4.
Proof.
  destruct (iir_junk_run 4) as [filter' Hrun]; [lia|].
  exists filter'. split; [exact Hrun|].
  exact (proj1 (iir_run_recurrence iir_junk 4 false filter' Hrun)).
Defined.

Lemma iir_block_split_witness :
  ∃ filter' filter1 filter2 filter3,
    Iir.run_filter iir_junk (1 + 3) false = Some filter'
    ∧ Iir.run_filter iir_junk 1 false = Some filter1
    ∧ iir_next_block filter1 1 = Some filter2
    ∧ Iir.run_filter filter2 3 false = Some filter3
    ∧ Iir.output_buffer_l filter'
      = take 1 (Iir.output_buffer_l filter1) ++ Iir.output_buffer_l filter3.
Proof.
  destruct (iir_junk_run (1 + 3)) as [filter' Hrun]; [simpl; lia|].
  exists filter'.
  destruct (iir_block_split iir_junk 1 3 false filter' Hrun)
    as (filter1 & filter2 & filter3 & H1 & H2 & H3 & Hl & _).
  exists filter1, filter2, filter3. split; [exact Hrun|]. auto.
Defined.

Lemma iir_coef_zero_passes_input_witness :
  ∃ filter',
    Iir.run_filter iir_dry 2 true = Some filter'
    ∧ passes_input [one; neg_zero] (Iir.output_buffer_l filter') 2
    ∧ passes_input [half; one] (Iir.output_buffer_r filter') 2.
Proof.
  eexists. split; [reflexivity|].
  destruct (iir_coef_zero_passes_input iir_dry _ 2 true eq_refl) as [Hl Hr].
  split.
  - apply Hl. split; [eexists; reflexivity|].
    split; [split; reflexivity|]. repeat constructor.
  - apply Hr; [reflexivity|]. split; [eexists; reflexivity|].
    split; [split; reflexivity|]. repeat constructor.
Defined.

Lemma comb_delay_line_witness :
  ∃ output' history' position',
    @Comb.filter_channel arith pow [one; one; one] [zero; zero; zero] 0 1 half
      (Live (replicate 100 zero)) 0 100 3 = Some (output', history', position')
    ∧ @comb_channel_after arith pow 1 half [one; one; one] [zero; zero; zero]
        (replicate 100 zero) 0 100 output' history' position' 3.
Proof.
  eexists _, _, _. split; [reflexivity|].
  apply (@comb_delay_line arith pow [one; one; one] [zero; zero; zero] 1 half
           (replicate 100 zero) 0 100 3); [reflexivity|reflexivity|reflexivity|].
  reflexivity.
Defined.

Lemma comb_run_defined_witness :
  (is_Some (Comb.run_mono_filter comb 3)
   ↔ (3 ≤ List.length (Comb.input_buffer_l comb)
      ∧ 3 ≤ List.length (Comb.output_buffer_l comb))%nat)
  ∧ (is_Some (Comb.run_stereo_filter comb 4)
     ↔ (4 ≤ List.length (Comb.input_buffer_l comb)
        ∧ 4 ≤ List.length (Comb.output_buffer_l comb)
        ∧ 4 ≤ List.length (Comb.input_buffer_r comb)
        ∧ 4 ≤ List.length (Comb.output_buffer_r comb))%nat).
Proof.
  split.
  - apply (proj1 (comb_run_defined comb 3 1 (replicate 100 zero)
                    eq_refl eq_refl eq_refl eq_refl eq_refl)).
  - apply (proj2 (comb_run_defined comb 4 1 (replicate 100 zero)
                    eq_refl eq_refl eq_refl eq_refl eq_refl)
             1%N (replicate 100 zero)); reflexivity.
Defined.

Lemma comb_full_sharpness_silent_witness :
  Comb.output_buffer_l
    <$> Comb.run_mono_filter (Comb.activate_mono_filter comb_sharp_junk) 3
  = Some [zero; zero; zero; one].
Proof.
  rewrite (comb_full_sharpness_silent comb_sharp_junk 3).
  - reflexivity.
  - exists 3%N. reflexivity.
  - split; [reflexivity|]. split; [simpl; lia|]. split; [simpl; lia|].
    repeat constructor.
Defined.

Lemma fir_small_shift_l :
  Fir.get_sample_shift (Fir.freq_control_value_l fir_small) (Fir.sample_rate fir_small)
  = Some 2%N.
Proof. vm_compute. reflexivity. Qed.

Lemma fir_small_shift_r :
  Fir.get_sample_shift (Fir.freq_control_value_r fir_small) (Fir.sample_rate fir_small)
  = Some 4%N.
Proof. vm_compute. reflexivity. Qed.

Lemma fir_small_run (n : nat) :
  (n ≤ 4)%nat → ∃ filter', Fir.run_filter fir_small n true = Some filter'.
Proof.
  intros Hn.
  destruct n as [|[|[|[|[|n]]]]]; [..|lia]; eexists; vm_compute; reflexivity.
Qed.

Lemma fir_delay_line_witness :
  ∃ filter',
    Fir.run_filter fir_small 4 true = Some filter'
    ∧ @fir_channel_after arith 2 one [one; half; quarter; eighth] [zero; zero; zero; zero]
        [zero; zero; zero; zero] 0 4
        (Fir.output_buffer_l filter') (Fir.history_l filter') 4
    ∧ Fir.history_position filter' = ((0 + N.of_nat 4) mod 4)%N
    ∧ @fir_channel_after arith 4 half [half; one; half; one] [zero; zero; zero; zero]
        [zero; zero; zero; zero] 0 4
        (Fir.output_buffer_r filter') (Fir.history_r filter') 4.
Proof.
  destruct (fir_small_run 4) as [filter' Hrun]; [lia|].
  exists filter'. split; [exact Hrun|].
  destruct (fir_delay_line fir_small 4 true filter' 2 [zero; zero; zero; zero])
    as (Hl & Hpos & _ & Hr & _);
    [exact fir_small_shift_l|reflexivity|reflexivity|reflexivity|reflexivity
    |exact Hrun|].
  split; [exact Hl|]. split; [exact Hpos|].
  apply (Hr 4%N [zero; zero; zero; zero]);
    [reflexivity|exact fir_small_shift_r|reflexivity|reflexivity|reflexivity].
Defined.

Lemma fir_run_defined_witness :
  is_Some (Fir.run_filter fir_small 5 true)
  ↔ (5 ≤ List.length (Fir.input_buffer_l fir_small)
     ∧ 5 ≤ List.length (Fir.output_buffer_l fir_small)
     ∧ (true = true →
        5 ≤ List.length (Fir.input_buffer_r fir_small)
        ∧ 5 ≤ List.length (Fir.output_buffer_r fir_small)))%nat.
Proof.
  apply (fir_run_defined fir_small 5 true 2 4 [zero; zero; zero; zero]
           [zero; zero; zero; zero]);
    [exact fir_small_shift_l|reflexivity|reflexivity|reflexivity|reflexivity|].
  intros _. split; [exact fir_small_shift_r|]. repeat split.
Defined.

Lemma fir_block_split_witness :
  ∃ filter' filter1 filter2 filter3,
    Fir.run_filter fir_small (3 + 1) true = Some filter'
    ∧ Fir.run_filter fir_small 3 true = Some filter1
    ∧ fir_next_block filter1 3 = Some filter2
    ∧ Fir.run_filter filter2 1 true = Some filter3
    ∧ Fir.output_buffer_l filter'
      = take 3 (Fir.output_buffer_l filter1) ++ Fir.output_buffer_l filter3
    ∧ Fir.history_position filter' = Fir.history_position filter3.
Proof.
  destruct (fir_small_run (3 + 1)) as [filter' Hrun]; [simpl; lia|].
  exists filter'.
  destruct (fir_block_split fir_small 3 1 true filter' Hrun)
    as (filter1 & filter2 & filter3 & H1 & H2 & H3 & Hl & _ & _ & _ & Hp).
  exists filter1, filter2, filter3. split; [exact Hrun|]. auto.
Defined.

Lemma fir_history_length_witness :
  (Fir.sample_rate (Fir.instantiate_filter fir_small_junk 8) < 2 ^ 24)%N
  ∧ ∃ filter',
      Fir.activate_filter (Fir.instantiate_filter fir_small_junk 8) true
      = Some filter'
      ∧ Fir.history_length filter' = (8 / 2)%N
      ∧ Fir.history_position filter' = 0%N
      ∧ Fir.history_l filter' = Live (replicate (N.to_nat (8 / 2)) zero)
      ∧ Fir.history_r filter' = Live (replicate (N.to_nat (8 / 2)) zero).
Proof.
  split; [reflexivity|].
  apply (fir_history_length (Fir.instantiate_filter fir_small_junk 8) true).
  reflexivity.
Defined.

Lemma fir_low_rate_undefined_witness :
  ∃ filter',
    Fir.activate_filter (Fir.instantiate_filter fir_small_junk 1) true
    = Some filter'
    ∧ Fir.history_length filter' = 0%N
    ∧ ∀ n stereo', Fir.run_filter filter' (S n) stereo' = None.
Proof.
  apply (fir_low_rate_undefined (Fir.instantiate_filter fir_small_junk 1) true).
  reflexivity.
Defined.


End BlockWitnesses.

Section RealBlockWitnesses.
Import Rdefinitions.
#[local] Existing Instance Real.arith.
#[local] Existing Instance Real.pow.
#[local] Existing Instance Real.trig.

Lemma reson_real_run (n : nat) :
  (n ≤ 2)%nat → ∃ filter', Reson.run_filter RealTest.reson n true = Some filter'.
Proof.
  intros Hn. destruct n as [|[|[|n]]]; [..|lia]; eexists; reflexivity.
Qed.

Lemma reson_run_recurrence_witness :
  ∃ filter',
    Reson.run_filter RealTest.reson 2 true = Some filter'
    ∧ @reson_channel_after Real.arith Real.pow Real.trig (IZR 440) (IZR 100) 44100
        [IZR 1; IZR 0] [IZR 0; IZR 0] [IZR 0; IZR 0]
        (Reson.output_buffer_l filter') (Reson.history_l filter') 2
    ∧ @reson_channel_after Real.arith Real.pow Real.trig (IZR 880) (IZR 100) 44100
        [IZR 0; IZR 1] [IZR 0; IZR 0] [IZR 0; IZR 0]
        (Reson.output_buffer_r filter') (Reson.history_r filter') 2.
Proof.
  destruct (reson_real_run 2) as [filter' Hrun]; [lia|].
  exists filter'. split; [exact Hrun|].
  destruct (reson_run_recurrence RealTest.reson 2 true filter' [IZR 0; IZR 0])
    as (Hl & Hr & _); [reflexivity|exact Hrun|].
  split; [exact Hl|]. apply (Hr [IZR 0; IZR 0]); reflexivity.
Defined.

Lemma reson_block_split_witness :
  ∃ filter' filter1 filter2 filter3,
    Reson.run_filter RealTest.reson (1 + 1) true = Some filter'
    ∧ Reson.run_filter RealTest.reson 1 true = Some filter1
    ∧ reson_next_block filter1 1 = Some filter2
    ∧ Reson.run_filter filter2 1 true = Some filter3
    ∧ Reson.output_buffer_l filter'
      = take 1 (Reson.output_buffer_l filter1) ++ Reson.output_buffer_l filter3
    ∧ Reson.history_l filter' = Reson.history_l filter3.
Proof.
  destruct (reson_real_run (1 + 1)) as [filter' Hrun]; [simpl; lia|].
  exists filter'.
  destruct (reson_block_split RealTest.reson 1 1 true filter' Hrun)
    as (filter1 & filter2 & filter3 & H1 & H2 & H3 & Hl & _ & Hh & _).
  exists filter1, filter2, filter3. split; [exact Hrun|]. auto.
Defined.

Lemma stereo_left_is_mono_witness :
  ∃ filter' filter'',
    Reson.run_stereo_filter RealTest.reson 2 = Some filter'
    ∧ Reson.run_mono_filter RealTest.reson 2 = Some filter''
    ∧ Reson.output_buffer_l filter'' = Reson.output_buffer_l filter'
    ∧ Reson.history_l filter'' = Reson.history_l filter'.
Proof.
  destruct (reson_real_run 2) as [filter' Hrun]; [lia|].
  exists filter'.
  destruct (proj2 (proj2 (proj2 stereo_left_is_mono)) RealTest.reson filter' 2%nat Hrun)
    as (filter'' & Hmono & Hout & Hh).
  exists filter''. split; [exact Hrun|]. auto.
Defined.

End RealBlockWitnesses.

(** *** Rounding below a number of the format *)

Section RoundBelow.
Variables prec emax : Z.
Hypothesis Hprec : (0 < prec)%Z.
Local Open Scope Z_scope.

#[local] Abbreviation fexp := (SpecFloat.fexp prec emax).

Lemma digits2_le (m : positive) (d : Z) :
  Zpos m < 2 ^ d → Zpos (digits2_pos m) ≤ d.
Proof.
  intros Hm. pose proof (digits2_lower m) as Hl.
  destruct (Z.le_gt_cases (Zpos (digits2_pos m)) d) as [|Hgt]; [done|].
  assert (0 ≤ d).
  { destruct (Z.le_gt_cases 0 d); [done|]. rewrite Z.pow_neg_r in Hm by lia. lia. }
  assert (2 ^ d ≤ 2 ^ (Zpos (digits2_pos m) - 1)) by (apply Z.pow_le_mono_r; lia).
  lia.
Qed.

Lemma digits2_ge (m : positive) (d : Z) :
  2 ^ d ≤ Zpos m → d + 1 ≤ Zpos (digits2_pos m).
Proof.
  intros Hm. pose proof (digits2_bound m) as Hu.
  destruct (Z.le_gt_cases (d + 1) (Zpos (digits2_pos m))) as [|Hgt]; [done|].
  assert (2 ^ Zpos (digits2_pos m) ≤ 2 ^ d) by (apply Z.pow_le_mono_r; lia).
  lia.
Qed.

Lemma digits2_unique (m : positive) (d : Z) :
  2 ^ (d - 1) ≤ Zpos m < 2 ^ d → Zpos (digits2_pos m) = d.
Proof.
  intros [Hl Hu]. apply digits2_le in Hu. apply digits2_ge in Hl. lia.
Qed.

Lemma fexp_mono (a b : Z) : a ≤ b → fexp a ≤ fexp b.
Proof. unfold SpecFloat.fexp. lia. Qed.

(** [shr] by a number of digits that is not negative. *)
Lemma shr_nonneg_spec (mrs mrs' : shr_record) (e e' n : Z) :
  0 ≤ shr_m mrs → 0 ≤ n →
  shr mrs e n = (mrs', e') →
  e' = e + n ∧ shr_m mrs' = shr_m mrs / 2 ^ n
  ∧ (0 < n → shr_r mrs' = Z.odd (shr_m mrs / 2 ^ (n - 1)))
  ∧ (n = 0 → mrs' = mrs).
Proof.
  intros Hm Hn. unfold shr. destruct n as [|n|n]; [| |lia].
  - intros [= <- <-]. rewrite Z.pow_0_r, Z.div_1_r. repeat split; lia.
  - intros [= <- <-]. destruct (shr_iter_spec n mrs Hm) as [H1 H2].
    repeat split; try done; lia.
Qed.

Lemma shr_nonpos_spec (mrs : shr_record) (e n : Z) :
  n ≤ 0 → shr mrs e n = (mrs, e).
Proof. intros Hn. unfold shr. destruct n; [reflexivity|lia|reflexivity]. Qed.

(** The mantissa is rounded down when the digits that are dropped are
    less than half a unit. *)
Lemma round_nearest_even_exact (mx K j : Z) (mrs : shr_record) :
  0 ≤ j → 0 ≤ K →
  K * 2 ^ j ≤ mx → 2 * mx < (2 * K + 1) * 2 ^ j →
  shr_m mrs = mx / 2 ^ j →
  (0 < j → shr_r mrs = Z.odd (mx / 2 ^ (j - 1))) →
  (j = 0 → mrs = {| shr_m := mx; shr_r := false; shr_s := false |}) →
  round_nearest_even (shr_m mrs) (loc_of_shr_record mrs) = K.
Proof.
  intros Hj HK Hlow Hhigh Hm Hr Hid.
  assert (Hpow : 0 < 2 ^ j) by (apply Z.pow_pos_nonneg; lia).
  assert (Hq : mx / 2 ^ j = K).
  { symmetry. apply (Z.div_unique_pos mx (2 ^ j) K (mx - K * 2 ^ j)); nia. }
  destruct (Z.eq_dec j 0) as [->|Hj0].
  - rewrite (Hid eq_refl). simpl. rewrite Z.pow_0_r, Z.div_1_r in Hq. exact Hq.
  - assert (Hr' : shr_r mrs = false).
    { rewrite Hr by lia.
      assert (Hpow' : 0 < 2 ^ (j - 1)) by (apply Z.pow_pos_nonneg; lia).
      assert (H2 : 2 ^ j = 2 * 2 ^ (j - 1)).
      { rewrite <- Z.pow_succ_r by lia. f_equal. lia. }
      assert (Hq' : mx / 2 ^ (j - 1) = 2 * K).
      { symmetry.
        apply (Z.div_unique_pos mx (2 ^ (j - 1)) (2 * K) (mx - 2 * K * 2 ^ (j - 1))); nia. }
      rewrite Hq'. rewrite Z.odd_mul. reflexivity. }
    destruct mrs as [m r s0]. simpl in Hr', Hm. subst r.
    destruct s0; simpl; lia.
Qed.


Lemma digits2_div_pow2 (m p : positive) (n : Z) :
  0 ≤ n → Zpos m / 2 ^ n = Zpos p →
  Zpos (digits2_pos p) = Zpos (digits2_pos m) - n.
Proof.
  intros Hn Hq.
  assert (Hpow : 0 < 2 ^ n) by (apply Z.pow_pos_nonneg; lia).
  pose proof (digits2_lower m) as Hl. pose proof (digits2_bound m) as Hu.
  pose proof (Z.mul_div_le (Zpos m) (2 ^ n) Hpow) as Hdown.
  pose proof (Z.mul_succ_div_gt (Zpos m) (2 ^ n) Hpow) as Hup.
  rewrite Hq in Hdown, Hup.
  assert (Hnd : n < Zpos (digits2_pos m)).
  { destruct (Z.lt_ge_cases n (Zpos (digits2_pos m))) as [|Hge]; [done|].
    assert (2 ^ Zpos (digits2_pos m) ≤ 2 ^ n) by (apply Z.pow_le_mono_r; lia).
    nia. }
  apply digits2_unique. split.
  - apply Z.lt_succ_r. apply (Z.mul_lt_mono_pos_l (2 ^ n)); [lia|].
    replace (2 ^ n * 2 ^ (Zpos (digits2_pos m) - n - 1))
      with (2 ^ (Zpos (digits2_pos m) - 1))
      by (rewrite <- Z.pow_add_r by lia; f_equal; lia).
    lia.
  - apply (Z.mul_lt_mono_pos_l (2 ^ n)); [lia|].
    replace (2 ^ n * 2 ^ (Zpos (digits2_pos m) - n))
      with (2 ^ Zpos (digits2_pos m))
      by (rewrite <- Z.pow_add_r by lia; f_equal; lia).
    lia.
Qed.

(** After the mantissa was rounded, it is shifted once more if it has one
    digit too many: what comes out is in the format, at an exponent that
    grows with the number of digits, and is not more than the rounded
    number. *)
Lemma shr_fexp_rounded (m2 e1 : Z) :
  0 ≤ m2 →
  (fexp (Zdigits2 m2 + e1) ≤ e1 → m2 = 0 ∨ fexp (Zdigits2 m2 + e1) = e1) →
  ∀ mrs2 e2,
    shr_fexp prec emax m2 e1 loc_Exact = (mrs2, e2) →
    e1 ≤ e2 ∧ e2 ≤ Z.max e1 (fexp (Zdigits2 m2 + e1))
    ∧ 0 ≤ shr_m mrs2 ∧ shr_m mrs2 * 2 ^ (e2 - e1) ≤ m2
    ∧ (emin prec emax ≤ e1 → 0 < m2 → 0 < shr_m mrs2)
    ∧ ∀ p, shr_m mrs2 = Zpos p → canonical_mantissa prec emax p e2 = true.
Proof.
  intros Hm2 Hcan mrs2 e2. unfold shr_fexp. simpl shr_record_of_loc.
  set (n := fexp (Zdigits2 m2 + e1) - e1).
  assert (Hn : n = fexp (Zdigits2 m2 + e1) - e1) by reflexivity. clearbody n.
  destruct (Z.le_gt_cases n 0) as [Hn0|Hn0].
  - rewrite shr_nonpos_spec by exact Hn0. intros [= <- <-]. simpl shr_m.
    rewrite Z.sub_diag, Z.pow_0_r.
    repeat split; try lia.
    intros p Hp. unfold canonical_mantissa. apply Z.eqb_eq.
    subst m2. simpl Zdigits2 in *. destruct Hcan as [Hcan|Hcan]; [lia|discriminate|exact Hcan].
  - intros Hshr. apply shr_nonneg_spec in Hshr as (-> & Hm3 & _ & _);
      [|simpl; lia|lia].
    simpl shr_m in Hm3.
    assert (Hpow : 0 < 2 ^ n) by (apply Z.pow_pos_nonneg; lia).
    replace (e1 + n - e1) with n by lia.
    split; [lia|]. split; [lia|].
    split; [rewrite Hm3; apply Z.div_pos; lia|].
    split; [rewrite Hm3, Z.mul_comm; apply Z.mul_div_le; lia|].
    split.
    + intros Hemin Hpos. destruct m2 as [|p2|p2]; [lia| |lia].
      rewrite Hm3. apply Z.div_str_pos. split; [lia|].
      simpl Zdigits2 in Hn. pose proof (digits2_lower p2) as Hl.
      assert (n ≤ Zpos (digits2_pos p2) - 1).
      { unfold SpecFloat.fexp in Hn. lia. }
      assert (2 ^ n ≤ 2 ^ (Zpos (digits2_pos p2) - 1)) by (apply Z.pow_le_mono_r; lia).
      lia.
    + intros p Hp. unfold canonical_mantissa. apply Z.eqb_eq.
      destruct m2 as [|p2|p2]; [rewrite Hp in Hm3; discriminate| |lia].
      rewrite Hp in Hm3. symmetry in Hm3.
      rewrite (digits2_div_pow2 p2 p n) by (try lia; exact Hm3).
      simpl Zdigits2 in Hn.
      replace (Zpos (digits2_pos p2) - n + (e1 + n))
        with (Zpos (digits2_pos p2) + e1) by lia.
      lia.
Qed.

(** The mantissa that the first shift leaves has all the digits of the
    format, unless the exponent is the least one. *)
Lemma first_shift_digits (mx : positive) (ex m2 : Z) :
  ex ≤ fexp (Zpos (digits2_pos mx) + ex) →
  Zpos mx / 2 ^ (fexp (Zpos (digits2_pos mx) + ex) - ex) ≤ m2 →
  fexp (Zdigits2 m2 + fexp (Zpos (digits2_pos mx) + ex))
    ≤ fexp (Zpos (digits2_pos mx) + ex) →
  m2 = 0 ∨ fexp (Zdigits2 m2 + fexp (Zpos (digits2_pos mx) + ex))
           = fexp (Zpos (digits2_pos mx) + ex).
Proof.
  set (dx := Zpos (digits2_pos mx)). set (e1 := fexp (dx + ex)).
  assert (He1 : e1 = fexp (dx + ex)) by reflexivity. clearbody e1.
  intros Hal Hm2 Hle.
  assert (Hpow : 0 < 2 ^ (e1 - ex)) by (apply Z.pow_pos_nonneg; lia).
  assert (0 ≤ Zpos mx / 2 ^ (e1 - ex)) by (apply Z.div_pos; lia).
  destruct m2 as [|p2|p2]; [left; reflexivity| |lia].
  right. simpl Zdigits2 in *.
  destruct (Z.eq_dec e1 (emin prec emax)) as [Hemin|Hemin].
  - unfold SpecFloat.fexp in *. lia.
  - assert (Hnorm : e1 = dx + ex - prec) by (unfold SpecFloat.fexp in He1; lia).
    assert (Hlow : 2 ^ (prec - 1) ≤ Zpos mx / 2 ^ (e1 - ex)).
    { apply Z.div_le_lower_bound; [lia|].
      rewrite <- Z.pow_add_r by lia.
      replace (e1 - ex + (prec - 1)) with (dx - 1) by lia.
      apply digits2_lower. }
    assert (prec - 1 + 1 ≤ Zpos (digits2_pos p2)) by (apply digits2_ge; lia).
    unfold SpecFloat.fexp in *. lia.
Qed.

(** Rounding to nearest does not cross a number of the format: a number
    that is at most [B * 2 ^ eB], a number of the format at the exponent
    [eB], rounds to a number that is at most that; and so does a number
    that is less than half a unit of [eB] above it, when [eB] is the
    exponent the format gives [B]. The number that is rounded is
    [mx * 2 ^ ex], with [ex] at most the exponent the format gives it;
    numbers are compared at a common exponent [c]. *)
Lemma binary_round_aux_below (slack s : bool) (mx : positive) (ex B eB c : Z) :
  ex ≤ fexp (Zpos (digits2_pos mx) + ex) →
  0 < B →
  fexp (Zdigits2 B + eB) ≤ eB → eB ≤ emax - prec →
  c ≤ ex → c ≤ eB →
  (if slack
   then fexp (Zdigits2 B + eB) = eB
        ∧ 2 * Zpos mx * 2 ^ (ex - c) < (2 * B + 1) * 2 ^ (eB - c)
   else Zpos mx * 2 ^ (ex - c) ≤ B * 2 ^ (eB - c)) →
  match binary_round_aux prec emax s (Zpos mx) ex loc_Exact with
  | S754_zero s' => s' = s
  | S754_finite s' m e =>
      s' = s ∧ bounded prec emax m e = true ∧ ex ≤ e ≤ eB
      ∧ Zpos m * 2 ^ (e - ex) ≤ B * 2 ^ (eB - ex)
  | _ => False
  end.
Proof.
  intros Hal HB Hrep HeB Hc1 Hc2 Hval.
  destruct B as [|b|b]; [lia| |lia]. simpl Zdigits2 in Hrep, Hval.
  unfold binary_round_aux. unfold shr_fexp at 1.
  simpl Zdigits2. simpl shr_record_of_loc.
  pose proof (digits2_lower mx) as Hxl. pose proof (digits2_bound mx) as Hxu.
  pose proof (digits2_lower b) as Hbl. pose proof (digits2_bound b) as Hbu.
  pose proof (first_shift_digits mx ex) as Hfirst.
  set (dx := Zpos (digits2_pos mx)) in *. set (dB := Zpos (digits2_pos b)) in *.
  assert (Hdx : 1 ≤ dx) by (unfold dx; lia).
  assert (HdB : 1 ≤ dB) by (unfold dB; lia).
  clearbody dx dB.
  pose proof (fexp_mono (dx + ex) (dB + eB)) as Hmono1.
  pose proof (fexp_mono (dB + eB) (dx + ex)) as Hmono2.
  set (e1 := fexp (dx + ex)) in *. clearbody e1.
  assert (Hpc : 0 < 2 ^ (ex - c)) by (apply Z.pow_pos_nonneg; lia).
  assert (Hpb : 0 < 2 ^ (eB - c)) by (apply Z.pow_pos_nonneg; lia).
  assert (Hlt : Zpos mx * 2 ^ (ex - c) < (Zpos b + 1) * 2 ^ (eB - c))
    by (destruct slack; nia).
  (* the number has at most the digits of the bound *)
  assert (HD : dx + ex ≤ dB + eB).
  { assert (Hp1 : 2 ^ (dx - 1 + (ex - c)) < 2 ^ (dB + (eB - c))).
    { rewrite !Z.pow_add_r by lia. nia. }
    apply Z.pow_lt_mono_r_iff in Hp1; lia. }
  assert (He1B : e1 ≤ eB) by lia.
  assert (Hpj : 0 < 2 ^ (e1 - ex)) by (apply Z.pow_pos_nonneg; lia).
  assert (Hpt : 0 < 2 ^ (eB - e1)) by (apply Z.pow_pos_nonneg; lia).
  assert (Hsplit : 2 ^ (eB - ex) = 2 ^ (eB - e1) * 2 ^ (e1 - ex)).
  { rewrite <- Z.pow_add_r by lia. f_equal. lia. }
  assert (Hsplit' : 2 ^ (eB - c) = 2 ^ (eB - ex) * 2 ^ (ex - c)).
  { rewrite <- Z.pow_add_r by lia. f_equal. lia. }
  set (K := Zpos b * 2 ^ (eB - e1)).
  assert (HK : K * 2 ^ (e1 - ex) = Zpos b * 2 ^ (eB - ex)) by (unfold K; nia).
  (* the first shift *)
  destruct (shr {| shr_m := Zpos mx; shr_r := false; shr_s := false |} ex (e1 - ex))
    as [mrs1 e1'] eqn:Hshr1.
  apply shr_nonneg_spec in Hshr1 as (-> & Hm1 & Hr1 & Hid1); [|simpl; lia|lia].
  simpl shr_m in Hm1, Hr1.
  replace (ex + (e1 - ex)) with e1 by lia.
  set (m2 := round_nearest_even (shr_m mrs1) (loc_of_shr_record mrs1)).
  assert (Hm1pos : 0 ≤ shr_m mrs1) by (rewrite Hm1; apply Z.div_pos; lia).
  pose proof (round_nearest_even_bound (shr_m mrs1) (loc_of_shr_record mrs1) Hm1pos)
    as Hrb. fold m2 in Hrb.
  assert (Hdown : shr_m mrs1 * 2 ^ (e1 - ex) ≤ Zpos mx).
  { rewrite Hm1, Z.mul_comm. apply Z.mul_div_le. lia. }
  assert (Hm2 : m2 ≤ K).
  { destruct (Z.lt_ge_cases (shr_m mrs1) K) as [|Hge]; [lia|].
    assert (Hlow : K * 2 ^ (e1 - ex) ≤ Zpos mx) by (clear -Hge Hdown Hpj; nia).
    assert (Hhigh : 2 * Zpos mx < (2 * K + 1) * 2 ^ (e1 - ex)).
    { destruct slack.
      - destruct Hval as [Hcan Hval].
        (* the number has the digits of the bound, and its exponent *)
        assert (HD' : dB + eB ≤ dx + ex).
        { assert (Hp1 : 2 ^ (dB - 1 + (eB - ex)) < 2 ^ dx).
          { rewrite Z.pow_add_r by lia.
            assert (Hpx : 0 < 2 ^ (eB - ex)) by (apply Z.pow_pos_nonneg; lia).
            clear -Hbl HK Hlow Hxu Hpx. nia. }
          apply Z.pow_lt_mono_r_iff in Hp1; lia. }
        assert (e1 = eB) by lia.
        assert (HKb : K = Zpos b).
        { unfold K. replace (eB - e1) with 0 by lia. lia. }
        rewrite HKb. replace (e1 - ex) with (eB - ex) by lia.
        rewrite Hsplit' in Hval. clear -Hval Hpc. nia.
      - rewrite Hsplit' in Hval. clear -Hval Hpc HK Hpj. nia. }
    assert (HK0 : 0 ≤ K) by (unfold K; lia).
    unfold m2.
    rewrite (round_nearest_even_exact (Zpos mx) K (e1 - ex) mrs1); auto with zarith. }
  (* the second shift *)
  destruct (shr_fexp prec emax m2 e1 loc_Exact) as [mrs2 e2] eqn:Hshr2.
  destruct (shr_fexp_rounded m2 e1) with (mrs2 := mrs2) (e2 := e2)
    as (He12 & He2 & Hm3pos & Hm3 & _ & Hcan3); [lia| |exact Hshr2|].
  { apply Hfirst; [exact Hal|]. lia. }
  destruct (shr_m mrs2) as [|p3|p3] eqn:Hp3; [reflexivity| |lia].
  assert (Hpe : 0 < 2 ^ (e2 - e1)) by (apply Z.pow_pos_nonneg; lia).
  assert (He2B : e2 ≤ eB).
  { destruct (Z.le_gt_cases e2 e1) as [|Hgt]; [lia|].
    assert (Hd2 : Zdigits2 m2 + e1 ≤ dB + eB).
    { destruct m2 as [|p2|p2]; [simpl; lia| |lia]. simpl Zdigits2.
      assert (Zpos (digits2_pos p2) ≤ dB + (eB - e1)); [|lia].
      apply digits2_le. rewrite Z.pow_add_r by lia. unfold K in Hm2.
      clear -Hm2 Hbu Hpt. nia. }
    pose proof (fexp_mono _ _ Hd2). lia. }
  rewrite (proj2 (Z.leb_le _ _)) by lia.
  split; [reflexivity|]. split.
  { unfold bounded. rewrite (Hcan3 p3 eq_refl). apply Z.leb_le. lia. }
  split; [lia|].
  replace (e2 - ex) with ((e2 - e1) + (e1 - ex)) by lia.
  rewrite Z.pow_add_r by lia. clear -Hm3 Hm2 HK Hpj Hpe. nia.
Qed.


(** A number at any exponent: rounding to nearest does not cross a number
    of the format. *)
Lemma binary_round_aux_at_most (s : bool) (mx : positive) (ex B eB c : Z) :
  ex ≤ emax - prec →
  0 < B →
  fexp (Zdigits2 B + eB) ≤ eB → eB ≤ emax - prec →
  c ≤ ex → c ≤ eB →
  Zpos mx * 2 ^ (ex - c) ≤ B * 2 ^ (eB - c) →
  match binary_round_aux prec emax s (Zpos mx) ex loc_Exact with
  | S754_zero _ => True
  | S754_finite _ m e => c ≤ e ∧ Zpos m * 2 ^ (e - c) ≤ B * 2 ^ (eB - c)
  | _ => False
  end.
Proof.
  intros Hex HB Hrep HeB Hc1 Hc2 Hval.
  destruct (Z.le_gt_cases ex (fexp (Zpos (digits2_pos mx) + ex))) as [Hal|Hal].
  - pose proof (binary_round_aux_below false s mx ex B eB c Hal HB Hrep HeB Hc1 Hc2 Hval)
      as Hr.
    destruct (binary_round_aux prec emax s (Zpos mx) ex loc_Exact) as [| | |s' m e];
      try done.
    destruct Hr as (_ & _ & He & Hm). split; [lia|].
    assert (Hpc : 0 < 2 ^ (ex - c)) by (apply Z.pow_pos_nonneg; lia).
    replace (e - c) with ((e - ex) + (ex - c)) by lia.
    replace (eB - c) with ((eB - ex) + (ex - c)) by lia.
    rewrite !Z.pow_add_r by lia. nia.
  - unfold binary_round_aux, shr_fexp. simpl Zdigits2. simpl shr_record_of_loc.
    rewrite shr_nonpos_spec by lia. simpl.
    rewrite shr_nonpos_spec by lia. simpl.
    rewrite (proj2 (Z.leb_le _ _)) by lia. split; [lia|exact Hval].
Qed.

(** [binary_round] first gives the mantissa the digits it lacks. *)
Lemma binary_round_aligned (s : bool) (mx : positive) (ex : Z) :
  ∃ (mz : positive) (ez : Z),
    binary_round prec emax s mx ex = binary_round_aux prec emax s (Zpos mz) ez loc_Exact
    ∧ ez ≤ ex ∧ Zpos mz = Zpos mx * 2 ^ (ex - ez)
    ∧ ez ≤ fexp (Zpos (digits2_pos mz) + ez).
Proof.
  unfold binary_round, shl_align.
  set (f := fexp (Zpos (digits2_pos mx) + ex)).
  assert (Hf : f = fexp (Zpos (digits2_pos mx) + ex)) by reflexivity. clearbody f.
  destruct (f - ex) as [|d|d] eqn:Hd.
  - exists mx, ex. rewrite Z.sub_diag, Z.pow_0_r. repeat split; lia.
  - exists mx, ex. rewrite Z.sub_diag, Z.pow_0_r. repeat split; lia.
  - exists (Pos.iter xO mx d), f. split; [reflexivity|]. split; [lia|].
    split.
    + rewrite iter_xO_value. f_equal. f_equal. lia.
    + rewrite digits2_iter_xO.
      replace (Zpos (digits2_pos mx) + Zpos d + f) with (Zpos (digits2_pos mx) + ex) by lia.
      lia.
Qed.

(** A number of at least [2 ^ emin] does not round to zero. *)
Lemma binary_round_aux_positive (s : bool) (mx : positive) (ex : Z) :
  ex ≤ fexp (Zpos (digits2_pos mx) + ex) →
  emin prec emax ≤ Zpos (digits2_pos mx) + ex - 1 →
  match binary_round_aux prec emax s (Zpos mx) ex loc_Exact with
  | S754_zero _ | S754_nan => False
  | S754_finite s' _ _ => s' = s
  | S754_infinity _ => True
  end.
Proof.
  intros Hal Hmin.
  unfold binary_round_aux. unfold shr_fexp at 1.
  simpl Zdigits2. simpl shr_record_of_loc.
  pose proof (digits2_lower mx) as Hxl.
  pose proof (first_shift_digits mx ex) as Hfirst.
  set (dx := Zpos (digits2_pos mx)) in *.
  assert (Hdx : 1 ≤ dx) by (unfold dx; lia).
  clearbody dx.
  assert (Hemin : emin prec emax ≤ fexp (dx + ex)) by (unfold SpecFloat.fexp; lia).
  assert (Hj : fexp (dx + ex) - ex ≤ dx - 1) by (unfold SpecFloat.fexp; lia).
  set (e1 := fexp (dx + ex)) in *. clearbody e1.
  destruct (shr {| shr_m := Zpos mx; shr_r := false; shr_s := false |} ex (e1 - ex))
    as [mrs1 e1'] eqn:Hshr1.
  apply shr_nonneg_spec in Hshr1 as (-> & Hm1 & _ & _); [|simpl; lia|lia].
  simpl shr_m in Hm1.
  replace (ex + (e1 - ex)) with e1 by lia.
  assert (Hpj : 0 < 2 ^ (e1 - ex)) by (apply Z.pow_pos_nonneg; lia).
  assert (Hm1pos : 1 ≤ shr_m mrs1).
  { rewrite Hm1. apply Z.div_le_lower_bound; [lia|].
    assert (2 ^ (e1 - ex) ≤ 2 ^ (dx - 1)) by (apply Z.pow_le_mono_r; lia). lia. }
  set (m2 := round_nearest_even (shr_m mrs1) (loc_of_shr_record mrs1)).
  pose proof (round_nearest_even_bound (shr_m mrs1) (loc_of_shr_record mrs1)) as Hrb.
  fold m2 in Hrb.
  destruct (shr_fexp prec emax m2 e1 loc_Exact) as [mrs2 e2] eqn:Hshr2.
  destruct (shr_fexp_rounded m2 e1) with (mrs2 := mrs2) (e2 := e2)
    as (_ & _ & _ & _ & Hpos & _); [lia| |exact Hshr2|].
  { apply Hfirst; [exact Hal|]. lia. }
  destruct (shr_m mrs2) as [|p3|p3]; [lia| |lia].
  destruct (e2 <=? emax - prec); [reflexivity|exact I].
Qed.

End RoundBelow.

Section Magnitude.
Local Open Scope Q_scope.

Lemma pow2_pos (e : Z) : 0 < pow2 e.
Proof. apply Qpower_0_lt. reflexivity. Qed.

Lemma pow2_add (a b : Z) : pow2 (a + b) == pow2 a * pow2 b.
Proof. apply Qpower_plus. discriminate. Qed.

Lemma pow2_Z (n : Z) : (0 ≤ n)%Z → pow2 n == inject_Z (2 ^ n).
Proof. intros Hn. unfold pow2. rewrite Zpower_Qpower by exact Hn. reflexivity. Qed.

(** A number at a lower exponent. *)
Lemma scaled (m e c : Z) :
  (c ≤ e)%Z → inject_Z m * pow2 e == inject_Z (m * 2 ^ (e - c)) * pow2 c.
Proof.
  intros Hc. replace e with ((e - c) + c)%Z at 1 by lia.
  rewrite pow2_add, pow2_Z by lia. rewrite inject_Z_mult. ring.
Qed.

Lemma scaled_le (m1 e1 m2 e2 c : Z) :
  (c ≤ e1)%Z → (c ≤ e2)%Z →
  inject_Z m1 * pow2 e1 <= inject_Z m2 * pow2 e2
  ↔ (m1 * 2 ^ (e1 - c) ≤ m2 * 2 ^ (e2 - c))%Z.
Proof.
  intros H1 H2. rewrite (scaled m1 e1 c H1), (scaled m2 e2 c H2).
  rewrite Qmult_le_r by apply pow2_pos. rewrite <- Zle_Qle. reflexivity.
Qed.

Lemma scaled_lt (m1 e1 m2 e2 c : Z) :
  (c ≤ e1)%Z → (c ≤ e2)%Z →
  inject_Z m1 * pow2 e1 < inject_Z m2 * pow2 e2
  ↔ (m1 * 2 ^ (e1 - c) < m2 * 2 ^ (e2 - c))%Z.
Proof.
  intros H1 H2. rewrite (scaled m1 e1 c H1), (scaled m2 e2 c H2).
  rewrite Qmult_lt_r by apply pow2_pos. rewrite <- Zlt_Qlt. reflexivity.
Qed.

Lemma mag_nonneg (x : spec_float) : 0 <= mag x.
Proof.
  destruct x as [| | |s m e]; simpl; try apply Qle_refl.
  apply Qmult_le_0_compat; [|apply Qlt_le_weak, pow2_pos].
  rewrite <- (Zle_Qle 0). lia.
Qed.

End Magnitude.

Section RoundMagnitude.
Variables prec emax : Z.
Hypothesis Hprec : (0 < prec)%Z.
Local Open Scope Q_scope.

#[local] Abbreviation fexp := (SpecFloat.fexp prec emax).

(** [binary_round] does not cross a number of the format: see
    [binary_round_aux_below]. *)
Lemma binary_round_below (slack s : bool) (mx : positive) (ex B eB : Z) :
  (0 < B)%Z →
  (fexp (Zdigits2 B + eB) ≤ eB)%Z → (eB ≤ emax - prec)%Z →
  (if slack
   then fexp (Zdigits2 B + eB) = eB
        ∧ inject_Z (2 * Zpos mx) * pow2 ex < inject_Z (2 * B + 1) * pow2 eB
   else inject_Z (Zpos mx) * pow2 ex <= inject_Z B * pow2 eB) →
  rounds_below prec emax B eB (binary_round prec emax s mx ex).
Proof.
  intros HB Hrep HeB Hval.
  destruct (binary_round_aligned prec emax s mx ex) as (mz & ez & -> & Hez & Hmz & Hal).
  set (c := Z.min ez eB).
  assert (Hpz : (0 < 2 ^ (ex - ez))%Z) by (apply Z.pow_pos_nonneg; lia).
  assert (Hsame : ∀ k, (inject_Z (k * Zpos mx) * pow2 ex
                        == inject_Z (k * Zpos mz) * pow2 ez)).
  { intros k. rewrite (scaled (k * Zpos mx) ex ez Hez).
    assert (HZ : (k * Zpos mx * 2 ^ (ex - ez) = k * Zpos mz)%Z) by (rewrite Hmz; ring).
    rewrite HZ. reflexivity. }
  assert (Hc1 : (c ≤ ez)%Z) by (unfold c; lia).
  assert (Hc2 : (c ≤ eB)%Z) by (unfold c; lia).
  clearbody c.
  assert (HvalZ : if slack
                  then fexp (Zdigits2 B + eB) = eB
                       ∧ (2 * Zpos mz * 2 ^ (ez - c) < (2 * B + 1) * 2 ^ (eB - c))%Z
                  else (Zpos mz * 2 ^ (ez - c) ≤ B * 2 ^ (eB - c))%Z).
  { destruct slack.
    - destruct Hval as [Hcan Hval]. split; [exact Hcan|].
      rewrite (Hsame 2%Z) in Hval.
      apply (scaled_lt _ _ _ _ c) in Hval; [exact Hval|lia|lia].
    - pose proof (Hsame 1%Z) as H1. rewrite !Z.mul_1_l in H1. rewrite H1 in Hval.
      apply (scaled_le _ _ _ _ c) in Hval; [exact Hval|lia|lia]. }
  pose proof (binary_round_aux_below prec emax Hprec slack s mz ez B eB c
                Hal HB Hrep HeB Hc1 Hc2 HvalZ) as Hr.
  unfold rounds_below.
  destruct (binary_round_aux prec emax s (Zpos mz) ez loc_Exact) as [| | |s' m e];
    try done.
  destruct Hr as (_ & Hb & He & Hm).
  split; [exact Hb|]. split; [lia|].
  apply (scaled_le _ _ _ _ ez); lia.
Qed.

Lemma bound_nonneg (B eB : Z) : (0 < B)%Z → 0 <= inject_Z B * pow2 eB.
Proof.
  intros HB. apply Qmult_le_0_compat; [|apply Qlt_le_weak, pow2_pos].
  rewrite <- (Zle_Qle 0). lia.
Qed.

Lemma rounds_below_at_most (B eB : Z) (r : spec_float) :
  (0 < B)%Z →
  rounds_below prec emax B eB r → finite_at_most (inject_Z B * pow2 eB) r.
Proof.
  intros HB. destruct r as [s|s| |s m e]; simpl; try done.
  - intros _. split; [reflexivity|]. apply bound_nonneg, HB.
  - intros (_ & _ & Hm). split; [reflexivity|exact Hm].
Qed.

(** The product of two finite numbers whose exponents do not add up to
    more than the format has. *)
Lemma SFmul_finite_at_most (sx sy : bool) (mx my : positive) (ex ey B eB : Z) :
  (ex + ey ≤ emax - prec)%Z →
  (0 < B)%Z →
  (fexp (Zdigits2 B + eB) ≤ eB)%Z → (eB ≤ emax - prec)%Z →
  mag (S754_finite sx mx ex) * mag (S754_finite sy my ey) <= inject_Z B * pow2 eB →
  finite_at_most (inject_Z B * pow2 eB)
    (SFmul prec emax (S754_finite sx mx ex) (S754_finite sy my ey)).
Proof.
  intros Hex HB Hrep HeB Hval. simpl SFmul.
  set (c := Z.min (ex + ey) eB).
  assert (Hc1 : (c ≤ ex + ey)%Z) by (unfold c; lia).
  assert (Hc2 : (c ≤ eB)%Z) by (unfold c; lia).
  clearbody c.
  assert (HvalZ : (Zpos (mx * my) * 2 ^ (ex + ey - c) ≤ B * 2 ^ (eB - c))%Z).
  { apply (scaled_le _ _ _ _ c); [lia|lia|].
    rewrite Pos2Z.inj_mul, inject_Z_mult, pow2_add.
    simpl mag in Hval.
    assert (Heq : inject_Z (Zpos mx) * inject_Z (Zpos my) * (pow2 ex * pow2 ey)
                  == inject_Z (Zpos mx) * pow2 ex * (inject_Z (Zpos my) * pow2 ey))
      by ring.
    rewrite Heq. exact Hval. }
  pose proof (binary_round_aux_at_most prec emax Hprec (xorb sx sy) (mx * my) (ex + ey)
                B eB c Hex HB Hrep HeB Hc1 Hc2 HvalZ) as Hr.
  destruct (binary_round_aux prec emax (xorb sx sy) (Zpos (mx * my)) (ex + ey) loc_Exact)
    as [| | |s' m e]; try done.
  - split; [reflexivity|]. apply bound_nonneg, HB.
  - destruct Hr as [He Hm]. split; [reflexivity|].
    simpl. apply (scaled_le _ _ _ _ c); [lia|lia|exact Hm].
Qed.

Lemma shl_align_value (m : positive) (e e' : Z) :
  (e' ≤ e)%Z → Zpos (fst (shl_align m e e')) = (Zpos m * 2 ^ (e - e'))%Z.
Proof.
  intros He. unfold shl_align. destruct (e' - e)%Z as [|d|d] eqn:Hd; simpl fst.
  - replace (e - e')%Z with 0%Z by lia. lia.
  - lia.
  - rewrite iter_xO_value. f_equal. f_equal. lia.
Qed.

Lemma binary_normalize_below (z ez B eB : Z) (szero : bool) :
  (0 < B)%Z →
  (fexp (Zdigits2 B + eB) ≤ eB)%Z → (eB ≤ emax - prec)%Z →
  inject_Z (Z.abs z) * pow2 ez <= inject_Z B * pow2 eB →
  rounds_below prec emax B eB (binary_normalize prec emax z ez szero).
Proof.
  intros HB Hrep HeB Hval. unfold binary_normalize.
  destruct z as [|m|m]; [exact I| |];
    apply (binary_round_below false); done.
Qed.

(** The sum of two finite numbers, and their difference: the magnitude is
    at most the sum of the magnitudes. *)
Lemma SFadd_finite_below (sx sy : bool) (mx my : positive) (ex ey B eB : Z) :
  (0 < B)%Z →
  (fexp (Zdigits2 B + eB) ≤ eB)%Z → (eB ≤ emax - prec)%Z →
  mag (S754_finite sx mx ex) + mag (S754_finite sy my ey) <= inject_Z B * pow2 eB →
  rounds_below prec emax B eB
    (SFadd prec emax (S754_finite sx mx ex) (S754_finite sy my ey)).
Proof.
  intros HB Hrep HeB Hval. simpl SFadd.
  apply binary_normalize_below; try done.
  set (ez := Z.min ex ey) in *.
  rewrite !shl_align_value by (unfold ez; lia).
  eapply Qle_trans; [|exact Hval]. simpl mag.
  rewrite (scaled (Zpos mx) ex ez), (scaled (Zpos my) ey ez) by (unfold ez; lia).
  rewrite <- Qmult_plus_distr_l, <- inject_Z_plus.
  apply Qmult_le_r; [apply pow2_pos|]. rewrite <- Zle_Qle.
  destruct sx, sy; simpl cond_Zopp; lia.
Qed.

(** The difference of two positive finite numbers. *)
Lemma SFsub_positive_below (mx my : positive) (ex ey B eB : Z) :
  (0 < B)%Z →
  (fexp (Zdigits2 B + eB) ≤ eB)%Z → (eB ≤ emax - prec)%Z →
  mag (S754_finite false my ey) <= mag (S754_finite false mx ex) →
  mag (S754_finite false mx ex) - mag (S754_finite false my ey) <= inject_Z B * pow2 eB →
  rounds_below prec emax B eB
    (SFsub prec emax (S754_finite false mx ex) (S754_finite false my ey)).
Proof.
  intros HB Hrep HeB Hle Hval. simpl SFsub.
  apply binary_normalize_below; try done.
  set (ez := Z.min ex ey) in *.
  rewrite !shl_align_value by (unfold ez; lia).
  eapply Qle_trans; [|exact Hval]. simpl mag in *.
  rewrite (scaled (Zpos mx) ex ez), (scaled (Zpos my) ey ez) in Hle |- *
    by (unfold ez; lia).
  apply Qmult_le_r in Hle; [|apply pow2_pos]. rewrite <- Zle_Qle in Hle.
  assert (Heq : inject_Z (Zpos mx * 2 ^ (ex - ez)) * pow2 ez
                - inject_Z (Zpos my * 2 ^ (ey - ez)) * pow2 ez
                == (inject_Z (Zpos mx * 2 ^ (ex - ez)) - inject_Z (Zpos my * 2 ^ (ey - ez)))
                   * pow2 ez) by ring.
  rewrite Heq.
  apply Qmult_le_r; [apply pow2_pos|].
  unfold Qminus. rewrite <- inject_Z_opp, <- inject_Z_plus, <- Zle_Qle.
  simpl cond_Zopp. lia.
Qed.

(** A number of at least [2 ^ emin] does not round to zero, and keeps its
    sign. *)
Lemma binary_round_positive (s : bool) (mx : positive) (ex : Z) :
  pow2 (emin prec emax) <= inject_Z (Zpos mx) * pow2 ex →
  match binary_round prec emax s mx ex with
  | S754_zero _ | S754_nan => False
  | S754_finite s' _ _ => s' = s
  | S754_infinity _ => True
  end.
Proof.
  intros Hval.
  destruct (binary_round_aligned prec emax s mx ex) as (mz & ez & -> & Hez & Hmz & Hal).
  apply (binary_round_aux_positive prec emax Hprec); [exact Hal|].
  rewrite (scaled (Zpos mx) ex ez Hez), <- Hmz in Hval.
  set (c := Z.min ez (emin prec emax)).
  assert (Hc1 : (c ≤ ez)%Z) by (unfold c; lia).
  assert (Hc2 : (c ≤ emin prec emax)%Z) by (unfold c; lia).
  clearbody c.
  rewrite <- (Qmult_1_l (pow2 (emin prec emax))) in Hval.
  change 1 with (inject_Z 1) in Hval.
  apply (scaled_le _ _ _ _ c) in Hval; [|lia|lia].
  pose proof (digits2_bound mz) as Hu.
  assert (Hpc : (0 < 2 ^ (ez - c))%Z) by (apply Z.pow_pos_nonneg; lia).
  assert (Hp : (2 ^ (emin prec emax - c) < 2 ^ (Zpos (digits2_pos mz) + (ez - c)))%Z).
  { rewrite Z.pow_add_r by lia. nia. }
  apply Z.pow_lt_mono_r_iff in Hp; lia.
Qed.

End RoundMagnitude.

(** *** Comb: the feedback in binary64, stored in binary32 *)

Section FeedbackMagnitude.
Import IEEE.
Local Open Scope Q_scope.

Lemma SFmul_comm (prec emax : Z) (x y : spec_float) :
  SFmul prec emax x y = SFmul prec emax y x.
Proof.
  destruct x as [sx|sx| |sx mx ex], y as [sy|sy| |sy my ey]; simpl;
    rewrite ?(xorb_comm sx sy); try reflexivity.
  rewrite (Pos.mul_comm mx my), (Z.add_comm ex ey). reflexivity.
Qed.

(** Promotion to binary64 keeps the magnitude. *)
Lemma f2d_mag (x : spec_float) :
  is_finite x = true → valid32 x = true →
  match conv prec64 emax64 x with
  | S754_zero _ => mag x == 0
  | S754_finite _ m e => bounded prec64 emax64 m e = true ∧ mag x == inject_Z (Zpos m) * pow2 e
  | _ => False
  end.
Proof.
  intros Hf Hv. destruct x as [s|s| |s m e]; try discriminate.
  - simpl. reflexivity.
  - destruct (f2d_finite s m e Hv) as (k & Hk & Hb).
    change (@f2d arith (S754_finite s m e)) with (conv prec64 emax64 (S754_finite s m e)) in Hk.
    rewrite Hk. split; [exact Hb|]. simpl mag.
    rewrite (scaled (Zpos m) e (e - Zpos k)) by lia.
    rewrite iter_xO_value. replace (e - (e - Zpos k))%Z with (Zpos k) by lia.
    reflexivity.
Qed.

(** A number of binary64 of at most 1 has an exponent of at most -52. *)
Lemma unit_exponent (s : bool) (m : positive) (e : Z) :
  bounded prec64 emax64 m e = true →
  inject_Z (Zpos m) * pow2 e <= 1 → (e ≤ -52)%Z.
Proof.
  intros Hb Hle. apply andb_prop in Hb as [Hc _]. apply Z.eqb_eq in Hc.
  pose proof (digits2_lower m) as Hl.
  set (c := Z.min e 0).
  assert (Hz : (Zpos m * 2 ^ (e - c) ≤ 1 * 2 ^ (0 - c))%Z).
  { apply (scaled_le _ _ _ _ c); [unfold c; lia|unfold c; lia|].
    change (pow2 0) with 1. rewrite Qmult_1_r. exact Hle. }
  assert (Hd : (Zpos (digits2_pos m) + e ≤ 1)%Z).
  { destruct (Z.le_gt_cases (Zpos (digits2_pos m) + e) 1) as [|Hgt]; [done|].
    assert (Hp : (2 ^ (0 - c) < 2 ^ (Zpos (digits2_pos m) - 1 + (e - c)))%Z)
      by (apply Z.pow_lt_mono_r; unfold c; lia).
    rewrite Z.pow_add_r in Hp by (unfold c; lia).
    assert (0 < 2 ^ (e - c))%Z by (apply Z.pow_pos_nonneg; unfold c; lia).
    nia. }
  unfold SpecFloat.fexp, emin, prec64, emax64 in Hc. lia.
Qed.

Lemma pow2_52 : inject_Z (2 ^ 52) * pow2 (-52) == 1.
Proof. vm_compute. reflexivity. Qed.

Lemma floor_succ_bounds (q : Q) :
  0 <= q →
  (0 < Qfloor q + 1)%Z ∧ q < inject_Z (Qfloor q + 1) ∧ inject_Z (Qfloor q + 1) <= q + 1.
Proof.
  intros Hq. split; [|split].
  - pose proof (Qfloor_resp_le 0 q Hq) as H0. change (Qfloor 0) with 0%Z in H0. lia.
  - apply Qlt_floor.
  - rewrite inject_Z_plus. apply Qplus_le_l. apply Qfloor_le.
Qed.

Lemma digits_at_most (B n : Z) : (0 < B < 2 ^ n)%Z → (Zdigits2 B ≤ n)%Z.
Proof.
  intros [H0 Hn]. destruct B as [|b|b]; try lia. simpl. apply digits2_le. exact Hn.
Qed.

(** [1 - g] for a gain [g] in (0, 1]: a finite number [w] at an exponent
    of at most -52, and [w + g] is not more than [1 + 2 ^ -52]. *)
Lemma one_minus_gain (g : spec_float) :
  unit_gain g →
  let w := SFsub prec64 emax64 (S754_finite false 4503599627370496 (-52)) g in
  is_finite w = true
  ∧ (∀ s m e, w = S754_finite s m e → (e ≤ -52)%Z)
  ∧ mag w + mag g <= 1 + pow2 (-52).
Proof.
  intros (mg & eg & -> & Hv & HG) w.
  set (G := mag (S754_finite false mg eg)) in *.
  assert (HG0 : 0 <= G) by apply mag_nonneg.
  set (T := inject_Z (2 ^ 52)). set (t := pow2 (-52)).
  assert (HTt : T * t == 1) by apply pow2_52.
  assert (Ht : 0 < t) by apply pow2_pos.
  assert (HT : 1 < T) by reflexivity.
  destruct (floor_succ_bounds ((1 - G) * T)) as (HB0 & HBl & HBu); [nra|].
  set (BW := (Qfloor ((1 - G) * T) + 1)%Z) in *.
  assert (HBW : (BW < 2 ^ 53)%Z).
  { rewrite Zlt_Qlt. eapply Qle_lt_trans; [exact HBu|].
    change (inject_Z (2 ^ 53)) with (T + T). nra. }
  assert (Hone : mag (S754_finite false 4503599627370496 (-52)) == 1) by apply pow2_52.
  assert (Hr : rounds_below prec64 emax64 BW (-52) w).
  { apply SFsub_positive_below.
    - reflexivity.
    - exact HB0.
    - pose proof (digits_at_most BW 53 (conj HB0 HBW)) as Hd.
      unfold SpecFloat.fexp, emin, prec64, emax64. lia.
    - unfold prec64, emax64. lia.
    - rewrite Hone. exact HG.
    - rewrite Hone. fold G. fold t.
      assert (H1 : (1 - G) * T * t <= inject_Z BW * t).
      { apply Qmult_le_r; [exact Ht|]. apply Qlt_le_weak, HBl. }
      nra. }
  assert (HBt : inject_Z BW * t <= 1 - G + t).
  { assert (H1 : inject_Z BW * t <= ((1 - G) * T + 1) * t).
    { apply Qmult_le_r; [exact Ht|]. exact HBu. }
    nra. }
  destruct w as [s|s| |s m e]; simpl in Hr; try done.
  - split; [reflexivity|]. split; [discriminate|].
    change (mag (S754_zero s)) with 0. fold t. nra.
  - destruct Hr as (_ & He & Hm). split; [reflexivity|]. split.
    + intros ? ? ? [= _ _ <-]. exact He.
    + change (mag (S754_finite s m e)) with (inject_Z (Zpos m) * pow2 e).
      fold G. fold t in Hm |- *. lra.
Qed.

(** The bound of the proofs that follow: [mM * 2 ^ eM], a number of
    binary32, seen at the exponent [eM - 29], where binary64 has room for
    its 24 digits and 29 more. *)
Lemma bound_at_low_exponent (mM : positive) (eM : Z) :
  inject_Z (Zpos mM) * pow2 eM == inject_Z (Zpos mM * 2 ^ 29) * pow2 (eM - 29).
Proof.
  rewrite (scaled (Zpos mM) eM (eM - 29)) by lia.
  replace (eM - (eM - 29))%Z with 29%Z by lia. reflexivity.
Qed.

Lemma low_exponent_format (mM : positive) (eM B : Z) :
  valid32 (S754_finite false mM eM) = true →
  (0 < B < 2 ^ 53)%Z →
  (SpecFloat.fexp prec64 emax64 (Zdigits2 B + (eM - 29)) ≤ eM - 29)%Z
  ∧ (eM - 29 ≤ emax64 - prec64)%Z.
Proof.
  intros Hv HB. destruct (valid32_inv false mM eM Hv) as (_ & He & _).
  pose proof (digits_at_most B 53 HB) as Hd.
  unfold SpecFloat.fexp, emin, prec64, emax64. lia.
Qed.

(** The product of a sample of magnitude at most [mM * 2 ^ eM] and of a
    weight [d] of at most [1 + 2 ^ -52]. *)
Lemma dmul_f2d_at_most (mM : positive) (eM : Z) (x d : spec_float) :
  valid32 (S754_finite false mM eM) = true →
  is_finite x = true → valid32 x = true →
  mag x <= inject_Z (Zpos mM) * pow2 eM →
  is_finite d = true →
  (∀ s m e, d = S754_finite s m e → (e ≤ -52)%Z) →
  mag d <= 1 + pow2 (-52) →
  ∃ A : Z,
    (0 < A)%Z
    ∧ finite_at_most (inject_Z A * pow2 (eM - 29))
        (SFmul prec64 emax64 (conv prec64 emax64 x) d)
    ∧ inject_Z A <= inject_Z (Zpos mM * 2 ^ 29) * mag d + 1.
Proof.
  intros Hv Hfx Hvx Hx Hfd Hed Hd.
  destruct (valid32_inv false mM eM Hv) as (HdM & HeM & _).
  pose proof (digits2_bound mM) as HmM.
  assert (HmM' : (Zpos mM * 2 ^ 29 ≤ 2 ^ 53 - 2 ^ 29)%Z).
  { assert (Zpos mM < 2 ^ 24)%Z; [|lia].
    eapply Z.lt_le_trans; [exact HmM|]. apply Z.pow_le_mono_r; lia. }
  set (M' := inject_Z (Zpos mM * 2 ^ 29)) in *.
  assert (HM'0 : 0 <= M') by (unfold M'; rewrite <- (Zle_Qle 0); lia).
  assert (HM'u : M' <= inject_Z (2 ^ 53 - 2 ^ 29)) by (unfold M'; rewrite <- Zle_Qle; lia).
  set (D := mag d) in *. assert (HD0 : 0 <= D) by apply mag_nonneg.
  set (t := pow2 (-52)) in *. set (u := pow2 (eM - 29)).
  assert (Hu : 0 < u) by apply pow2_pos.
  assert (Ht : inject_Z (2 ^ 53) * t == 2) by (vm_compute; reflexivity).
  assert (Ht0 : 0 < t) by apply pow2_pos.
  destruct (floor_succ_bounds (M' * D)) as (HA0 & HAl & HAu); [nra|].
  set (A := (Qfloor (M' * D) + 1)%Z) in *.
  exists A. split; [exact HA0|]. split; [|exact HAu].
  assert (HA53 : (A < 2 ^ 53)%Z).
  { rewrite Zlt_Qlt. eapply Qle_lt_trans; [exact HAu|].
    assert (H29 : inject_Z (2 ^ 53 - 2 ^ 29) + 3 < inject_Z (2 ^ 53)) by reflexivity.
    assert (H53 : inject_Z (2 ^ 53 - 2 ^ 29) <= inject_Z (2 ^ 53)) by discriminate.
    assert (0 <= inject_Z (2 ^ 53 - 2 ^ 29)) by discriminate.
    nra. }
  destruct (low_exponent_format mM eM A Hv (conj HA0 HA53)) as [Hrep HeB].
  pose proof (f2d_mag x Hfx Hvx) as Hx'.
  destruct (conv prec64 emax64 x) as [sx|sx| |sx mx ex]; try done.
  - destruct d as [sd|sd| |sd md ed]; try discriminate;
      (split; [reflexivity|apply bound_nonneg, HA0]).
  - destruct Hx' as [Hbx Hmx].
    destruct d as [sd|sd| |sd md ed]; try discriminate.
    + split; [reflexivity|apply bound_nonneg, HA0].
    + apply SFmul_finite_at_most; try done.
      * apply andb_prop in Hbx as [_ Hbx]. apply Z.leb_le in Hbx.
        pose proof (Hed sd md ed eq_refl). unfold prec64, emax64 in *. lia.
      * change (mag (S754_finite sx mx ex)) with (inject_Z (Zpos mx) * pow2 ex).
        rewrite <- Hmx. fold D. fold u.
        rewrite bound_at_low_exponent in Hx. fold M' in Hx. fold u in Hx.
        assert (mag x * D <= M' * u * D) by (apply Qmult_le_compat_r; done).
        assert (M' * D * u <= inject_Z A * u).
        { apply Qmult_le_r; [exact Hu|]. apply Qlt_le_weak, HAl. }
        nra.
Qed.

(** The sum of two such products. *)
Lemma dadd_at_most (mM : positive) (eM A B S : Z) (a b : spec_float) :
  valid32 (S754_finite false mM eM) = true →
  (0 < A)%Z → (0 < B)%Z → (A + B ≤ S)%Z → (S < 2 ^ 53)%Z →
  finite_at_most (inject_Z A * pow2 (eM - 29)) a →
  finite_at_most (inject_Z B * pow2 (eM - 29)) b →
  finite_at_most (inject_Z S * pow2 (eM - 29)) (SFadd prec64 emax64 a b).
Proof.
  intros Hv HA HB HS HS53 [Hfa Ha] [Hfb Hb].
  destruct (low_exponent_format mM eM S Hv) as [Hrep HeB]; [lia|].
  set (u := pow2 (eM - 29)) in *. assert (Hu : 0 < u) by apply pow2_pos.
  assert (HAS : inject_Z A * u <= inject_Z S * u).
  { apply Qmult_le_r; [exact Hu|]. rewrite <- Zle_Qle. lia. }
  assert (HBS : inject_Z B * u <= inject_Z S * u).
  { apply Qmult_le_r; [exact Hu|]. rewrite <- Zle_Qle. lia. }
  assert (HABS : inject_Z A * u + inject_Z B * u <= inject_Z S * u).
  { rewrite <- Qmult_plus_distr_l, <- inject_Z_plus.
    apply Qmult_le_r; [exact Hu|]. rewrite <- Zle_Qle. lia. }
  assert (HS0 : 0 <= inject_Z S * u) by (apply bound_nonneg; lia).
  destruct a as [sa|sa| |sa ma ea], b as [sb|sb| |sb mb eb]; try discriminate.
  - split; [destruct sa, sb; reflexivity|].
    destruct sa, sb; exact HS0.
  - split; [reflexivity|]. simpl SFadd. lra.
  - split; [reflexivity|]. simpl SFadd. lra.
  - apply (rounds_below_at_most prec64 emax64); [lia|].
    apply SFadd_finite_below; try done; [lia|]. fold u. lra.
Qed.

(** The sum is stored in binary32: a number that is less than half a unit
    of binary32 above [mM * 2 ^ eM] is stored as a number that is at most
    that. *)
Lemma d2f_below (mM : positive) (eM S : Z) (s : spec_float) :
  valid32 (S754_finite false mM eM) = true →
  (S < Zpos mM * 2 ^ 29 + 2 ^ 28)%Z →
  finite_at_most (inject_Z S * pow2 (eM - 29)) s →
  rounds_below prec32 emax32 (Zpos mM) eM (conv prec32 emax32 s).
Proof.
  intros Hv HS [Hfs Hs].
  destruct (valid32_inv false mM eM Hv) as (HdM & HeM & Hcan).
  destruct s as [ss|ss| |ss ms es]; try discriminate; [exact I|].
  simpl conv. apply (binary_round_below prec32 emax32 eq_refl true); [lia|..].
  - simpl Zdigits2. rewrite Hcan. lia.
  - unfold prec32, emax32. lia.
  - split; [exact Hcan|].
    change (mag (S754_finite ss ms es)) with (inject_Z (Zpos ms) * pow2 es) in Hs.
    rewrite inject_Z_mult, <- Qmult_assoc.
    rewrite (scaled (2 * Zpos mM + 1) eM (eM - 29)) by lia.
    replace (eM - (eM - 29))%Z with 29%Z by lia.
    set (u := pow2 (eM - 29)) in *. assert (Hu : 0 < u) by apply pow2_pos.
    assert (H2 : inject_Z (2 * S) * u < inject_Z ((2 * Zpos mM + 1) * 2 ^ 29) * u).
    { apply Qmult_lt_r; [exact Hu|]. rewrite <- Zlt_Qlt. lia. }
    rewrite inject_Z_mult in H2. change (inject_Z 2) with 2 in *. lra.
Qed.

(** The feedback of a sample and a history sample of magnitude at most
    [mM * 2 ^ eM], a number of binary32, with a gain in (0, 1]: the two
    products and their sum are rounded in binary64, where they stay
    within four units of the exponent [eM - 29] of that number, and the
    sum is stored as a number of binary32 that is at most that number. *)
Lemma feedback_below (mM : positive) (eM : Z) (x h g : spec_float) :
  valid32 (S754_finite false mM eM) = true →
  finite_sample x → mag x <= inject_Z (Zpos mM) * pow2 eM →
  finite_sample h → mag h <= inject_Z (Zpos mM) * pow2 eM →
  unit_gain g →
  rounds_below prec32 emax32 (Zpos mM) eM
    (conv prec32 emax32
       (SFadd prec64 emax64
          (SFmul prec64 emax64 (conv prec64 emax64 x)
             (SFsub prec64 emax64 (S754_finite false 4503599627370496 (-52)) g))
          (SFmul prec64 emax64 g (conv prec64 emax64 h)))).
Proof.
  intros Hv [Hfx Hvx] Hx [Hfh Hvh] Hh Hg.
  destruct (one_minus_gain g Hg) as (Hfw & Hew & Hwg).
  set (w := SFsub prec64 emax64 (S754_finite false 4503599627370496 (-52)) g) in *.
  clearbody w.
  assert (HG0 : 0 <= mag g) by apply mag_nonneg.
  assert (HW0 : 0 <= mag w) by apply mag_nonneg.
  assert (Ht0 : 0 < pow2 (-52)) by apply pow2_pos.
  destruct (dmul_f2d_at_most mM eM x w Hv Hfx Hvx Hx Hfw Hew) as (A & HA0 & Ha & HAu);
    [lra|].
  rewrite (SFmul_comm prec64 emax64 g).
  destruct (dmul_f2d_at_most mM eM h g Hv Hfh Hvh Hh) as (B & HB0 & Hb & HBu).
  { destruct Hg as (mg & eg & -> & _). reflexivity. }
  { destruct Hg as (mg & eg & -> & Hvg & Hmg). intros s m e [= <- <- <-].
    apply (unit_exponent false mg eg); [exact Hvg|exact Hmg]. }
  { destruct Hg as (mg & eg & -> & _ & Hmg). lra. }
  destruct (valid32_inv false mM eM Hv) as (HdM & HeM & _).
  pose proof (digits2_bound mM) as HmM.
  assert (HmM' : (Zpos mM * 2 ^ 29 ≤ 2 ^ 53 - 2 ^ 29)%Z).
  { assert (Zpos mM < 2 ^ 24)%Z; [|lia].
    eapply Z.lt_le_trans; [exact HmM|]. apply Z.pow_le_mono_r; lia. }
  set (S := (Zpos mM * 2 ^ 29 + 4)%Z).
  assert (HABS : (A + B ≤ S)%Z).
  { rewrite Zle_Qle. unfold S. rewrite !inject_Z_plus.
    set (M' := inject_Z (Zpos mM * 2 ^ 29)) in *.
    assert (HM'0 : 0 <= M') by (unfold M'; rewrite <- (Zle_Qle 0); lia).
    assert (HM'u : M' <= inject_Z (2 ^ 53)) by (unfold M'; rewrite <- Zle_Qle; lia).
    assert (Ht : inject_Z (2 ^ 53) * pow2 (-52) == 2) by (vm_compute; reflexivity).
    change (inject_Z 4) with 4.
    set (t := pow2 (-52)) in *. set (W := mag w) in *. set (G := mag g) in *.
    assert (M' * t <= inject_Z (2 ^ 53) * t) by (apply Qmult_le_compat_r; lra).
    assert (M' * (W + G) <= M' * (1 + t)) by nra.
    lra. }
  apply (d2f_below mM eM S); [exact Hv|unfold S; lia|].
  apply (dadd_at_most mM eM A B S); try done. unfold S. lia.
Qed.

End FeedbackMagnitude.

(** *** Comb: the gain *)

Section CombGain.
Import IEEE.
Local Open Scope Q_scope.

Lemma pow2_le (a b : Z) : (a ≤ b)%Z → pow2 a <= pow2 b.
Proof.
  intros Hab. replace b with (a + (b - a))%Z by lia.
  rewrite pow2_add, (pow2_Z (b - a)) by lia.
  rewrite <- (Qmult_1_r (pow2 a)) at 1.
  apply Qmult_le_l; [apply pow2_pos|].
  rewrite <- (Zle_Qle 1). assert (0 < 2 ^ (b - a))%Z by (apply Z.pow_pos_nonneg; lia). lia.
Qed.

Lemma Qpower_positive_between (a b : Q) (p : positive) :
  0 < a <= b → 0 < Qpower_positive a p <= Qpower_positive b p.
Proof.
  intros Hab. induction p as [|p IH] using Pos.peano_ind.
  - exact Hab.
  - rewrite <- Pos.add_1_r, !Qpower_plus_positive.
    change (Qpower_positive a 1) with a. change (Qpower_positive b 1) with b.
    split; nra.
Qed.

Lemma pow2_half (p : positive) : Qpower_positive (1 # 2) p == pow2 (- Zpos p).
Proof.
  unfold pow2. rewrite Qpower_opp. simpl Qpower.
  change (1 # 2) with (/ 2). apply Qinv_power_positive.
Qed.

(** The magnitude of a power, before it is rounded. *)
Lemma power_mag (m p : positive) (e : Z) :
  inject_Z (Zpos (m ^ p)) * pow2 (e * Zpos p)
  == Qpower_positive (inject_Z (Zpos m) * pow2 e) p.
Proof.
  rewrite Pos2Z.inj_pow, Zpower_Qpower by lia.
  unfold pow2. rewrite Qpower_mult. simpl Qpower.
  rewrite Qmult_power_positive. reflexivity.
Qed.

(** The correctly rounded power of a sharpness in [0.5, 1] with an
    exponent in [1, 100] is a gain in (0, 1]. *)
Lemma pow_rn_unit_gain (sharpness : spec_float) (delay : N) :
  sharpness_in_range sharpness → (1 ≤ delay ≤ 100)%N →
  unit_gain (pow_rn (conv prec64 emax64 sharpness) delay).
Proof.
  intros (m & e & -> & Hv & Hhalf & Hone) Hdelay.
  destruct (f2d_finite false m e Hv) as (k & Hk & Hb).
  change (@f2d arith (S754_finite false m e))
    with (conv prec64 emax64 (S754_finite false m e)) in Hk.
  pose proof (f2d_mag (S754_finite false m e) eq_refl Hv) as Hmag.
  rewrite Hk in Hmag |- *. destruct Hmag as [_ Hmag].
  set (m' := Pos.iter xO m k) in *. set (e' := (e - Zpos k)%Z) in *.
  clearbody m' e'. rewrite Hmag in Hhalf, Hone. clear Hmag Hk.
  destruct delay as [|p]; [lia|].
  unfold pow_rn. cbn [andb].
  set (V := inject_Z (Zpos m') * pow2 e') in *.
  pose proof (power_mag m' p e') as Hpow. fold V in Hpow.
  destruct (Qpower_positive_between (1 # 2) V p) as [_ Hlow]; [split; [reflexivity|done]|].
  destruct (Qpower_positive_between V 1 p) as [Hpos Hhigh]; [split; [lra|done]|].
  rewrite Qpower_positive_1 in Hhigh. rewrite pow2_half in Hlow.
  assert (Hmin : pow2 (emin prec64 emax64) <= pow2 (- Zpos p)).
  { apply pow2_le. unfold emin, prec64, emax64. lia. }
  pose proof (binary_round_positive prec64 emax64 eq_refl false (m' ^ p) (e' * Zpos p))
    as Hnz.
  pose proof (binary_round_below prec64 emax64 eq_refl false false (m' ^ p) (e' * Zpos p)
                (2 ^ 52) (-52)) as Hle.
  destruct (binary_round prec64 emax64 false (m' ^ p) (e' * Zpos p)) as [s|s| |s mr er].
  - exfalso. apply Hnz. rewrite Hpow. lra.
  - exfalso. apply Hle; try done. rewrite Hpow, pow2_52. exact Hhigh.
  - exfalso. apply Hnz. rewrite Hpow. lra.
  - destruct Hle as (Hbr & _ & Hmr); try done.
    { rewrite Hpow, pow2_52. exact Hhigh. }
    rewrite pow2_52 in Hmr.
    assert (s = false) as -> by (apply Hnz; rewrite Hpow; lra).
    exists mr, er. split; [reflexivity|]. split; [exact Hbr|exact Hmr].
Qed.

End CombGain.

(** *** Comb: bounded output *)

Section CombBounded.
Import IEEE.
#[local] Existing Instance IEEE.arith.
Local Open Scope Q_scope.

Lemma positive_mag (s : bool) (m : positive) (e : Z) : 0 < mag (S754_finite s m e).
Proof.
  simpl. apply Qmult_lt_0_compat; [|apply pow2_pos]. rewrite <- (Zlt_Qlt 0). lia.
Qed.

Lemma rounds_below_within (mM : positive) (eM : Z) (M : Q) (y : spec_float) :
  inject_Z (Zpos mM) * pow2 eM <= M →
  rounds_below prec32 emax32 (Zpos mM) eM y → sample_within M y.
Proof.
  intros HM. destruct y as [s|s| |s m e]; simpl; try done.
  - intros _. split; [split; reflexivity|].
    eapply Qle_trans; [|exact HM]. apply bound_nonneg. lia.
  - intros (Hb & _ & Hm). split; [split; [reflexivity|exact Hb]|].
    eapply Qle_trans; [exact Hm|exact HM].
Qed.

(** The feedback of a sample and a history sample of magnitude at most
    [M] is a sample of magnitude at most [M], for every [pow] that gives
    a gain in (0, 1]. *)
Lemma comb_feedback_within (P : @Pow arith) (M : Q) (x sharpness h : spec_float) (d : N) :
  unit_gain (@pow_n arith P (@f2d arith sharpness) d) →
  sample_within M x → sample_within M h →
  sample_within M (@Comb.feedback arith P x sharpness d h).
Proof.
  intros Hg [Hx HxM] [Hh HhM]. unfold Comb.feedback.
  set (g := @pow_n arith P (@f2d arith sharpness) d) in *. clearbody g.
  change (sample_within M
            (conv prec32 emax32
               (SFadd prec64 emax64
                  (SFmul prec64 emax64 (conv prec64 emax64 x)
                     (SFsub prec64 emax64 (S754_finite false 4503599627370496 (-52)) g))
                  (SFmul prec64 emax64 g (conv prec64 emax64 h))))).
  assert (Hbig : ∀ s mM eM,
             valid32 (S754_finite s mM eM) = true →
             mag x <= mag (S754_finite s mM eM) → mag h <= mag (S754_finite s mM eM) →
             mag (S754_finite s mM eM) <= M →
             sample_within M
               (conv prec32 emax32
                  (SFadd prec64 emax64
                     (SFmul prec64 emax64 (conv prec64 emax64 x)
                        (SFsub prec64 emax64 (S754_finite false 4503599627370496 (-52)) g))
                     (SFmul prec64 emax64 g (conv prec64 emax64 h))))).
  { intros s mM eM Hv Hxm Hhm HmM.
    apply (rounds_below_within mM eM); [exact HmM|].
    apply feedback_below; done. }
  destruct x as [sx|sx| |sx mx ex] eqn:Ex; try (destruct Hx; discriminate);
    destruct h as [sh|sh| |sh mh eh] eqn:Eh; try (destruct Hh; discriminate).
  - (* two zeros *)
    destruct (one_minus_gain g Hg) as (Hfw & _ & _).
    destruct Hg as (mg & eg & -> & _).
    destruct (SFsub prec64 emax64 _ _) as [sw|sw| |sw mw ew]; try discriminate.
    + destruct sx, sw, sh; (split; [split; reflexivity|exact HxM]).
    + destruct sx, sw, sh; (split; [split; reflexivity|exact HxM]).
  - apply (Hbig sh mh eh); [apply Hh| |apply Qle_refl|exact HhM].
    apply Qlt_le_weak, positive_mag.
  - apply (Hbig sx mx ex); [apply Hx|apply Qle_refl| |exact HxM].
    apply Qlt_le_weak, positive_mag.
  - destruct (Qlt_le_dec (mag (S754_finite sx mx ex)) (mag (S754_finite sh mh eh)))
      as [Hlt|Hle].
    + apply (Hbig sh mh eh); [apply Hh|apply Qlt_le_weak, Hlt|apply Qle_refl|exact HhM].
    + apply (Hbig sx mx ex); [apply Hx|apply Qle_refl|exact Hle|exact HxM].
Qed.

Lemma comb_bounded_step (P : @Pow arith) (M : Q) (sharpness : spec_float) (d length : N) :
  unit_gain (@pow_n arith P (@f2d arith sharpness) d) →
  @comb_step_ok arith P (sample_within M) (Forall (sample_within M))
    (λ _ x y, ∃ h, sample_within M h ∧ y = @Comb.feedback arith P x sharpness d h
                   ∧ sample_within M y)
    d sharpness length.
Proof.
  intros Hg cells x position h Hinv Hx _ _ Hh.
  assert (HhM : sample_within M h) by (eapply (Forall_lookup_1 _ _ _ _ Hinv Hh)).
  pose proof (comb_feedback_within P M x sharpness h d Hg Hx HhM) as Hy.
  split; [exists h; done|]. apply Forall_insert; done.
Qed.

Lemma comb_bounded_channel_run (P : @Pow arith) (M : Q) (delay sharpness : spec_float)
    input output history position length n :
  unit_gain_pow P →
  (position < length)%N → (length < 2 ^ ULONG_WIDTH)%N →
  comb_bounded_channel M delay sharpness input output history length n →
  ∃ d output' history',
    @uint_of_f arith delay = Some d
    ∧ @Comb.filter_channel arith P input output 0 d sharpness history position length n
      = Some (output', history', comb_cursor position length n)
    ∧ comb_bounded_after P M delay sharpness input output' history' n.
Proof.
  intros HP Hpos Hlen ((d & Hd & Hrange) & Hs & Hready).
  destruct (@comb_channel_rule arith P (sample_within M) (Forall (sample_within M))
              (λ _ x y, ∃ h, sample_within M h
                             ∧ y = @Comb.feedback arith P x sharpness d h
                             ∧ sample_within M y)
              input output history d sharpness position length n Hpos Hlen Hready)
    as (output' & history' & Hrun & Hdone & cells & -> & _ & Hinv).
  { apply comb_bounded_step. apply HP; done. }
  exists d, output', (Live cells). split; [exact Hd|]. split; [exact Hrun|].
  split; [|eexists; done].
  exists d, (@pow_n arith P (@f2d arith sharpness) d).
  split; [exact Hd|]. split; [reflexivity|]. split; [apply HP; done|].
  intros k Hk. destruct (Hdone k Hk) as (x & y & Hxk & Hyk & h & Hh & -> & Hy).
  exists x, h. done.
Qed.


End CombBounded.

Section CombBoundedWitness.
Import IEEE Test.
#[local] Existing Instance IEEE.arith.
#[local] Existing Instance IEEE.pow.
Local Open Scope Q_scope.

Lemma sample_within_one : sample_within 1 one.
Proof. split; [split; reflexivity|]. vm_compute. discriminate. Qed.

Lemma sample_within_zero : sample_within 1 zero.
Proof. split; [split; reflexivity|]. vm_compute. discriminate. Qed.

Lemma comb_test_ready :
  comb_bounded_channel 1 (Comb.delay_control_value_l comb)
    (Comb.sharp_control_value_l comb) (Comb.input_buffer_l comb)
    (Comb.output_buffer_l comb) (Comb.history_l comb) (Comb.history_length comb) 3
  ∧ comb_bounded_channel 1 (Comb.delay_control_value_r comb)
      (Comb.sharp_control_value_r comb) (Comb.input_buffer_r comb)
      (Comb.output_buffer_r comb) (Comb.history_r comb) (Comb.history_length comb) 3.
Proof.
  assert (Hhalf : sharpness_in_range half).
  { exists 8388608%positive, (-24)%Z. split; [reflexivity|]. split; [reflexivity|].
    split; vm_compute; discriminate. }
  split.
  - split; [exists 1%N; split; [reflexivity|lia]|].
    split; [exact Hhalf|].
    split; [simpl; lia|]. split; [simpl; lia|].
    split; [repeat constructor; apply sample_within_one|].
    eexists. split; [reflexivity|]. split; [reflexivity|].
    apply Forall_replicate, sample_within_zero.
  - split; [exists 1%N; split; [reflexivity|lia]|].
    split; [exact Hhalf|].
    split; [simpl; lia|]. split; [simpl; lia|].
    split; [repeat constructor; apply sample_within_one|].
    eexists. split; [reflexivity|]. split; [reflexivity|].
    apply Forall_replicate, sample_within_zero.
Qed.


End CombBoundedWitness.
